(** * Wait-for graphs, deadlock detection and the lock manager

    A shallow embedding of the core of the deadlock-detection simulator:
    the three wait-for-graph (WFG) representations of [wfgDataStructures.js],
    the detectors of [deadlockDetection.js], the graph algorithms of the
    analyzer ([dfsDetectCycle], [selectVictimFromCycle],
    [computeConflictColorsByReachability], [bfsVictimSelection]) and the
    [TransactionManager] of [transactionManager.js].

    Conventions of the embedding.
    - Node, transaction and resource ids are JavaScript strings: [string].
    - A JavaScript object used as a dictionary is an insertion-ordered
      association list ([JSObject]); [Object_keys] lists array-index keys
      first, in ascending numeric order, then the other keys in insertion
      order, as the language prescribes.  Ids are transaction ids: names
      inherited from [Object.prototype] are outside the model.
    - A JavaScript [Set] or [Map] that is iterated is an insertion-ordered
      duplicate-free list; one that is only queried for membership or size
      is a [gset].
    - Recursion that the source leaves to the call stack takes a [fuel]
      argument; every entry point supplies enough fuel and is proved to
      return.
    - The timing instrumentation ([performance.now], [trackOperation],
      [avgTime], [memoryUsage]) is not part of the modelled state. *)

From Stdlib Require Import Ascii String.
From stdpp Require Import gmap strings list fin_maps fin_sets relations sorting.


(** ** JavaScript objects used as dictionaries *)

Definition JSObject (V : Type) := list (string * V).

Fixpoint obj_get {V} (o : JSObject V) (k : string) : option V :=
  match o with
  | [] => None
  | (k', v) :: o' => if decide (k' = k) then Some v else obj_get o' k
  end.

(** [o[k] = v]: an existing key keeps its position, a new key goes last. *)
Fixpoint obj_set {V} (o : JSObject V) (k : string) (v : V) : JSObject V :=
  match o with
  | [] => [(k, v)]
  | (k', v') :: o' =>
      if decide (k' = k) then (k, v) :: o' else (k', v') :: obj_set o' k v
  end.

Definition is_digit (c : ascii) : bool :=
  (48 <=? nat_of_ascii c)%nat && (nat_of_ascii c <=? 57)%nat.

Fixpoint digits_value (acc : N) (s : string) : N :=
  match s with
  | EmptyString => acc
  | String c s' => digits_value (acc * 10 + N.of_nat (nat_of_ascii c - 48)) s'
  end.

Fixpoint all_digits (s : string) : bool :=
  match s with
  | EmptyString => true
  | String c s' => is_digit c && all_digits s'
  end.

(** A property key is an array index when it is the canonical decimal
    numeral of an integer below [2^32 - 1]. *)
Definition array_index (s : string) : option N :=
  match s with
  | EmptyString => None
  | String c s' =>
      if all_digits s && (bool_decide (s' = EmptyString) || negb (Ascii.eqb c "0"%char))
         && (String.length s <=? 10)%nat && (digits_value 0 s <? 4294967295)%N
      then Some (digits_value 0 s) else None
  end.

Definition is_array_index (s : string) : bool :=
  match array_index s with Some _ => true | None => false end.

Fixpoint insert_index (k : string) (l : list string) : list string :=
  match l with
  | [] => [k]
  | k' :: l' =>
      if (default 0%N (array_index k) <=? default 0%N (array_index k'))%N
      then k :: l else k' :: insert_index k l'
  end.

Definition sort_indices (l : list string) : list string :=
  foldr insert_index [] l.

(** [Object.keys(o)]. *)
Definition Object_keys {V} (o : JSObject V) : list string :=
  sort_indices (filter (λ k, is_array_index k = true) (o.*1))
  ++ filter (λ k, is_array_index k = false) (o.*1).

(** [if (!o[k]) o[k] = []] on an object whose values are arrays or sets. *)
Definition ensure_key (k : string) (o : JSObject (list string)) : JSObject (list string) :=
  match obj_get o k with
  | None => obj_set o k []
  | Some _ => o
  end.

(** The operations of a JavaScript [Set] kept in insertion order. *)
Definition set_add (x : string) (s : list string) : list string :=
  if decide (x ∈ s) then s else s ++ [x].

Definition set_delete (x : string) (s : list string) : list string :=
  filter (λ y, y ≠ x) s.

(** ** The WFG interface

    Every algorithm and the lock manager reach the graph through these
    operations only; [createWFG] is the factory of [wfgDataStructures.js]
    at one [dataStructureType]. *)

Class WFG (G : Type) := {
  createWFG : list string → G;
  addEdge : string → string → G → G;
  removeEdge : string → string → G → G;
  hasEdge : G → string → string → bool;
  getNeighbors : G → string → list string;
  getAllEdges : G → list (string * string);
  getNodes : G → list string;
  clear : G → G
}.

(** ** Adjacency list *)

Module AdjacencyListWFG.

Record t := mk { adjacencyList : JSObject (list string) }.

Definition new : t := mk [].

Definition addEdge (from to : string) (g : t) : t :=
  let a1 := ensure_key from (adjacencyList g) in
  let a2 := match obj_get a1 from with
            | Some ns => if decide (to ∈ ns) then a1 else obj_set a1 from (ns ++ [to])
            | None => a1
            end in
  mk (ensure_key to a2).

Definition removeEdge (from to : string) (g : t) : t :=
  match obj_get (adjacencyList g) from with
  | Some ns => mk (obj_set (adjacencyList g) from (filter (λ node, node ≠ to) ns))
  | None => g
  end.

Definition hasEdge (g : t) (from to : string) : bool :=
  match obj_get (adjacencyList g) from with
  | Some ns => bool_decide (to ∈ ns)
  | None => false
  end.

Definition getNeighbors (g : t) (node : string) : list string :=
  default [] (obj_get (adjacencyList g) node).

Definition getAllEdges (g : t) : list (string * string) :=
  flat_map (λ from, (λ to, (from, to)) <$> default [] (obj_get (adjacencyList g) from))
           (Object_keys (adjacencyList g)).

Definition getNodes (g : t) : list string := Object_keys (adjacencyList g).

Definition clear (g : t) : t := mk [].

End AdjacencyListWFG.

#[export] Instance AdjacencyList_WFG : WFG AdjacencyListWFG.t := {
  createWFG := λ _, AdjacencyListWFG.new;
  addEdge := AdjacencyListWFG.addEdge;
  removeEdge := AdjacencyListWFG.removeEdge;
  hasEdge := AdjacencyListWFG.hasEdge;
  getNeighbors := AdjacencyListWFG.getNeighbors;
  getAllEdges := AdjacencyListWFG.getAllEdges;
  getNodes := AdjacencyListWFG.getNodes;
  clear := AdjacencyListWFG.clear
}.

(** ** Hash map of sets

    [adjacencyMap] is a [Map] from a node to the [Set] of its successors;
    both are iterated, so both keep their insertion order. *)

Module HashMapSetsWFG.

Record t := mk { adjacencyMap : list (string * list string) }.

Definition new : t := mk [].

Definition addEdge (from to : string) (g : t) : t :=
  let m1 := ensure_key from (adjacencyMap g) in
  let m2 := match obj_get m1 from with
            | Some s => obj_set m1 from (set_add to s)
            | None => m1
            end in
  mk (ensure_key to m2).

Definition removeEdge (from to : string) (g : t) : t :=
  match obj_get (adjacencyMap g) from with
  | Some s => mk (obj_set (adjacencyMap g) from (set_delete to s))
  | None => g
  end.

Definition hasEdge (g : t) (from to : string) : bool :=
  match obj_get (adjacencyMap g) from with
  | Some s => bool_decide (to ∈ s)
  | None => false
  end.

Definition getNeighbors (g : t) (node : string) : list string :=
  match obj_get (adjacencyMap g) node with
  | Some s => s
  | None => []
  end.

Definition getAllEdges (g : t) : list (string * string) :=
  flat_map (λ e, (λ to, (e.1, to)) <$> e.2) (adjacencyMap g).

Definition getNodes (g : t) : list string := (adjacencyMap g).*1.

Definition clear (g : t) : t := mk [].

End HashMapSetsWFG.

#[export] Instance HashMapSets_WFG : WFG HashMapSetsWFG.t := {
  createWFG := λ _, HashMapSetsWFG.new;
  addEdge := HashMapSetsWFG.addEdge;
  removeEdge := HashMapSetsWFG.removeEdge;
  hasEdge := HashMapSetsWFG.hasEdge;
  getNeighbors := HashMapSetsWFG.getNeighbors;
  getAllEdges := HashMapSetsWFG.getAllEdges;
  getNodes := HashMapSetsWFG.getNodes;
  clear := HashMapSetsWFG.clear
}.

(** ** Adjacency matrix

    [nodes] lists the node ids by matrix index, [nodeIndexMap] is its
    inverse and [matrix] holds one row of 0/1 cells per node.  In every
    state the constructor and the operations produce, each index of
    [nodeIndexMap] is below the size of the square matrix, so the cell
    assignments below are always in range. *)

Module AdjacencyMatrixWFG.

Record t := mk {
  nodes : list string;
  nodeIndexMap : gmap string nat;
  matrix : list (list nat)
}.

(** [initializeMatrix]: a fresh square matrix of zeros; every node is
    (re)entered in the index map, which is not emptied first. *)
Definition initializeMatrix (g : t) : t :=
  let size := length (nodes g) in
  mk (nodes g)
     (foldl (λ m e, <[e.2 := e.1]> m) (nodeIndexMap g) (imap pair (nodes g)))
     (replicate size (replicate size 0)).

Definition new (ns : list string) : t := initializeMatrix (mk ns ∅ []).

Definition addNode (nodeId : string) (g : t) : t :=
  match nodeIndexMap g !! nodeId with
  | Some _ => g
  | None =>
      let newIndex := length (nodes g) in
      let nodes' := nodes g ++ [nodeId] in
      mk nodes'
         (<[nodeId := newIndex]> (nodeIndexMap g))
         (((λ row, row ++ [0]) <$> matrix g) ++ [replicate (length nodes') 0])
  end.

(** [this.matrix[fromIndex][toIndex] = v] *)
Definition set_cell (fromIndex toIndex v : nat) (m : list (list nat)) : list (list nat) :=
  alter (λ row, <[toIndex := v]> row) fromIndex m.

Definition addEdge (from to : string) (g : t) : t :=
  let g1 := match nodeIndexMap g !! from with None => addNode from g | Some _ => g end in
  let g2 := match nodeIndexMap g1 !! to with None => addNode to g1 | Some _ => g1 end in
  match nodeIndexMap g2 !! from, nodeIndexMap g2 !! to with
  | Some fromIndex, Some toIndex =>
      mk (nodes g2) (nodeIndexMap g2) (set_cell fromIndex toIndex 1 (matrix g2))
  | _, _ => g2
  end.

Definition removeEdge (from to : string) (g : t) : t :=
  match nodeIndexMap g !! from, nodeIndexMap g !! to with
  | Some fromIndex, Some toIndex =>
      mk (nodes g) (nodeIndexMap g) (set_cell fromIndex toIndex 0 (matrix g))
  | _, _ => g
  end.

Definition hasEdge (g : t) (from to : string) : bool :=
  match nodeIndexMap g !! from, nodeIndexMap g !! to with
  | Some fromIndex, Some toIndex =>
      bool_decide (matrix g !! fromIndex ≫= (.!! toIndex) = Some 1)
  | _, _ => false
  end.

(** The nodes of the cells of [row] that hold 1, by increasing index. *)
Definition row_neighbors (g : t) (row : list nat) : list string :=
  (filter (λ e, e.1 = 1) (zip row (nodes g))).*2.

Definition getNeighbors (g : t) (node : string) : list string :=
  match nodeIndexMap g !! node with
  | None => []
  | Some fromIndex => row_neighbors g (default [] (matrix g !! fromIndex))
  end.

Definition getAllEdges (g : t) : list (string * string) :=
  flat_map (λ e, (λ to, (e.1, to)) <$> row_neighbors g e.2) (zip (nodes g) (matrix g)).

Definition getNodes (g : t) : list string := nodes g.

Definition clear (g : t) : t := initializeMatrix g.

End AdjacencyMatrixWFG.

#[export] Instance AdjacencyMatrix_WFG : WFG AdjacencyMatrixWFG.t := {
  createWFG := AdjacencyMatrixWFG.new;
  addEdge := AdjacencyMatrixWFG.addEdge;
  removeEdge := AdjacencyMatrixWFG.removeEdge;
  hasEdge := AdjacencyMatrixWFG.hasEdge;
  getNeighbors := AdjacencyMatrixWFG.getNeighbors;
  getAllEdges := AdjacencyMatrixWFG.getAllEdges;
  getNodes := AdjacencyMatrixWFG.getNodes;
  clear := AdjacencyMatrixWFG.clear
}.

(** The operations every representation offers, and a run of them. *)
Inductive wfg_op :=
| AddEdge (from to : string)
| RemoveEdge (from to : string)
| Clear.

Definition apply_op {G} `{WFG G} (g : G) (op : wfg_op) : G :=
  match op with
  | AddEdge from to => addEdge from to g
  | RemoveEdge from to => removeEdge from to g
  | Clear => clear g
  end.

Definition run_ops {G} `{WFG G} (ops : list wfg_op) (g : G) : G :=
  foldl apply_op g ops.

(** ** The transaction manager ([transactionManager.js]) *)

Inductive TxStatus := active | waiting | blocked | aborted.

#[export] Instance TxStatus_eq_dec : EqDecision TxStatus.
Proof. solve_decision. Defined.

Record Transaction := mkTransaction {
  tx_id : string;
  status : TxStatus;
  heldLocks : list string;
  waitingFor : option string
}.

Record Resource := mkResource {
  res_id : string;
  lockedBy : option string;
  waitQueue : list string
}.

Record Metrics := mkMetrics {
  operations : nat;
  conflicts : nat;
  deadlocksDetected : nat
}.

Record TransactionManager (G : Type) := mkManager {
  transactions : list Transaction;
  resources : list Resource;
  wfg : G;
  metrics : Metrics
}.
Arguments mkManager {G}.
Arguments transactions {G}.
Arguments resources {G}.
Arguments wfg {G}.
Arguments metrics {G}.

(** The [message] of a result, by the template that builds it. *)
Inductive Message :=
| MsgInvalidReference
| MsgInvalidTransaction
| MsgTransactionIs (txId : string) (s : TxStatus)
| MsgAlreadyHolds (txId resId : string)
| MsgLockGranted (resId txId : string)
| MsgWaitingFor (resId holderTxId : string)
| MsgDoesNotHold (txId resId : string)
| MsgLockReleased (resId txId : string)
| MsgAborted (txId : string).

(** [{ success, message, updated }]; [abortTransaction] leaves [updated]
    out of its results. *)
Record Result := mkResult {
  success : bool;
  message : Message;
  updated : option bool
}.

#[export] Instance Transaction_eq_dec : EqDecision Transaction.
Proof. solve_decision. Defined.
#[export] Instance Resource_eq_dec : EqDecision Resource.
Proof. solve_decision. Defined.
#[export] Instance Metrics_eq_dec : EqDecision Metrics.
Proof. solve_decision. Defined.
#[export] Instance Message_eq_dec : EqDecision Message.
Proof. solve_decision. Defined.
#[export] Instance Result_eq_dec : EqDecision Result.
Proof. solve_decision. Defined.

(** [this.transactions.find(t => t.id === txId)] and the in-place update of
    the object it returns. *)
Definition find_tx (txs : list Transaction) (txId : string) : option Transaction :=
  list_find (λ t, tx_id t = txId) txs ≫= λ p, Some p.2.

Fixpoint update_tx (txId : string) (f : Transaction → Transaction)
    (txs : list Transaction) : list Transaction :=
  match txs with
  | [] => []
  | t :: txs' =>
      if decide (tx_id t = txId) then f t :: txs' else t :: update_tx txId f txs'
  end.

Definition find_res (rs : list Resource) (resId : string) : option Resource :=
  list_find (λ r, res_id r = resId) rs ≫= λ p, Some p.2.

Fixpoint update_res (resId : string) (f : Resource → Resource)
    (rs : list Resource) : list Resource :=
  match rs with
  | [] => []
  | r :: rs' =>
      if decide (res_id r = resId) then f r :: rs' else r :: update_res resId f rs'
  end.

Definition set_status (s : TxStatus) (t : Transaction) : Transaction :=
  mkTransaction (tx_id t) s (heldLocks t) (waitingFor t).
Definition set_heldLocks (h : list string) (t : Transaction) : Transaction :=
  mkTransaction (tx_id t) (status t) h (waitingFor t).
Definition set_waitingFor (w : option string) (t : Transaction) : Transaction :=
  mkTransaction (tx_id t) (status t) (heldLocks t) w.
Definition set_lockedBy (h : option string) (r : Resource) : Resource :=
  mkResource (res_id r) h (waitQueue r).
Definition set_waitQueue (q : list string) (r : Resource) : Resource :=
  mkResource (res_id r) (lockedBy r) q.

Section Manager.
Context {G : Type} `{WFG G}.

Definition with_txs (f : list Transaction → list Transaction)
    (m : TransactionManager G) : TransactionManager G :=
  mkManager (f (transactions m)) (resources m) (wfg m) (metrics m).
Definition with_ress (f : list Resource → list Resource)
    (m : TransactionManager G) : TransactionManager G :=
  mkManager (transactions m) (f (resources m)) (wfg m) (metrics m).
Definition with_wfg (f : G → G) (m : TransactionManager G) : TransactionManager G :=
  mkManager (transactions m) (resources m) (f (wfg m)) (metrics m).
Definition with_metrics (f : Metrics → Metrics)
    (m : TransactionManager G) : TransactionManager G :=
  mkManager (transactions m) (resources m) (wfg m) (f (metrics m)).

(** [x || null] on a field that holds an id or [null]: the empty string is
    falsy and becomes [null]. *)
Definition or_null (x : option string) : option string :=
  match x with
  | Some s => if decide (s = EmptyString) then None else Some s
  | None => None
  end.

(** The constructor: every transaction and resource is copied with its
    falsy fields replaced by their defaults ([waitingFor || null],
    [lockedBy || null]; a status and the arrays [heldLocks] and [waitQueue]
    are never falsy here), and the factory builds the WFG from the
    transaction ids. *)
Definition newManager (txs : list Transaction) (ress : list Resource)
    : TransactionManager G :=
  let transactions :=
    (λ tx, mkTransaction (tx_id tx) (status tx) (heldLocks tx) (or_null (waitingFor tx)))
      <$> txs in
  let resources :=
    (λ res, mkResource (res_id res) (or_null (lockedBy res)) (waitQueue res)) <$> ress in
  mkManager transactions resources (createWFG (tx_id <$> transactions))
            (mkMetrics 0 0 0).

(** [removeWaitEdges]: the successors are read once, then removed one by
    one. *)
Definition removeWaitEdges (txId : string) (g : G) : G :=
  foldl (λ g neighbor, removeEdge txId neighbor g) g (getNeighbors g txId).

(** [removeWaitEdgesForResource]: its body is empty. *)
Definition removeWaitEdgesForResource (resId : string) (g : G) : G := g.

Definition updateMetrics (m : Metrics) : Metrics :=
  mkMetrics (S (operations m)) (conflicts m) (deadlocksDetected m).

Definition acquireLock (m : TransactionManager G) (txId resId : string)
    : TransactionManager G * Result :=
  match find_tx (transactions m) txId, find_res (resources m) resId with
  | Some tx, Some res =>
      if bool_decide (status tx ≠ active ∧ status tx ≠ waiting) then
        (m, mkResult false (MsgTransactionIs txId (status tx)) (Some false))
      else if bool_decide (resId ∈ heldLocks tx) then
        (m, mkResult true (MsgAlreadyHolds txId resId) (Some false))
      else
        match lockedBy res with
        | None =>
            let m := with_ress (update_res resId (set_lockedBy (Some txId))) m in
            let m := with_txs (update_tx txId (λ t,
                       set_waitingFor None (set_status active
                         (set_heldLocks (heldLocks t ++ [resId]) t)))) m in
            let m := with_wfg (removeWaitEdges txId) m in
            let m := with_metrics updateMetrics m in
            (m, mkResult true (MsgLockGranted resId txId) (Some true))
        | Some holderTxId =>
            let m := with_ress (update_res resId (λ r,
                       if decide (txId ∈ waitQueue r) then r
                       else set_waitQueue (waitQueue r ++ [txId]) r)) m in
            let m := with_txs (update_tx txId (λ t,
                       set_status waiting (set_waitingFor (Some resId) t))) m in
            let m := with_wfg (addEdge txId holderTxId) m in
            let m := with_metrics (λ c,
                       mkMetrics (operations c) (S (conflicts c)) (deadlocksDetected c)) m in
            let m := with_metrics updateMetrics m in
            (m, mkResult false (MsgWaitingFor resId holderTxId) (Some true))
        end
  | _, _ => (m, mkResult false MsgInvalidReference (Some false))
  end.

(** The grant to the next waiter inside [releaseLock]; [rest] is the wait
    queue after the [shift]. *)
Definition promote (resId nextTxId : string) (rest : list string)
    (m : TransactionManager G) : TransactionManager G :=
  match find_tx (transactions m) nextTxId with
  | Some _ =>
      let m := with_ress (update_res resId (set_lockedBy (Some nextTxId))) m in
      let m := with_txs (update_tx nextTxId (λ t,
                 set_waitingFor None (set_status active
                   (set_heldLocks (heldLocks t ++ [resId]) t)))) m in
      let m := with_wfg (removeWaitEdges nextTxId) m in
      with_wfg (λ g, foldl (λ g waiterId, addEdge waiterId nextTxId g) g rest) m
  | None => m
  end.

Definition releaseLock (m : TransactionManager G) (txId resId : string)
    : TransactionManager G * Result :=
  match find_tx (transactions m) txId, find_res (resources m) resId with
  | Some tx, Some res =>
      if bool_decide (lockedBy res ≠ Some txId) then
        (m, mkResult false (MsgDoesNotHold txId resId) (Some false))
      else
        let m := with_ress (update_res resId (set_lockedBy None)) m in
        let m := with_txs (update_tx txId (λ t,
                   set_heldLocks (filter (λ id, id ≠ resId) (heldLocks t)) t)) m in
        let m := with_wfg (removeWaitEdgesForResource resId) m in
        let m := match waitQueue res with
                 | [] => m
                 | nextTxId :: rest =>
                     let m := with_ress (update_res resId (set_waitQueue rest)) m in
                     promote resId nextTxId rest m
                 end in
        let m := with_metrics updateMetrics m in
        (m, mkResult true (MsgLockReleased resId txId) (Some true))
  | _, _ => (m, mkResult false MsgInvalidReference (Some false))
  end.

Definition abortTransaction (m : TransactionManager G) (txId : string)
    : TransactionManager G * Result :=
  match find_tx (transactions m) txId with
  | None => (m, mkResult false MsgInvalidTransaction None)
  | Some tx =>
      let m := with_txs (update_tx txId (set_status aborted)) m in
      let m := foldl (λ m resId, (releaseLock m txId resId).1) m (heldLocks tx) in
      let m := with_txs (update_tx txId (set_heldLocks [])) m in
      let m := with_ress (fmap (λ r,
                 set_waitQueue (filter (λ id, id ≠ txId) (waitQueue r)) r)) m in
      let m := with_txs (update_tx txId (set_waitingFor None)) m in
      let m := with_wfg (λ g, foldl (λ g node, removeEdge node txId g) g (getNodes g)) m in
      let m := with_wfg (removeWaitEdges txId) m in
      (m, mkResult true (MsgAborted txId) None)
  end.

End Manager.

(** ** Cycle detection by depth-first search ([deadlockDetection.js]) *)

(** [l.indexOf(x)]; [None] stands for [-1]. *)
Definition indexOf (x : string) (l : list string) : option nat :=
  fst <$> list_find (λ y, y = x) l.

(** [l.slice(start)] at the result of an [indexOf]: [slice(-1)] keeps the
    last element. *)
Definition slice_from (start : option nat) (l : list string) : list string :=
  match start with
  | Some i => drop i l
  | None => drop (length l - 1) l
  end.

(** [l.slice(0, -1)] *)
Definition drop_last (l : list string) : list string := take (length l - 1) l.

Record DetectState := mkDetect {
  visited : gset string;
  recStack : gset string;
  cycles : list (list string)
}.

Record DetectResult := mkDetectResult {
  hasCycle : bool;
  result_cycles : list (list string);
  visitedNodes : nat
}.

Definition isCycleDuplicate (existingCycles : list (list string))
    (newCycle : list string) : bool :=
  let newCycleSet : gset string := list_to_set (drop_last newCycle) in
  existsb (λ cycle,
      let cycleSet : gset string := list_to_set (drop_last cycle) in
      bool_decide (size newCycleSet = size cycleSet ∧ newCycleSet ⊆ cycleSet))
    existingCycles.

Section Detect.
Context {G : Type} `{WFG G} (g : G).

(** The loop over the successors of [node] inside [dfs]; [rec] is the
    recursive call.  [path] already ends in [node]. *)
Fixpoint dfs_neighbors
    (rec : string → list string → DetectState → option (bool * DetectState))
    (node : string) (path : list string) (neighbors : list string)
    (st : DetectState) : option (bool * DetectState) :=
  match neighbors with
  | [] => Some (false, mkDetect (visited st) (recStack st ∖ {[node]}) (cycles st))
  | neighbor :: rest =>
      if decide (neighbor ∉ visited st) then
        match rec neighbor path st with
        | None => None
        | Some (true, st') => Some (true, st')
        | Some (false, st') => dfs_neighbors rec node path rest st'
        end
      else if decide (neighbor ∈ recStack st) then
        let cycle := slice_from (indexOf neighbor path) path ++ [neighbor] in
        Some (true,
              if isCycleDuplicate (cycles st) cycle then st
              else mkDetect (visited st) (recStack st) (cycles st ++ [cycle]))
      else dfs_neighbors rec node path rest st
  end.

(** The helper [dfs(node, path)]; the map [pathMap] it also fills is never
    read and is left out. *)
Fixpoint dfs (fuel : nat) (node : string) (path : list string)
    (st : DetectState) : option (bool * DetectState) :=
  match fuel with
  | 0 => None
  | S fuel' =>
      let st1 := mkDetect ({[node]} ∪ visited st) ({[node]} ∪ recStack st) (cycles st) in
      dfs_neighbors (dfs fuel') node (path ++ [node]) (getNeighbors g node) st1
  end.

(** The loop over [getNodes()]: the result of each [dfs] run is dropped. *)
Fixpoint detect_roots (fuel : nat) (nodes : list string) (st : DetectState)
    : option DetectState :=
  match nodes with
  | [] => Some st
  | node :: rest =>
      if decide (node ∉ visited st) then
        match dfs fuel node [] st with
        | None => None
        | Some (_, st') => detect_roots fuel rest st'
        end
      else detect_roots fuel rest st
  end.

Definition detectDeadlock : option DetectResult :=
  let nodes := getNodes g in
  st ← detect_roots (length nodes) nodes (mkDetect ∅ ∅ []);
  Some (mkDetectResult (bool_decide (0 < length (cycles st)))
                       (cycles st) (size (visited st))).

(** ** Tarjan's algorithm ([detectDeadlockTarjan]) *)

(** [stack] is kept with its top first. *)
Record TarjanState := mkTarjan {
  indices : gmap string nat;
  lowLinks : gmap string nat;
  onStack : gset string;
  stack : list string;
  sccs : list (list string);
  index : nat
}.

Record TarjanResult := mkTarjanResult {
  result_sccs : list (list string);
  deadlocks : list (list string);
  hasDeadlock : bool
}.

Definition low (st : TarjanState) (node : string) : nat :=
  default 0 (lowLinks st !! node).
Definition idx (st : TarjanState) (node : string) : nat :=
  default 0 (indices st !! node).

Definition set_lowLink (node : string) (v : nat) (st : TarjanState) : TarjanState :=
  mkTarjan (indices st) (<[node := v]> (lowLinks st)) (onStack st) (stack st)
           (sccs st) (index st).

(** The [do ... while (w !== node)] loop: pops the stack into [scc] down to
    [node]; on a stack without [node] the source never leaves the loop. *)
Fixpoint pop_scc (node : string) (stack : list string) (onStack : gset string)
    (scc : list string) : option (list string * gset string * list string) :=
  match stack with
  | [] => None
  | w :: stack' =>
      if decide (w = node) then Some (stack', onStack ∖ {[w]}, scc ++ [w])
      else pop_scc node stack' (onStack ∖ {[w]}) (scc ++ [w])
  end.

Fixpoint tarjan_neighbors
    (rec : string → TarjanState → option TarjanState)
    (node : string) (neighbors : list string) (st : TarjanState)
    : option TarjanState :=
  match neighbors with
  | [] => Some st
  | neighbor :: rest =>
      if decide (indices st !! neighbor = None) then
        st' ← rec neighbor st;
        tarjan_neighbors rec node rest
          (set_lowLink node (low st' node `min` low st' neighbor) st')
      else if decide (neighbor ∈ onStack st) then
        tarjan_neighbors rec node rest
          (set_lowLink node (low st node `min` idx st neighbor) st)
      else tarjan_neighbors rec node rest st
  end.

Fixpoint strongConnect (fuel : nat) (node : string) (st : TarjanState)
    : option TarjanState :=
  match fuel with
  | 0 => None
  | S fuel' =>
      let st1 := mkTarjan (<[node := index st]> (indices st))
                          (<[node := index st]> (lowLinks st))
                          ({[node]} ∪ onStack st) (node :: stack st)
                          (sccs st) (S (index st)) in
      st2 ← tarjan_neighbors (strongConnect fuel') node (getNeighbors g node) st1;
      if decide (low st2 node = idx st2 node) then
        '(stack', onStack', scc) ← pop_scc node (stack st2) (onStack st2) [];
        Some (mkTarjan (indices st2) (lowLinks st2) onStack' stack'
                       (sccs st2 ++ [scc]) (index st2))
      else Some st2
  end.

Fixpoint tarjan_roots (fuel : nat) (nodes : list string) (st : TarjanState)
    : option TarjanState :=
  match nodes with
  | [] => Some st
  | node :: rest =>
      if decide (indices st !! node = None) then
        st' ← strongConnect fuel node st;
        tarjan_roots fuel rest st'
      else tarjan_roots fuel rest st
  end.

Definition detectDeadlockTarjan : option TarjanResult :=
  let nodes := getNodes g in
  st ← tarjan_roots (length nodes) nodes (mkTarjan ∅ ∅ ∅ [] [] 0);
  let deadlocks := filter (λ scc, 1 < length scc) (sccs st) in
  Some (mkTarjanResult (sccs st) deadlocks (bool_decide (0 < length deadlocks))).

End Detect.

(** ** The analyzer's algorithms: [dfsDetectCycle] with its trace *)

Inductive TraceEvent :=
| EvVisit (node : string) (path : list string)
| EvEdge (from to : string)
| EvCycle (cycle : list string)
| EvBacktrack (node : string).

Record CycleState := mkCycleState {
  cs_visited : gset string;
  cs_recStack : gset string;
  trace : list TraceEvent;
  cycleFound : option (list string)
}.

Record CycleResult := mkCycleResult {
  cycle : option (list string);
  result_trace : list TraceEvent;
  visitedCount : nat
}.

(** [trace.find(t => t.type === 'visit' && t.node === cur)?.path || []] *)
Fixpoint visit_path (tr : list TraceEvent) (cur : string) : list string :=
  match tr with
  | [] => []
  | EvVisit node path :: tr' => if decide (node = cur) then path else visit_path tr' cur
  | _ :: tr' => visit_path tr' cur
  end.

(** [p.slice(-2, -1)[0] || null]: the element before the last one; the empty
    string is falsy and becomes [null] too. *)
Definition before_last (p : list string) : option string :=
  match (if decide (2 ≤ length p) then p !! (length p - 2) else None) with
  | Some x => if decide (x = EmptyString) then None else Some x
  | None => None
  end.

(** The [while (cur !== neighbor && cur != null)] loop that walks the parents
    recorded in the trace. *)
Fixpoint walk_parents (fuel : nat) (tr : list TraceEvent) (neighbor : string)
    (cur : option string) (cycle : list string) : option (list string) :=
  match cur with
  | None => Some cycle
  | Some c =>
      if decide (c = neighbor) then Some cycle
      else match fuel with
           | 0 => None
           | S fuel' =>
               walk_parents fuel' tr neighbor (before_last (visit_path tr c)) (cycle ++ [c])
           end
  end.

Section Analyzer.
Context {G : Type} `{WFG G} (g : G).

Fixpoint dfsVisit_neighbors
    (rec : string → list string → CycleState → option (option (list string) * CycleState))
    (node : string) (path : list string) (neighbors : list string)
    (st : CycleState) : option (option (list string) * CycleState) :=
  match neighbors with
  | [] =>
      Some (None, mkCycleState (cs_visited st) (cs_recStack st ∖ {[node]})
                    (trace st ++ [EvBacktrack node]) (cycleFound st))
  | neighbor :: rest =>
      let st := mkCycleState (cs_visited st) (cs_recStack st)
                  (trace st ++ [EvEdge node neighbor]) (cycleFound st) in
      if decide (neighbor ∉ cs_visited st) then
        match rec neighbor (path ++ [node]) st with
        | None => None
        | Some (Some result, st') => Some (Some result, st')
        | Some (None, st') => dfsVisit_neighbors rec node path rest st'
        end
      else if decide (neighbor ∈ cs_recStack st) then
        match walk_parents (length (trace st)) (trace st) neighbor (Some node) [neighbor] with
        | None => None
        | Some cycle =>
            if decide (length cycle < 2) then
              let fallback := path ++ [node; neighbor] in
              Some (Some fallback,
                    mkCycleState (cs_visited st) (cs_recStack st)
                      (trace st ++ [EvCycle fallback]) (Some fallback))
            else
              let cycle := reverse (cycle ++ [neighbor]) in
              Some (Some cycle,
                    mkCycleState (cs_visited st) (cs_recStack st)
                      (trace st ++ [EvCycle cycle]) (Some cycle))
        end
      else dfsVisit_neighbors rec node path rest st
  end.

Fixpoint dfsVisit (fuel : nat) (node : string) (path : list string)
    (st : CycleState) : option (option (list string) * CycleState) :=
  match fuel with
  | 0 => None
  | S fuel' =>
      let st1 := mkCycleState ({[node]} ∪ cs_visited st) ({[node]} ∪ cs_recStack st)
                   (trace st ++ [EvVisit node (path ++ [node])]) (cycleFound st) in
      dfsVisit_neighbors (dfsVisit fuel') node path (getNeighbors g node) st1
  end.

(** The loop over [getNodes()], left at the first cycle. *)
Fixpoint cycle_roots (fuel : nat) (nodes : list string) (st : CycleState)
    : option CycleState :=
  match nodes with
  | [] => Some st
  | node :: rest =>
      if decide (node ∉ cs_visited st) then
        match dfsVisit fuel node [] st with
        | None => None
        | Some (Some _, st') => Some st'
        | Some (None, st') => cycle_roots fuel rest st'
        end
      else cycle_roots fuel rest st
  end.

Definition dfsDetectCycle : option CycleResult :=
  let nodes := getNodes g in
  st ← cycle_roots (length nodes) nodes (mkCycleState ∅ ∅ [] None);
  Some (mkCycleResult (cycleFound st) (trace st) (size (cs_visited st))).

(** ** Victim selection *)

(** Twice the score [outDeg + inDeg * 0.5], to stay in [Z]. *)
Definition degree_score2 (node : string) : Z :=
  let outDeg := length (getNeighbors g node) in
  let inDeg := length (filter (λ n, node ∈ getNeighbors g n) (getNodes g)) in
  (2 * Z.of_nat outDeg + Z.of_nat inDeg)%Z.

(** [selectVictimFromCycle(wfg, cycle)]; [bestScore] starts at [-1], kept
    doubled like the scores. *)
Definition selectVictimFromCycle (cycle : option (list string)) : option string :=
  match cycle with
  | None | Some [] => None
  | Some ((first :: _) as cycle) =>
      Some (foldl (λ '(victim, bestScore) node,
               let score := degree_score2 node in
               if decide (bestScore < score)%Z then (node, score)
               else (victim, bestScore))
             (first, (-2)%Z) cycle).1
  end.

(** The state of the breadth-first search inside [bfsSum]. *)
Record BfsState := mkBfs {
  q : list string;
  seen : gset string;
  dist : JSObject nat
}.

Definition bfs_visit (cur : string) (st : BfsState) (nb : string) : BfsState :=
  if decide (nb ∉ seen st) then
    mkBfs (q st ++ [nb]) ({[nb]} ∪ seen st)
          (obj_set (dist st) nb (default 0 (obj_get (dist st) cur) + 1))
  else st.

(** [while (idx < q.length)] *)
Fixpoint bfs_loop (fuel : nat) (i : nat) (st : BfsState) : option BfsState :=
  match q st !! i with
  | None => Some st
  | Some cur =>
      match fuel with
      | 0 => None
      | S fuel' => bfs_loop fuel' (S i) (foldl (bfs_visit cur) st (getNeighbors g cur))
      end
  end.

(** [Object.values(dist).reduce((a, b) => a + b, 0)] *)
Definition bfsSum (start : string) : option nat :=
  st ← bfs_loop (S (length (getNodes g))) 0
         (mkBfs [start] {[start]} [(start, 0)]);
  Some (foldl Nat.add 0 (dist st).*2).

(** [score > bestScore], where [bestScore = None] is [-Infinity]. *)
Definition above (score : nat) (bestScore : option nat) : bool :=
  match bestScore with
  | None => true
  | Some b => bool_decide (b < score)
  end.

(** The scoring loop of [bfsVictimSelection]. *)
Fixpoint bfs_best (cycle : list string) (best : option string)
    (bestScore : option nat) : option (option string) :=
  match cycle with
  | [] => Some best
  | node :: rest =>
      score ← bfsSum node;
      if above score bestScore
      then bfs_best rest (Some node) (Some score)
      else bfs_best rest best bestScore
  end.

Record BfsVictim := mkBfsVictim {
  victim : option string;
  victim_cycle : option (list string)
}.

Definition bfsVictimSelection : option BfsVictim :=
  cycleResult ← dfsDetectCycle;
  match cycle cycleResult with
  | None | Some [] => Some (mkBfsVictim None None)
  | Some c =>
      best ← bfs_best c None None;
      let best := match best with
                  | Some b => if decide (b = EmptyString)
                              then selectVictimFromCycle (Some c) else Some b
                  | None => selectVictimFromCycle (Some c)
                  end in
      Some (mkBfsVictim best (Some c))
  end.


End Analyzer.

(** ** Conflict colouring by reachability
    ([computeConflictColorsByReachability]) *)

Definition Object_entries {V} (o : JSObject V) : list (string * V) :=
  omap (λ k, pair k <$> obj_get o k) (Object_keys o).

(** [while (used.has(c)) c++] *)
Fixpoint next_color (fuel : nat) (c : nat) (used : gset nat) : option nat :=
  if decide (c ∈ used) then
    match fuel with
    | 0 => None
    | S fuel' => next_color fuel' (S c) used
    end
  else Some c.

Section Coloring.
Context {G : Type} `{WFG G} (g : G).

(** The queue, the set [seen] and the set [reach[n]] being filled. *)
Record ReachState := mkReach {
  reach_q : list string;
  reach_seen : gset string;
  reach_set : gset string
}.

Definition reach_visit (st : ReachState) (nb : string) : ReachState :=
  if decide (nb ∉ reach_seen st) then
    mkReach (reach_q st ++ [nb]) ({[nb]} ∪ reach_seen st) ({[nb]} ∪ reach_set st)
  else st.

(** [while (q.length) { const cur = q.shift(); ... }] *)
Fixpoint reach_loop (fuel : nat) (st : ReachState) : option ReachState :=
  match reach_q st with
  | [] => Some st
  | cur :: q' =>
      match fuel with
      | 0 => None
      | S fuel' =>
          reach_loop fuel'
            (foldl reach_visit (mkReach q' (reach_seen st) (reach_set st))
                   (getNeighbors g cur))
      end
  end.

Definition reach_from (n : string) : option (gset string) :=
  st ← reach_loop (S (length (getNodes g))) (mkReach [n] {[n]} ∅);
  Some (reach_set st).

Definition compute_reach (nodes : list string) : option (gmap string (gset string)) :=
  foldl (λ acc n, reach ← acc; r ← reach_from n; Some (<[n := r]> reach))
        (Some ∅) nodes.

Definition reaches (reach : gmap string (gset string)) (a b : string) : bool :=
  bool_decide (b ∈ default ∅ (reach !! a)).

Definition add_conflict (a b : string) (adj : gmap string (gset string))
    : gmap string (gset string) :=
  alter (λ s, {[b]} ∪ s) a adj.

Definition compute_conflictAdj (nodes : list string)
    (reach : gmap string (gset string)) : gmap string (gset string) :=
  let adj0 := foldl (λ adj a, <[a := ∅]> adj) ∅ nodes in
  foldl (λ adj a,
      foldl (λ adj b,
          if decide (a = b) then adj
          else if reaches reach a b || reaches reach b a
               then add_conflict b a (add_conflict a b adj)
               else adj)
        adj nodes)
    adj0 nodes.

(** The colours already given to the conflict neighbours of a node. *)
Definition used_colors (conflictAdj : gmap string (gset string))
    (colors : JSObject nat) (node : string) : gset nat :=
  list_to_set (omap (obj_get colors) (elements (default ∅ (conflictAdj !! node)))).

Definition greedy_colors (nodes : list string)
    (conflictAdj : gmap string (gset string)) : option (JSObject nat) :=
  foldl (λ acc node,
      colors ← acc;
      let used := used_colors conflictAdj colors node in
      c ← next_color (size used) 0 used;
      Some (obj_set colors node c))
    (Some []) nodes.

Definition color_groups (colors : JSObject nat) : gmap nat (list string) :=
  foldl (λ groups e, <[e.2 := default [] (groups !! e.2) ++ [e.1]]> groups)
        ∅ (Object_entries colors).

Record ColoringResult := mkColoring {
  colors : JSObject nat;
  groups : gmap nat (list string);
  conflictAdj : gmap string (gset string)
}.

Definition computeConflictColorsByReachability : option ColoringResult :=
  let nodes := getNodes g in
  reach ← compute_reach nodes;
  let conflictAdj := compute_conflictAdj nodes reach in
  colors ← greedy_colors nodes conflictAdj;
  Some (mkColoring colors (color_groups colors) conflictAdj).

(** The wrapper [greedyVertexColoring]: [chromaticNumber] counts the
    groups. *)
Definition chromaticNumber (r : ColoringResult) : nat := size (groups r).

End Coloring.

(** ** [selectVictim] of [deadlockDetection.js]: the youngest transaction *)

Inductive SelectedVictim :=
| VictimNull
| VictimUndefined
| VictimRecord (id : string) (tx : option Transaction).

Fixpoint leading_digits (s : string) : string :=
  match s with
  | EmptyString => EmptyString
  | String c s' => if is_digit c then String c (leading_digits s') else EmptyString
  end.

(** [parseInt(id.substring(1))] on ids made of one letter and a decimal
    numeral: the value of the leading digits; [None] is [NaN].  A sign,
    leading blanks, a [0x] prefix and the rounding of values above [2^53] are
    outside this model: what is proved about the order of the candidates is
    stated for ids of that form, where the model is exact. *)
Definition parseInt_suffix (id : string) : option N :=
  let digits := leading_digits (match id with EmptyString => EmptyString | String _ s => s end) in
  match digits with
  | EmptyString => None
  | _ => Some (digits_value 0 digits)
  end.

(** [numA - numB > 0]; a [NaN] difference orders nothing. *)
Definition sorts_after (a b : string) : bool :=
  match parseInt_suffix a, parseInt_suffix b with
  | Some x, Some y => (y <? x)%N
  | _, _ => false
  end.

Fixpoint insert_victim (v : string * option Transaction)
    (l : list (string * option Transaction)) : list (string * option Transaction) :=
  match l with
  | [] => [v]
  | w :: l' => if sorts_after w.1 v.1 then v :: l else w :: insert_victim v l'
  end.

(** [Array.prototype.sort] is stable: with a comparator that is a
    consistent order, as [numA - numB] is on ids with a numeral, the result
    is the one insertion from the left gives.  With [NaN] differences the
    arrangement is the engine's own; of such a run only that the result
    rearranges the input carries over. *)
Definition sort_victims (l : list (string * option Transaction))
    : list (string * option Transaction) :=
  foldl (λ acc v, insert_victim v acc) [] l.

Definition selectVictim (cycle : option (list string)) (txs : list Transaction)
    : SelectedVictim :=
  match cycle with
  | None | Some [] => VictimNull
  | Some cycle =>
      let cycleNodes := drop_last cycle in
      let victims := (λ nodeId, (nodeId, find_tx txs nodeId)) <$> cycleNodes in
      match last (sort_victims victims) with
      | Some v => VictimRecord v.1 v.2
      | None => VictimUndefined
      end
  end.

Section ManagerDetect.
Context {G : Type} `{WFG G}.

(** [TransactionManager.detectDeadlock] *)
Definition Manager_detectDeadlock (m : TransactionManager G)
    : option (TransactionManager G * DetectResult) :=
  result ← detectDeadlock (wfg m);
  Some (if hasCycle result
        then with_metrics (λ c, mkMetrics (operations c) (conflicts c)
               (deadlocksDetected c + length (result_cycles result))) m
        else m,
        result).

(** The calls a driver issues, and the step they make. *)
Inductive Call :=
| Acquire (txId resId : string)
| Release (txId resId : string)
| Abort (txId : string).

Definition perform (m : TransactionManager G) (c : Call)
    : TransactionManager G * Result :=
  match c with
  | Acquire txId resId => acquireLock m txId resId
  | Release txId resId => releaseLock m txId resId
  | Abort txId => abortTransaction m txId
  end.

Definition run_calls (m : TransactionManager G) (cs : list Call)
    : TransactionManager G :=
  foldl (λ m c, (perform m c).1) m cs.

End ManagerDetect.

(** ** What every representation guarantees

    [wfg_ok] is the representation invariant of a WFG; the laws say what
    [addEdge] and [removeEdge] do to the two observers the algorithms use. *)

Class WFGLaws (G : Type) `{WFG G} := {
  wfg_ok : G → Prop;
  wfg_ok_create ns : NoDup ns → wfg_ok (createWFG ns);
  wfg_ok_addEdge a b g : wfg_ok g → wfg_ok (addEdge a b g);
  wfg_ok_removeEdge a b g : wfg_ok g → wfg_ok (removeEdge a b g);
  wfg_ok_clear g : wfg_ok g → wfg_ok (clear g);
  wfg_targets g u v : wfg_ok g → v ∈ getNeighbors g u → v ∈ getNodes g;
  wfg_sources g u v : wfg_ok g → v ∈ getNeighbors g u → u ∈ getNodes g;
  wfg_nodes_NoDup g : wfg_ok g → NoDup (getNodes g);
  wfg_neighbors_NoDup g u : wfg_ok g → NoDup (getNeighbors g u);
  wfg_edge_addEdge a b g u v :
    wfg_ok g →
    v ∈ getNeighbors (addEdge a b g) u ↔ v ∈ getNeighbors g u ∨ (u = a ∧ v = b);
  wfg_edge_removeEdge a b g u v :
    wfg_ok g →
    v ∈ getNeighbors (removeEdge a b g) u ↔ v ∈ getNeighbors g u ∧ ¬ (u = a ∧ v = b);
  wfg_nodes_addEdge a b g x :
    wfg_ok g →
    x ∈ getNodes (addEdge a b g) ↔ x ∈ getNodes g ∨ x = a ∨ x = b;
  wfg_nodes_removeEdge a b g :
    wfg_ok g → getNodes (removeEdge a b g) = getNodes g
}.

(** ** The directed graph a WFG presents

    The graph of a WFG is the one its observers show: [u] has an edge to [v]
    when [v] occurs in [getNeighbors u]. *)

Section GraphNotions.
Context {G : Type} `{WFG G} (g : G).

Definition edge (u v : string) : Prop := v ∈ getNeighbors g u.

(** Every successor is a node of the graph; all three representations keep
    this (see [closed_AdjacencyList] and its siblings). *)
Definition closed : Prop := ∀ u v, edge u v → v ∈ getNodes g.

Definition reachable (u v : string) : Prop := rtc edge u v.

Definition cyclic : Prop := ∃ v, tc edge v v.
Definition acyclic : Prop := ∀ v, ¬ tc edge v v.

(** A set of finished nodes: closed under successors and free of cycles. *)
Definition finished (B : gset string) : Prop :=
  (∀ u v, u ∈ B → edge u v → v ∈ B) ∧ (∀ u, u ∈ B → ¬ tc edge u u).

(** The control skeleton shared by [dfs] and [dfsVisit]: which nodes are
    visited, which are on the recursion stack, and whether a back edge was
    met.  It is a device of the proofs, not part of the program. *)
Fixpoint skeleton_neighbors
    (rec : string → gset string → gset string → option (bool * gset string * gset string))
    (node : string) (neighbors : list string) (V R : gset string)
    : option (bool * gset string * gset string) :=
  match neighbors with
  | [] => Some (false, V, R ∖ {[node]})
  | neighbor :: rest =>
      if decide (neighbor ∉ V) then
        match rec neighbor V R with
        | None => None
        | Some (true, V', R') => Some (true, V', R')
        | Some (false, V', R') => skeleton_neighbors rec node rest V' R'
        end
      else if decide (neighbor ∈ R) then Some (true, V, R)
      else skeleton_neighbors rec node rest V R
  end.

Fixpoint skeleton (fuel : nat) (node : string) (V R : gset string)
    : option (bool * gset string * gset string) :=
  match fuel with
  | 0 => None
  | S fuel' =>
      skeleton_neighbors (skeleton fuel') node (getNeighbors g node)
        ({[node]} ∪ V) ({[node]} ∪ R)
  end.

End GraphNotions.

(** The node ids an operation mentions. *)
Definition op_ids (op : wfg_op) : list string :=
  match op with
  | AddEdge from to | RemoveEdge from to => [from; to]
  | Clear => []
  end.

(** No node id of the run is an array-index key. *)
Definition plain_ids (ops : list wfg_op) : Prop :=
  Forall (λ id, is_array_index id = false) (ops ≫= op_ids).

Definition no_clear (ops : list wfg_op) : Prop := Forall (λ op, op ≠ Clear) ops.

(** ** Cycle utilities and graph analysis ([deadlockDetection.js]) *)

(** [getShortestCycle]: [reduce] without an initial value starts from the
    first cycle and replaces it only by a strictly shorter one; [None] is
    [null]. *)
Definition getShortestCycle (cycles : list (list string)) : option (list string) :=
  match cycles with
  | [] => None
  | first :: rest =>
      Some (foldl (λ shortest current,
                     if decide (length current < length shortest) then current
                     else shortest)
                  first rest)
  end.

(** [getDeadlockedTransactions]: the [Set] is read back in insertion order;
    the empty string is falsy and is skipped. *)
Definition getDeadlockedTransactions (cycles : list (list string)) : list string :=
  foldl (λ deadlocked cycle,
           foldl (λ d node, if decide (node ≠ EmptyString) then set_add node d else d)
                 deadlocked cycle)
        [] cycles.

Definition isTransactionDeadlocked (transactionId : string)
    (cycles : list (list string)) : bool :=
  existsb (λ cycle, bool_decide (transactionId ∈ cycle)) cycles.

Inductive NodeColor := red | green.

Definition getNodeColors (nodes : list string) (cycles : list (list string))
    : JSObject NodeColor :=
  let deadlockedNodes := getDeadlockedTransactions cycles in
  foldl (λ colors node,
           obj_set colors node (if decide (node ∈ deadlockedNodes) then red else green))
        [] nodes.

(** [getResolutionStrategy]; the constant fields [strategy] and [reason] are
    left out.  [victim?.id] is [undefined] when no victim was selected; on a
    [null] cycle the source throws at [cycle.slice], which is [None]. *)
Record ResolutionStrategy := mkStrategy {
  strategy_victim : option string;
  affectedTransactions : list string;
  strategy_cycle : list string
}.

Definition getResolutionStrategy (cycle : option (list string))
    (txs : list Transaction) : option ResolutionStrategy :=
  let victim := selectVictim cycle txs in
  match cycle with
  | None => None
  | Some c =>
      Some (mkStrategy (match victim with VictimRecord id _ => Some id | _ => None end)
                       (drop_last c) c)
  end.

(** [analyzeWFG]; the two floating-point ratios [avgOutDegree] and
    [graphDensity] are left out.  The degree maps are only read by key. *)
Record WFGAnalysis := mkAnalysis {
  totalNodes : nat;
  totalEdges : nat;
  freeNodes : list string;
  independentNodes : list string
}.

(** [m.set(k, (m.get(k) || 0) + 1)] *)
Definition bump (m : gmap string nat) (k : string) : gmap string nat :=
  <[k := default 0 (m !! k) + 1]> m.

Definition analyzeWFG {G} `{WFG G} (g : G) : WFGAnalysis :=
  let nodes := getNodes g in
  let edges := getAllEdges g in
  let zero := foldl (λ m node, <[node := 0]> m) (∅ : gmap string nat) nodes in
  let outDegree := foldl (λ m e, bump m e.1) zero edges in
  let inDegree := foldl (λ m e, bump m e.2) zero edges in
  mkAnalysis (length nodes) (length edges)
             (filter (λ node, outDegree !! node = Some 0) nodes)
             (filter (λ node, inDegree !! node = Some 0) nodes).

(** ** [reset] and [getState] of the transaction manager *)

Section ManagerReset.
Context {G : Type} `{WFG G}.

(** [reset]: every transaction and resource object is kept and its lock
    fields are cleared; the WFG is cleared and the counters start again. *)
Definition reset (m : TransactionManager G) : TransactionManager G :=
  mkManager ((λ t, mkTransaction (tx_id t) active [] None) <$> transactions m)
            ((λ r, mkResource (res_id r) None []) <$> resources m)
            (clear (wfg m))
            (mkMetrics 0 0 0).

(** [getState]: the tables, the edges of the WFG and the counters. *)
Definition getState (m : TransactionManager G)
    : list Transaction * list Resource * list (string * string) * Metrics :=
  (transactions m, resources m, getAllEdges (wfg m), metrics m).

End ManagerReset.

(** ** Example populations used to exercise the statements *)

Definition fresh_tx (id : string) : Transaction := mkTransaction id active [] None.
Definition free_res (id : string) : Resource := mkResource id None [].

(** Three transactions contending for one resource. *)
Definition contention {G} `{WFG G} : TransactionManager G :=
  newManager [fresh_tx "T1"; fresh_tx "T2"; fresh_tx "T3"] [free_res "R1"].

Definition contention_calls : list Call :=
  [Acquire "T1" "R1"; Acquire "T2" "R1"; Acquire "T3" "R1"; Release "T1" "R1"].

(** A graph given by its edge list, in the adjacency-list representation. *)
Definition graph_of (es : list (string * string)) : AdjacencyListWFG.t :=
  run_ops ((λ e, AddEdge e.1 e.2) <$> es) AdjacencyListWFG.new.

(* ===================================================================== *)
(** * Properties *)
(* ===================================================================== *)

(** ** Sets and relations *)

Lemma size_list_to_set_le (l : list string) :
  size (list_to_set l : gset string) ≤ length l.
Proof.
  induction l as [|x l IH].
  - change (size (∅ : gset string) ≤ 0). by rewrite size_empty.
  - change (size ({[x]} ∪ list_to_set l : gset string) ≤ S (length l)).
    rewrite size_union_alt, size_singleton.
    assert (size (list_to_set l ∖ {[x]} : gset string) ≤ size (list_to_set l : gset string)).
    { apply subseteq_size. set_solver. }
    lia.
Qed.

Lemma size_add_fresh (x : string) (X : gset string) :
  x ∉ X → size ({[x]} ∪ X) = S (size X).
Proof.
  intros Hx. pose proof (size_union (C := gset string) {[x]} X) as Hu.
  rewrite Hu by set_solver. by rewrite size_singleton.
Qed.

Lemma tc_last {A} (R : relation A) x z : tc R x z → ∃ y, R y z.
Proof. induction 1; eauto. Qed.

(** ** The lock manager: failure paths *)

Section ManagerFacts.
Context {G : Type} `{WFG G}.

Lemma acquireLock_failure (m : TransactionManager G) txId resId :
  success (acquireLock m txId resId).2 = false →
  updated (acquireLock m txId resId).2 ≠ Some true →
  (acquireLock m txId resId).1 = m.
Proof.
  unfold acquireLock.
  destruct (find_tx _ _) as [tx|]; [|done].
  destruct (find_res _ _) as [res|]; [|done].
  repeat case_bool_decide; simpl; try done.
  destruct (lockedBy res); simpl; done.
Qed.

Lemma releaseLock_failure (m : TransactionManager G) txId resId :
  success (releaseLock m txId resId).2 = false →
  (releaseLock m txId resId).1 = m.
Proof.
  unfold releaseLock.
  destruct (find_tx _ _) as [tx|]; [|done].
  destruct (find_res _ _) as [res|]; [|done].
  case_bool_decide; simpl; done.
Qed.

Lemma abortTransaction_failure (m : TransactionManager G) txId :
  success (abortTransaction m txId).2 = false →
  (abortTransaction m txId).1 = m.
Proof.
  unfold abortTransaction. destruct (find_tx _ _); simpl; done.
Qed.

End ManagerFacts.

(** C2, as stated, fails: the blocking path of [acquireLock] reports
    [success = false] and has enqueued the transaction, set [waitingFor] and
    [status] and added a WFG edge. *)
Lemma C2_blocking_acquire_mutates :
  let m := (acquireLock (contention (G := AdjacencyListWFG.t)) "T1" "R1").1 in
  success (perform m (Acquire "T2" "R1")).2 = false
  ∧ (perform m (Acquire "T2" "R1")).1 ≠ m.
Proof.
  split; [reflexivity|].
  intros E. apply (f_equal resources) in E. vm_compute in E. discriminate.
Qed.

(** C2, amended: a call to [acquireLock], [releaseLock] or [abortTransaction]
    that reports failure without [updated = true] leaves the whole manager
    state (transactions, resources, WFG and counters) exactly as it was; the
    only failure result with [updated = true] is the blocking path of
    [acquireLock]. *)
Theorem C2_failed_call_leaves_state :
  ∀ {G : Type} `{WFG G} (m : TransactionManager G) (c : Call),
    success (perform m c).2 = false →
    updated (perform m c).2 ≠ Some true →
    (perform m c).1 = m.
Proof.
  intros G HG m [txId resId|txId resId|txId] Hs Hu; simpl in *.
  - by apply acquireLock_failure.
  - by apply releaseLock_failure.
  - by apply abortTransaction_failure.
Qed.

Lemma C2_failed_call_witness :
  let m := contention (G := AdjacencyListWFG.t) in
  (perform m (Release "T2" "R1")).1 = m.
Proof.
  intros m. apply (C2_failed_call_leaves_state m (Release "T2" "R1")).
  - reflexivity.
  - vm_compute. discriminate.
Defined.

(** C10: [acquireLock] on a known transaction whose status is neither
    [active] nor [waiting] (that is, [blocked] or [aborted]) reports failure
    and leaves the manager unchanged. *)
Theorem C10_acquire_rejects_inactive :
  ∀ {G : Type} `{WFG G} (m : TransactionManager G) (txId resId : string)
    (tx : Transaction),
    find_tx (transactions m) txId = Some tx →
    status tx ≠ active →
    status tx ≠ waiting →
    (acquireLock m txId resId).1 = m
    ∧ success (acquireLock m txId resId).2 = false
    ∧ updated (acquireLock m txId resId).2 = Some false.
Proof.
  intros G HG m txId resId tx Hfind Ha Hw.
  unfold acquireLock. rewrite Hfind.
  destruct (find_res _ _) as [res|]; [|done].
  rewrite bool_decide_eq_true_2; done.
Qed.

Lemma C10_acquire_rejects_inactive_witness :
  let m : TransactionManager AdjacencyListWFG.t :=
    newManager [mkTransaction "T1" blocked [] None; mkTransaction "T2" aborted [] None]
               [free_res "R1"] in
  ((acquireLock m "T1" "R1").1 = m
   ∧ success (acquireLock m "T1" "R1").2 = false
   ∧ updated (acquireLock m "T1" "R1").2 = Some false)
  ∧ ((acquireLock m "T2" "R1").1 = m
   ∧ success (acquireLock m "T2" "R1").2 = false
   ∧ updated (acquireLock m "T2" "R1").2 = Some false).
Proof.
  intros m. split.
  - apply (C10_acquire_rejects_inactive m "T1" "R1" (mkTransaction "T1" blocked [] None));
      [reflexivity | discriminate | discriminate].
  - apply (C10_acquire_rejects_inactive m "T2" "R1" (mkTransaction "T2" aborted [] None));
      [reflexivity | discriminate | discriminate].
Defined.

(** ** The holder-pointer invariant *)

(** Every waiting transaction has exactly one outgoing WFG edge, to the
    holder of the resource it waits for. *)
Definition holder_pointer {G} `{WFG G} (m : TransactionManager G) : Prop :=
  ∀ t R, t ∈ transactions m → status t = waiting → waitingFor t = Some R →
    ∃ res holder, find_res (resources m) R = Some res
                  ∧ lockedBy res = Some holder
                  ∧ getNeighbors (wfg m) (tx_id t) = [holder].

(** C1 fails on the code: after T1, T2 and T3 request R1 and T1 releases it,
    T2 holds R1 and T3 still waits for it, but T3 keeps its edge to the
    former holder T1 next to the new edge to T2, in every representation. *)
Theorem C1_stale_edge_after_release :
  let mL := run_calls (contention (G := AdjacencyListWFG.t)) contention_calls in
  let mM := run_calls (contention (G := AdjacencyMatrixWFG.t)) contention_calls in
  let mH := run_calls (contention (G := HashMapSetsWFG.t)) contention_calls in
  find_tx (transactions mL) "T3" = Some (mkTransaction "T3" waiting [] (Some "R1"))
  ∧ find_res (resources mL) "R1" = Some (mkResource "R1" (Some "T2") ["T3"])
  ∧ getNeighbors (wfg mL) "T3" = ["T1"; "T2"]
  ∧ getNeighbors (wfg mM) "T3" = ["T1"; "T2"]
  ∧ getNeighbors (wfg mH) "T3" = ["T1"; "T2"]
  ∧ ¬ holder_pointer mL.
Proof.
  intros mL mM mH.
  repeat split; try by vm_compute.
  intros Hinv.
  destruct (Hinv (mkTransaction "T3" waiting [] (Some "R1")) "R1")
    as (res & holder & _ & _ & Hn).
  - vm_compute. set_solver.
  - reflexivity.
  - reflexivity.
  - vm_compute in Hn. discriminate.
Qed.

(** ** Depth-first search: the control skeleton *)

Section SkeletonFacts.
Context {G : Type} `{WFG G} (g : G).
Implicit Types V R B : gset string.

Let univ : gset string := list_to_set (getNodes g).

Lemma closed_set_reach B v w :
  (∀ u v, u ∈ B → edge g u v → v ∈ B) → rtc (edge g) v w → v ∈ B → w ∈ B.
Proof. intros Hcl Hvw. induction Hvw; eauto. Qed.

Lemma finished_extend B node :
  finished g B → node ∉ B →
  (∀ v, edge g node v → v ∈ B) →
  finished g ({[node]} ∪ B).
Proof.
  intros [Hcl Hac] Hnode Hsucc. split.
  - intros u v Hu Huv. apply elem_of_union in Hu as [Hu|Hu].
    + apply elem_of_singleton in Hu as ->. set_solver.
    + set_solver.
  - intros u Hu Hcyc. apply elem_of_union in Hu as [Hu|Hu]; [|by eapply Hac].
    apply elem_of_singleton in Hu as ->.
    assert (∃ v, edge g node v ∧ rtc (edge g) v node) as (v & Hnv & Hvn).
    { inversion Hcyc; subst; eauto using rtc_refl, tc_rtc. }
    apply Hnode. eapply closed_set_reach; eauto.
Qed.

(** With fuel for every unvisited node the skeleton returns. *)
Lemma skeleton_total fuel : ∀ node V R,
  closed g → node ∈ univ → node ∉ V → size (univ ∖ V) ≤ fuel →
  ∃ b V' R', skeleton g fuel node V R = Some (b, V', R') ∧ V ⊆ V'.
Proof.
  induction fuel as [|fuel IH]; intros node V R Hcl Hnode HV Hsize.
  - exfalso. assert (size (univ ∖ V) ≠ 0) as Hne; [|lia].
    apply size_non_empty_iff. set_solver.
  - simpl.
    assert (size (univ ∖ ({[node]} ∪ V)) ≤ fuel) as Hsize1.
    { assert (univ ∖ ({[node]} ∪ V) ⊂ univ ∖ V) as Hsub by set_solver.
      apply subset_size in Hsub. lia. }
    assert (∀ nb, nb ∈ getNeighbors g node → nb ∈ univ) as Hnbrs.
    { intros nb Hnb. apply elem_of_list_to_set. by eapply Hcl. }
    assert (V ⊆ {[node]} ∪ V) as HVV by set_solver.
    revert Hsize1 Hnbrs HVV.
    generalize ({[node]} ∪ V) as V1, ({[node]} ∪ R) as R1, (getNeighbors g node) as nbrs.
    intros V1 R1 nbrs. revert V1 R1.
    induction nbrs as [|nb rest IHn]; intros V1 R1 Hsize1 Hnbrs HVV; simpl.
    + eauto.
    + destruct (decide (nb ∉ V1)) as [Hnb|Hnb].
      * destruct (IH nb V1 R1) as (b & V' & R' & -> & Hsub); auto.
        { apply Hnbrs. set_solver. }
        destruct b; [exists true, V', R'; split; [done|set_solver]|].
        apply IHn; [|set_solver|set_solver].
        assert (univ ∖ V' ⊆ univ ∖ V1) as Hs by set_solver.
        apply subseteq_size in Hs. lia.
      * destruct (decide (nb ∈ R1)); [eauto|].
        apply IHn; [done|set_solver|done].
Qed.

(** From a state where the recursion stack reaches [node] and the finished
    nodes are [V ∖ R], a run that meets no back edge finishes [node]; a run
    that meets one has found a cycle. *)
Definition skeleton_post (node : string) V R
    (r : bool * gset string * gset string) : Prop :=
  let '(b, V', R') := r in
  if b then cyclic g
  else R' = R ∧ V ⊆ V' ∧ node ∈ V' ∧ finished g (V' ∖ R').

Lemma skeleton_neighbors_correct rec node R :
  (∀ nb V2 r, {[node]} ∪ R ⊆ V2 → nb ∉ V2 → edge g node nb →
     finished g (V2 ∖ ({[node]} ∪ R)) →
     rec nb V2 ({[node]} ∪ R) = Some r → skeleton_post nb V2 ({[node]} ∪ R) r) →
  node ∉ R →
  (∀ x, x ∈ R → reachable g x node) →
  ∀ nbrs V2 r,
    {[node]} ∪ R ⊆ V2 →
    finished g (V2 ∖ ({[node]} ∪ R)) →
    (∀ nb, nb ∈ nbrs → edge g node nb) →
    (∀ v, edge g node v → v ∈ nbrs ∨ v ∈ V2 ∖ ({[node]} ∪ R)) →
    skeleton_neighbors rec node nbrs V2 ({[node]} ∪ R) = Some r →
    let '(b, V', R') := r in
    if b then cyclic g
    else R' = R ∧ V2 ⊆ V' ∧ finished g (V' ∖ R').
Proof.
  intros Hrec HnodeR Hreach.
  induction nbrs as [|nb rest IHn]; intros V2 [[b V'] R'] HV Hfin Hsub Hdone; simpl.
  - intros [= <- <- <-].
    assert (({[node]} ∪ R) ∖ {[node]} = R) as -> by set_solver.
    split; [done|]. split; [done|].
    replace (V2 ∖ R) with ({[node]} ∪ V2 ∖ ({[node]} ∪ R)).
    2:{ apply set_eq. intros x. destruct (decide (x = node)); set_solver. }
    apply finished_extend; [done|set_solver|].
    intros v Hv. destruct (Hdone v Hv) as [Hin|Hin]; [by apply elem_of_nil in Hin|done].
  - destruct (decide (nb ∉ V2)) as [Hnb|Hnb].
    + destruct (rec nb V2 ({[node]} ∪ R)) as [[[b2 V3] R3]|] eqn:Hr; [|done].
      apply Hrec in Hr; [|done|done|apply Hsub; set_solver|done].
      destruct b2; simpl in Hr.
      * by intros [= <- <- <-].
      * destruct Hr as (-> & HV23 & Hnb3 & Hfin3). intros Hloop.
        apply (IHn V3 (b, V', R')) in Hloop.
        -- destruct b; [done|]. destruct Hloop as (? & ? & ?). set_solver.
        -- set_solver.
        -- done.
        -- intros ??. apply Hsub. set_solver.
        -- intros v Hv. destruct (Hdone v Hv) as [Hin|Hin]; [|set_solver].
           apply elem_of_cons in Hin as [->|Hin]; [|by left].
           right. set_solver.
    + destruct (decide (nb ∈ {[node]} ∪ R)) as [HnbR|HnbR].
      * intros [= <- <- <-]. exists nb.
        eapply tc_rtc_l; [|apply tc_once, Hsub; set_solver].
        apply elem_of_union in HnbR as [Hx|Hx]; [|by apply Hreach].
        apply elem_of_singleton in Hx as ->. apply rtc_refl.
      * intros Hloop. apply (IHn V2 (b, V', R')) in Hloop; try done.
        -- intros ??. apply Hsub. set_solver.
        -- intros v Hv. destruct (Hdone v Hv) as [Hin|Hin]; [|by right].
           apply elem_of_cons in Hin as [->|Hin]; [|by left].
           right. apply dec_stable in Hnb. set_solver.
Qed.

Lemma skeleton_correct fuel : ∀ node V R r,
  R ⊆ V → node ∉ V →
  (∀ x, x ∈ R → reachable g x node) →
  finished g (V ∖ R) →
  skeleton g fuel node V R = Some r →
  skeleton_post node V R r.
Proof.
  induction fuel as [|fuel IH]; intros node V R r HRV Hnode Hreach Hfin; [done|].
  simpl. intros Hrun.
  apply skeleton_neighbors_correct in Hrun.
  - destruct r as [[b V'] R']. simpl. destruct b; [done|].
    destruct Hrun as (-> & HV & Hf).
    split; [done|]. split; [set_solver|]. split; [set_solver|done].
  - intros nb V2 r2 HV2 Hnb Hedge Hfin2 Hr. eapply IH; try done.
    intros x Hx. eapply rtc_r; [|exact Hedge].
    apply elem_of_union in Hx as [Hx|Hx]; [|by apply Hreach].
    apply elem_of_singleton in Hx as ->. apply rtc_refl.
  - set_solver.
  - done.
  - set_solver.
  - replace (({[node]} ∪ V) ∖ ({[node]} ∪ R)) with (V ∖ R) by set_solver. done.
  - done.
  - by left.
Qed.

End SkeletonFacts.

(** ** [detectDeadlock]: the recursion follows the skeleton *)

Section DetectFacts.
Context {G : Type} `{WFG G} (g : G).

Let univ : gset string := list_to_set (getNodes g).

(** What a [dfs] run does to [cycles]: nothing when it returns [false], and
    it leaves the list non-empty when it returns [true]. *)
Definition cycles_step (st st' : DetectState) (b : bool) : Prop :=
  if b then cycles st' ≠ [] ∧ ∃ l, cycles st' = cycles st ++ l
  else cycles st' = cycles st.

Definition follows_skeleton
    (r : option (bool * DetectState))
    (s : option (bool * gset string * gset string)) (st : DetectState) : Prop :=
  match r with
  | None => s = None
  | Some (b, st') => s = Some (b, visited st', recStack st') ∧ cycles_step st st' b
  end.

Lemma isCycleDuplicate_nonempty cs c : isCycleDuplicate cs c = true → cs ≠ [].
Proof. by destruct cs. Qed.

Lemma dfs_neighbors_skeleton rec srec node path :
  (∀ nb p st, follows_skeleton (rec nb p st) (srec nb (visited st) (recStack st)) st) →
  ∀ nbrs st,
    follows_skeleton (dfs_neighbors rec node path nbrs st)
      (skeleton_neighbors srec node nbrs (visited st) (recStack st)) st.
Proof.
  intros Hrec. induction nbrs as [|nb rest IH]; intros st; simpl.
  - done.
  - destruct (decide (nb ∉ visited st)).
    + specialize (Hrec nb path st). unfold follows_skeleton in Hrec.
      destruct (rec nb path st) as [[[] st1]|].
      * destruct Hrec as [-> Hc]. done.
      * destruct Hrec as [-> Hc]. simpl in Hc.
        specialize (IH st1). unfold follows_skeleton in *.
        destruct (dfs_neighbors rec node path rest st1) as [[b st2]|]; [|done].
        destruct IH as [-> Hc2]. split; [done|].
        unfold cycles_step in *. rewrite <- Hc. done.
      * by rewrite Hrec.
    + destruct (decide (nb ∈ recStack st)); [|apply IH].
      simpl. destruct (isCycleDuplicate _ _) eqn:Hdup; simpl.
      * split; [done|]. split; [by eapply isCycleDuplicate_nonempty|].
        exists []. by rewrite app_nil_r.
      * split; [done|]. split; [by destruct (cycles st)|eauto].
Qed.

Lemma dfs_skeleton fuel : ∀ node path st,
  follows_skeleton (dfs g fuel node path st)
    (skeleton g fuel node (visited st) (recStack st)) st.
Proof.
  induction fuel as [|fuel IH]; intros node path st; [done|].
  simpl.
  pose proof (dfs_neighbors_skeleton (dfs g fuel) (skeleton g fuel) node (path ++ [node]) IH
                (getNeighbors g node)
                (mkDetect ({[node]} ∪ visited st) ({[node]} ∪ recStack st) (cycles st))) as Hn.
  simpl in Hn. unfold follows_skeleton in *.
  destruct (dfs_neighbors _ _ _ _ _) as [[b st']|]; done.
Qed.

Lemma detect_roots_total fuel : ∀ nodes st,
  closed g → (∀ n, n ∈ nodes → n ∈ univ) → size (univ ∖ visited st) ≤ fuel →
  ∃ st', detect_roots g fuel nodes st = Some st'
         ∧ visited st ⊆ visited st'
         ∧ (cycles st ≠ [] → cycles st' ≠ []).
Proof.
  induction nodes as [|node rest IH]; intros st Hcl Hn Hsize; simpl.
  - eauto.
  - destruct (decide (node ∉ visited st)) as [Hv|Hv].
    + destruct (skeleton_total g fuel node (visited st) (recStack st))
        as (b & V' & R' & Hs & HV); auto.
      { apply Hn. set_solver. }
      pose proof (dfs_skeleton fuel node [] st) as Hd. unfold follows_skeleton in Hd.
      destruct (dfs g fuel node [] st) as [[b' st1]|]; [|congruence].
      destruct Hd as [Hd Hc]. rewrite Hs in Hd. injection Hd as <- -> ->.
      destruct (IH st1) as (st' & -> & HV' & Hc'); auto.
      { intros ??. apply Hn. set_solver. }
      { assert (univ ∖ visited st1 ⊆ univ ∖ visited st) as Hsub by set_solver.
        apply subseteq_size in Hsub. lia. }
      exists st'. split; [done|]. split; [set_solver|].
      intros Hne. apply Hc'. unfold cycles_step in Hc.
      destruct b; [by destruct Hc|by rewrite Hc].
    + apply IH; auto. intros ??. apply Hn. set_solver.
Qed.

Lemma detect_roots_grows fuel : ∀ nodes st st',
  detect_roots g fuel nodes st = Some st' → cycles st ≠ [] → cycles st' ≠ [].
Proof.
  induction nodes as [|node rest IH]; intros st st'; simpl.
  - by intros [= <-].
  - destruct (decide (node ∉ visited st)); [|apply IH].
    pose proof (dfs_skeleton fuel node [] st) as Hd. unfold follows_skeleton in Hd.
    destruct (dfs g fuel node [] st) as [[b st1]|]; [|done].
    destruct Hd as [_ Hc]. intros Hr Hne. eapply IH; [done|].
    unfold cycles_step in Hc. destruct b; [by destruct Hc|by rewrite Hc].
Qed.

(** A run of the roots from a clean state either finishes every node
    without a cycle, or has met a real cycle. *)
Lemma detect_roots_clean fuel : ∀ nodes st st',
  cycles st = [] → recStack st = ∅ → finished g (visited st) →
  detect_roots g fuel nodes st = Some st' →
  (cycles st' = [] ∧ finished g (visited st') ∧ visited st ⊆ visited st'
   ∧ ∀ n, n ∈ nodes → n ∈ visited st')
  ∨ (cycles st' ≠ [] ∧ cyclic g).
Proof.
  induction nodes as [|node rest IH]; intros st st' Hc HR Hfin; simpl.
  - intros [= <-]. left. split; [done|]. split; [done|]. split; [done|].
    by intros n ?%elem_of_nil.
  - destruct (decide (node ∉ visited st)) as [Hv|Hv].
    + pose proof (dfs_skeleton fuel node [] st) as Hd. unfold follows_skeleton in Hd.
      destruct (dfs g fuel node [] st) as [[b st1]|]; [|done].
      destruct Hd as [Hs Hstep].
      apply skeleton_correct in Hs; [|set_solver|done|set_solver|].
      2:{ rewrite HR. by replace (visited st ∖ ∅) with (visited st) by set_solver. }
      simpl in Hs. unfold cycles_step in Hstep. intros Hrun.
      destruct b.
      * right. split; [|done]. eapply detect_roots_grows; [done|]. by destruct Hstep.
      * destruct Hs as (HR1 & HV & Hnode & Hfin1).
        rewrite HR1, HR in Hfin1.
        replace (visited st1 ∖ ∅) with (visited st1) in Hfin1 by set_solver.
        destruct (IH st1 st') as [(Hc' & Hf' & Hsub & Hall)|Hcyc];
          try done; try congruence; [|by right].
        left. split; [done|]. split; [done|]. split; [set_solver|].
        intros n [->|Hn]%elem_of_cons; [set_solver|by apply Hall].
    + intros Hrun.
      destruct (IH st st') as [(Hc' & Hf' & Hsub & Hall)|Hcyc]; try done; [|by right].
      left. split; [done|]. split; [done|]. split; [done|].
      intros n [->|Hn]%elem_of_cons; [|by apply Hall].
      apply dec_stable in Hv. set_solver.
Qed.

(** [detectDeadlock] returns, and reports a cycle exactly when the graph has
    one. *)
Lemma detectDeadlock_correct :
  closed g →
  ∃ r, detectDeadlock g = Some r ∧ (hasCycle r = false ↔ acyclic g).
Proof.
  intros Hcl. unfold detectDeadlock.
  destruct (detect_roots_total (length (getNodes g)) (getNodes g) (mkDetect ∅ ∅ []))
    as (st' & Hrun & _ & _); [done| | |].
  { intros n Hn. by apply elem_of_list_to_set. }
  { simpl. etrans; [apply subseteq_size, subseteq_difference_l; reflexivity|].
    apply size_list_to_set_le. }
  rewrite Hrun. simpl. eexists. split; [done|]. simpl.
  apply detect_roots_clean in Hrun; [|done|done|].
  2:{ split; set_solver. }
  destruct Hrun as [(Hc & Hfin & _ & Hall)|[Hc Hcyc]].
  - rewrite Hc. simpl. split; [|done]. intros _ v Hv.
    destruct Hfin as [_ Hac]. apply (Hac v); [|done].
    apply Hall. assert (∃ u, edge g u v) as [u Hu]; [|by eapply Hcl].
    by apply tc_last in Hv.
  - split.
    + intros Hb. apply bool_decide_eq_false in Hb. destruct (cycles st'); [done|simpl in Hb; lia].
    + intros Hac. destruct Hcyc as [v Hv]. by destruct (Hac v).
Qed.

Lemma detectDeadlock_empty :
  getNodes g = [] → detectDeadlock g = Some (mkDetectResult false [] 0).
Proof. intros Hn. unfold detectDeadlock. rewrite Hn. done. Qed.

End DetectFacts.

(** ** [dfsDetectCycle]: the trace records the parents *)

(** The trace holds a visit event only for visited nodes. *)
Definition visits_recorded (st : CycleState) : Prop :=
  ∀ n p, EvVisit n p ∈ trace st → n ∈ cs_visited st.

(** Every node of the current path was entered with the path that leads to
    it. *)
Definition path_recorded (tr : list TraceEvent) (path : list string) : Prop :=
  ∀ k x, path !! k = Some x → visit_path tr x = take (S k) path.

Lemma visit_path_app tr tr' x :
  visit_path tr x ≠ [] → visit_path (tr ++ tr') x = visit_path tr x.
Proof.
  induction tr as [|e tr IH]; simpl; [done|].
  destruct e; auto. destruct (decide (node = x)); auto.
Qed.

Lemma visit_path_fresh tr x p :
  (∀ p', EvVisit x p' ∉ tr) → visit_path (tr ++ [EvVisit x p]) x = p.
Proof.
  induction tr as [|e tr IH]; intros Hno; simpl.
  - by rewrite decide_True.
  - destruct e; try (apply IH; intros p' Hp; apply (Hno p'); set_solver).
    destruct (decide (node = x)) as [->|].
    + exfalso. apply (Hno path). set_solver.
    + apply IH. intros p' Hp. apply (Hno p'). set_solver.
Qed.

Lemma path_recorded_app tr tr' path :
  path_recorded tr path → path_recorded (tr ++ tr') path.
Proof.
  intros Hrec k x Hk. rewrite visit_path_app; [by apply Hrec|].
  rewrite (Hrec k x Hk). apply lookup_lt_Some in Hk.
  destruct path; simpl in *; [lia|done].
Qed.

Lemma path_recorded_snoc tr path node :
  path_recorded tr path → (∀ p', EvVisit node p' ∉ tr) →
  path_recorded (tr ++ [EvVisit node (path ++ [node])]) (path ++ [node]).
Proof.
  intros Hrec Hno k x Hk.
  destruct (decide (k < length path)) as [Hlt|Hge].
  - rewrite lookup_app_l in Hk by done.
    rewrite visit_path_app.
    + rewrite (Hrec k x Hk). rewrite take_app_le by lia. done.
    + rewrite (Hrec k x Hk). destruct path; simpl in *; [lia|done].
  - assert (k = length path) as ->.
    { apply lookup_lt_Some in Hk. rewrite length_app in Hk. simpl in Hk. lia. }
    rewrite lookup_app_r, Nat.sub_diag in Hk by lia. injection Hk as <-.
    rewrite visit_path_fresh by done.
    rewrite take_ge; [done|]. rewrite length_app. simpl. lia.
Qed.

Lemma before_last_take path k x :
  path !! k = Some x →
  before_last (take (S k) path) = None
  ∨ ∃ j y, k = S j ∧ path !! j = Some y ∧ before_last (take (S k) path) = Some y.
Proof.
  intros Hk. unfold before_last.
  assert (length (take (S k) path) = S k) as Hlen.
  { apply lookup_lt_Some in Hk. rewrite length_take. lia. }
  rewrite Hlen. destruct (decide (2 ≤ S k)); [|by left].
  destruct k as [|j]; [lia|].
  replace (S (S j) - 2) with j by lia.
  rewrite lookup_take_lt by lia.
  destruct (path !! j) as [y|] eqn:Hj; [|by left].
  destruct (decide (y = EmptyString)); [by left|].
  right. by exists j, y.
Qed.

(** The walk up the recorded parents ends within one step per ancestor, and
    its result extends the cycle it started from. *)
Lemma walk_parents_total tr path neighbor : ∀ fuel k c acc,
  path_recorded tr path → path !! k = Some c → k < fuel →
  ∃ cyc, walk_parents fuel tr neighbor (Some c) acc = Some cyc.
Proof.
  induction fuel as [|fuel IH]; intros k c acc Hrec Hk Hlt; [lia|].
  simpl. destruct (decide (c = neighbor)); [eauto|].
  rewrite (Hrec k c Hk).
  destruct (before_last_take path k c Hk) as [->|(j & y & -> & Hj & ->)].
  - destruct fuel; simpl; eauto.
  - apply (IH j); [done|done|lia].
Qed.

Lemma walk_parents_extends tr neighbor : ∀ fuel cur acc cyc,
  walk_parents fuel tr neighbor cur acc = Some cyc → ∃ l, cyc = acc ++ l.
Proof.
  induction fuel as [|fuel IH]; intros cur acc cyc; simpl.
  - destruct cur as [c|]; [destruct (decide (c = neighbor)); [|done]|];
      intros [= <-]; exists []; by rewrite app_nil_r.
  - destruct cur as [c|]; [destruct (decide (c = neighbor))|];
      try (intros [= <-]; exists []; by rewrite app_nil_r).
    intros Hw. apply IH in Hw as [l ->]. exists (c :: l). by rewrite <- app_assoc.
Qed.

Lemma walk_parents_start tr neighbor fuel c acc cyc :
  walk_parents fuel tr neighbor (Some c) acc = Some cyc →
  if decide (c = neighbor) then cyc = acc else ∃ l, cyc = acc ++ c :: l.
Proof.
  destruct fuel as [|fuel]; simpl; destruct (decide (c = neighbor)); try done.
  - by intros [= <-].
  - by intros [= <-].
  - intros Hw. apply walk_parents_extends in Hw as [l ->].
    exists l. by rewrite <- app_assoc.
Qed.

Section CycleFacts.
Context {G : Type} `{WFG G} (g : G).

Let univ : gset string := list_to_set (getNodes g).

Definition has_other_successor (x : string) : Prop := ∃ y, edge g x y ∧ x ≠ y.

(** What the reported sequence always contains: a node with a successor
    other than itself, unless it is a lone self-loop [a; a]. *)
Definition cycle_shape (c : list string) : Prop :=
  (∃ x, x ∈ c ∧ has_other_successor x) ∨ (∃ a, c = [a; a]).

Definition visit_post (st : CycleState) (r : option (list string) * CycleState)
    (b : bool) (V' R' : gset string) : Prop :=
  V' = cs_visited r.2 ∧ R' = cs_recStack r.2 ∧
  match r.1 with
  | None => b = false ∧ visits_recorded r.2 ∧ cs_visited st ⊆ cs_visited r.2
            ∧ (∃ tr', trace r.2 = trace st ++ tr') ∧ cycleFound r.2 = cycleFound st
  | Some c => b = true ∧ cycleFound r.2 = Some c ∧ cycle_shape c
  end.

Lemma dfsVisit_neighbors_skeleton rec srec node path :
  (∀ nb st b V' R',
     visits_recorded st → path_recorded (trace st) (path ++ [node]) →
     length (path ++ [node]) ≤ length (trace st) →
     (∀ x, x ∈ path ++ [node] → has_other_successor x) →
     nb ∉ cs_visited st →
     srec nb (cs_visited st) (cs_recStack st) = Some (b, V', R') →
     ∃ r, rec nb (path ++ [node]) st = Some r ∧ visit_post st r b V' R') →
  (∀ x, x ∈ path → has_other_successor x) →
  ∀ nbrs st b V' R',
    visits_recorded st → path_recorded (trace st) (path ++ [node]) →
    length (path ++ [node]) ≤ length (trace st) →
    node ∈ cs_visited st →
    (∀ nb, nb ∈ nbrs → edge g node nb) →
    skeleton_neighbors srec node nbrs (cs_visited st) (cs_recStack st) = Some (b, V', R') →
    ∃ r, dfsVisit_neighbors rec node path nbrs st = Some r ∧ visit_post st r b V' R'.
Proof.
  intros Hrec Hpath.
  induction nbrs as [|nb rest IH]; intros st b V' R' Hvis Hprec Hlen Hnode Hsub; simpl.
  - intros [= <- <- <-]. eexists. split; [done|].
    unfold visit_post; simpl. repeat split; eauto.
    intros n p Hin. apply Hvis with p. simpl in Hin. set_solver.
  - set (st_e := mkCycleState (cs_visited st) (cs_recStack st)
                   (trace st ++ [EvEdge node nb]) (cycleFound st)).
    assert (visits_recorded st_e) as Hvis_e.
    { intros n p Hin. apply Hvis with p. simpl in Hin. set_solver. }
    assert (path_recorded (trace st_e) (path ++ [node])) as Hprec_e
      by by apply path_recorded_app.
    assert (length (path ++ [node]) < length (trace st_e)) as Hlen_e.
    { simpl. rewrite (length_app (trace st)). simpl. lia. }
    destruct (decide (nb ∉ cs_visited st)) as [Hnb|Hnb].
    + destruct (srec nb (cs_visited st) (cs_recStack st)) as [[[b2 V2] R2]|] eqn:Hs; [|done].
      destruct (Hrec nb st_e b2 V2 R2) as ([res st2] & Hr & Hpost); auto; [lia| |].
      { intros x [Hx|Hx]%elem_of_app; [by apply Hpath|].
        apply list_elem_of_singleton in Hx as ->. exists nb.
        split; [apply Hsub; set_solver|]. intros ->. done. }
      rewrite Hr.
      destruct Hpost as (-> & -> & Hpost). simpl in Hpost.
      destruct res as [c|].
      * destruct Hpost as (-> & Hc & Hshape). intros [= <- <- <-].
        eexists. split; [done|]. by repeat split.
      * destruct Hpost as (-> & Hvis2 & HV2 & [tr2 Htr2] & Hcf2). intros Hloop.
        simpl in *.
        assert (path_recorded (trace st2) (path ++ [node])) as Hp2.
        { rewrite Htr2. by apply path_recorded_app. }
        assert (length (path ++ [node]) ≤ length (trace st2)) as Hl2.
        { rewrite Htr2. rewrite !length_app in *. simpl in *. lia. }
        assert (node ∈ cs_visited st2) as Hn2 by set_solver.
        assert (∀ nb0, nb0 ∈ rest → edge g node nb0) as Hsub2.
        { intros ??. apply Hsub. set_solver. }
        destruct (IH st2 b V' R' Hvis2 Hp2 Hl2 Hn2 Hsub2 Hloop)
          as ([res3 st3] & Hr3 & Hpost3).
        exists (res3, st3). split; [done|].
        destruct Hpost3 as (-> & -> & Hpost3). simpl in *.
        split; [done|]. split; [done|].
        destruct res3; [done|].
        destruct Hpost3 as (-> & ? & ? & [tr3 Htr3] & Hcf3).
        split; [done|]. split; [done|]. split; [set_solver|].
        simpl. split; [|congruence].
        exists ([EvEdge node nb] ++ tr2 ++ tr3).
        rewrite Htr3, Htr2. by rewrite <- !app_assoc.
    + destruct (decide (nb ∈ cs_recStack st)) as [HnbR|HnbR].
      * intros [= <- <- <-].
        destruct (walk_parents_total (trace st_e) (path ++ [node]) nb
                    (length (trace st_e)) (length path) node [nb]) as [cyc Hw]; auto.
        { rewrite lookup_app_r, Nat.sub_diag by lia. done. }
        { rewrite length_app in Hlen_e. simpl in *. lia. }
        simpl in Hw. simpl. rewrite Hw.
        apply walk_parents_start in Hw.
        destruct (decide (node = nb)) as [->|Hne].
        -- subst cyc. simpl. eexists. split; [done|].
           unfold visit_post; simpl. repeat split; try done.
           destruct path as [|p0 path'].
           ++ right. by exists nb.
           ++ left. exists p0. split; [set_solver|]. apply Hpath. set_solver.
        -- destruct Hw as [l ->]. simpl.
           eexists. split; [done|].
           unfold visit_post; simpl. repeat split; try done.
           left. exists node. split.
           ++ rewrite elem_of_reverse. set_solver.
           ++ exists nb. split; [apply Hsub; set_solver|done].
      * intros Hloop.
        assert (length (path ++ [node]) ≤ length (trace st_e)) as Hl2 by lia.
        assert (∀ nb0, nb0 ∈ rest → edge g node nb0) as Hsub2.
        { intros ??. apply Hsub. set_solver. }
        destruct (IH st_e b V' R' Hvis_e Hprec_e Hl2 Hnode Hsub2 Hloop)
          as ([res3 st3] & Hr3 & Hpost3).
        exists (res3, st3). split; [done|].
        destruct Hpost3 as (-> & -> & Hpost3). simpl in *.
        split; [done|]. split; [done|].
        destruct res3; [done|].
        destruct Hpost3 as (-> & ? & ? & [tr3 Htr3] & Hcf3).
        repeat split; try done.
        exists ([EvEdge node nb] ++ tr3). simpl. rewrite Htr3. simpl.
        by rewrite <- app_assoc.
Qed.

Lemma dfsVisit_skeleton fuel : ∀ node path st b V' R',
  visits_recorded st → path_recorded (trace st) path →
  length path ≤ length (trace st) →
  (∀ x, x ∈ path → has_other_successor x) →
  node ∉ cs_visited st →
  skeleton g fuel node (cs_visited st) (cs_recStack st) = Some (b, V', R') →
  ∃ r, dfsVisit g fuel node path st = Some r ∧ visit_post st r b V' R'.
Proof.
  induction fuel as [|fuel IH]; intros node path st b V' R' Hvis Hprec Hlen Hpath Hnode;
    [done|].
  simpl. intros Hs.
  set (st1 := mkCycleState ({[node]} ∪ cs_visited st) ({[node]} ∪ cs_recStack st)
                (trace st ++ [EvVisit node (path ++ [node])]) (cycleFound st)).
  destruct (dfsVisit_neighbors_skeleton (dfsVisit g fuel) (skeleton g fuel) node path)
    with (nbrs := getNeighbors g node) (st := st1) (b := b) (V' := V') (R' := R')
    as ([res st2] & Hr & Hpost); auto.
  - intros n p Hin. simpl in Hin. apply elem_of_app in Hin as [Hin|Hin].
    + simpl. apply elem_of_union_r. by apply Hvis with p.
    + apply list_elem_of_singleton in Hin. injection Hin as -> ->. set_solver.
  - simpl. apply path_recorded_snoc; [done|].
    intros p' Hin. apply Hnode. by apply Hvis with p'.
  - simpl. rewrite !length_app. simpl. lia.
  - simpl. set_solver.
  - exists (res, st2). split; [done|].
    destruct Hpost as (-> & -> & Hpost). simpl in *.
    split; [done|]. split; [done|].
    destruct res; [done|].
    destruct Hpost as (-> & ? & ? & [tr3 Htr3] & Hcf3).
    repeat split; try done; [set_solver|].
    exists ([EvVisit node (path ++ [node])] ++ tr3). simpl. rewrite Htr3. simpl.
    by rewrite <- app_assoc.
Qed.

Lemma cycle_roots_spec fuel : ∀ nodes st,
  closed g → (∀ n, n ∈ nodes → n ∈ univ) → size (univ ∖ cs_visited st) ≤ fuel →
  visits_recorded st → cycleFound st = None → cs_recStack st = ∅ →
  finished g (cs_visited st) →
  ∃ st', cycle_roots g fuel nodes st = Some st'
    ∧ ((cycleFound st' = None ∧ finished g (cs_visited st')
        ∧ cs_visited st ⊆ cs_visited st' ∧ ∀ n, n ∈ nodes → n ∈ cs_visited st')
       ∨ (∃ c, cycleFound st' = Some c ∧ cyclic g ∧ cycle_shape c)).
Proof.
  induction nodes as [|node rest IH]; intros st Hcl Hn Hsize Hvis Hcf HR Hfin; simpl.
  - eexists. split; [done|]. left. repeat split; try done. apply Hfin. apply Hfin.
    by intros n ?%elem_of_nil.
  - destruct (decide (node ∉ cs_visited st)) as [Hv|Hv].
    + destruct (skeleton_total g fuel node (cs_visited st) (cs_recStack st))
        as (b & V' & R' & Hs & HV); auto.
      { apply Hn. set_solver. }
      destruct (dfsVisit_skeleton fuel node [] st b V' R') as ([res st1] & -> & Hpost); auto.
      { by intros k x ?. }
      { simpl. lia. }
      { by intros x ?%elem_of_nil. }
      apply skeleton_correct in Hs; [|set_solver|done|set_solver|].
      2:{ rewrite HR. by replace (cs_visited st ∖ ∅) with (cs_visited st) by set_solver. }
      destruct Hpost as (-> & -> & Hpost). simpl in *.
      destruct res as [c|].
      * destruct Hpost as (-> & Hc & Hshape). eexists. split; [done|].
        right. by exists c.
      * destruct Hpost as (-> & Hvis1 & HV1 & _ & Hcf1).
        destruct Hs as (HR1 & _ & Hnode1 & Hfin1).
        rewrite HR1, HR in Hfin1.
        replace (cs_visited st1 ∖ ∅) with (cs_visited st1) in Hfin1 by set_solver.
        destruct (IH st1) as (st' & Hrun & Hres); auto; try congruence.
        { intros ??. apply Hn. set_solver. }
        { assert (univ ∖ cs_visited st1 ⊆ univ ∖ cs_visited st) as Hsub by set_solver.
          apply subseteq_size in Hsub. lia. }
        exists st'. split; [done|].
        destruct Hres as [(? & ? & ? & Hall)|?]; [|by right].
        left. repeat split; try done; [apply H1|apply H1|set_solver|].
        intros n [->|Hin]%elem_of_cons; [set_solver|by apply Hall].
    + destruct (IH st) as (st' & Hrun & Hres); auto.
      { intros ??. apply Hn. set_solver. }
      exists st'. split; [done|].
      destruct Hres as [(? & ? & ? & Hall)|?]; [|by right].
      left. repeat split; try done; [apply H1|apply H1|].
      intros n [->|Hin]%elem_of_cons; [|by apply Hall].
      apply dec_stable in Hv. set_solver.
Qed.

(** [dfsDetectCycle] returns; it reports no cycle exactly when the graph has
    none. *)
Lemma dfsDetectCycle_correct :
  closed g →
  ∃ r, dfsDetectCycle g = Some r
       ∧ (cycle r = None ↔ acyclic g)
       ∧ (∀ c, cycle r = Some c → cycle_shape c).
Proof.
  intros Hcl. unfold dfsDetectCycle.
  destruct (cycle_roots_spec (length (getNodes g)) (getNodes g) (mkCycleState ∅ ∅ [] None))
    as (st' & Hrun & Hres); auto.
  { intros n Hn. by apply elem_of_list_to_set. }
  { simpl. etrans; [apply subseteq_size, subseteq_difference_l; reflexivity|].
    apply size_list_to_set_le. }
  { by intros n p ?%elem_of_nil. }
  { split; set_solver. }
  rewrite Hrun. simpl. eexists. split; [done|]. simpl.
  destruct Hres as [(Hc & Hfin & _ & Hall)|(c & Hc & Hcyc & Hshape)].
  - rewrite Hc. split; [|done]. split; [|done]. intros _ v Hv.
    destruct Hfin as [_ Hac]. apply (Hac v); [|done].
    apply Hall. assert (∃ u, edge g u v) as [u Hu]; [|by eapply Hcl].
    by apply tc_last in Hv.
  - rewrite Hc. split.
    + split; [done|]. intros Hac. destruct Hcyc as [v Hv]. by destruct (Hac v).
    + by intros c' [= <-].
Qed.

Lemma dfsDetectCycle_empty :
  getNodes g = [] → dfsDetectCycle g = Some (mkCycleResult None [] 0).
Proof. intros Hn. unfold dfsDetectCycle. rewrite Hn. done. Qed.

End CycleFacts.

(** ** Objects as dictionaries *)

Section ObjectFacts.
Context {V : Type}.
Implicit Types o : JSObject V.

Lemma obj_get_set_eq o k v : obj_get (obj_set o k v) k = Some v.
Proof.
  induction o as [|[k' v'] o IH]; simpl.
  - by rewrite decide_True.
  - destruct (decide (k' = k)); simpl; [by rewrite decide_True|by rewrite decide_False].
Qed.

Lemma obj_get_set_ne o k k' v : k ≠ k' → obj_get (obj_set o k v) k' = obj_get o k'.
Proof.
  intros Hne. induction o as [|[k0 v0] o IH]; simpl.
  - by rewrite decide_False.
  - destruct (decide (k0 = k)) as [->|]; simpl.
    + by rewrite !decide_False.
    + destruct (decide (k0 = k')); done.
Qed.

Lemma obj_get_set o k k' v :
  obj_get (obj_set o k v) k' = if decide (k = k') then Some v else obj_get o k'.
Proof.
  destruct (decide (k = k')) as [->|]; [apply obj_get_set_eq|by apply obj_get_set_ne].
Qed.

Lemma obj_get_None o k : obj_get o k = None ↔ k ∉ o.*1.
Proof.
  induction o as [|[k' v'] o IH]; simpl.
  - split; [|done]. intros _. apply not_elem_of_nil.
  - destruct (decide (k' = k)) as [->|Hne].
    + split; [done|]. intros Hn. exfalso. apply Hn. set_solver.
    + rewrite IH. set_solver.
Qed.

Lemma obj_get_Some_key o k v : obj_get o k = Some v → k ∈ o.*1.
Proof.
  intros Hg. destruct (decide (k ∈ o.*1)) as [|Hn]; [done|].
  apply obj_get_None in Hn. congruence.
Qed.

Lemma obj_get_is_Some o k : is_Some (obj_get o k) ↔ k ∈ o.*1.
Proof.
  destruct (obj_get o k) eqn:Hg.
  - split; [intros _; by eapply obj_get_Some_key|eauto].
  - split; [by intros [? ?]|]. intros Hk. by apply obj_get_None in Hg.
Qed.

Lemma obj_set_keys o k v :
  (obj_set o k v).*1 = if decide (k ∈ o.*1) then o.*1 else o.*1 ++ [k].
Proof.
  induction o as [|[k' v'] o IH]; csimpl.
  - done.
  - destruct (decide (k' = k)) as [->|Hne]; csimpl.
    + rewrite decide_True; [done|set_solver].
    + rewrite IH. destruct (decide (k ∈ o.*1)).
      * rewrite decide_True; [done|set_solver].
      * rewrite decide_False; [done|set_solver].
Qed.

Lemma obj_set_keys_NoDup o k v : NoDup (o.*1) → NoDup ((obj_set o k v).*1).
Proof.
  intros Hnd. rewrite obj_set_keys. destruct (decide (k ∈ o.*1)); [done|].
  apply NoDup_app. split; [done|]. split; [|apply NoDup_singleton].
  intros x Hx ->%list_elem_of_singleton. done.
Qed.

End ObjectFacts.

Lemma insert_index_perm k l : insert_index k l ≡ₚ k :: l.
Proof.
  induction l as [|k' l IH]; simpl; [done|].
  destruct (_ <=? _)%N; [done|]. rewrite IH. apply perm_swap.
Qed.

Lemma sort_indices_perm l : sort_indices l ≡ₚ l.
Proof.
  induction l as [|k l IH]; simpl; [done|].
  unfold sort_indices in *. simpl. rewrite insert_index_perm. by rewrite IH.
Qed.

Lemma Object_keys_perm {V} (o : JSObject V) : Object_keys o ≡ₚ o.*1.
Proof.
  unfold Object_keys. rewrite sort_indices_perm.
  induction (o.*1) as [|k l IH]; [done|].
  rewrite !filter_cons. destruct (is_array_index k) eqn:Hk.
  - rewrite decide_True, decide_False by done. simpl. by rewrite IH.
  - rewrite decide_False, decide_True by done.
    rewrite <- Permutation_middle. by rewrite IH.
Qed.

Lemma elem_of_Object_keys {V} (o : JSObject V) k : k ∈ Object_keys o ↔ k ∈ o.*1.
Proof. by rewrite Object_keys_perm. Qed.

(** Without array-index keys, [Object.keys] is the insertion order. *)
Lemma Object_keys_plain {V} (o : JSObject V) :
  Forall (λ k, is_array_index k = false) (o.*1) → Object_keys o = o.*1.
Proof.
  intros Hall. unfold Object_keys.
  induction Hall as [|k l Hk Hl IH]; [done|].
  rewrite !filter_cons. rewrite decide_False, decide_True by congruence.
  simpl. simpl in IH.
  assert (filter (λ k, is_array_index k = true) l = []) as Hnil.
  { clear -Hl. induction Hl as [|k l Hk Hl IH]; [done|].
    rewrite filter_cons, decide_False by congruence. done. }
  rewrite Hnil in *. simpl in *. by rewrite IH.
Qed.

Lemma ensure_key_get k o k' :
  obj_get (ensure_key k o) k' =
    if decide (k = k') then Some (default [] (obj_get o k')) else obj_get o k'.
Proof.
  unfold ensure_key. destruct (obj_get o k) eqn:Hk.
  - destruct (decide (k = k')) as [<-|]; [by rewrite Hk|done].
  - rewrite obj_get_set. destruct (decide (k = k')) as [<-|]; [by rewrite Hk|done].
Qed.

Lemma ensure_key_default k o k' :
  default [] (obj_get (ensure_key k o) k') = default [] (obj_get o k').
Proof. rewrite ensure_key_get. by destruct (decide (k = k')). Qed.

Lemma ensure_key_keys k o : (ensure_key k o).*1 = set_add k (o.*1).
Proof.
  unfold ensure_key, set_add. destruct (obj_get o k) eqn:Hk.
  - rewrite decide_True; [done|by eapply obj_get_Some_key].
  - rewrite obj_set_keys. done.
Qed.

Lemma elem_of_set_add x y s : x ∈ set_add y s ↔ x = y ∨ x ∈ s.
Proof. unfold set_add. destruct (decide (y ∈ s)); set_solver. Qed.

Lemma elem_of_set_delete x y s : x ∈ set_delete y s ↔ x ≠ y ∧ x ∈ s.
Proof. unfold set_delete. by rewrite list_elem_of_filter. Qed.

Lemma set_add_NoDup y s : NoDup s → NoDup (set_add y s).
Proof.
  intros Hnd. unfold set_add. destruct (decide (y ∈ s)); [done|].
  apply NoDup_app. split; [done|]. split; [|apply NoDup_singleton].
  intros x Hx ->%list_elem_of_singleton. done.
Qed.

Lemma set_delete_NoDup y s : NoDup s → NoDup (set_delete y s).
Proof. apply NoDup_filter. Qed.

(** ** The adjacency list: what the operations do to the observers *)

Module AdjacencyListFacts.
Import AdjacencyListWFG.

Lemma keys_addEdge a b g :
  (adjacencyList (addEdge a b g)).*1 = set_add b (set_add a ((adjacencyList g).*1)).
Proof.
  unfold addEdge. simpl. rewrite ensure_key_keys. f_equal.
  rewrite ensure_key_get, decide_True by done. simpl.
  destruct (decide (b ∈ _)).
  - apply ensure_key_keys.
  - rewrite obj_set_keys, decide_True; [apply ensure_key_keys|].
    rewrite ensure_key_keys. apply elem_of_set_add. by left.
Qed.

Lemma getNeighbors_addEdge a b g u :
  getNeighbors (addEdge a b g) u =
    if decide (u = a) then set_add b (getNeighbors g a) else getNeighbors g u.
Proof.
  unfold getNeighbors, addEdge. simpl.
  rewrite ensure_key_default.
  rewrite (ensure_key_get a (adjacencyList g) a).
  destruct (decide (a = a)) as [_|]; [|done]. simpl.
  unfold set_add.
  destruct (decide (b ∈ default [] (obj_get (adjacencyList g) a))) as [Hb|Hb].
  - rewrite ensure_key_default. by destruct (decide (u = a)) as [->|].
  - rewrite obj_get_set. destruct (decide (a = u)) as [->|Hne].
    + by rewrite decide_True.
    + rewrite decide_False by done. apply ensure_key_default.
Qed.

Lemma keys_removeEdge a b g :
  (adjacencyList (removeEdge a b g)).*1 = (adjacencyList g).*1.
Proof.
  unfold removeEdge. destruct (obj_get _ a) eqn:Ha; [|done]. simpl.
  rewrite obj_set_keys, decide_True; [done|by eapply obj_get_Some_key].
Qed.

Lemma getNeighbors_removeEdge a b g u :
  getNeighbors (removeEdge a b g) u =
    if decide (u = a) then set_delete b (getNeighbors g a) else getNeighbors g u.
Proof.
  unfold getNeighbors, removeEdge. destruct (obj_get _ a) eqn:Ha; simpl.
  - rewrite obj_get_set. destruct (decide (u = a)) as [->|].
    + by rewrite decide_True.
    + by rewrite decide_False.
  - destruct (decide (u = a)) as [->|]; [|done]. by rewrite Ha.
Qed.

End AdjacencyListFacts.

Module AdjacencyListLaws.
Import AdjacencyListWFG AdjacencyListFacts.

(** The invariant of the adjacency list: distinct keys, duplicate-free
    successor arrays, and every successor is a key. *)
Definition ok (g : t) : Prop :=
  NoDup ((adjacencyList g).*1)
  ∧ (∀ u, NoDup (getNeighbors g u))
  ∧ (∀ u v, v ∈ getNeighbors g u → v ∈ (adjacencyList g).*1).

Lemma getNodes_elem g x : x ∈ getNodes g ↔ x ∈ (adjacencyList g).*1.
Proof. apply elem_of_Object_keys. Qed.

Lemma source_is_key g u v : v ∈ getNeighbors g u → u ∈ (adjacencyList g).*1.
Proof.
  unfold getNeighbors. destruct (obj_get _ u) eqn:Hu; simpl.
  - intros _. by eapply obj_get_Some_key.
  - by intros ?%elem_of_nil.
Qed.

Lemma ok_new : ok new.
Proof.
  split; [apply NoDup_nil_2|]. split.
  - intros u. apply NoDup_nil_2.
  - intros u v Hv. by apply elem_of_nil in Hv.
Qed.

Lemma ok_addEdge a b g : ok g → ok (addEdge a b g).
Proof.
  intros (Hk & Hn & Hc). split; [|split].
  - rewrite keys_addEdge. by do 2 apply set_add_NoDup.
  - intros u. rewrite getNeighbors_addEdge.
    destruct (decide (u = a)); [by apply set_add_NoDup|done].
  - intros u v. rewrite getNeighbors_addEdge, keys_addEdge.
    rewrite !elem_of_set_add.
    destruct (decide (u = a)); [rewrite elem_of_set_add|]; naive_solver.
Qed.

Lemma ok_removeEdge a b g : ok g → ok (removeEdge a b g).
Proof.
  intros (Hk & Hn & Hc). split; [|split].
  - by rewrite keys_removeEdge.
  - intros u. rewrite getNeighbors_removeEdge.
    destruct (decide (u = a)); [by apply set_delete_NoDup|done].
  - intros u v. rewrite getNeighbors_removeEdge, keys_removeEdge.
    destruct (decide (u = a)); [rewrite elem_of_set_delete|]; naive_solver.
Qed.

Lemma edge_addEdge a b g u v :
  v ∈ getNeighbors (addEdge a b g) u ↔ v ∈ getNeighbors g u ∨ (u = a ∧ v = b).
Proof.
  rewrite getNeighbors_addEdge.
  destruct (decide (u = a)) as [->|]; [rewrite elem_of_set_add|]; naive_solver.
Qed.

Lemma edge_removeEdge a b g u v :
  v ∈ getNeighbors (removeEdge a b g) u ↔ v ∈ getNeighbors g u ∧ ¬ (u = a ∧ v = b).
Proof.
  rewrite getNeighbors_removeEdge.
  destruct (decide (u = a)) as [->|]; [rewrite elem_of_set_delete|]; naive_solver.
Qed.

Lemma getNodes_removeEdge a b g : getNodes (removeEdge a b g) = getNodes g.
Proof. unfold getNodes, Object_keys. by rewrite keys_removeEdge. Qed.

End AdjacencyListLaws.

#[export] Instance AdjacencyList_Laws : WFGLaws AdjacencyListWFG.t.
Proof.
  refine {| wfg_ok := AdjacencyListLaws.ok |}.
  - intros ns _. apply AdjacencyListLaws.ok_new.
  - apply AdjacencyListLaws.ok_addEdge.
  - apply AdjacencyListLaws.ok_removeEdge.
  - intros g _. apply AdjacencyListLaws.ok_new.
  - intros g u v (_ & _ & Hc) Hv. apply AdjacencyListLaws.getNodes_elem. by eapply Hc.
  - intros g u v _ Hv. apply AdjacencyListLaws.getNodes_elem.
    by eapply AdjacencyListLaws.source_is_key.
  - intros g (Hk & _ & _). simpl. unfold AdjacencyListWFG.getNodes.
    by rewrite Object_keys_perm.
  - intros g u (_ & Hn & _). apply Hn.
  - intros a b g u v _. apply AdjacencyListLaws.edge_addEdge.
  - intros a b g u v _. apply AdjacencyListLaws.edge_removeEdge.
  - intros a b g x _. simpl. rewrite !AdjacencyListLaws.getNodes_elem.
    rewrite AdjacencyListFacts.keys_addEdge, !elem_of_set_add. naive_solver.
  - intros a b g _. apply AdjacencyListLaws.getNodes_removeEdge.
Defined.

(** ** The hash map of sets does what the adjacency list does *)

Definition of_hash (g : HashMapSetsWFG.t) : AdjacencyListWFG.t :=
  AdjacencyListWFG.mk (HashMapSetsWFG.adjacencyMap g).

Lemma obj_set_same {V} (o : JSObject V) k v : obj_get o k = Some v → obj_set o k v = o.
Proof.
  induction o as [|[k' v'] o IH]; simpl; [done|].
  destruct (decide (k' = k)) as [->|]; [by intros [= ->]|].
  intros Hg. by rewrite IH.
Qed.

Lemma of_hash_addEdge a b g :
  of_hash (HashMapSetsWFG.addEdge a b g) = AdjacencyListWFG.addEdge a b (of_hash g).
Proof.
  unfold of_hash, HashMapSetsWFG.addEdge, AdjacencyListWFG.addEdge. simpl.
  do 2 f_equal.
  destruct (obj_get (ensure_key a _) a) as [ns|] eqn:Ha; [|done].
  unfold set_add. destruct (decide (b ∈ ns)); [by apply obj_set_same|done].
Qed.

Lemma of_hash_removeEdge a b g :
  of_hash (HashMapSetsWFG.removeEdge a b g) = AdjacencyListWFG.removeEdge a b (of_hash g).
Proof.
  unfold of_hash, HashMapSetsWFG.removeEdge, AdjacencyListWFG.removeEdge. simpl.
  by destruct (obj_get _ a).
Qed.

Lemma of_hash_getNeighbors g u :
  HashMapSetsWFG.getNeighbors g u = AdjacencyListWFG.getNeighbors (of_hash g) u.
Proof.
  unfold HashMapSetsWFG.getNeighbors, AdjacencyListWFG.getNeighbors. simpl.
  by destruct (obj_get _ u).
Qed.

Lemma of_hash_run ops g : of_hash (run_ops ops g) = run_ops ops (of_hash g).
Proof.
  revert g. induction ops as [|op ops IH]; intros g; [done|].
  unfold run_ops in *. simpl. rewrite IH. f_equal.
  destruct op; simpl.
  - apply of_hash_addEdge.
  - apply of_hash_removeEdge.
  - done.
Qed.

#[export] Instance HashMapSets_Laws : WFGLaws HashMapSetsWFG.t.
Proof.
  refine {| wfg_ok := λ g, AdjacencyListLaws.ok (of_hash g) |}.
  - intros ns _. apply AdjacencyListLaws.ok_new.
  - intros a b g Hok. simpl. rewrite of_hash_addEdge.
    by apply AdjacencyListLaws.ok_addEdge.
  - intros a b g Hok. simpl. rewrite of_hash_removeEdge.
    by apply AdjacencyListLaws.ok_removeEdge.
  - intros g _. apply AdjacencyListLaws.ok_new.
  - intros g u v (_ & _ & Hc) Hv. simpl in *. rewrite of_hash_getNeighbors in Hv.
    by eapply Hc.
  - intros g u v _ Hv. simpl in *. rewrite of_hash_getNeighbors in Hv.
    by eapply AdjacencyListLaws.source_is_key in Hv.
  - intros g (Hk & _ & _). done.
  - intros g u (_ & Hn & _). simpl. rewrite of_hash_getNeighbors. apply Hn.
  - intros a b g u v _. simpl. rewrite !of_hash_getNeighbors, of_hash_addEdge.
    apply AdjacencyListLaws.edge_addEdge.
  - intros a b g u v _. simpl. rewrite !of_hash_getNeighbors, of_hash_removeEdge.
    apply AdjacencyListLaws.edge_removeEdge.
  - intros a b g x _. simpl. unfold HashMapSetsWFG.getNodes.
    change (HashMapSetsWFG.adjacencyMap (HashMapSetsWFG.addEdge a b g))
      with (AdjacencyListWFG.adjacencyList (of_hash (HashMapSetsWFG.addEdge a b g))).
    rewrite of_hash_addEdge, AdjacencyListFacts.keys_addEdge, !elem_of_set_add.
    simpl. naive_solver.
  - intros a b g _. simpl. unfold HashMapSetsWFG.getNodes.
    change (HashMapSetsWFG.adjacencyMap (HashMapSetsWFG.removeEdge a b g))
      with (AdjacencyListWFG.adjacencyList (of_hash (HashMapSetsWFG.removeEdge a b g))).
    by rewrite of_hash_removeEdge, AdjacencyListFacts.keys_removeEdge.
Defined.

(** ** Lawful graphs are successor-closed *)

Section LawFacts.
Context {G : Type} `{WFGLaws G}.

Lemma wfg_ok_run_ops ops (g : G) : wfg_ok g → wfg_ok (run_ops ops g).
Proof.
  revert g. induction ops as [|op ops IH]; intros g Hok; [done|].
  apply IH. destruct op; simpl.
  - by apply wfg_ok_addEdge.
  - by apply wfg_ok_removeEdge.
  - by apply wfg_ok_clear.
Qed.

Lemma wfg_ok_closed (g : G) : wfg_ok g → closed g.
Proof. intros Hok u v Huv. by eapply wfg_targets. Qed.

End LawFacts.

Lemma closed_graph_of es : closed (graph_of es).
Proof.
  apply wfg_ok_closed. unfold graph_of. apply wfg_ok_run_ops.
  apply AdjacencyListLaws.ok_new.
Qed.

(** C4: the DFS detectors are sound and complete.  On every WFG whose
    successors are nodes (which all three representations guarantee),
    [detectDeadlock] and [dfsDetectCycle] return, and they report no cycle
    ([hasCycle = false], [cycle = null]) if and only if the graph given by
    [getNodes]/[getNeighbors] is acyclic; on the empty graph they report no
    cycle and zero visited nodes. *)
Theorem C4_dfs_sound_and_complete :
  ∀ {G : Type} `{WFG G} (g : G),
    closed g →
    (∃ r, detectDeadlock g = Some r ∧ (hasCycle r = false ↔ acyclic g))
    ∧ (∃ r, dfsDetectCycle g = Some r ∧ (cycle r = None ↔ acyclic g))
    ∧ (getNodes g = [] →
       detectDeadlock g = Some (mkDetectResult false [] 0)
       ∧ dfsDetectCycle g = Some (mkCycleResult None [] 0)).
Proof.
  intros G HG g Hcl. split; [|split].
  - by apply detectDeadlock_correct.
  - destruct (dfsDetectCycle_correct g Hcl) as (r & Hr & Hiff & _). eauto.
  - intros Hn. split; [by apply detectDeadlock_empty|by apply dfsDetectCycle_empty].
Qed.

Lemma C4_dfs_witness :
  let g := graph_of [("T1", "T2"); ("T2", "T3"); ("T3", "T1")] in
  (∃ r, detectDeadlock g = Some r ∧ (hasCycle r = false ↔ acyclic g))
  ∧ (∃ r, dfsDetectCycle g = Some r ∧ (cycle r = None ↔ acyclic g))
  ∧ (getNodes g = [] →
     detectDeadlock g = Some (mkDetectResult false [] 0)
     ∧ dfsDetectCycle g = Some (mkCycleResult None [] 0)).
Proof.
  intros g. apply (C4_dfs_sound_and_complete g). apply closed_graph_of.
Defined.

(** ** Victim selection *)

Lemma obj_set_absent {V} (o : JSObject V) k v :
  k ∉ o.*1 → obj_set o k v = o ++ [(k, v)].
Proof.
  induction o as [|[k' v'] o IH]; csimpl; [done|].
  intros Hk. rewrite decide_False by set_solver. rewrite IH; [done|set_solver].
Qed.

Lemma foldl_add_app (l1 l2 : list nat) :
  foldl Nat.add 0 (l1 ++ l2) = foldl Nat.add 0 l1 + foldl Nat.add 0 l2.
Proof.
  rewrite foldl_app. generalize (foldl Nat.add 0 l1) as a.
  induction l2 as [|x l2 IH]; intros a; simpl; [lia|].
  rewrite IH, (IH x). lia.
Qed.

Section VictimFacts.
Context {G : Type} `{WFG G} (g : G).

Let univ : gset string := list_to_set (getNodes g).

(** *** The degree heuristic *)

Lemma selectVictimFromCycle_fold cycle first best :
  (foldl (λ '(victim, bestScore) node,
      let score := degree_score2 g node in
      if decide (bestScore < score)%Z then (node, score) else (victim, bestScore))
    (first, best) cycle).1 ∈ first :: cycle.
Proof.
  revert first best. induction cycle as [|x cycle IH]; intros first best; simpl.
  - set_solver.
  - destruct (decide (best < degree_score2 g x)%Z).
    + specialize (IH x (degree_score2 g x)). set_solver.
    + specialize (IH first best). set_solver.
Qed.

Lemma selectVictimFromCycle_member c :
  c ≠ [] → ∃ v, selectVictimFromCycle g (Some c) = Some v ∧ v ∈ c.
Proof.
  destruct c as [|first c]; [done|]. intros _. eexists. split; [done|].
  pose proof (selectVictimFromCycle_fold (first :: c) first (-2)%Z) as Hin.
  set_solver.
Qed.

Lemma selectVictimFromCycle_None cycle :
  selectVictimFromCycle g cycle = None ↔ cycle = None ∨ cycle = Some [].
Proof.
  destruct cycle as [[|first c]|]; simpl; naive_solver.
Qed.

(** *** The breadth-first distance sum *)

Definition bfs_inv (start : string) (st : BfsState) : Prop :=
  NoDup (q st) ∧ (dist st).*1 = q st
  ∧ seen st = list_to_set (q st) ∧ seen st ⊆ {[start]} ∪ univ.

Definition bfs_total (st : BfsState) : nat := foldl Nat.add 0 (dist st).*2.

Lemma bfs_visit_inv start cur st nb :
  closed g → nb ∈ getNeighbors g cur → bfs_inv start st →
  bfs_inv start (bfs_visit cur st nb) ∧ bfs_total st ≤ bfs_total (bfs_visit cur st nb)
  ∧ (nb ∉ seen st → 1 ≤ bfs_total (bfs_visit cur st nb))
  ∧ seen st ⊆ seen (bfs_visit cur st nb) ∧ nb ∈ seen (bfs_visit cur st nb).
Proof.
  intros Hcl Hnb (Hnd & Hkeys & Hseen & Hsub). unfold bfs_visit.
  destruct (decide (nb ∉ seen st)) as [Hn|Hn].
  - assert (nb ∉ q st) as Hq.
    { rewrite Hseen in Hn. by rewrite elem_of_list_to_set in Hn. }
    rewrite obj_set_absent by (by rewrite Hkeys).
    unfold bfs_inv, bfs_total; simpl. rewrite !fmap_app. simpl.
    rewrite foldl_add_app. simpl.
    split; [|split; [lia|split; [lia|set_solver]]].
    split; [|split; [by rewrite Hkeys|split]].
    + apply NoDup_app. split; [done|]. split; [|apply NoDup_singleton].
      intros x Hx ->%list_elem_of_singleton. done.
    + rewrite list_to_set_app_L. simpl. rewrite Hseen. set_solver.
    + assert (nb ∈ univ) by (apply elem_of_list_to_set; by eapply Hcl). set_solver.
  - apply dec_stable in Hn.
    split; [done|]. split; [lia|]. split; [done|]. split; [done|done].
Qed.

Lemma bfs_fold_inv start cur : ∀ nbrs st,
  closed g → (∀ nb, nb ∈ nbrs → nb ∈ getNeighbors g cur) → bfs_inv start st →
  bfs_inv start (foldl (bfs_visit cur) st nbrs)
  ∧ bfs_total st ≤ bfs_total (foldl (bfs_visit cur) st nbrs)
  ∧ (∀ y, y ∈ nbrs → y ∉ seen st → 1 ≤ bfs_total (foldl (bfs_visit cur) st nbrs))
  ∧ seen st ⊆ seen (foldl (bfs_visit cur) st nbrs).
Proof.
  induction nbrs as [|nb nbrs IH]; intros st Hcl Hsub Hinv; simpl.
  - split; [done|]. split; [lia|]. split; [by intros y ?%elem_of_nil|done].
  - destruct (bfs_visit_inv start cur st nb) as (Hinv1 & Hle1 & Hpos1 & Hs1 & Hin1); auto.
    { apply Hsub. set_solver. }
    destruct (IH (bfs_visit cur st nb)) as (Hinv2 & Hle2 & Hpos2 & Hs2); auto.
    { intros ??. apply Hsub. set_solver. }
    split; [done|]. split; [lia|]. split; [|set_solver].
    intros y Hy Hny. apply elem_of_cons in Hy as [->|Hy].
    + specialize (Hpos1 Hny). lia.
    + destruct (decide (y ∈ seen (bfs_visit cur st nb))) as [Hys|Hys].
      * destruct (decide (nb ∉ seen st)) as [Hnb|Hnb].
        -- specialize (Hpos1 Hnb). lia.
        -- unfold bfs_visit in Hys. rewrite decide_False in Hys by done. done.
      * specialize (Hpos2 y Hy Hys). lia.
Qed.

Lemma bfs_inv_bound start st : bfs_inv start st → length (q st) ≤ S (length (getNodes g)).
Proof.
  intros (Hnd & _ & Hseen & Hsub).
  rewrite <- (size_list_to_set (C := gset string)) by done. rewrite <- Hseen.
  etrans; [by apply subseteq_size|].
  rewrite size_union_alt, size_singleton.
  assert (size (univ ∖ {[start]}) ≤ size univ) by (apply subseteq_size; set_solver).
  pose proof (size_list_to_set_le (getNodes g)) as Hle. fold univ in Hle. lia.
Qed.

Lemma bfs_loop_total start : ∀ fuel i st,
  closed g → bfs_inv start st → S (length (getNodes g)) ≤ fuel + i →
  ∃ st', bfs_loop g fuel i st = Some st' ∧ bfs_inv start st'
         ∧ bfs_total st ≤ bfs_total st'.
Proof.
  induction fuel as [|fuel IH]; intros i st Hcl Hinv Hfuel.
  - simpl. destruct (q st !! i) as [cur|] eqn:Hi; [|by eauto].
    apply lookup_lt_Some in Hi. pose proof (bfs_inv_bound start st Hinv). lia.
  - simpl. destruct (q st !! i) as [cur|] eqn:Hi; [|by eauto].
    destruct (bfs_fold_inv start cur (getNeighbors g cur) st) as (Hinv1 & Hle1 & _); auto.
    destruct (IH (S i) (foldl (bfs_visit cur) st (getNeighbors g cur)))
      as (st' & Hrun & Hinv' & Hle'); auto; [lia|].
    exists st'. split; [done|]. split; [done|lia].
Qed.

Lemma bfsSum_total start : closed g → ∃ s, bfsSum g start = Some s.
Proof.
  intros Hcl. unfold bfsSum.
  destruct (bfs_loop_total start (S (length (getNodes g))) 0
              (mkBfs [start] {[start]} [(start, 0)])) as (st' & -> & _); auto; [|lia|by eauto].
  split; [apply NoDup_singleton|]. split; [done|]. simpl. split; set_solver.
Qed.


Lemma bfs_best_spec : ∀ c best bestScore,
  closed g →
  ∃ r, bfs_best g c best bestScore = Some r
       ∧ (r = best ∨ ∃ v, r = Some v ∧ v ∈ c)
       ∧ (bestScore = None → c ≠ [] → ∃ v, r = Some v ∧ v ∈ c).
Proof.
  induction c as [|node rest IH]; intros best bestScore Hcl; simpl.
  - eexists. split; [done|]. split; [by left|done].
  - destruct (bfsSum_total node Hcl) as [s ->]. simpl.
    destruct (above s bestScore) eqn:Hab.
    + destruct (IH (Some node) (Some s) Hcl) as (r & -> & Hr & _).
      eexists. split; [done|].
      assert (∃ v, r = Some v ∧ v ∈ node :: rest) as Hv.
      { destruct Hr as [->|(v & -> & Hv)]; [exists node|exists v]; set_solver. }
      split; [by right|done].
    + destruct (IH best bestScore Hcl) as (r & -> & Hr & Hnone).
      eexists. split; [done|]. split.
      * destruct Hr as [->|(v & -> & Hv)]; [by left|right; exists v; set_solver].
      * intros ->. done.
Qed.

End VictimFacts.

(** *** [selectVictim]: sorting rearranges the candidates *)

Lemma insert_victim_perm v l : insert_victim v l ≡ₚ v :: l.
Proof.
  induction l as [|w l IH]; simpl; [done|].
  destruct (sorts_after _ _); [done|]. rewrite IH. apply perm_swap.
Qed.

Lemma sort_victims_perm l : sort_victims l ≡ₚ l.
Proof.
  unfold sort_victims. rewrite <- (app_nil_l l) at 2.
  generalize (@nil (string * option Transaction)) as acc.
  induction l as [|v l IH]; intros acc; simpl; [by rewrite app_nil_r|].
  rewrite IH, insert_victim_perm. simpl. apply Permutation_middle.
Qed.

(** ** Abort: the transaction leaves the graph *)

Section CyclesIncident.
Context {G : Type} `{WFG G} (g : G).

(** A node with an edge in or out. *)
Definition incident (x : string) : Prop :=
  (∃ y, edge g x y) ∨ (∃ y, edge g y x).

Definition cycles_incident (cs : list (list string)) : Prop :=
  ∀ c x, c ∈ cs → x ∈ c → incident x.

Lemma slice_from_subset i l x : x ∈ slice_from i l → x ∈ l.
Proof.
  unfold slice_from. destruct i; intros Hx; by eapply subseteq_drop.
Qed.

Lemma dfs_neighbors_incident rec node path :
  (∀ nb st r, edge g node nb → cycles_incident (cycles st) →
     rec nb (path ++ [node]) st = Some r → cycles_incident (cycles r.2)) →
  (∀ x, x ∈ path → ∃ y, edge g x y) →
  ∀ nbrs st r,
    (∀ nb, nb ∈ nbrs → edge g node nb) →
    cycles_incident (cycles st) →
    dfs_neighbors rec node (path ++ [node]) nbrs st = Some r →
    cycles_incident (cycles r.2).
Proof.
  intros Hrec Hpath. induction nbrs as [|nb rest IH]; intros st r Hsub Hinc; simpl.
  - by intros [= <-].
  - assert (edge g node nb) as Hnb by (apply Hsub; set_solver).
    assert (∀ nb0, nb0 ∈ rest → edge g node nb0) as Hsub'
      by (intros ??; apply Hsub; set_solver).
    destruct (decide (nb ∉ visited st)).
    + destruct (rec nb (path ++ [node]) st) as [[b st1]|] eqn:Hr; [|done].
      apply Hrec in Hr; [|done|done]. simpl in Hr.
      destruct b; [by intros [= <-]|]. by apply IH.
    + destruct (decide (nb ∈ recStack st)); [|by apply IH].
      intros [= <-]. simpl.
      destruct (isCycleDuplicate _ _); [done|]. simpl.
      intros c x [Hc|Hc]%elem_of_app Hx; [by eapply Hinc|].
      apply list_elem_of_singleton in Hc as ->.
      apply elem_of_app in Hx as [Hx|Hx].
      * apply slice_from_subset in Hx. apply elem_of_app in Hx as [Hx|Hx].
        -- left. by apply Hpath.
        -- apply list_elem_of_singleton in Hx as ->. left. by exists nb.
      * apply list_elem_of_singleton in Hx as ->. right. by exists node.
Qed.

Lemma dfs_incident fuel : ∀ node path st r,
  (∀ x, x ∈ path → ∃ y, edge g x y) →
  cycles_incident (cycles st) →
  dfs g fuel node path st = Some r → cycles_incident (cycles r.2).
Proof.
  induction fuel as [|fuel IH]; intros node path st r Hpath Hinc; [done|].
  simpl. apply dfs_neighbors_incident; try done.
  intros nb st1 r1 Hnb Hinc1. apply IH; [|done].
  intros x [Hx|Hx]%elem_of_app; [by apply Hpath|].
  apply list_elem_of_singleton in Hx as ->. by exists nb.
Qed.

Lemma detect_roots_incident fuel : ∀ nodes st st',
  cycles_incident (cycles st) →
  detect_roots g fuel nodes st = Some st' → cycles_incident (cycles st').
Proof.
  induction nodes as [|node rest IH]; intros st st' Hinc; simpl.
  - by intros [= <-].
  - destruct (decide (node ∉ visited st)); [|by apply IH].
    destruct (dfs g fuel node [] st) as [[b st1]|] eqn:Hr; [|done].
    apply dfs_incident in Hr; [|by intros x ?%elem_of_nil|done].
    by apply IH.
Qed.

(** Every node of every reported cycle has an edge in or out. *)
Lemma detectDeadlock_incident r :
  detectDeadlock g = Some r → cycles_incident (result_cycles r).
Proof.
  unfold detectDeadlock.
  destruct (detect_roots _ _ _ _) as [st'|] eqn:Hrun; [|done].
  intros [= <-]. simpl. eapply detect_roots_incident; [|done].
  by intros c x ?%elem_of_nil.
Qed.

End CyclesIncident.

Section AbortFacts.
Context {G : Type} `{WFGLaws G}.
Implicit Types g : G.
Implicit Types m : TransactionManager G.

Lemma remove_out_edges tx : ∀ l g,
  wfg_ok g →
  wfg_ok (foldl (λ g nb, removeEdge tx nb g) g l)
  ∧ ∀ u v, v ∈ getNeighbors (foldl (λ g nb, removeEdge tx nb g) g l) u
           ↔ v ∈ getNeighbors g u ∧ ¬ (u = tx ∧ v ∈ l).
Proof.
  induction l as [|nb l IH]; intros g Hok; simpl.
  - split; [done|]. intros u v. set_solver.
  - destruct (IH (removeEdge tx nb g)) as [Hok' Hiff]; [by apply wfg_ok_removeEdge|].
    split; [done|]. intros u v. rewrite Hiff, wfg_edge_removeEdge by done.
    rewrite elem_of_cons. naive_solver.
Qed.

Lemma remove_in_edges tx : ∀ l g,
  wfg_ok g →
  wfg_ok (foldl (λ g node, removeEdge node tx g) g l)
  ∧ ∀ u v, v ∈ getNeighbors (foldl (λ g node, removeEdge node tx g) g l) u
           ↔ v ∈ getNeighbors g u ∧ ¬ (v = tx ∧ u ∈ l).
Proof.
  induction l as [|node l IH]; intros g Hok; simpl.
  - split; [done|]. intros u v. set_solver.
  - destruct (IH (removeEdge node tx g)) as [Hok' Hiff]; [by apply wfg_ok_removeEdge|].
    split; [done|]. intros u v. rewrite Hiff, wfg_edge_removeEdge by done.
    rewrite elem_of_cons. naive_solver.
Qed.

Lemma add_in_edges tx : ∀ l g,
  wfg_ok g → wfg_ok (foldl (λ g waiterId, addEdge waiterId tx g) g l).
Proof.
  induction l as [|w l IH]; intros g Hok; simpl; [done|].
  apply IH. by apply wfg_ok_addEdge.
Qed.

Lemma removeWaitEdges_spec tx g :
  wfg_ok g →
  wfg_ok (removeWaitEdges tx g)
  ∧ ∀ u v, v ∈ getNeighbors (removeWaitEdges tx g) u ↔ v ∈ getNeighbors g u ∧ u ≠ tx.
Proof.
  intros Hok. unfold removeWaitEdges.
  destruct (remove_out_edges tx (getNeighbors g tx) g Hok) as [Hok' Hiff].
  split; [done|]. intros u v. rewrite Hiff. naive_solver.
Qed.

Lemma acquireLock_ok m txId resId :
  wfg_ok (wfg m) → wfg_ok (wfg (acquireLock m txId resId).1).
Proof.
  intros Hok. unfold acquireLock.
  destruct (find_tx _ _); [|done]. destruct (find_res _ _) as [res|]; [|done].
  repeat case_bool_decide; try done.
  destruct (lockedBy res); simpl.
  - by apply wfg_ok_addEdge.
  - by apply removeWaitEdges_spec.
Qed.

Lemma promote_ok resId nextTxId rest m :
  wfg_ok (wfg m) → wfg_ok (wfg (promote resId nextTxId rest m)).
Proof.
  intros Hok. unfold promote. destruct (find_tx _ _); [|done]. simpl.
  apply add_in_edges. by apply removeWaitEdges_spec.
Qed.

Lemma releaseLock_ok m txId resId :
  wfg_ok (wfg m) → wfg_ok (wfg (releaseLock m txId resId).1).
Proof.
  intros Hok. unfold releaseLock.
  destruct (find_tx _ _); [|done]. destruct (find_res _ _) as [res|]; [|done].
  case_bool_decide; [done|]. simpl.
  destruct (waitQueue res); [done|]. by apply promote_ok.
Qed.

Lemma release_all_ok txId : ∀ l m,
  wfg_ok (wfg m) → wfg_ok (wfg (foldl (λ m resId, (releaseLock m txId resId).1) m l)).
Proof.
  induction l as [|r l IH]; intros m Hok; simpl; [done|].
  apply IH. by apply releaseLock_ok.
Qed.

(** After a successful abort the WFG is still well formed and has no edge
    into or out of the aborted transaction. *)
Lemma abortTransaction_edges m txId :
  wfg_ok (wfg m) →
  success (abortTransaction m txId).2 = true →
  wfg_ok (wfg (abortTransaction m txId).1)
  ∧ ∀ u v, v ∈ getNeighbors (wfg (abortTransaction m txId).1) u → u ≠ txId ∧ v ≠ txId.
Proof.
  intros Hok. unfold abortTransaction.
  destruct (find_tx _ _) as [tx|]; [|done]. intros _. simpl.
  set (m1 := foldl _ _ (heldLocks tx)).
  assert (wfg_ok (wfg m1)) as Hok1 by by apply release_all_ok.
  destruct (remove_in_edges txId (getNodes (wfg m1)) (wfg m1) Hok1) as [Hok2 Hin].
  destruct (removeWaitEdges_spec txId _ Hok2) as [Hok3 Hout].
  split; [done|]. intros u v Huv.
  apply Hout in Huv as [Huv Hu]. apply Hin in Huv as [Huv Hv].
  split; [done|]. intros ->. apply Hv. split; [done|]. by eapply wfg_sources.
Qed.

Lemma abortTransaction_ok m txId :
  wfg_ok (wfg m) → wfg_ok (wfg (abortTransaction m txId).1).
Proof.
  intros Hok. destruct (success (abortTransaction m txId).2) eqn:Hs.
  - by apply abortTransaction_edges.
  - by rewrite abortTransaction_failure.
Qed.

Lemma abortTransaction_queues m txId r :
  success (abortTransaction m txId).2 = true →
  r ∈ resources (abortTransaction m txId).1 → txId ∉ waitQueue r.
Proof.
  unfold abortTransaction.
  destruct (find_tx _ _) as [tx|]; [|done]. intros _. simpl.
  intros (r0 & -> & _)%list_elem_of_fmap. simpl.
  rewrite list_elem_of_filter. naive_solver.
Qed.

Lemma run_calls_ok cs : ∀ m, wfg_ok (wfg m) → wfg_ok (wfg (run_calls m cs)).
Proof.
  induction cs as [|c cs IH]; intros m Hok; [done|].
  apply IH. destruct c; simpl.
  - by apply acquireLock_ok.
  - by apply releaseLock_ok.
  - by apply abortTransaction_ok.
Qed.

End AbortFacts.

(** C9: after [abortTransaction(tx)] succeeds (on a manager whose WFG is
    well formed, as every WFG the manager builds is), no WFG edge enters or
    leaves [tx], [tx] is in no wait queue, and the next [detectDeadlock] run
    returns cycles none of which contains [tx]. *)
Theorem C9_abort_removes_transaction :
  ∀ {G : Type} `{WFGLaws G} (m : TransactionManager G) (txId : string),
    wfg_ok (wfg m) →
    success (abortTransaction m txId).2 = true →
    let m' := (abortTransaction m txId).1 in
    (∀ u v, v ∈ getNeighbors (wfg m') u → u ≠ txId ∧ v ≠ txId)
    ∧ getNeighbors (wfg m') txId = []
    ∧ (∀ r, r ∈ resources m' → txId ∉ waitQueue r)
    ∧ ∃ m'' result,
        Manager_detectDeadlock m' = Some (m'', result)
        ∧ ∀ c, c ∈ result_cycles result → txId ∉ c.
Proof.
  intros G HG HL m txId Hok Hs m'.
  destruct (abortTransaction_edges m txId Hok Hs) as [Hok' Hedges]. fold m' in Hok', Hedges.
  split; [done|]. split; [|split].
  - apply elem_of_nil_inv. intros v Hv. by destruct (Hedges txId v Hv).
  - intros r. by apply abortTransaction_queues.
  - unfold Manager_detectDeadlock.
    destruct (detectDeadlock_correct (wfg m')) as (result & Hr & _);
      [by apply wfg_ok_closed|].
    rewrite Hr. simpl. eexists _, result. split; [done|].
    intros c Hc Hin.
    destruct (detectDeadlock_incident (wfg m') result Hr c txId Hc Hin) as [[y Hy]|[y Hy]].
    + by destruct (Hedges txId y Hy).
    + by destruct (Hedges y txId Hy).
Qed.

Lemma C9_abort_witness :
  let m := run_calls (contention (G := AdjacencyListWFG.t))
             [Acquire "T1" "R1"; Acquire "T2" "R1"; Acquire "T3" "R1"] in
  let m' := (abortTransaction m "T1").1 in
  (∀ u v, v ∈ getNeighbors (wfg m') u → u ≠ "T1" ∧ v ≠ "T1")
  ∧ getNeighbors (wfg m') "T1" = []
  ∧ (∀ r, r ∈ resources m' → "T1" ∉ waitQueue r)
  ∧ ∃ m'' result,
      Manager_detectDeadlock m' = Some (m'', result)
      ∧ ∀ c, c ∈ result_cycles result → "T1" ∉ c.
Proof.
  intros m.
  apply (C9_abort_removes_transaction m "T1").
  - apply run_calls_ok. apply (wfg_ok_create (G := AdjacencyListWFG.t)).
    vm_compute. repeat constructor; set_solver.
  - reflexivity.
Defined.

(** ** Conflict colouring *)

Lemma next_color_fresh used : ∀ fuel c,
  (∀ i, i < c → i ∈ used) → size used ≤ fuel + c →
  ∃ c', next_color fuel c used = Some c' ∧ c' ∉ used.
Proof.
  induction fuel as [|fuel IH]; intros c Hbelow Hfuel; simpl.
  - destruct (decide (c ∈ used)) as [Hc|Hc]; [|by eauto].
    exfalso.
    assert (set_seq 0 (S c) ⊆ used) as Hsub.
    { intros i Hi. apply elem_of_set_seq in Hi as [_ Hi].
      destruct (decide (i = c)) as [->|]; [done|]. apply Hbelow. lia. }
    apply subseteq_size in Hsub. rewrite size_set_seq in Hsub. lia.
  - destruct (decide (c ∈ used)) as [Hc|Hc]; [|by eauto].
    apply IH; [|lia].
    intros i Hi. destruct (decide (i = c)) as [->|]; [done|]. apply Hbelow. lia.
Qed.

Section ReachFacts.
Context {G : Type} `{WFG G} (g : G).

Let univ : gset string := list_to_set (getNodes g).

(** What the breadth-first search keeps: the queue holds seen nodes, every
    seen node is the start or recorded in [reach], and a seen node that left
    the queue has all its successors seen. *)
Definition reach_inv (n : string) (st : ReachState) : Prop :=
  n ∈ reach_seen st
  ∧ reach_seen st ⊆ {[n]} ∪ univ
  ∧ reach_seen st ⊆ {[n]} ∪ reach_set st
  ∧ (∀ u, u ∈ reach_seen st → u ∈ reach_q st ∨ ∀ v, edge g u v → v ∈ reach_seen st).

Definition reach_potential (n : string) (st : ReachState) : nat :=
  length (reach_q st) + size (({[n]} ∪ univ) ∖ reach_seen st).

Lemma reach_visit_spec n st nb :
  nb ∈ univ → reach_seen st ⊆ {[n]} ∪ univ →
  let st' := reach_visit st nb in
  reach_seen st' = {[nb]} ∪ reach_seen st
  ∧ reach_set st ⊆ reach_set st'
  ∧ reach_seen st' ⊆ {[n]} ∪ reach_set st' ∪ reach_seen st
  ∧ (∀ x, x ∈ reach_q st → x ∈ reach_q st')
  ∧ (∀ x, x ∈ reach_seen st' → x ∈ reach_seen st ∨ x ∈ reach_q st')
  ∧ reach_potential n st' = reach_potential n st.
Proof.
  intros Hnb Hsub. unfold reach_visit. simpl.
  destruct (decide (nb ∉ reach_seen st)) as [Hn|Hn]; simpl.
  - split; [done|]. split; [set_solver|]. split; [set_solver|].
    split; [set_solver|]. split; [set_solver|].
    unfold reach_potential. simpl. rewrite length_app. simpl.
    assert (({[n]} ∪ univ) ∖ reach_seen st
            = {[nb]} ∪ ({[n]} ∪ univ) ∖ ({[nb]} ∪ reach_seen st)) as ->.
    { apply set_eq. intros x. destruct (decide (x = nb)); set_solver. }
    rewrite size_add_fresh by set_solver. lia.
  - apply dec_stable in Hn. split; [set_solver|]. split; [done|].
    split; [set_solver|]. split; [done|]. split; [by left|done].
Qed.

Lemma reach_fold_spec n : ∀ nbrs st,
  (∀ nb, nb ∈ nbrs → nb ∈ univ) → reach_seen st ⊆ {[n]} ∪ univ →
  let st' := foldl reach_visit st nbrs in
  reach_seen st' = list_to_set nbrs ∪ reach_seen st
  ∧ reach_set st ⊆ reach_set st'
  ∧ reach_seen st' ⊆ {[n]} ∪ reach_set st' ∪ reach_seen st
  ∧ (∀ x, x ∈ reach_q st → x ∈ reach_q st')
  ∧ (∀ x, x ∈ reach_seen st' → x ∈ reach_seen st ∨ x ∈ reach_q st')
  ∧ reach_potential n st' = reach_potential n st.
Proof.
  induction nbrs as [|nb nbrs IH]; intros st Hnbrs Hsub; simpl.
  - split; [set_solver|]. split; [done|]. split; [set_solver|].
    split; [done|]. split; [by left|done].
  - destruct (reach_visit_spec n st nb) as (Hs1 & Hr1 & Hsr1 & Hq1 & Hn1 & Hp1);
      [apply Hnbrs; set_solver|done|].
    destruct (IH (reach_visit st nb)) as (Hs2 & Hr2 & Hsr2 & Hq2 & Hn2 & Hp2).
    { intros ??. apply Hnbrs. set_solver. }
    { rewrite Hs1. assert (nb ∈ univ) by (apply Hnbrs; set_solver). set_solver. }
    split; [rewrite Hs2, Hs1; set_solver|]. split; [by etrans|].
    split; [clear -Hsr1 Hsr2 Hr2; set_solver|]. split; [by auto|]. split; [|lia].
    intros x Hx. destruct (Hn2 x Hx) as [Hx1|Hx1]; [|by right].
    destruct (Hn1 x Hx1) as [?|?]; [by left|right; by auto].
Qed.

Lemma reach_loop_spec n : ∀ fuel st,
  closed g → reach_inv n st → reach_potential n st ≤ fuel →
  ∃ st', reach_loop g fuel st = Some st' ∧ reach_inv n st' ∧ reach_q st' = [].
Proof.
  induction fuel as [|fuel IH]; intros st Hcl Hinv Hpot; simpl.
  - destruct (reach_q st) as [|cur q'] eqn:Hq; [by eauto|].
    unfold reach_potential in Hpot. rewrite Hq in Hpot. simpl in Hpot. lia.
  - destruct (reach_q st) as [|cur q'] eqn:Hq; [by eauto|].
    destruct Hinv as (Hn & Hu & Hr & Hfront).
    set (st0 := mkReach q' (reach_seen st) (reach_set st)).
    destruct (reach_fold_spec n (getNeighbors g cur) st0)
      as (Hs2 & Hr2 & Hsr2 & Hq2 & Hn2 & Hp2); [|done|].
    { intros nb Hnb. apply elem_of_list_to_set. by eapply Hcl. }
    simpl in *. apply IH; [done| |].
    + split; [rewrite Hs2; set_solver|]. split.
      { rewrite Hs2. intros x [Hx|Hx]%elem_of_union; [|by apply Hu].
        apply elem_of_list_to_set in Hx. apply elem_of_union_r, elem_of_list_to_set.
        by eapply Hcl. }
      split; [clear -Hsr2 Hr Hr2; set_solver|].
      intros u Hu'. destruct (Hn2 u Hu') as [Hold|Hnew]; [|by left].
      destruct (Hfront u Hold) as [Hin|Hdone].
      * rewrite Hq in Hin. apply elem_of_cons in Hin as [->|Hin].
        -- right. intros v Hv. rewrite Hs2. apply elem_of_union_l.
           by apply elem_of_list_to_set.
        -- left. by apply Hq2.
      * right. intros v Hv. rewrite Hs2. apply elem_of_union_r. by apply Hdone.
    + rewrite Hp2. unfold reach_potential in *. rewrite Hq in Hpot. simpl in *. lia.
Qed.

(** The search returns and records every other node its start reaches. *)
Lemma reach_from_complete n :
  closed g →
  ∃ R, reach_from g n = Some R ∧ ∀ v, reachable g n v → v ≠ n → v ∈ R.
Proof.
  intros Hcl. unfold reach_from.
  destruct (reach_loop_spec n (S (length (getNodes g))) (mkReach [n] {[n]} ∅))
    as (st' & -> & (Hn & Hu & Hr & Hfront) & Hq); [done| | |].
  - split; [set_solver|]. split; [set_solver|]. split; [set_solver|].
    intros u Hu. left. set_solver.
  - unfold reach_potential. simpl.
    assert (size (({[n]} ∪ univ) ∖ {[n]}) ≤ size univ) by (apply subseteq_size; set_solver).
    pose proof (size_list_to_set_le (getNodes g)) as Hle. fold univ in Hle. lia.
  - simpl. eexists. split; [done|]. intros v Hv Hne.
    assert (v ∈ reach_seen st'); [|set_solver].
    eapply closed_set_reach; [|done|done].
    intros u w Hu' Huw. destruct (Hfront u Hu') as [Hin|Hdone]; [|by apply Hdone].
    rewrite Hq in Hin. by apply elem_of_nil in Hin.
Qed.

Lemma compute_reach_spec : ∀ nodes (acc : gmap string (gset string)),
  closed g →
  ∃ reach : gmap string (gset string), foldl (λ acc n, reach ← acc; r ← reach_from g n; Some (<[n := r]> reach))
             (Some acc) nodes = Some reach
    ∧ ∀ a, a ∈ nodes → ∃ R, reach !! a = Some R ∧ reach_from g a = Some R.
Proof.
  induction nodes as [|n nodes IH] using rev_ind; intros acc Hcl; simpl.
  - eexists. split; [done|]. by intros a ?%elem_of_nil.
  - rewrite foldl_app. simpl.
    destruct (IH acc Hcl) as (reach & -> & Hall). simpl.
    destruct (reach_from_complete n Hcl) as (R & HR & _). rewrite HR. simpl.
    eexists. split; [done|]. intros a Ha.
    destruct (decide (a = n)) as [->|Hne].
    + exists R. by rewrite lookup_insert_eq.
    + rewrite lookup_insert_ne by done. apply Hall. set_solver.
Qed.

End ReachFacts.

Section ColoringFacts.
Context {G : Type} `{WFG G} (g : G).
Implicit Types adj reach : gmap string (gset string).

Definition has_conflict adj (a b : string) : Prop := b ∈ default ∅ (adj !! a).

Lemma add_conflict_mono adj a b x y :
  has_conflict adj x y → has_conflict (add_conflict a b adj) x y.
Proof.
  unfold has_conflict, add_conflict. rewrite lookup_alter.
  case_decide; [|done]. subst. destruct (adj !! x); simpl; set_solver.
Qed.

Lemma add_conflict_here adj a b :
  is_Some (adj !! a) → has_conflict (add_conflict a b adj) a b.
Proof.
  intros [s Hs]. unfold has_conflict, add_conflict.
  rewrite lookup_alter, decide_True by done. rewrite Hs. simpl. set_solver.
Qed.

Lemma add_conflict_keys adj a b x :
  is_Some (adj !! x) → is_Some (add_conflict a b adj !! x).
Proof.
  intros [s Hs]. unfold add_conflict. rewrite lookup_alter.
  case_decide; subst; rewrite Hs; simpl; eauto.
Qed.

Definition conflict_step reach (a : string) adj (b : string) :=
  if decide (a = b) then adj
  else if reaches reach a b || reaches reach b a
       then add_conflict b a (add_conflict a b adj)
       else adj.

Lemma conflict_inner reach a : ∀ bs adj,
  is_Some (adj !! a) → (∀ b, b ∈ bs → is_Some (adj !! b)) →
  let adj' := foldl (conflict_step reach a) adj bs in
  (∀ x y, has_conflict adj x y → has_conflict adj' x y)
  ∧ (∀ x, is_Some (adj !! x) → is_Some (adj' !! x))
  ∧ (∀ b, b ∈ bs → a ≠ b → reaches reach a b || reaches reach b a = true →
       has_conflict adj' a b ∧ has_conflict adj' b a).
Proof.
  induction bs as [|b bs IH]; intros adj Ha Hbs; simpl.
  - split; [done|]. split; [done|]. by intros b ?%elem_of_nil.
  - assert ((∀ x y, has_conflict adj x y → has_conflict (conflict_step reach a adj b) x y)
            ∧ (∀ x, is_Some (adj !! x) → is_Some (conflict_step reach a adj b !! x))
            ∧ (a ≠ b → reaches reach a b || reaches reach b a = true →
               has_conflict (conflict_step reach a adj b) a b
               ∧ has_conflict (conflict_step reach a adj b) b a)) as (Hm & Hk & Hnew).
    { unfold conflict_step. destruct (decide (a = b)); [done|].
      destruct (_ || _); [|done].
      split; [by intros; do 2 apply add_conflict_mono|].
      split; [by intros; do 2 apply add_conflict_keys|].
      intros _ _. split.
      - apply add_conflict_mono, add_conflict_here. done.
      - apply add_conflict_here, add_conflict_keys, Hbs. set_solver. }
    destruct (IH (conflict_step reach a adj b)) as (Hm' & Hk' & Hnew'); [by auto| |].
    { intros b' Hb'. apply Hk, Hbs. set_solver. }
    split; [by auto|]. split; [by auto|].
    intros b' [->|Hb']%elem_of_cons Hne Hc.
    + destruct (Hnew Hne Hc). split; by apply Hm'.
    + by apply Hnew'.
Qed.

Lemma conflict_outer reach nodes : ∀ as_ adj,
  (∀ a, a ∈ as_ → is_Some (adj !! a)) → (∀ b, b ∈ nodes → is_Some (adj !! b)) →
  let adj' := foldl (λ adj a, foldl (conflict_step reach a) adj nodes) adj as_ in
  (∀ x y, has_conflict adj x y → has_conflict adj' x y)
  ∧ (∀ a b, a ∈ as_ → b ∈ nodes → a ≠ b →
       reaches reach a b || reaches reach b a = true →
       has_conflict adj' a b ∧ has_conflict adj' b a).
Proof.
  induction as_ as [|a as_ IH]; intros adj Has Hnodes; simpl.
  - split; [done|]. by intros a b ?%elem_of_nil.
  - destruct (conflict_inner reach a nodes adj) as (Hm & Hk & Hnew);
      [apply Has; set_solver|done|].
    destruct (IH (foldl (conflict_step reach a) adj nodes)) as (Hm' & Hnew').
    { intros a' Ha'. apply Hk, Has. set_solver. }
    { intros b Hb. by apply Hk, Hnodes. }
    split; [by auto|].
    intros a' b [->|Ha']%elem_of_cons Hb Hne Hc.
    + destruct (Hnew b Hb Hne Hc). split; by apply Hm'.
    + by apply Hnew'.
Qed.

Lemma initial_adj_keys : ∀ nodes (adj : gmap string (gset string)) b,
  b ∈ nodes ∨ is_Some (adj !! b) →
  is_Some (foldl (λ adj a, <[a := ∅]> adj) adj nodes !! b).
Proof.
  induction nodes as [|a nodes IH]; intros adj b Hb; simpl.
  - destruct Hb as [Hb|Hb]; [by apply elem_of_nil in Hb|done].
  - apply IH. destruct (decide (a = b)) as [->|Hne].
    + right. rewrite lookup_insert_eq. eauto.
    + rewrite lookup_insert_ne by done. set_solver.
Qed.

(** Two distinct nodes, one of which the reachability table says reaches the
    other, are conflict neighbours of each other. *)
Lemma compute_conflictAdj_spec nodes reach a b :
  a ∈ nodes → b ∈ nodes → a ≠ b →
  reaches reach a b || reaches reach b a = true →
  has_conflict (compute_conflictAdj nodes reach) a b
  ∧ has_conflict (compute_conflictAdj nodes reach) b a.
Proof.
  intros Ha Hb Hne Hc. unfold compute_conflictAdj.
  eapply (conflict_outer reach nodes nodes); try done;
    intros x Hx; apply initial_adj_keys; by left.
Qed.

Lemma elem_of_used_colors adj (colors : JSObject nat) node c :
  c ∈ used_colors adj colors node
  ↔ ∃ nb, has_conflict adj node nb ∧ obj_get colors nb = Some c.
Proof.
  unfold used_colors, has_conflict.
  rewrite elem_of_list_to_set, list_elem_of_omap.
  by setoid_rewrite elem_of_elements.
Qed.

(** Greedy colouring gives every node a colour, and conflict neighbours get
    different ones. *)
Lemma greedy_colors_spec adj : ∀ nodes,
  NoDup nodes →
  ∃ colors, greedy_colors nodes adj = Some colors
    ∧ colors.*1 = nodes
    ∧ ∀ x y c, x ≠ y → has_conflict adj x y → has_conflict adj y x →
        obj_get colors x = Some c → obj_get colors y = Some c → False.
Proof.
  unfold greedy_colors.
  induction nodes as [|z nodes IH] using rev_ind; intros Hnd.
  - exists []. split; [done|]. split; [done|]. by intros x y c _ _ _ [=].
  - apply NoDup_app in Hnd as (Hnd & Hz & _).
    destruct (IH Hnd) as (colors & Hrun & Hkeys & Hsafe).
    rewrite foldl_app, Hrun. simpl.
    destruct (next_color_fresh (used_colors adj colors z) (size (used_colors adj colors z)) 0)
      as (c & Hc & Hfresh); [lia|lia|].
    rewrite Hc. simpl.
    assert (z ∉ colors.*1) as Hznew.
    { rewrite Hkeys. intros Hin. apply (Hz z Hin). set_solver. }
    exists (obj_set colors z c). split; [done|].
    split; [by rewrite obj_set_keys, decide_False, Hkeys|].
    intros x y c' Hne Hxy Hyx. rewrite !obj_get_set.
    destruct (decide (z = x)) as [<-|Hx]; destruct (decide (z = y)) as [<-|Hy].
    + done.
    + intros [= <-] Hy'. apply Hfresh. apply elem_of_used_colors. eauto.
    + intros Hx' [= <-]. apply Hfresh. apply elem_of_used_colors. eauto.
    + by apply Hsafe.
Qed.

(** The colouring returns, colours every node, and never gives one colour to
    two distinct nodes one of which reaches the other. *)
Lemma coloring_safe :
  closed g → NoDup (getNodes g) →
  ∃ r, computeConflictColorsByReachability g = Some r
    ∧ (colors r).*1 = getNodes g
    ∧ ∀ a b c, a ≠ b →
        obj_get (colors r) a = Some c → obj_get (colors r) b = Some c →
        ¬ reachable g a b ∧ ¬ reachable g b a.
Proof.
  intros Hcl Hnd. unfold computeConflictColorsByReachability.
  destruct (compute_reach_spec g (getNodes g) ∅ Hcl) as (reach & Hreach & Hall).
  unfold compute_reach. rewrite Hreach. simpl.
  destruct (greedy_colors_spec (compute_conflictAdj (getNodes g) reach) (getNodes g) Hnd)
    as (colors & -> & Hkeys & Hsafe).
  simpl. eexists. split; [done|]. simpl. split; [done|].
  intros a b c Hne Ha Hb.
  assert (a ∈ getNodes g) as Han by (rewrite <- Hkeys; by eapply obj_get_Some_key).
  assert (b ∈ getNodes g) as Hbn by (rewrite <- Hkeys; by eapply obj_get_Some_key).
  assert (∀ x y, x ∈ getNodes g → y ∈ getNodes g → x ≠ y → reachable g x y →
          reaches reach x y = true) as Hcomplete.
  { intros x y Hx Hy Hxy Hr. destruct (Hall x Hx) as (R & HR & Hfrom).
    destruct (reach_from_complete g x Hcl) as (R' & Hfrom' & Hc).
    rewrite Hfrom in Hfrom'. injection Hfrom' as <-.
    unfold reaches. rewrite HR. simpl. apply bool_decide_eq_true. apply Hc; [done|].
    by intros ->. }
  split; intros Hr.
  - destruct (compute_conflictAdj_spec (getNodes g) reach a b) as [Hab Hba]; try done.
    { by rewrite (Hcomplete a b). }
    by eapply (Hsafe a b c).
  - destruct (compute_conflictAdj_spec (getNodes g) reach a b) as [Hab Hba]; try done.
    { rewrite (Hcomplete b a) by done. by rewrite orb_true_r. }
    by eapply (Hsafe a b c).
Qed.

End ColoringFacts.

(** C6: on every WFG with distinct nodes whose successors are nodes, the
    reachability-based colouring returns and gives every node a colour such
    that two distinct nodes of the same colour do not reach one another, in
    either direction, directly or transitively. *)
Theorem C6_coloring_safety :
  ∀ {G : Type} `{WFG G} (g : G),
    closed g → NoDup (getNodes g) →
    ∃ r, computeConflictColorsByReachability g = Some r
      ∧ (∀ a, a ∈ getNodes g → is_Some (obj_get (colors r) a))
      ∧ ∀ a b c, a ≠ b →
          obj_get (colors r) a = Some c → obj_get (colors r) b = Some c →
          ¬ reachable g a b ∧ ¬ reachable g b a.
Proof.
  intros G HG g Hcl Hnd.
  destruct (coloring_safe g Hcl Hnd) as (r & Hr & Hkeys & Hsafe).
  exists r. split; [done|]. split; [|done].
  intros a Ha. apply obj_get_is_Some. by rewrite Hkeys.
Qed.

Lemma C6_coloring_witness :
  let g := graph_of [("T1", "T2"); ("T2", "T3"); ("T4", "T3"); ("T5", "T6")] in
  ∃ r, computeConflictColorsByReachability g = Some r
    ∧ (∀ a, a ∈ getNodes g → is_Some (obj_get (colors r) a))
    ∧ ∀ a b c, a ≠ b →
        obj_get (colors r) a = Some c → obj_get (colors r) b = Some c →
        ¬ reachable g a b ∧ ¬ reachable g b a.
Proof.
  intros g. apply (C6_coloring_safety g).
  - apply closed_graph_of.
  - apply (wfg_nodes_NoDup (G := AdjacencyListWFG.t)).
    unfold g, graph_of. apply wfg_ok_run_ops. apply AdjacencyListLaws.ok_new.
Defined.

(** ** The adjacency matrix: what the operations do to the observers *)

Module AdjacencyMatrixFacts.
Import AdjacencyMatrixWFG.

(** The cell at row [i], column [j] holds 1. *)
Definition cell1 (m : list (list nat)) (i j : nat) : Prop :=
  m !! i ≫= (.!! j) = Some 1.

(** The invariant of the matrix representation. *)
Definition ok (g : t) : Prop :=
  NoDup (nodes g)
  ∧ (∀ s i, nodeIndexMap g !! s = Some i ↔ nodes g !! i = Some s)
  ∧ length (matrix g) = length (nodes g)
  ∧ (∀ row, row ∈ matrix g → length row = length (nodes g)).

Lemma elem_of_row_neighbors g row v :
  v ∈ row_neighbors g row ↔ ∃ j, row !! j = Some 1 ∧ nodes g !! j = Some v.
Proof.
  unfold row_neighbors. rewrite list_elem_of_fmap. split.
  - intros ([c v'] & -> & Hin). apply list_elem_of_filter in Hin as [Hc Hin].
    simpl in Hc. subst c. apply list_elem_of_lookup in Hin as [j Hj].
    apply lookup_zip_with_Some in Hj as (c & w & [= <- <-] & Hr & Hn). eauto.
  - intros (j & Hr & Hn). exists (1, v). split; [done|].
    apply list_elem_of_filter. split; [done|].
    apply list_elem_of_lookup. exists j. apply lookup_zip_with_Some. eauto.
Qed.

Lemma row_neighbors_NoDup g row : NoDup (nodes g) → NoDup (row_neighbors g row).
Proof.
  intros Hnd. unfold row_neighbors.
  assert ((filter (λ e : nat * string, e.1 = 1) (zip row (nodes g))).*2
            `sublist_of` nodes g) as Hsub.
  { etrans; [apply fmap_sublist, sublist_filter|].
    clear Hnd. generalize (nodes g) as ns. revert row.
    induction row as [|c row IH]; intros [|n ns]; simpl; try constructor.
    - apply sublist_nil_l.
    - apply IH. }
  by eapply sublist_NoDup.
Qed.

Lemma elem_of_getNeighbors g u v :
  v ∈ getNeighbors g u
  ↔ ∃ i j, nodeIndexMap g !! u = Some i ∧ nodes g !! j = Some v ∧ cell1 (matrix g) i j.
Proof.
  unfold getNeighbors, cell1. destruct (nodeIndexMap g !! u) as [i|] eqn:Hu.
  - rewrite elem_of_row_neighbors. split.
    + intros (j & Hr & Hn). exists i, j. split; [done|]. split; [done|].
      destruct (matrix g !! i); simpl in *; [done|]. by rewrite lookup_nil in Hr.
    + intros (i' & j & [= <-] & Hn & Hc). exists j. split; [|done].
      destruct (matrix g !! i); simpl in *; done.
  - split; [by intros ?%elem_of_nil|]. by intros (i & j & [=] & _).
Qed.

Lemma cell1_set_cell m i0 j0 v i j :
  cell1 (set_cell i0 j0 v m) i j
  ↔ if decide (i = i0 ∧ j = j0)
    then v = 1 ∧ ∃ row, m !! i0 = Some row ∧ j0 < length row
    else cell1 m i j.
Proof.
  unfold cell1, set_cell. destruct (decide (i = i0)) as [->|Hi].
  - rewrite list_lookup_alter_eq. destruct (m !! i0) as [row|] eqn:Hrow; simpl.
    + destruct (decide (j = j0)) as [->|Hj].
      * rewrite decide_True by done.
        destruct (decide (j0 < length row)).
        -- rewrite list_lookup_insert_eq by done. naive_solver.
        -- rewrite list_insert_ge by lia. split.
           ++ intros Hl. apply lookup_lt_Some in Hl. lia.
           ++ intros (_ & row' & [= <-] & ?). lia.
      * rewrite decide_False by naive_solver. by rewrite list_lookup_insert_ne.
    + case_decide; [|done]. naive_solver.
  - rewrite list_lookup_alter_ne by done. rewrite decide_False by naive_solver. done.
Qed.

Lemma cell1_grow (m : list (list nat)) (n : nat) i j :
  cell1 (((λ row, row ++ [0]) <$> m) ++ [replicate n 0]) i j ↔ cell1 m i j.
Proof.
  unfold cell1. destruct (decide (i < length m)) as [Hi|Hi].
  - rewrite lookup_app_l by (by rewrite length_fmap).
    rewrite list_lookup_fmap. destruct (m !! i) as [row|]; simpl; [|done].
    destruct (decide (j < length row)).
    + by rewrite lookup_app_l.
    + rewrite lookup_app_r by lia. rewrite (lookup_ge_None_2 row) by lia.
      destruct (j - length row); simpl; [done|]. by rewrite lookup_nil.
  - rewrite (lookup_ge_None_2 m) by lia. simpl.
    rewrite lookup_app_r by (rewrite length_fmap; lia). rewrite length_fmap.
    destruct (i - length m) as [|k]; simpl.
    + split; [|done]. intros Hr. apply lookup_replicate in Hr as [? _]. done.
    + done.
Qed.

Lemma ok_not_node g s : ok g → nodeIndexMap g !! s = None ↔ s ∉ nodes g.
Proof.
  intros (_ & Hmap & _). split.
  - intros Hn [i Hi]%list_elem_of_lookup. apply Hmap in Hi. congruence.
  - intros Hs. destruct (nodeIndexMap g !! s) as [i|] eqn:Hi; [|done].
    apply Hmap in Hi. exfalso. apply Hs. by eapply list_elem_of_lookup_2.
Qed.

Lemma matrix_ok_new : ok (new []).
Proof.
  split; [apply NoDup_nil_2|]. split; [|split; [done|]].
  - intros s i. unfold new, initializeMatrix. simpl. by rewrite lookup_empty, lookup_nil.
  - simpl. by intros row ?%elem_of_nil.
Qed.

Lemma nodes_addNode x g : ok g → nodes (addNode x g) = set_add x (nodes g).
Proof.
  intros Hok. unfold addNode, set_add.
  destruct (nodeIndexMap g !! x) as [i|] eqn:Hx.
  - destruct Hok as (_ & Hmap & _). apply Hmap in Hx.
    rewrite decide_True; [done|by eapply list_elem_of_lookup_2].
  - apply ok_not_node in Hx; [|done]. by rewrite decide_False.
Qed.

Lemma ok_addNode x g : ok g → ok (addNode x g).
Proof.
  intros Hok. pose proof Hok as (Hnd & Hmap & Hlen & Hrows). unfold addNode.
  destruct (nodeIndexMap g !! x) as [i|] eqn:Hx; [done|].
  apply ok_not_node in Hx; [|done].
  split; [|split; [|split]]; simpl.
  - apply NoDup_app. split; [done|]. split; [|apply NoDup_singleton].
    intros y Hy ->%list_elem_of_singleton. done.
  - intros s i. destruct (decide (s = x)) as [->|Hne].
    + rewrite lookup_insert_eq. split.
      * intros [= <-]. by rewrite lookup_app_r, Nat.sub_diag.
      * intros Hi. f_equal. destruct (decide (i < length (nodes g))) as [Hlt|Hge].
        -- rewrite lookup_app_l in Hi by done. exfalso. apply Hx.
           by eapply list_elem_of_lookup_2.
        -- apply lookup_lt_Some in Hi. rewrite length_app in Hi. simpl in Hi. lia.
    + rewrite lookup_insert_ne by done. rewrite Hmap. split.
      * intros Hi. rewrite lookup_app_l; [done|]. by eapply lookup_lt_Some.
      * intros Hi. destruct (decide (i < length (nodes g))) as [Hlt|Hge].
        -- by rewrite lookup_app_l in Hi.
        -- rewrite lookup_app_r in Hi by lia.
           destruct (i - length (nodes g)); simpl in Hi; [congruence|].
           by rewrite lookup_nil in Hi.
  - rewrite !length_app, length_fmap. simpl. lia.
  - intros row [Hrow|Hrow]%elem_of_app.
    + apply list_elem_of_fmap in Hrow as (row' & -> & Hrow').
      rewrite !length_app. simpl. by rewrite (Hrows row').
    + apply list_elem_of_singleton in Hrow as ->. by rewrite length_replicate.
Qed.

Lemma getNeighbors_addNode x g u v :
  ok g → v ∈ getNeighbors (addNode x g) u ↔ v ∈ getNeighbors g u.
Proof.
  intros Hok. pose proof Hok as (Hnd & Hmap & Hlen & Hrows).
  unfold addNode. destruct (nodeIndexMap g !! x) as [i0|] eqn:Hx; [done|].
  pose proof (ok_addNode x g Hok) as Hok'. unfold addNode in Hok'. rewrite Hx in Hok'.
  destruct Hok' as (_ & Hmap' & _).
  rewrite !elem_of_getNeighbors. simpl.
  split; intros (i & j & Hu & Hv & Hc).
  - apply cell1_grow in Hc.
    assert (i < length (matrix g)) as Hi.
    { unfold cell1 in Hc. destruct (matrix g !! i) eqn:E; [|done].
      by eapply lookup_lt_Some. }
    assert (∃ row, matrix g !! i = Some row ∧ j < length row) as (row & Hrow & Hj).
    { unfold cell1 in Hc. destruct (matrix g !! i) as [row|] eqn:E; [|done].
      exists row. split; [done|]. simpl in Hc. by eapply lookup_lt_Some. }
    rewrite (Hrows row) in Hj by by eapply list_elem_of_lookup_2.
    exists i, j. split; [|split; [|done]].
    + apply Hmap. apply Hmap' in Hu. simpl in Hu.
      rewrite lookup_app_l in Hu by lia. done.
    + by rewrite lookup_app_l in Hv.
  - exists i, j. split; [|split; [|by apply cell1_grow]].
    + apply Hmap'. simpl. apply Hmap in Hu.
      rewrite lookup_app_l; [done|by eapply lookup_lt_Some].
    + rewrite lookup_app_l; [done|by eapply lookup_lt_Some].
Qed.

Lemma set_cell_rows m i j v row' :
  row' ∈ set_cell i j v m → ∃ row, row ∈ m ∧ length row' = length row.
Proof.
  unfold set_cell. intros [k Hk]%list_elem_of_lookup.
  destruct (decide (k = i)) as [->|Hne].
  - rewrite list_lookup_alter_eq in Hk. destruct (m !! i) as [row|] eqn:Hrow; [|done].
    injection Hk as <-. exists row. split; [by eapply list_elem_of_lookup_2|].
    apply length_insert.
  - rewrite list_lookup_alter_ne in Hk by done. exists row'.
    split; [by eapply list_elem_of_lookup_2|done].
Qed.

Lemma ok_set_cell g i j v :
  ok g → ok (mk (nodes g) (nodeIndexMap g) (set_cell i j v (matrix g))).
Proof.
  intros (Hnd & Hmap & Hlen & Hrows). split; [done|]. split; [done|]. simpl.
  split; [unfold set_cell; by rewrite length_alter|].
  intros row' (row & Hrow & ->)%set_cell_rows. by apply Hrows.
Qed.

Lemma addEdge_unfold a b g :
  addEdge a b g =
    let g2 := addNode b (addNode a g) in
    match nodeIndexMap g2 !! a, nodeIndexMap g2 !! b with
    | Some fromIndex, Some toIndex =>
        mk (nodes g2) (nodeIndexMap g2) (set_cell fromIndex toIndex 1 (matrix g2))
    | _, _ => g2
    end.
Proof.
  unfold addEdge.
  assert (∀ x h, match nodeIndexMap h !! x with None => addNode x h | Some _ => h end
                 = addNode x h) as Hadd.
  { intros x h. unfold addNode. by destruct (nodeIndexMap h !! x). }
  by rewrite !Hadd.
Qed.

Lemma addNode_index x g :
  ok g → ∃ i, nodeIndexMap (addNode x g) !! x = Some i ∧ i < length (nodes (addNode x g)).
Proof.
  intros Hok. pose proof (ok_addNode x g Hok) as (_ & Hmap & _).
  assert (x ∈ nodes (addNode x g)) as [i Hi]%list_elem_of_lookup.
  { rewrite nodes_addNode by done. apply elem_of_set_add. by left. }
  exists i. split; [by apply Hmap|by eapply lookup_lt_Some].
Qed.

Lemma addNode_keeps x y g i :
  ok g → nodeIndexMap g !! y = Some i → nodeIndexMap (addNode x g) !! y = Some i.
Proof.
  intros Hok Hy. unfold addNode. destruct (nodeIndexMap g !! x) eqn:Hx; [done|].
  simpl. rewrite lookup_insert_ne; [done|]. intros ->. congruence.
Qed.

Lemma matrix_ok_addEdge a b g : ok g → ok (addEdge a b g).
Proof.
  intros Hok. rewrite addEdge_unfold. simpl.
  pose proof (ok_addNode b _ (ok_addNode a g Hok)) as Hok2.
  destruct (nodeIndexMap _ !! a); [|done]. destruct (nodeIndexMap _ !! b); [|done].
  by apply ok_set_cell.
Qed.

Lemma matrix_ok_removeEdge a b g : ok g → ok (removeEdge a b g).
Proof.
  intros Hok. unfold removeEdge.
  destruct (nodeIndexMap _ !! a); [|done]. destruct (nodeIndexMap _ !! b); [|done].
  by apply ok_set_cell.
Qed.

Lemma nodes_addEdge a b g :
  ok g → nodes (addEdge a b g) = set_add b (set_add a (nodes g)).
Proof.
  intros Hok. rewrite addEdge_unfold. simpl.
  rewrite <- (nodes_addNode a g Hok), <- (nodes_addNode b _ (ok_addNode a g Hok)).
  destruct (nodeIndexMap _ !! a); [|done]. by destruct (nodeIndexMap _ !! b).
Qed.

Lemma nodes_removeEdge a b g : nodes (removeEdge a b g) = nodes g.
Proof.
  unfold removeEdge.
  destruct (nodeIndexMap _ !! a); [|done]. by destruct (nodeIndexMap _ !! b).
Qed.

(** The index of a node is unique. *)
Lemma ok_index_inj g s i j :
  ok g → nodes g !! i = Some s → nodes g !! j = Some s → i = j.
Proof. intros (Hnd & _) Hi Hj. by eapply NoDup_lookup. Qed.

Lemma cell_in_range g i j :
  ok g → i < length (nodes g) → j < length (nodes g) →
  ∃ row, matrix g !! i = Some row ∧ j < length row.
Proof.
  intros (_ & _ & Hlen & Hrows) Hi Hj.
  destruct (lookup_lt_is_Some_2 (matrix g) i) as [row Hrow]; [lia|].
  exists row. split; [done|]. rewrite (Hrows row); [done|].
  by eapply list_elem_of_lookup_2.
Qed.

Lemma matrix_edge_addEdge a b g u v :
  ok g →
  v ∈ getNeighbors (addEdge a b g) u ↔ v ∈ getNeighbors g u ∨ (u = a ∧ v = b).
Proof.
  intros Hok. rewrite addEdge_unfold. simpl.
  pose proof (ok_addNode a g Hok) as Hok1.
  pose proof (ok_addNode b _ Hok1) as Hok2.
  rewrite <- (getNeighbors_addNode a g u v Hok).
  rewrite <- (getNeighbors_addNode b (addNode a g) u v Hok1).
  destruct (addNode_index a g Hok) as (fi0 & Hfi0 & _).
  apply (addNode_keeps b) in Hfi0; [|done].
  destruct (addNode_index b (addNode a g) Hok1) as (ti & Hti & Hti').
  set (g2 := addNode b (addNode a g)) in *.
  rewrite Hfi0, Hti.
  pose proof Hok2 as (Hnd & Hmap & Hlen & Hrows).
  assert (fi0 < length (nodes g2)) as Hfi'.
  { apply Hmap in Hfi0. by eapply lookup_lt_Some. }
  rewrite !elem_of_getNeighbors. simpl. split.
  - intros (i & j & Hu & Hv & Hc). apply cell1_set_cell in Hc.
    destruct (decide (i = fi0 ∧ j = ti)) as [[-> ->]|Hne].
    + right. apply Hmap in Hu, Hfi0, Hti. split; congruence.
    + left. by exists i, j.
  - intros [(i & j & Hu & Hv & Hc)|[-> ->]].
    + exists i, j. split; [done|]. split; [done|]. apply cell1_set_cell.
      destruct (decide (i = fi0 ∧ j = ti)) as [[-> ->]|Hne]; [|done].
      split; [done|]. by apply cell_in_range.
    + exists fi0, ti. split; [done|]. split; [by apply Hmap|].
      apply cell1_set_cell. rewrite decide_True by done.
      split; [done|]. by apply cell_in_range.
Qed.

Lemma matrix_edge_removeEdge a b g u v :
  ok g →
  v ∈ getNeighbors (removeEdge a b g) u ↔ v ∈ getNeighbors g u ∧ ¬ (u = a ∧ v = b).
Proof.
  intros Hok. pose proof Hok as (Hnd & Hmap & Hlen & Hrows). unfold removeEdge.
  destruct (nodeIndexMap g !! a) as [fi|] eqn:Hfi.
  2:{ split; [|by intros [? _]]. intros Hv. split; [done|]. intros [-> ->].
      apply elem_of_getNeighbors in Hv as (i & _ & ? & _). congruence. }
  destruct (nodeIndexMap g !! b) as [ti|] eqn:Hti.
  2:{ split; [|by intros [? _]]. intros Hv. split; [done|]. intros [-> ->].
      apply elem_of_getNeighbors in Hv as (i & j & _ & Hj & _).
      apply Hmap in Hj. congruence. }
  rewrite !elem_of_getNeighbors. simpl. split.
  - intros (i & j & Hu & Hv & Hc). apply cell1_set_cell in Hc.
    destruct (decide (i = fi ∧ j = ti)) as [[-> ->]|Hne]; [by destruct Hc|].
    split; [by exists i, j|]. intros [-> ->]. apply Hne.
    apply Hmap in Hv. split; congruence.
  - intros [(i & j & Hu & Hv & Hc) Hne]. exists i, j. split; [done|]. split; [done|].
    apply cell1_set_cell. rewrite decide_False; [done|].
    intros [-> ->]. apply Hne. apply Hmap in Hu, Hfi, Hti.
    split; congruence.
Qed.

End AdjacencyMatrixFacts.

Module AdjacencyMatrixLaws.
Import AdjacencyMatrixWFG AdjacencyMatrixFacts.

Lemma index_fold_lookup (l : list (nat * string)) : ∀ (m0 : gmap string nat) s i,
  NoDup (l.*2) →
  foldl (λ m e, <[e.2 := e.1]> m) m0 l !! s = Some i
  ↔ (i, s) ∈ l ∨ ((s ∉ l.*2) ∧ m0 !! s = Some i).
Proof.
  induction l as [|[j t] l IH]; intros m0 s i Hnd; csimpl.
  - split; [intros ?; right; split; [apply not_elem_of_nil|done]|].
    intros [Hin|[_ ?]]; [by apply elem_of_nil in Hin|done].
  - apply NoDup_cons in Hnd as [Ht Hnd]. rewrite IH by done. simpl.
    rewrite elem_of_cons, not_elem_of_cons. split.
    + intros [Hin|[Hs Hm]]; [left; by right|].
      destruct (decide (t = s)) as [->|Hne].
      * rewrite lookup_insert_eq in Hm. injection Hm as ->. left. by left.
      * rewrite lookup_insert_ne in Hm by done. right. done.
    + intros [[[= -> ->]|Hin]|[[Hne Hs] Hm]].
      * right. split; [done|]. by rewrite lookup_insert_eq.
      * by left.
      * right. split; [done|]. by rewrite lookup_insert_ne.
Qed.

Lemma imap_pair_snd (ns : list string) : (imap pair ns).*2 = ns.
Proof.
  change (imap pair ns) with (imap (λ i x, (id i, x)) ns).
  generalize (@id nat) as f. induction ns as [|n ns IH]; intros f; [done|].
  csimpl. f_equal. apply (IH (f ∘ S)).
Qed.

Lemma elem_of_imap_pair (ns : list string) i s : (i, s) ∈ imap pair ns ↔ ns !! i = Some s.
Proof.
  rewrite elem_of_lookup_imap. split.
  - by intros (i' & s' & [= <- <-] & Hi).
  - intros Hi. by exists i, s.
Qed.

Lemma ok_initializeMatrix g :
  NoDup (nodes g) →
  (∀ s i, nodeIndexMap g !! s = Some i → nodes g !! i = Some s) →
  ok (initializeMatrix g).
Proof.
  intros Hnd Hmap. split; [done|]. split; [|split]; simpl.
  - intros s i. rewrite index_fold_lookup by by rewrite imap_pair_snd.
    rewrite imap_pair_snd, elem_of_imap_pair. split; [|by left].
    intros [?|[_ Hm]]; [done|by apply Hmap].
  - by rewrite length_replicate.
  - intros row [-> _]%elem_of_replicate. by rewrite length_replicate.
Qed.

Lemma ok_create ns : NoDup ns → ok (new ns).
Proof. intros Hnd. apply ok_initializeMatrix; [done|]. by intros s i. Qed.

Lemma ok_clear g : ok g → ok (clear g).
Proof. intros (Hnd & Hmap & _). apply ok_initializeMatrix; [done|]. intros s i. apply Hmap. Qed.

Lemma targets g u v : v ∈ getNeighbors g u → v ∈ nodes g.
Proof.
  intros (i & j & _ & Hj & _)%elem_of_getNeighbors. by eapply list_elem_of_lookup_2.
Qed.

Lemma sources g u v : ok g → v ∈ getNeighbors g u → u ∈ nodes g.
Proof.
  intros (_ & Hmap & _) (i & j & Hi & _ & _)%elem_of_getNeighbors.
  apply Hmap in Hi. by eapply list_elem_of_lookup_2.
Qed.

Lemma neighbors_NoDup g u : ok g → NoDup (getNeighbors g u).
Proof.
  intros (Hnd & _). unfold getNeighbors.
  destruct (nodeIndexMap g !! u); [by apply row_neighbors_NoDup|apply NoDup_nil_2].
Qed.

End AdjacencyMatrixLaws.

#[export] Instance AdjacencyMatrix_Laws : WFGLaws AdjacencyMatrixWFG.t.
Proof.
  refine {| wfg_ok := AdjacencyMatrixFacts.ok |}.
  - apply AdjacencyMatrixLaws.ok_create.
  - apply AdjacencyMatrixFacts.matrix_ok_addEdge.
  - apply AdjacencyMatrixFacts.matrix_ok_removeEdge.
  - apply AdjacencyMatrixLaws.ok_clear.
  - intros g u v _. apply AdjacencyMatrixLaws.targets.
  - apply AdjacencyMatrixLaws.sources.
  - by intros g (Hnd & _).
  - intros g u. apply AdjacencyMatrixLaws.neighbors_NoDup.
  - intros a b g u v. apply AdjacencyMatrixFacts.matrix_edge_addEdge.
  - intros a b g u v. apply AdjacencyMatrixFacts.matrix_edge_removeEdge.
  - intros a b g x Hok. simpl. unfold AdjacencyMatrixWFG.getNodes.
    rewrite AdjacencyMatrixFacts.nodes_addEdge, !elem_of_set_add by done. naive_solver.
  - intros a b g _. apply AdjacencyMatrixFacts.nodes_removeEdge.
Defined.

(** ** The three representations side by side *)

Section Differential.

Lemma hash_matches_list ops :
  of_hash (run_ops ops HashMapSetsWFG.new) = run_ops ops AdjacencyListWFG.new.
Proof. by rewrite of_hash_run. Qed.

Lemma list_keys_plain : ∀ ops (g : AdjacencyListWFG.t),
  plain_ids ops →
  Forall (λ k, is_array_index k = false) ((AdjacencyListWFG.adjacencyList g).*1) →
  Forall (λ k, is_array_index k = false)
         ((AdjacencyListWFG.adjacencyList (run_ops ops g)).*1).
Proof.
  induction ops as [|op ops IH]; intros g Hplain Hg; [done|].
  unfold plain_ids in Hplain. simpl in Hplain. apply Forall_app in Hplain as [Hop Hops].
  apply IH; [done|]. destruct op as [a b|a b|].
  - change (apply_op g (AddEdge a b)) with (AdjacencyListWFG.addEdge a b g).
    rewrite AdjacencyListFacts.keys_addEdge. rewrite Forall_forall.
    intros k. rewrite !elem_of_set_add. rewrite Forall_forall in Hg, Hop.
    simpl in Hop.
    intros [->|[->|Hk]]; [apply Hop|apply Hop|by apply Hg]; set_solver.
  - change (apply_op g (RemoveEdge a b)) with (AdjacencyListWFG.removeEdge a b g).
    by rewrite AdjacencyListFacts.keys_removeEdge.
  - constructor.
Qed.

(** The matrix and the adjacency list in step: same nodes in the same
    order, same successors up to order. *)
Definition in_step (M : AdjacencyMatrixWFG.t) (L : AdjacencyListWFG.t) : Prop :=
  AdjacencyMatrixFacts.ok M ∧ AdjacencyListLaws.ok L
  ∧ AdjacencyMatrixWFG.nodes M = (AdjacencyListWFG.adjacencyList L).*1
  ∧ ∀ u v, v ∈ AdjacencyMatrixWFG.getNeighbors M u ↔ v ∈ AdjacencyListWFG.getNeighbors L u.

Lemma in_step_run : ∀ ops M L,
  no_clear ops → in_step M L → in_step (run_ops ops M) (run_ops ops L).
Proof.
  induction ops as [|op ops IH]; intros M L Hnc Hstep; [done|].
  apply Forall_cons in Hnc as [Hop Hnc]. apply IH; [done|].
  destruct Hstep as (HM & HL & Hnodes & Hedges).
  destruct op as [a b|a b|]; [| |done]; simpl.
  - split; [by apply AdjacencyMatrixFacts.matrix_ok_addEdge|].
    split; [by apply AdjacencyListLaws.ok_addEdge|]. split.
    + rewrite AdjacencyMatrixFacts.nodes_addEdge by done.
      by rewrite AdjacencyListFacts.keys_addEdge, Hnodes.
    + intros u v. rewrite AdjacencyMatrixFacts.matrix_edge_addEdge by done.
      rewrite AdjacencyListLaws.edge_addEdge. by rewrite Hedges.
  - split; [by apply AdjacencyMatrixFacts.matrix_ok_removeEdge|].
    split; [by apply AdjacencyListLaws.ok_removeEdge|]. split.
    + by rewrite AdjacencyMatrixFacts.nodes_removeEdge, AdjacencyListFacts.keys_removeEdge.
    + intros u v. rewrite AdjacencyMatrixFacts.matrix_edge_removeEdge by done.
      rewrite AdjacencyListLaws.edge_removeEdge. by rewrite Hedges.
Qed.

Lemma in_step_new : in_step (AdjacencyMatrixWFG.new []) AdjacencyListWFG.new.
Proof.
  split; [apply AdjacencyMatrixFacts.matrix_ok_new|].
  split; [apply AdjacencyListLaws.ok_new|]. split; [done|].
  intros u v. split; by intros ?%elem_of_nil.
Qed.

End Differential.

(** C3, as stated, fails: after [addEdge(B,C)], [addEdge(A,C)], [addEdge(A,B)]
    the adjacency list and the hash map list the successors of [A] in
    insertion order, the matrix in index order. *)
Lemma C3_neighbor_order_differs :
  let ops := [AddEdge "B" "C"; AddEdge "A" "C"; AddEdge "A" "B"] in
  getNeighbors (run_ops ops AdjacencyListWFG.new) "A" = ["C"; "B"]
  ∧ getNeighbors (run_ops ops HashMapSetsWFG.new) "A" = ["C"; "B"]
  ∧ getNeighbors (run_ops ops (AdjacencyMatrixWFG.new [])) "A" = ["B"; "C"].
Proof. by vm_compute. Qed.

(** [clear] empties the adjacency list and the hash map; the matrix keeps
    its nodes and forgets only the edges. *)
Lemma clear_keeps_matrix_nodes :
  let ops := [AddEdge "A" "B"; Clear] in
  getNodes (run_ops ops AdjacencyListWFG.new) = []
  ∧ getNodes (run_ops ops HashMapSetsWFG.new) = []
  ∧ getNodes (run_ops ops (AdjacencyMatrixWFG.new [])) = ["A"; "B"]
  ∧ getNeighbors (run_ops ops (AdjacencyMatrixWFG.new [])) "A" = [].
Proof. by vm_compute. Qed.

(** [Object.keys] of the adjacency list puts array-index ids first. *)
Lemma index_ids_reorder_list_nodes :
  let ops := [AddEdge "2" "1"] in
  getNodes (run_ops ops AdjacencyListWFG.new) = ["1"; "2"]
  ∧ getNodes (run_ops ops HashMapSetsWFG.new) = ["2"; "1"].
Proof. by vm_compute. Qed.

(** C3, amended.  For every sequence of [addEdge]/[removeEdge]/[clear]
    applied identically from the empty graph: the adjacency list and the
    hash map of sets report the same [getNeighbors] sequence for every node
    and the same nodes, in the same order when no id is an array-index key;
    and when the sequence has no [clear], the matrix reports the hash map's
    [getNodes] sequence and, for every node, the same successors as the
    adjacency list up to order. *)
Theorem C3_representations_agree :
  ∀ ops : list wfg_op,
    let L := run_ops ops AdjacencyListWFG.new in
    let M := run_ops ops (AdjacencyMatrixWFG.new []) in
    let H := run_ops ops HashMapSetsWFG.new in
    (∀ n, getNeighbors L n = getNeighbors H n)
    ∧ getNodes L ≡ₚ getNodes H
    ∧ (plain_ids ops → getNodes L = getNodes H)
    ∧ (no_clear ops →
       getNodes M = getNodes H ∧ ∀ n, getNeighbors M n ≡ₚ getNeighbors L n).
Proof.
  intros ops L M H.
  assert (of_hash H = L) as HL by apply hash_matches_list.
  assert (getNodes H = (AdjacencyListWFG.adjacencyList L).*1) as Hnodes.
  { rewrite <- HL. done. }
  split; [|split; [|split]].
  - intros n. simpl. rewrite of_hash_getNeighbors. by rewrite HL.
  - rewrite Hnodes. apply Object_keys_perm.
  - intros Hplain. rewrite Hnodes. apply Object_keys_plain.
    by apply list_keys_plain.
  - intros Hnc.
    destruct (in_step_run ops _ _ Hnc in_step_new) as (HM & HLok & Hn & Hedges).
    fold M L in HM, HLok, Hn, Hedges.
    split; [by rewrite Hnodes|].
    intros n. apply NoDup_Permutation.
    + by apply AdjacencyMatrixLaws.neighbors_NoDup.
    + by apply HLok.
    + intros v. apply Hedges.
Qed.

Lemma C3_representations_witness :
  let ops := [AddEdge "B" "C"; AddEdge "A" "C"; AddEdge "A" "B"; RemoveEdge "A" "C"] in
  let L := run_ops ops AdjacencyListWFG.new in
  let M := run_ops ops (AdjacencyMatrixWFG.new []) in
  let H := run_ops ops HashMapSetsWFG.new in
  getNodes L = getNodes H
  ∧ getNodes M = getNodes H
  ∧ ∀ n, getNeighbors M n ≡ₚ getNeighbors L n.
Proof.
  intros ops L M H.
  destruct (C3_representations_agree ops) as (_ & _ & Hplain & Hmatrix).
  split; [|apply Hmatrix].
  - apply Hplain. unfold plain_ids. by repeat constructor.
  - unfold no_clear. by repeat constructor.
Defined.

(* ===================================================================== *)
(** * Further properties of the representations *)
(* ===================================================================== *)

Lemma obj_get_elem {V} (o : JSObject V) k v :
  NoDup (o.*1) → (k, v) ∈ o ↔ obj_get o k = Some v.
Proof.
  induction o as [|[k' v'] o IH]; csimpl; intros Hnd.
  - split; [by intros ?%elem_of_nil|done].
  - apply NoDup_cons in Hnd as [Hk' Hnd]. rewrite elem_of_cons.
    destruct (decide (k' = k)) as [->|Hne].
    + split; [|intros [= ->]; by left].
      intros [[= ->]|Hin]; [done|]. exfalso. apply Hk'.
      apply list_elem_of_fmap. by exists (k, v).
    + rewrite <- IH by done. naive_solver.
Qed.

Lemma NoDup_edge_list {A} (f : A → string) (h : A → list string) (l : list A) :
  NoDup (f <$> l) → (∀ x, x ∈ l → NoDup (h x)) →
  NoDup (flat_map (λ x, (λ to, (f x, to)) <$> h x) l).
Proof.
  induction l as [|x l IH]; csimpl; intros Hnd Hh; [apply NoDup_nil_2|].
  apply NoDup_cons in Hnd as [Hx Hnd]. apply NoDup_app. split; [|split].
  - apply NoDup_fmap_2; [by intros ?? [=]|]. apply Hh. set_solver.
  - intros [a b] (to & [= -> ->] & _)%list_elem_of_fmap Hin.
    apply list_elem_of_In, in_flat_map in Hin as (y & Hy%list_elem_of_In & Hin).
    apply list_elem_of_In, list_elem_of_fmap in Hin as (to' & [= Hf _] & _).
    apply Hx. rewrite Hf. by apply list_elem_of_fmap_2.
  - apply IH; [done|]. intros y Hy. apply Hh. set_solver.
Qed.

Lemma elem_of_edge_list {A} (f : A → string) (h : A → list string) (l : list A) a b :
  (a, b) ∈ flat_map (λ x, (λ to, (f x, to)) <$> h x) l
  ↔ ∃ x, x ∈ l ∧ f x = a ∧ b ∈ h x.
Proof.
  rewrite list_elem_of_In, in_flat_map. split.
  - intros (x & Hx%list_elem_of_In & Hin%list_elem_of_In).
    apply list_elem_of_fmap in Hin as (to & [= -> ->] & Hto). eauto.
  - intros (x & Hx & <- & Hb). exists x. split; [by apply list_elem_of_In|].
    apply list_elem_of_In, list_elem_of_fmap. eauto.
Qed.

(** Two sublists of a duplicate-free list with the same elements are the
    same list. *)
Lemma sublist_NoDup_ext {A} `{EqDecision A} (l1 l2 l : list A) :
  NoDup l → l1 `sublist_of` l → l2 `sublist_of` l →
  (∀ x, x ∈ l1 ↔ x ∈ l2) → l1 = l2.
Proof.
  intros Hnd. revert l1 l2. induction Hnd as [|x l Hx Hnd IH]; intros l1 l2 H1 H2 Heq.
  - apply sublist_nil_r in H1, H2. by subst.
  - assert (∀ k, k `sublist_of` x :: l → x ∉ k → k `sublist_of` l) as Hdrop.
    { intros k Hk Hxk. apply sublist_cons_r in Hk as [Hk|(k' & -> & Hk)]; [done|].
      exfalso. apply Hxk. set_solver. }
    assert (∀ k, k `sublist_of` x :: l → x ∈ k → ∃ k', k = x :: k' ∧ k' `sublist_of` l)
      as Hkeep.
    { intros k Hk Hxk. apply sublist_cons_r in Hk as [Hk|(k' & -> & Hk)]; [|by eauto].
      exfalso. apply Hx. by eapply elem_of_sublist. }
    destruct (decide (x ∈ l1)) as [Hin|Hout].
    + destruct (Hkeep l1 H1 Hin) as (k1 & -> & Hk1).
      destruct (Hkeep l2 H2) as (k2 & -> & Hk2); [by apply Heq|].
      f_equal. apply IH; [done|done|]. intros y.
      assert (y ∈ k1 → y ≠ x) by (intros Hy ->; apply Hx; by eapply elem_of_sublist).
      assert (y ∈ k2 → y ≠ x) by (intros Hy ->; apply Hx; by eapply elem_of_sublist).
      specialize (Heq y). rewrite !elem_of_cons in Heq. naive_solver.
    + apply IH; [by apply Hdrop|apply Hdrop; [done|by rewrite <- Heq]|done].
Qed.

Module RepresentationFacts.

(** *** [hasEdge] *)

Lemma list_hasEdge g a b :
  AdjacencyListWFG.hasEdge g a b = true ↔ b ∈ AdjacencyListWFG.getNeighbors g a.
Proof.
  unfold AdjacencyListWFG.hasEdge, AdjacencyListWFG.getNeighbors.
  destruct (obj_get _ a); simpl; [apply bool_decide_eq_true|].
  split; [done|by intros ?%elem_of_nil].
Qed.

Lemma hash_hasEdge g a b :
  HashMapSetsWFG.hasEdge g a b = true ↔ b ∈ HashMapSetsWFG.getNeighbors g a.
Proof.
  unfold HashMapSetsWFG.hasEdge, HashMapSetsWFG.getNeighbors.
  destruct (obj_get _ a); simpl; [apply bool_decide_eq_true|].
  split; [done|by intros ?%elem_of_nil].
Qed.

Lemma matrix_hasEdge g a b :
  AdjacencyMatrixFacts.ok g →
  AdjacencyMatrixWFG.hasEdge g a b = true ↔ b ∈ AdjacencyMatrixWFG.getNeighbors g a.
Proof.
  intros (_ & Hmap & _). rewrite AdjacencyMatrixFacts.elem_of_getNeighbors.
  unfold AdjacencyMatrixWFG.hasEdge, AdjacencyMatrixFacts.cell1.
  destruct (AdjacencyMatrixWFG.nodeIndexMap g !! a) as [fi|] eqn:Ha.
  2:{ split; [done|]. by intros (i & j & [=] & _). }
  destruct (AdjacencyMatrixWFG.nodeIndexMap g !! b) as [ti|] eqn:Hb.
  - rewrite bool_decide_eq_true. split.
    + intros Hc. exists fi, ti. split; [done|]. split; [by apply Hmap|done].
    + intros (i & j & [= <-] & Hj & Hc). apply Hmap in Hj.
      assert (j = ti) as -> by congruence. done.
  - split; [done|]. intros (i & j & _ & Hj & _). apply Hmap in Hj. congruence.
Qed.

(** *** [getAllEdges] *)

Lemma list_getAllEdges g a b :
  (a, b) ∈ AdjacencyListWFG.getAllEdges g ↔ b ∈ AdjacencyListWFG.getNeighbors g a.
Proof.
  unfold AdjacencyListWFG.getAllEdges.
  rewrite (elem_of_edge_list id (λ from, default [] (obj_get (AdjacencyListWFG.adjacencyList g) from))).
  unfold AdjacencyListWFG.getNeighbors. split.
  - by intros (x & _ & <- & Hb).
  - intros Hb. exists a. split; [|done].
    apply elem_of_Object_keys.
    destruct (obj_get _ a) eqn:Ha; [by eapply obj_get_Some_key|].
    by apply elem_of_nil in Hb.
Qed.

Lemma list_getAllEdges_NoDup g :
  AdjacencyListLaws.ok g → NoDup (AdjacencyListWFG.getAllEdges g).
Proof.
  intros (Hk & Hn & _). unfold AdjacencyListWFG.getAllEdges.
  apply (NoDup_edge_list id (λ from, default [] (obj_get (AdjacencyListWFG.adjacencyList g) from))).
  - rewrite list_fmap_id. by rewrite Object_keys_perm.
  - intros x _. apply Hn.
Qed.

Lemma hash_getAllEdges g a b :
  wfg_ok g →
  (a, b) ∈ HashMapSetsWFG.getAllEdges g ↔ b ∈ HashMapSetsWFG.getNeighbors g a.
Proof.
  intros (Hk & _). simpl in Hk. unfold HashMapSetsWFG.getAllEdges.
  rewrite (elem_of_edge_list fst snd). unfold HashMapSetsWFG.getNeighbors. split.
  - intros ([k s] & Hin & <- & Hb). simpl in *.
    apply obj_get_elem in Hin; [|done]. by rewrite Hin.
  - intros Hb. destruct (obj_get _ a) as [s|] eqn:Ha; [|by apply elem_of_nil in Hb].
    exists (a, s). split; [|done]. by apply obj_get_elem.
Qed.

Lemma hash_getAllEdges_NoDup g : wfg_ok g → NoDup (HashMapSetsWFG.getAllEdges g).
Proof.
  intros (Hk & Hn & _). simpl in *. unfold HashMapSetsWFG.getAllEdges.
  apply (NoDup_edge_list fst snd); [done|].
  intros [k s] Hin. simpl. apply obj_get_elem in Hin; [|done].
  specialize (Hn k). unfold AdjacencyListWFG.getNeighbors in Hn. simpl in Hn.
  by rewrite Hin in Hn.
Qed.

Lemma matrix_getAllEdges g a b :
  AdjacencyMatrixFacts.ok g →
  (a, b) ∈ AdjacencyMatrixWFG.getAllEdges g ↔ b ∈ AdjacencyMatrixWFG.getNeighbors g a.
Proof.
  intros (Hnd & Hmap & Hlen & Hrows). unfold AdjacencyMatrixWFG.getAllEdges.
  rewrite (elem_of_edge_list fst (λ e, AdjacencyMatrixWFG.row_neighbors g e.2)).
  unfold AdjacencyMatrixWFG.getNeighbors. split.
  - intros ([n row] & Hin & <- & Hb). simpl in *.
    apply list_elem_of_lookup in Hin as [i Hi].
    apply lookup_zip_with_Some in Hi as (n' & row' & [= <- <-] & Hn & Hr).
    apply Hmap in Hn. by rewrite Hn, Hr.
  - intros Hb. destruct (AdjacencyMatrixWFG.nodeIndexMap g !! a) as [i|] eqn:Ha; [|by apply elem_of_nil in Hb].
    apply Hmap in Ha.
    destruct (lookup_lt_is_Some_2 (AdjacencyMatrixWFG.matrix g) i) as [row Hrow].
    { rewrite Hlen. by eapply lookup_lt_Some. }
    rewrite Hrow in Hb. simpl in Hb.
    exists (a, row). split; [|done].
    apply list_elem_of_lookup. exists i. apply lookup_zip_with_Some. eauto.
Qed.

Lemma matrix_getAllEdges_NoDup g :
  AdjacencyMatrixFacts.ok g → NoDup (AdjacencyMatrixWFG.getAllEdges g).
Proof.
  intros (Hnd & Hmap & Hlen & Hrows). unfold AdjacencyMatrixWFG.getAllEdges.
  apply (NoDup_edge_list fst (λ e, AdjacencyMatrixWFG.row_neighbors g e.2)).
  - rewrite fst_zip; [done|lia].
  - intros e _. by apply AdjacencyMatrixFacts.row_neighbors_NoDup.
Qed.

End RepresentationFacts.

Lemma ensure_key_id k o : k ∈ o.*1 → ensure_key k o = o.
Proof.
  intros Hk. unfold ensure_key. destruct (obj_get o k) eqn:Hg; [done|].
  by apply obj_get_None in Hg.
Qed.

Lemma obj_set_set {V} (o : JSObject V) k v w : obj_set (obj_set o k v) k w = obj_set o k w.
Proof.
  induction o as [|[k' v'] o IH]; simpl.
  - by rewrite decide_True.
  - destruct (decide (k' = k)) as [->|]; simpl.
    + by rewrite decide_True.
    + rewrite decide_False by done. by rewrite IH.
Qed.

Lemma filter_ne_absent (b : string) (ns : list string) :
  b ∉ ns → filter (λ node, node ≠ b) ns = ns.
Proof.
  induction ns as [|x ns IH]; [done|]. intros Hb.
  rewrite filter_cons, decide_True by set_solver. rewrite IH; [done|set_solver].
Qed.

Lemma of_hash_inj g1 g2 : of_hash g1 = of_hash g2 → g1 = g2.
Proof. destruct g1, g2. unfold of_hash. simpl. by intros [= ->]. Qed.

Module ListRoundTrips.
Import AdjacencyListWFG AdjacencyListFacts.

Lemma addEdge_has a b g :
  ∃ ns, obj_get (adjacencyList (addEdge a b g)) a = Some ns ∧ b ∈ ns.
Proof.
  pose proof (getNeighbors_addEdge a b g a) as Hn. rewrite decide_True in Hn by done.
  assert (b ∈ getNeighbors (addEdge a b g) a) as Hb.
  { rewrite Hn. apply elem_of_set_add. by left. }
  unfold getNeighbors in Hb. destruct (obj_get _ a) as [ns|]; [by eauto|].
  by apply elem_of_nil in Hb.
Qed.

Lemma list_addEdge_twice a b g : addEdge a b (addEdge a b g) = addEdge a b g.
Proof.
  destruct (addEdge_has a b g) as (ns & Hns & Hb).
  assert (a ∈ (adjacencyList (addEdge a b g)).*1) as Ha by by eapply obj_get_Some_key.
  assert (b ∈ (adjacencyList (addEdge a b g)).*1) as Hbk.
  { rewrite keys_addEdge. apply elem_of_set_add. by left. }
  destruct (addEdge a b g) as [o] eqn:Hg. simpl in *.
  unfold addEdge. simpl. rewrite (ensure_key_id a o) by done.
  rewrite Hns, decide_True by done. by rewrite ensure_key_id.
Qed.

Lemma list_removeEdge_absent a b g : b ∉ getNeighbors g a → removeEdge a b g = g.
Proof.
  unfold getNeighbors, removeEdge. destruct g as [o]. simpl.
  destruct (obj_get o a) as [ns|] eqn:Ha; [|done]. simpl. intros Hb.
  rewrite filter_ne_absent by done. by rewrite obj_set_same.
Qed.

Lemma list_add_then_remove a b g :
  a ∈ (adjacencyList g).*1 → b ∈ (adjacencyList g).*1 → b ∉ getNeighbors g a →
  removeEdge a b (addEdge a b g) = g.
Proof.
  destruct g as [o]. unfold getNeighbors, removeEdge, addEdge. simpl.
  intros Ha Hbk Hb. rewrite (ensure_key_id a o) by done.
  destruct (obj_get o a) as [ns|] eqn:Hns.
  2:{ apply obj_get_None in Hns. done. }
  simpl in Hb. rewrite decide_False by done.
  rewrite ensure_key_id by (rewrite obj_set_keys; by rewrite decide_True).
  rewrite obj_get_set_eq, obj_set_set.
  rewrite filter_app, filter_ne_absent by done.
  rewrite filter_cons, decide_False by (intros ?; done). simpl.
  rewrite app_nil_r. by rewrite obj_set_same.
Qed.

End ListRoundTrips.

Module MatrixRoundTrips.
Import AdjacencyMatrixWFG AdjacencyMatrixFacts.

Lemma set_cell_twice i j v m : set_cell i j v (set_cell i j v m) = set_cell i j v m.
Proof.
  unfold set_cell. rewrite list_alter_alter_eq. apply list_alter_ext; [|done].
  intros row _. simpl. apply list_insert_insert_eq.
Qed.

Lemma addNode_present x g i : nodeIndexMap g !! x = Some i → addNode x g = g.
Proof. intros Hx. unfold addNode. by rewrite Hx. Qed.

Lemma addNode_inserts x g : is_Some (nodeIndexMap (addNode x g) !! x).
Proof.
  unfold addNode. destruct (nodeIndexMap g !! x) eqn:Hx; [by rewrite Hx|].
  simpl. rewrite lookup_insert_eq. eauto.
Qed.

Lemma addNode_keeps_index x y g :
  is_Some (nodeIndexMap g !! y) → is_Some (nodeIndexMap (addNode x g) !! y).
Proof.
  intros Hy. unfold addNode. destruct (nodeIndexMap g !! x) eqn:Hx; [done|].
  simpl. destruct (decide (x = y)) as [->|]; [by rewrite lookup_insert_eq|].
  by rewrite lookup_insert_ne.
Qed.

Lemma matrix_addEdge_twice a b g : addEdge a b (addEdge a b g) = addEdge a b g.
Proof.
  rewrite (addEdge_unfold a b g). simpl.
  set (g2 := addNode b (addNode a g)).
  destruct (addNode_keeps_index b a (addNode a g) (addNode_inserts a g)) as [fi Hfi].
  destruct (addNode_inserts b (addNode a g)) as [ti Hti].
  fold g2 in Hfi, Hti. rewrite Hfi, Hti.
  rewrite addEdge_unfold. simpl.
  rewrite (addNode_present a _ fi) by done. rewrite (addNode_present b _ ti) by done.
  simpl. rewrite Hfi, Hti. by rewrite set_cell_twice.
Qed.

Lemma zero_row_neighbors g n : row_neighbors g (replicate n 0) = [].
Proof.
  apply elem_of_nil_inv. intros v (j & Hj & _)%elem_of_row_neighbors.
  apply lookup_replicate in Hj as [? _]. done.
Qed.

Lemma matrix_clear_neighbors g u : getNeighbors (clear g) u = [].
Proof.
  unfold getNeighbors, clear. set (g' := initializeMatrix g).
  destruct (nodeIndexMap g' !! u) as [i|]; [|done].
  assert (nodes g' = nodes g) as Hn by done.
  destruct (matrix g' !! i) as [row|] eqn:Hrow; simpl.
  - unfold g', initializeMatrix in Hrow. simpl in Hrow.
    apply lookup_replicate in Hrow as [-> _].
    apply elem_of_nil_inv. intros v (j & Hj & _)%elem_of_row_neighbors.
    apply lookup_replicate in Hj as [? _]. done.
  - done.
Qed.

Lemma matrix_neighbors_sublist g u : getNeighbors g u `sublist_of` nodes g.
Proof.
  unfold getNeighbors. destruct (nodeIndexMap g !! u); [|apply sublist_nil_l].
  unfold row_neighbors. generalize (default [] (matrix g !! n)) as row.
  intros row. etrans; [apply fmap_sublist, sublist_filter|].
  generalize (nodes g) as ns. revert row.
  induction row as [|c row IH]; intros [|x ns]; simpl; try constructor.
  - apply sublist_nil_l.
  - apply IH.
Qed.

End MatrixRoundTrips.

(* ===================================================================== *)
(** * Further properties: the operations of the representations *)
(* ===================================================================== *)

(** X1.  In each representation [hasEdge(from, to)] answers [true] exactly
    when [to] is listed by [getNeighbors(from)]; the matrix needs its
    index map and matrix to be in step, which every state built by the
    constructor and the operations satisfies. *)
Theorem hasEdge_matches_getNeighbors :
  (∀ (g : AdjacencyListWFG.t) a b, hasEdge g a b = true ↔ b ∈ getNeighbors g a)
  ∧ (∀ (g : HashMapSetsWFG.t) a b, hasEdge g a b = true ↔ b ∈ getNeighbors g a)
  ∧ (∀ (g : AdjacencyMatrixWFG.t) a b,
       wfg_ok g → hasEdge g a b = true ↔ b ∈ getNeighbors g a).
Proof.
  split; [exact RepresentationFacts.list_hasEdge|].
  split; [exact RepresentationFacts.hash_hasEdge|].
  exact (λ g a b Hok, RepresentationFacts.matrix_hasEdge g a b Hok).
Qed.

Lemma hasEdge_matches_getNeighbors_witness :
  let M : AdjacencyMatrixWFG.t :=
    run_ops [AddEdge "T1" "T2"; AddEdge "T3" "T1"; RemoveEdge "T3" "T1"] (createWFG ["T1"; "T2"]) in
  wfg_ok M ∧ (hasEdge M "T1" "T2" = true ↔ "T2" ∈ getNeighbors M "T1").
Proof.
  intros M.
  assert (wfg_ok M) as Hok.
  { apply wfg_ok_run_ops, wfg_ok_create. repeat constructor; set_solver. }
  split; [exact Hok|].
  exact (proj2 (proj2 hasEdge_matches_getNeighbors) M "T1" "T2" Hok).
Defined.

(** X2.  Adding an edge a second time changes nothing: in all three
    representations the state after [addEdge(a, b); addEdge(a, b)] is the
    state after one [addEdge(a, b)]. *)
Theorem addEdge_idempotent :
  (∀ a b (g : AdjacencyListWFG.t), addEdge a b (addEdge a b g) = addEdge a b g)
  ∧ (∀ a b (g : HashMapSetsWFG.t), addEdge a b (addEdge a b g) = addEdge a b g)
  ∧ (∀ a b (g : AdjacencyMatrixWFG.t), addEdge a b (addEdge a b g) = addEdge a b g).
Proof.
  split; [exact ListRoundTrips.list_addEdge_twice|]. split.
  - intros a b g. apply of_hash_inj. simpl. rewrite !of_hash_addEdge.
    apply ListRoundTrips.list_addEdge_twice.
  - exact MatrixRoundTrips.matrix_addEdge_twice.
Qed.

(** X3.  [getAllEdges] lists exactly the pairs [(from, to)] with [to] in
    [getNeighbors(from)], each of them once. *)
Theorem getAllEdges_lists_each_edge_once :
  (∀ g : AdjacencyListWFG.t, wfg_ok g →
     NoDup (getAllEdges g) ∧ ∀ a b, (a, b) ∈ getAllEdges g ↔ b ∈ getNeighbors g a)
  ∧ (∀ g : HashMapSetsWFG.t, wfg_ok g →
     NoDup (getAllEdges g) ∧ ∀ a b, (a, b) ∈ getAllEdges g ↔ b ∈ getNeighbors g a)
  ∧ (∀ g : AdjacencyMatrixWFG.t, wfg_ok g →
     NoDup (getAllEdges g) ∧ ∀ a b, (a, b) ∈ getAllEdges g ↔ b ∈ getNeighbors g a).
Proof.
  split; [|split].
  - intros g Hok. split; [by apply RepresentationFacts.list_getAllEdges_NoDup|].
    intros a b. apply RepresentationFacts.list_getAllEdges.
  - intros g Hok. split; [by apply RepresentationFacts.hash_getAllEdges_NoDup|].
    intros a b. by apply RepresentationFacts.hash_getAllEdges.
  - intros g Hok. split; [by apply RepresentationFacts.matrix_getAllEdges_NoDup|].
    intros a b. by apply RepresentationFacts.matrix_getAllEdges.
Qed.

Lemma getAllEdges_lists_each_edge_once_witness :
  let ops := [AddEdge "T1" "T2"; AddEdge "T2" "T1"; AddEdge "T1" "T2"; RemoveEdge "T2" "T1"] in
  NoDup (getAllEdges (run_ops ops AdjacencyListWFG.new))
  ∧ NoDup (getAllEdges (run_ops ops HashMapSetsWFG.new))
  ∧ NoDup (getAllEdges (run_ops ops (AdjacencyMatrixWFG.new []))).
Proof.
  intros ops.
  destruct getAllEdges_lists_each_edge_once as (HL & HH & HM).
  split; [|split].
  - apply HL. apply wfg_ok_run_ops. exact (wfg_ok_create (G := AdjacencyListWFG.t) [] NoDup_nil_2).
  - apply HH. apply wfg_ok_run_ops. exact (wfg_ok_create (G := HashMapSetsWFG.t) [] NoDup_nil_2).
  - apply HM. apply wfg_ok_run_ops. exact (wfg_ok_create (G := AdjacencyMatrixWFG.t) [] NoDup_nil_2).
Defined.


Lemma matrix_neighbors_ext (g1 g2 : AdjacencyMatrixWFG.t) u :
  AdjacencyMatrixFacts.ok g1 →
  AdjacencyMatrixWFG.nodes g2 = AdjacencyMatrixWFG.nodes g1 →
  (∀ v, v ∈ AdjacencyMatrixWFG.getNeighbors g2 u ↔ v ∈ AdjacencyMatrixWFG.getNeighbors g1 u) →
  AdjacencyMatrixWFG.getNeighbors g2 u = AdjacencyMatrixWFG.getNeighbors g1 u.
Proof.
  intros Hok Hn Hv.
  apply (sublist_NoDup_ext _ _ (AdjacencyMatrixWFG.nodes g1)); [apply Hok| | |done].
  - rewrite <- Hn. apply MatrixRoundTrips.matrix_neighbors_sublist.
  - apply MatrixRoundTrips.matrix_neighbors_sublist.
Qed.

(** X4.  Removing an edge that is not there, also from a node the graph
    does not know, is harmless: the adjacency list and the hash map are left
    exactly as they were, and the matrix reports the same nodes and the same
    successor lists. *)
Theorem removeEdge_absent_is_noop :
  (∀ a b (g : AdjacencyListWFG.t), b ∉ getNeighbors g a → removeEdge a b g = g)
  ∧ (∀ a b (g : HashMapSetsWFG.t), b ∉ getNeighbors g a → removeEdge a b g = g)
  ∧ (∀ a b (g : AdjacencyMatrixWFG.t), wfg_ok g → b ∉ getNeighbors g a →
       getNodes (removeEdge a b g) = getNodes g
       ∧ ∀ u, getNeighbors (removeEdge a b g) u = getNeighbors g u).
Proof.
  split; [exact ListRoundTrips.list_removeEdge_absent|]. split.
  - intros a b g Hb. apply of_hash_inj. simpl. rewrite of_hash_removeEdge.
    apply ListRoundTrips.list_removeEdge_absent.
    simpl in Hb. by rewrite of_hash_getNeighbors in Hb.
  - intros a b g Hok Hb. split; [apply AdjacencyMatrixFacts.nodes_removeEdge|].
    intros u. apply matrix_neighbors_ext; [done|apply AdjacencyMatrixFacts.nodes_removeEdge|].
    intros v. rewrite AdjacencyMatrixFacts.matrix_edge_removeEdge by done.
    split; [by intros [? _]|]. intros Hv. split; [done|]. intros [-> ->]. done.
Qed.

Lemma removeEdge_absent_is_noop_witness :
  let L : AdjacencyListWFG.t := run_ops [AddEdge "T1" "T2"] (createWFG []) in
  let M : AdjacencyMatrixWFG.t := run_ops [AddEdge "T1" "T2"] (createWFG ["T1"; "T2"; "T3"]) in
  removeEdge "T2" "T1" L = L ∧ removeEdge "T9" "T1" L = L
  ∧ getNodes (removeEdge "T2" "T1" M) = getNodes M.
Proof.
  intros L M. destruct removeEdge_absent_is_noop as (HL & _ & HM).
  split; [|split].
  - apply HL. vm_compute. apply not_elem_of_nil.
  - apply HL. vm_compute. apply not_elem_of_nil.
  - apply HM.
    + apply wfg_ok_run_ops, wfg_ok_create. repeat constructor; set_solver.
    + vm_compute. apply not_elem_of_nil.
Defined.

(** X5.  Between two nodes the graph already has and with the edge absent,
    [addEdge(a, b)] followed by [removeEdge(a, b)] gives back the very state
    of the adjacency list and of the hash map. *)
Theorem addEdge_then_removeEdge_restores :
  (∀ a b (g : AdjacencyListWFG.t),
     a ∈ getNodes g → b ∈ getNodes g → b ∉ getNeighbors g a →
     removeEdge a b (addEdge a b g) = g)
  ∧ (∀ a b (g : HashMapSetsWFG.t),
     a ∈ getNodes g → b ∈ getNodes g → b ∉ getNeighbors g a →
     removeEdge a b (addEdge a b g) = g).
Proof.
  split.
  - intros a b g Ha Hb Hab. apply ListRoundTrips.list_add_then_remove; [| |done].
    + by apply AdjacencyListLaws.getNodes_elem.
    + by apply AdjacencyListLaws.getNodes_elem.
  - intros a b g Ha Hb Hab. apply of_hash_inj. simpl.
    rewrite of_hash_removeEdge, of_hash_addEdge.
    apply ListRoundTrips.list_add_then_remove; [done|done|].
    simpl in Hab. by rewrite of_hash_getNeighbors in Hab.
Qed.

Lemma addEdge_then_removeEdge_restores_witness :
  let H : HashMapSetsWFG.t := run_ops [AddEdge "T1" "T2"; AddEdge "T3" "T1"] (createWFG []) in
  removeEdge "T2" "T3" (addEdge "T2" "T3" H) = H.
Proof.
  intros H. apply (proj2 addEdge_then_removeEdge_restores).
  - vm_compute. set_solver.
  - vm_compute. set_solver.
  - vm_compute. set_solver.
Defined.

(** X6.  [clear] leaves no edge in any representation.  The matrix keeps
    its nodes; the adjacency list and the hash map forget them too. *)
Theorem clear_forgets_edges_matrix_keeps_nodes :
  (∀ g : AdjacencyMatrixWFG.t,
     getNodes (clear g) = getNodes g
     ∧ getAllEdges (clear g) = []
     ∧ ∀ u v, getNeighbors (clear g) u = [] ∧ hasEdge (clear g) u v = false)
  ∧ (∀ g : AdjacencyListWFG.t,
     getNodes (clear g) = [] ∧ getAllEdges (clear g) = []
     ∧ ∀ u v, getNeighbors (clear g) u = [] ∧ hasEdge (clear g) u v = false)
  ∧ (∀ g : HashMapSetsWFG.t,
     getNodes (clear g) = [] ∧ getAllEdges (clear g) = []
     ∧ ∀ u v, getNeighbors (clear g) u = [] ∧ hasEdge (clear g) u v = false).
Proof.
  split; [|by split].
  intros g. split; [done|]. split.
  - simpl. unfold AdjacencyMatrixWFG.getAllEdges, AdjacencyMatrixWFG.clear. simpl.
    set (g' := AdjacencyMatrixWFG.initializeMatrix g).
    apply elem_of_nil_inv. intros [a b] Hin.
    apply list_elem_of_In, in_flat_map in Hin as ([x row] & Hx & Hin).
    apply list_elem_of_In, elem_of_zip_r in Hx.
    apply elem_of_replicate in Hx as [-> _].
    apply list_elem_of_In in Hin. simpl in Hin.
    rewrite MatrixRoundTrips.zero_row_neighbors in Hin. by apply elem_of_nil in Hin.
  - intros u v. split; [apply MatrixRoundTrips.matrix_clear_neighbors|].
    simpl. unfold AdjacencyMatrixWFG.hasEdge, AdjacencyMatrixWFG.clear.
    destruct (_ !! u) as [i|]; [|done]. destruct (_ !! v) as [j|]; [|done].
    apply bool_decide_eq_false. simpl.
    destruct (replicate _ _ !! i) as [row|] eqn:Hrow; [|done]. simpl.
    apply lookup_replicate in Hrow as [-> _].
    intros [? _]%lookup_replicate. done.
Qed.

(** X7.  The matrix lists the successors of a node in the order of
    [getNodes], whatever the order in which the edges were added:
    [getNeighbors(u)] is [getNodes()] filtered by [hasEdge(u, _)]. *)
Theorem matrix_neighbors_in_node_order (g : AdjacencyMatrixWFG.t) (u : string) :
  wfg_ok g →
  getNeighbors g u = filter (λ v, hasEdge g u v = true) (getNodes g).
Proof.
  intros Hok. simpl.
  apply (sublist_NoDup_ext _ _ (AdjacencyMatrixWFG.nodes g)); [apply Hok| | |].
  - apply MatrixRoundTrips.matrix_neighbors_sublist.
  - apply sublist_filter.
  - intros v. rewrite list_elem_of_filter.
    rewrite RepresentationFacts.matrix_hasEdge by done. split; [|by intros [? _]].
    intros Hv. split; [done|]. exact (wfg_targets (G := AdjacencyMatrixWFG.t) g u v Hok Hv).
Qed.

Lemma matrix_neighbors_in_node_order_witness :
  let M : AdjacencyMatrixWFG.t :=
    run_ops [AddEdge "B" "C"; AddEdge "A" "C"; AddEdge "A" "B"] (createWFG []) in
  getNeighbors M "A" = filter (λ v, hasEdge M "A" v = true) (getNodes M).
Proof.
  intros M. apply matrix_neighbors_in_node_order.
  apply wfg_ok_run_ops. exact (wfg_ok_create (G := AdjacencyMatrixWFG.t) [] NoDup_nil_2).
Defined.


Lemma flat_map_ext_elem {A B} (f g : A → list B) (l : list A) :
  (∀ x, x ∈ l → f x = g x) → flat_map f l = flat_map g l.
Proof.
  induction l as [|x l IH]; intros Hfg; [done|]. simpl.
  rewrite (Hfg x) by (by left). rewrite IH; [done|].
  intros y Hy. apply Hfg. by right.
Qed.

Lemma flat_map_fmap {A B C} (f : B → list C) (h : A → B) (l : list A) :
  flat_map f (h <$> l) = flat_map (f ∘ h) l.
Proof. induction l as [|x l IH]; [done|]. csimpl. by rewrite IH. Qed.

(** The matrix and the adjacency list with the same edges; their node lists
    may differ. *)
Definition same_edges (M : AdjacencyMatrixWFG.t) (L : AdjacencyListWFG.t) : Prop :=
  AdjacencyMatrixFacts.ok M ∧ AdjacencyListLaws.ok L
  ∧ ∀ u v, v ∈ AdjacencyMatrixWFG.getNeighbors M u ↔ v ∈ AdjacencyListWFG.getNeighbors L u.

Lemma same_edges_run : ∀ ops M L,
  same_edges M L → same_edges (run_ops ops M) (run_ops ops L).
Proof.
  induction ops as [|op ops IH]; intros M L Hstep; [done|].
  apply IH. destruct Hstep as (HM & HL & Hedges).
  destruct op as [a b|a b|]; simpl.
  - split; [by apply AdjacencyMatrixFacts.matrix_ok_addEdge|].
    split; [by apply AdjacencyListLaws.ok_addEdge|].
    intros u v. rewrite AdjacencyMatrixFacts.matrix_edge_addEdge by done.
    rewrite AdjacencyListLaws.edge_addEdge. by rewrite Hedges.
  - split; [by apply AdjacencyMatrixFacts.matrix_ok_removeEdge|].
    split; [by apply AdjacencyListLaws.ok_removeEdge|].
    intros u v. rewrite AdjacencyMatrixFacts.matrix_edge_removeEdge by done.
    rewrite AdjacencyListLaws.edge_removeEdge. by rewrite Hedges.
  - split; [by apply AdjacencyMatrixLaws.ok_clear|].
    split; [apply AdjacencyListLaws.ok_new|].
    intros u v. rewrite MatrixRoundTrips.matrix_clear_neighbors.
    split; by intros ?%elem_of_nil.
Qed.

Lemma same_edges_create ns :
  NoDup ns → same_edges (AdjacencyMatrixWFG.new ns) AdjacencyListWFG.new.
Proof.
  intros Hnd. split; [by apply AdjacencyMatrixLaws.ok_create|].
  split; [apply AdjacencyListLaws.ok_new|].
  intros u v.
  change (AdjacencyMatrixWFG.new ns)
    with (AdjacencyMatrixWFG.clear (AdjacencyMatrixWFG.mk ns ∅ [])).
  rewrite MatrixRoundTrips.matrix_clear_neighbors.
  split; by intros ?%elem_of_nil.
Qed.

Lemma hash_edges_plain g :
  AdjacencyListLaws.ok (of_hash g) →
  Forall (λ k, is_array_index k = false) ((HashMapSetsWFG.adjacencyMap g).*1) →
  HashMapSetsWFG.getAllEdges g = AdjacencyListWFG.getAllEdges (of_hash g).
Proof.
  intros (Hnd & _) Hplain. unfold HashMapSetsWFG.getAllEdges, AdjacencyListWFG.getAllEdges.
  simpl in *. rewrite Object_keys_plain by done.
  rewrite flat_map_fmap. apply flat_map_ext_elem.
  intros [k s] Hin. simpl. apply obj_get_elem in Hin; [|done]. by rewrite Hin.
Qed.

(** X8.  Built by the factory for the same node list and driven by the same
    sequence of [addEdge]/[removeEdge]/[clear], the three representations
    hold the same edges: [hasEdge] answers alike, the hash map lists the
    successors of a node as the adjacency list does and the matrix lists the
    same ones in its own order, and [getAllEdges] returns the same edges
    (for the hash map in the same order when no id is an array-index key). *)
Theorem edges_agree_across_representations (ns : list string) (ops : list wfg_op) :
  NoDup ns →
  let L : AdjacencyListWFG.t := run_ops ops (createWFG ns) in
  let H : HashMapSetsWFG.t := run_ops ops (createWFG ns) in
  let M : AdjacencyMatrixWFG.t := run_ops ops (createWFG ns) in
  (∀ a b, hasEdge H a b = hasEdge L a b ∧ hasEdge M a b = hasEdge L a b)
  ∧ (∀ n, getNeighbors H n = getNeighbors L n ∧ getNeighbors M n ≡ₚ getNeighbors L n)
  ∧ getAllEdges H ≡ₚ getAllEdges L
  ∧ getAllEdges M ≡ₚ getAllEdges L
  ∧ (plain_ids ops → getAllEdges H = getAllEdges L).
Proof.
  intros Hnd L H M.
  assert (of_hash H = L) as HL by apply of_hash_run.
  destruct (same_edges_run ops _ _ (same_edges_create ns Hnd)) as (HM & HLok & Hedges).
  fold M in HM, Hedges. change (run_ops ops AdjacencyListWFG.new) with L in HLok, Hedges.
  assert (wfg_ok H) as HHok by (simpl; by rewrite HL).
  assert (∀ n, getNeighbors H n = getNeighbors L n) as HnH.
  { intros n. simpl. rewrite of_hash_getNeighbors. by rewrite HL. }
  split; [|split; [|split; [|split]]].
  - intros a b. split; apply Bool.eq_true_iff_eq.
    + rewrite RepresentationFacts.hash_hasEdge, RepresentationFacts.list_hasEdge.
      by rewrite HnH.
    + rewrite RepresentationFacts.matrix_hasEdge by done.
      rewrite RepresentationFacts.list_hasEdge. apply Hedges.
  - intros n. split; [apply HnH|]. apply NoDup_Permutation.
    + by apply AdjacencyMatrixLaws.neighbors_NoDup.
    + apply HLok.
    + intros v. apply Hedges.
  - apply NoDup_Permutation.
    + by apply RepresentationFacts.hash_getAllEdges_NoDup.
    + by apply RepresentationFacts.list_getAllEdges_NoDup.
    + intros [a b]. rewrite RepresentationFacts.hash_getAllEdges by done.
      rewrite RepresentationFacts.list_getAllEdges. by rewrite HnH.
  - apply NoDup_Permutation.
    + by apply RepresentationFacts.matrix_getAllEdges_NoDup.
    + by apply RepresentationFacts.list_getAllEdges_NoDup.
    + intros [a b]. rewrite RepresentationFacts.matrix_getAllEdges by done.
      rewrite RepresentationFacts.list_getAllEdges. apply Hedges.
  - intros Hplain. simpl. rewrite <- HL. apply hash_edges_plain; [by rewrite HL|].
    change ((HashMapSetsWFG.adjacencyMap H).*1)
      with ((AdjacencyListWFG.adjacencyList (of_hash H)).*1).
    rewrite HL. by apply list_keys_plain.
Qed.

Lemma edges_agree_across_representations_witness :
  let ops := [AddEdge "T2" "T1"; AddEdge "T3" "T1"; Clear; AddEdge "T3" "T2"; AddEdge "T3" "T1"] in
  let L : AdjacencyListWFG.t := run_ops ops (createWFG ["T1"; "T2"; "T3"]) in
  let M : AdjacencyMatrixWFG.t := run_ops ops (createWFG ["T1"; "T2"; "T3"]) in
  NoDup ["T1"; "T2"; "T3"] ∧ getAllEdges M ≡ₚ getAllEdges L.
Proof.
  intros ops L M.
  assert (NoDup ["T1"; "T2"; "T3"]) as Hnd by (repeat constructor; set_solver).
  split; [exact Hnd|].
  exact (proj1 (proj2 (proj2 (proj2
           (edges_agree_across_representations ["T1"; "T2"; "T3"] ops Hnd))))).
Defined.

Section NodesPersist.
Context {G : Type} `{WFGLaws G}.

Lemma nodes_persist_run : ∀ ops (g : G) x,
  wfg_ok g → no_clear ops → x ∈ getNodes g → x ∈ getNodes (run_ops ops g).
Proof.
  induction ops as [|op ops IH]; intros g x Hok Hnc Hx; [done|].
  apply Forall_cons in Hnc as [Hop Hnc].
  destruct op as [a b|a b|]; [| |done].
  - apply (IH (addEdge a b g)); [by apply wfg_ok_addEdge|done|].
    apply wfg_nodes_addEdge; [done|]. by left.
  - apply (IH (removeEdge a b g)); [by apply wfg_ok_removeEdge|done|].
    by rewrite wfg_nodes_removeEdge.
Qed.

End NodesPersist.

(** X9.  Neither [addEdge] nor [removeEdge] deletes a node: through a run
    without [clear], every node stays in [getNodes], and both ends of every
    added edge are nodes at the end, whether or not the edge was removed
    again. *)
Theorem nodes_are_never_removed {G : Type} `{WFGLaws G} (g : G) (ops : list wfg_op) :
  wfg_ok g → no_clear ops →
  (∀ x, x ∈ getNodes g → x ∈ getNodes (run_ops ops g))
  ∧ (∀ a b, AddEdge a b ∈ ops →
       a ∈ getNodes (run_ops ops g) ∧ b ∈ getNodes (run_ops ops g)).
Proof.
  intros Hok Hnc. split; [intros x; by apply nodes_persist_run|].
  revert g Hok Hnc. induction ops as [|op ops IH]; intros g Hok Hnc a b Hin.
  { by apply elem_of_nil in Hin. }
  pose proof Hnc as Hnc0.
  apply Forall_cons in Hnc as [Hop Hnc].
  apply elem_of_cons in Hin as [<-|Hin].
  - change (run_ops (AddEdge a b :: ops) g) with (run_ops ops (addEdge a b g)).
    split; (apply nodes_persist_run; [by apply wfg_ok_addEdge|done|]);
      (apply wfg_nodes_addEdge; [done|]); auto.
  - destruct op as [c d|c d|]; [| |done].
    + apply (IH (addEdge c d g)); [by apply wfg_ok_addEdge|done|done].
    + apply (IH (removeEdge c d g)); [by apply wfg_ok_removeEdge|done|done].
Qed.

Lemma nodes_are_never_removed_witness :
  let ops := [AddEdge "T1" "T2"; RemoveEdge "T1" "T2"; RemoveEdge "T2" "T1"] in
  let H : HashMapSetsWFG.t := run_ops ops (createWFG []) in
  "T1" ∈ getNodes H ∧ "T2" ∈ getNodes H.
Proof.
  intros ops H.
  assert (no_clear ops) as Hnc by (repeat constructor; done).
  apply (proj2 (nodes_are_never_removed (createWFG []) ops
                  (wfg_ok_create [] NoDup_nil_2) Hnc)).
  by left.
Defined.


(* ===================================================================== *)
(** * Further properties: cycle utilities of [deadlockDetection.js] *)
(* ===================================================================== *)


Lemma shortest_fold : ∀ rest pre first post,
  Forall (λ c', length first < length c') pre →
  Forall (λ c', length first ≤ length c') post →
  let c := foldl (λ shortest current : list string,
                    if decide (length current < length shortest) then current
                    else shortest) first rest in
  ∃ pre' post', pre ++ first :: post ++ rest = pre' ++ c :: post'
    ∧ Forall (λ c', length c < length c') pre'
    ∧ Forall (λ c', length c ≤ length c') post'.
Proof.
  induction rest as [|cur rest IH]; intros pre first post Hpre Hpost; simpl.
  - exists pre, post. by rewrite app_nil_r.
  - destruct (decide (length cur < length first)) as [Hlt|Hge].
    + destruct (IH (pre ++ first :: post) cur []) as (pre' & post' & Heq & H1 & H2).
      * rewrite Forall_app, Forall_cons. split; [|split; [done|]].
        -- eapply Forall_impl; [exact Hpre|]. simpl. lia.
        -- eapply Forall_impl; [exact Hpost|]. simpl. lia.
      * done.
      * exists pre', post'. split; [|done]. rewrite <- Heq. simpl.
        by rewrite <- !app_assoc.
    + destruct (IH pre first (post ++ [cur])) as (pre' & post' & Heq & H1 & H2).
      * done.
      * rewrite Forall_app, Forall_singleton. split; [done|lia].
      * exists pre', post'. split; [|done]. rewrite <- Heq. by rewrite <- !app_assoc.
Qed.

(** X10.  [getShortestCycle] returns [null] exactly for an empty list;
    otherwise it returns a cycle of the list of minimal length, and among
    those of minimal length the earliest: every cycle before it is strictly
    longer, none after it is shorter. *)
Theorem getShortestCycle_first_of_minimal_length (cycles : list (list string)) :
  match getShortestCycle cycles with
  | None => cycles = []
  | Some c =>
      ∃ pre post, cycles = pre ++ c :: post
        ∧ Forall (λ c', length c < length c') pre
        ∧ Forall (λ c', length c ≤ length c') post
  end.
Proof.
  destruct cycles as [|first rest]; [done|]. simpl.
  destruct (shortest_fold rest [] first []) as (pre & post & Heq & H1 & H2); [done|done|].
  exists pre, post. by rewrite <- Heq.
Qed.

(** ** Deadlocked transactions *)

Lemma deadlocked_inner : ∀ (nodes d : list string),
  let d' := foldl (λ d node, if decide (node ≠ EmptyString) then set_add node d else d)
                  d nodes in
  (NoDup d → NoDup d')
  ∧ (∀ x, x ∈ d' ↔ x ∈ d ∨ (x ∈ nodes ∧ x ≠ EmptyString))
  ∧ d `prefix_of` d'.
Proof.
  induction nodes as [|node nodes IH]; intros d; simpl.
  - split; [done|]. split; [|done]. intros x. split; [by left|].
    intros [?|[?%elem_of_nil _]]; done.
  - destruct (decide (node ≠ EmptyString)) as [Hn|Hn].
    + destruct (IH (set_add node d)) as (Hnd & Hin & Hpre). split; [|split].
      * intros Hd. by apply Hnd, set_add_NoDup.
      * intros x. rewrite Hin, elem_of_set_add, elem_of_cons.
        split; [intros [[->|?]|[? ?]]; auto|].
        intros [?|[[->|?] ?]]; auto.
      * etrans; [|exact Hpre]. unfold set_add.
        destruct (decide (node ∈ d)); [done|]. by apply prefix_app_r.
    + apply dec_stable in Hn. subst node.
      destruct (IH d) as (Hnd & Hin & Hpre). split; [done|]. split; [|done].
      intros x. rewrite Hin, elem_of_cons.
      split; [intros [?|[? ?]]; auto|]. intros [?|[[->|?] ?]]; auto. done.
Qed.

Lemma deadlocked_outer : ∀ (cs : list (list string)) (d : list string),
  let d' := foldl (λ deadlocked cycle,
                     foldl (λ d node, if decide (node ≠ EmptyString) then set_add node d
                                      else d) deadlocked cycle) d cs in
  (NoDup d → NoDup d')
  ∧ (∀ x, x ∈ d' ↔ x ∈ d ∨ (x ≠ EmptyString ∧ ∃ cycle, cycle ∈ cs ∧ x ∈ cycle)).
Proof.
  induction cs as [|cycle cs IH]; intros d; simpl.
  - split; [done|]. intros x. split; [by left|].
    intros [?|[_ (c & ?%elem_of_nil & _)]]; done.
  - destruct (deadlocked_inner cycle d) as (Hnd1 & Hin1 & _).
    destruct (IH (foldl (λ d node, if decide (node ≠ EmptyString) then set_add node d else d)
                        d cycle)) as (Hnd2 & Hin2).
    split; [by auto|]. intros x. rewrite Hin2, Hin1. split.
    + intros [[?|[? ?]]|[? (c & ? & ?)]]; [by left| |].
      * right. split; [done|]. exists cycle. split; [by left|done].
      * right. split; [done|]. exists c. split; [by right|done].
    + intros [?|[? (c & [->|?]%elem_of_cons & ?)]]; [by auto|by auto|].
      right. split; [done|]. by exists c.
Qed.

Lemma isTransactionDeadlocked_spec id cycles :
  isTransactionDeadlocked id cycles = true ↔ ∃ cycle, cycle ∈ cycles ∧ id ∈ cycle.
Proof.
  unfold isTransactionDeadlocked. rewrite existsb_exists. split.
  - intros (c & Hc%list_elem_of_In & Hid%bool_decide_eq_true). eauto.
  - intros (c & Hc%list_elem_of_In & Hid). exists c. by rewrite bool_decide_eq_true.
Qed.

(** X11.  [getDeadlockedTransactions] returns, without repetition, exactly
    the non-empty ids that occur in some cycle; for a non-empty id
    [isTransactionDeadlocked] answers [true] exactly when the id is in that
    list. *)
Theorem getDeadlockedTransactions_members (cycles : list (list string)) :
  NoDup (getDeadlockedTransactions cycles)
  ∧ (∀ x, x ∈ getDeadlockedTransactions cycles
          ↔ x ≠ EmptyString ∧ ∃ cycle, cycle ∈ cycles ∧ x ∈ cycle)
  ∧ (∀ x, x ≠ EmptyString →
          (isTransactionDeadlocked x cycles = true ↔ x ∈ getDeadlockedTransactions cycles)).
Proof.
  destruct (deadlocked_outer cycles []) as (Hnd & Hin).
  split; [apply Hnd, NoDup_nil_2|].
  assert (∀ x, x ∈ getDeadlockedTransactions cycles
               ↔ x ≠ EmptyString ∧ ∃ cycle, cycle ∈ cycles ∧ x ∈ cycle) as Hmem.
  { intros x. unfold getDeadlockedTransactions. rewrite Hin. split; [|by right].
    intros [?%elem_of_nil|?]; done. }
  split; [done|]. intros x Hx. rewrite isTransactionDeadlocked_spec, Hmem. naive_solver.
Qed.

Lemma getDeadlockedTransactions_members_witness :
  isTransactionDeadlocked "T2" [["T1"; "T2"; "T1"]; ["T3"; "T3"]] = true
  ↔ "T2" ∈ getDeadlockedTransactions [["T1"; "T2"; "T1"]; ["T3"; "T3"]].
Proof.
  apply (proj2 (proj2 (getDeadlockedTransactions_members [["T1"; "T2"; "T1"]; ["T3"; "T3"]]))).
  done.
Defined.

(** ** Node colours *)

Lemma getNodeColors_fold (f : string → NodeColor) : ∀ nodes (o : JSObject NodeColor),
  let o' := foldl (λ colors node, obj_set colors node (f node)) o nodes in
  (NoDup (o.*1) → NoDup (o'.*1))
  ∧ (∀ k, k ∈ o'.*1 ↔ k ∈ o.*1 ∨ k ∈ nodes)
  ∧ (∀ k, obj_get o' k = if decide (k ∈ nodes) then Some (f k) else obj_get o k).
Proof.
  induction nodes as [|node nodes IH]; intros o; simpl.
  - split; [done|]. split; [|done]. intros k. split; [by left|].
    intros [?|?%elem_of_nil]; done.
  - destruct (IH (obj_set o node (f node))) as (Hnd & Hk & Hget).
    split; [|split].
    + intros Ho. by apply Hnd, obj_set_keys_NoDup.
    + intros k. rewrite Hk, obj_set_keys, elem_of_cons.
      destruct (decide (node ∈ o.*1)) as [Hin|Hin].
      * split; [intros [?|?]; auto|]. intros [?|[->|?]]; auto.
      * rewrite elem_of_app, list_elem_of_singleton.
        split; [intros [[?|?]|?]; auto|]. intros [?|[->|?]]; auto.
    + intros k. rewrite Hget.
      destruct (decide (k ∈ nodes)) as [Hin|Hin].
      * rewrite decide_True; [done|by right].
      * rewrite obj_get_set. destruct (decide (node = k)) as [->|Hne].
        -- rewrite decide_True; [done|by left].
        -- rewrite decide_False; [done|]. intros [->|?]%elem_of_cons; done.
Qed.

(** X12.  [getNodeColors] colours exactly the given nodes, each once; a
    node with a non-empty id is red when [isTransactionDeadlocked] holds of
    it and green otherwise, and the empty id is always green. *)
Theorem getNodeColors_red_iff_deadlocked (nodes : list string) (cycles : list (list string)) :
  let colors := getNodeColors nodes cycles in
  (∀ k, k ∈ colors.*1 ↔ k ∈ nodes)
  ∧ NoDup (colors.*1)
  ∧ (∀ node, node ∈ nodes → node ≠ EmptyString →
       obj_get colors node
       = Some (if isTransactionDeadlocked node cycles then red else green))
  ∧ (EmptyString ∈ nodes → obj_get colors EmptyString = Some green).
Proof.
  intros colors.
  destruct (getNodeColors_fold
              (λ node, if decide (node ∈ getDeadlockedTransactions cycles) then red else green)
              nodes []) as (Hnd & Hk & Hget).
  fold (getNodeColors nodes cycles) in Hnd, Hk, Hget. fold colors in Hnd, Hk, Hget.
  destruct (getDeadlockedTransactions_members cycles) as (_ & Hmem & Hagree).
  split; [|split; [|split]].
  - intros k. rewrite Hk. split; [|by right]. intros [?%elem_of_nil|?]; done.
  - apply Hnd, NoDup_nil_2.
  - intros node Hin Hne. rewrite Hget, decide_True by done. f_equal.
    destruct (isTransactionDeadlocked node cycles) eqn:Hd.
    + rewrite decide_True; [done|]. by apply Hagree.
    + rewrite decide_False; [done|]. intros Hx%Hagree; [congruence|done].
  - intros Hin. rewrite Hget, decide_True by done. f_equal.
    rewrite decide_False; [done|]. intros [? _]%Hmem. done.
Qed.

Lemma getNodeColors_red_iff_deadlocked_witness :
  obj_get (getNodeColors ["T1"; "T2"; "T3"] [["T1"; "T2"; "T1"]]) "T3" = Some green
  ∧ obj_get (getNodeColors ["T1"; "T2"; "T3"] [["T1"; "T2"; "T1"]]) "T2" = Some red.
Proof.
  destruct (getNodeColors_red_iff_deadlocked ["T1"; "T2"; "T3"] [["T1"; "T2"; "T1"]])
    as (_ & _ & Hc & _).
  split.
  - rewrite (Hc "T3"); [done|set_solver|done].
  - rewrite (Hc "T2"); [done|set_solver|done].
Defined.

(** ** Duplicate cycles *)

(** X13.  A new cycle counts as a duplicate exactly when some recorded cycle
    has the same set of nodes (the closing node of each left aside),
    whatever the order or the direction in which they are listed. *)
Theorem isCycleDuplicate_same_node_set (existingCycles : list (list string))
    (newCycle : list string) :
  isCycleDuplicate existingCycles newCycle = true
  ↔ ∃ cycle, cycle ∈ existingCycles
             ∧ ∀ x, x ∈ drop_last newCycle ↔ x ∈ drop_last cycle.
Proof.
  unfold isCycleDuplicate. rewrite existsb_exists. split.
  - intros (c & Hc%list_elem_of_In & [Hsize Hsub]%bool_decide_eq_true).
    exists c. split; [done|].
    assert ((list_to_set (drop_last newCycle) : gset string)
            ≡ list_to_set (drop_last c)) as Heq.
    { apply set_subseteq_size_equiv; [done|lia]. }
    intros x. specialize (Heq x). by rewrite !elem_of_list_to_set in Heq.
  - intros (c & Hc%list_elem_of_In & Heq). exists c. split; [done|].
    apply bool_decide_eq_true.
    assert ((list_to_set (drop_last newCycle) : gset string)
            = list_to_set (drop_last c)) as ->.
    { apply set_eq. intros x. by rewrite !elem_of_list_to_set. }
    done.
Qed.


(** ** The youngest transaction *)

(** Ids made of one character and a decimal numeral that a double holds
    exactly, as [T1], [T2], ...: on these [parseInt] is the numeral's
    value. *)
Definition numbered (id : string) : Prop :=
  ∃ c s, id = String c s ∧ s ≠ EmptyString ∧ all_digits s = true
         ∧ (digits_value 0 s ≤ 2 ^ 53)%N.

Definition victim_number (v : string * option Transaction) : N :=
  default 0%N (parseInt_suffix v.1).

Lemma leading_digits_all s : all_digits s = true → leading_digits s = s.
Proof.
  induction s as [|c s IH]; [done|]. simpl. intros [Hc Hs]%andb_true_iff.
  rewrite Hc. by rewrite IH.
Qed.

Lemma numbered_parse id : numbered id → is_Some (parseInt_suffix id).
Proof.
  intros (c & s & -> & Hs & Hall & _). unfold parseInt_suffix.
  rewrite leading_digits_all by done. destruct s; [done|eauto].
Qed.

Lemma sorts_after_number v w :
  is_Some (parseInt_suffix v.1) → is_Some (parseInt_suffix w.1) →
  sorts_after w.1 v.1 = true ↔ (victim_number v < victim_number w)%N.
Proof.
  intros [x Hx] [y Hy]. unfold sorts_after, victim_number. rewrite Hx, Hy. simpl.
  apply N.ltb_lt.
Qed.

Lemma insert_victim_sorted v l :
  is_Some (parseInt_suffix v.1) → Forall (λ w, is_Some (parseInt_suffix w.1)) l →
  StronglySorted (λ a b, (victim_number a ≤ victim_number b)%N) l →
  StronglySorted (λ a b, (victim_number a ≤ victim_number b)%N) (insert_victim v l).
Proof.
  intros Hv. induction l as [|w l IH]; intros Hall Hs; simpl.
  - repeat constructor.
  - apply Forall_cons in Hall as [Hw Hall].
    apply StronglySorted_inv in Hs as [Hs Hwl].
    destruct (sorts_after w.1 v.1) eqn:Hcmp.
    + apply sorts_after_number in Hcmp; [|done|done].
      constructor; [by constructor|].
      constructor; [lia|]. eapply Forall_impl; [exact Hwl|]. simpl. lia.
    + constructor; [by apply IH|].
      rewrite insert_victim_perm. constructor; [|done].
      destruct (decide (victim_number v < victim_number w)%N) as [Hlt|]; [|lia].
      apply sorts_after_number in Hlt; [congruence|done|done].
Qed.

Lemma sort_victims_sorted l :
  Forall (λ w, is_Some (parseInt_suffix w.1)) l →
  StronglySorted (λ a b, (victim_number a ≤ victim_number b)%N) (sort_victims l).
Proof.
  unfold sort_victims.
  assert (∀ acc,
    Forall (λ w, is_Some (parseInt_suffix w.1)) acc →
    StronglySorted (λ a b, (victim_number a ≤ victim_number b)%N) acc →
    Forall (λ w, is_Some (parseInt_suffix w.1)) l →
    StronglySorted (λ a b, (victim_number a ≤ victim_number b)%N)
                   (foldl (λ acc v, insert_victim v acc) acc l)) as Hgen.
  { induction l as [|v l IH]; intros acc Hacc Hs Hl; [done|]. simpl.
    apply Forall_cons in Hl as [Hv Hl]. apply IH; [|by apply insert_victim_sorted|done].
    rewrite insert_victim_perm. by constructor. }
  intros Hl. apply Hgen; [done|constructor|done].
Qed.

Lemma sorted_last_greatest {A} (R : A → A → Prop) (l : list A) (v : A) :
  (∀ x, R x x) → StronglySorted R l → last l = Some v → ∀ w, w ∈ l → R w v.
Proof.
  intros Hrefl. induction l as [|x l IH]; [done|]. intros [Hs Hx]%StronglySorted_inv Hlast w Hw.
  destruct l as [|y l].
  - simpl in Hlast. apply list_elem_of_singleton in Hw. by simplify_eq.
  - rewrite last_cons_cons in Hlast.
    apply elem_of_cons in Hw as [->|Hw]; [|by apply IH].
    rewrite Forall_forall in Hx. apply Hx. by eapply last_Some_elem_of.
Qed.

Lemma elem_of_drop_last_fmap txs c v :
  v ∈ (λ nodeId, (nodeId, find_tx txs nodeId)) <$> drop_last c →
  v.1 ∈ drop_last c ∧ v.2 = find_tx txs v.1.
Proof. intros (id & -> & Hid)%list_elem_of_fmap. done. Qed.

(** X14.  On a cycle of at least two entries whose nodes are numbered ids,
    [selectVictim] returns the record of a node of the cycle (the closing
    entry left aside) whose number is the largest in the cycle: numbers are
    compared as numbers, so [T10] wins over [T9]. *)
Theorem selectVictim_highest_number (c : list string) (txs : list Transaction) :
  2 ≤ length c → Forall numbered (drop_last c) →
  ∃ id n, selectVictim (Some c) txs = VictimRecord id (find_tx txs id)
    ∧ id ∈ drop_last c
    ∧ parseInt_suffix id = Some n
    ∧ ∀ id', id' ∈ drop_last c →
        ∃ n', parseInt_suffix id' = Some n' ∧ (n' ≤ n)%N.
Proof.
  intros Hlen Hnum. destruct c as [|x c]; [simpl in Hlen; lia|].
  unfold selectVictim.
  set (victims := (λ nodeId, (nodeId, find_tx txs nodeId)) <$> drop_last (x :: c)).
  assert (Forall (λ w, is_Some (parseInt_suffix w.1)) victims) as Hall.
  { apply Forall_fmap. eapply Forall_impl; [exact Hnum|]. intros id Hid. simpl.
    by apply numbered_parse. }
  destruct (last (sort_victims victims)) as [v|] eqn:Hlast.
  - pose proof (sorted_last_greatest (λ a b, (victim_number a ≤ victim_number b)%N) _ _
                  (λ x, N.le_refl _) (sort_victims_sorted _ Hall) Hlast) as Hmax.
    pose proof (last_Some_elem_of _ _ Hlast) as Hv. rewrite sort_victims_perm in Hv.
    pose proof Hv as Hv'. apply elem_of_drop_last_fmap in Hv' as [Hid Htx].
    rewrite Forall_forall in Hall. destruct (Hall v Hv) as [n Hn].
    exists v.1, n. rewrite <- Htx. split; [done|]. split; [done|]. split; [done|].
    intros id' Hid'.
    assert ((id', find_tx txs id') ∈ victims) as Hin.
    { apply list_elem_of_fmap. by exists id'. }
    destruct (Hall _ Hin) as [n' Hn']. simpl in Hn'. exists n'. split; [done|].
    specialize (Hmax (id', find_tx txs id')). rewrite sort_victims_perm in Hmax.
    specialize (Hmax Hin). unfold victim_number in Hmax. simpl in Hmax.
    by rewrite Hn, Hn' in Hmax.
  - exfalso. apply last_None in Hlast.
    assert (length (sort_victims victims) = length victims) as Hl
      by by rewrite sort_victims_perm.
    rewrite Hlast in Hl. unfold victims, drop_last in Hl.
    rewrite length_fmap, length_take in Hl. simpl in *. lia.
Qed.

Lemma selectVictim_highest_number_witness :
  ∃ id n, selectVictim (Some ["T2"; "T10"; "T9"; "T2"]) [] = VictimRecord id (find_tx [] id)
    ∧ id ∈ drop_last ["T2"; "T10"; "T9"; "T2"]
    ∧ parseInt_suffix id = Some n
    ∧ ∀ id', id' ∈ drop_last ["T2"; "T10"; "T9"; "T2"] →
        ∃ n', parseInt_suffix id' = Some n' ∧ (n' ≤ n)%N.
Proof.
  apply selectVictim_highest_number; [simpl; lia|].
  repeat constructor.
  - exists "T"%char, "2". split; [done|]. split; [done|]. split; [done|]. by vm_compute.
  - exists "T"%char, "10". split; [done|]. split; [done|]. split; [done|]. by vm_compute.
  - exists "T"%char, "9". split; [done|]. split; [done|]. split; [done|]. by vm_compute.
Defined.

(** ** The resolution strategy *)

(** X15.  [getResolutionStrategy] throws on a [null] cycle.  On any other
    cycle it reports the cycle without its closing entry as the affected
    transactions, and the victim it names is one of them; it names none
    only when the cycle has at most one entry. *)
Theorem getResolutionStrategy_victim_is_affected (c : list string) (txs : list Transaction) :
  getResolutionStrategy None txs = None
  ∧ ∃ r, getResolutionStrategy (Some c) txs = Some r
      ∧ strategy_cycle r = c
      ∧ affectedTransactions r = drop_last c
      ∧ match strategy_victim r with
        | Some id => id ∈ affectedTransactions r
        | None => length c ≤ 1
        end.
Proof.
  split; [done|]. unfold getResolutionStrategy. eexists. split; [done|]. simpl.
  split; [done|]. split; [done|].
  destruct c as [|x c]; [simpl; lia|]. unfold selectVictim.
  set (victims := (λ nodeId, (nodeId, find_tx txs nodeId)) <$> drop_last (x :: c)).
  destruct (last (sort_victims victims)) as [v|] eqn:Hlast.
  - apply last_Some_elem_of in Hlast. rewrite sort_victims_perm in Hlast.
    by apply elem_of_drop_last_fmap in Hlast as [Hid _].
  - apply last_None in Hlast.
    assert (length (sort_victims victims) = length victims) as Hl
      by by rewrite sort_victims_perm.
    rewrite Hlast in Hl. unfold victims, drop_last in Hl.
    rewrite length_fmap, length_take in Hl. simpl in *. lia.
Qed.


(** ** Degrees *)

Lemma filter_ext_elem {A} (P1 P2 : A → Prop)
    `{!∀ x, Decision (P1 x), !∀ x, Decision (P2 x)} (l : list A) :
  (∀ x, x ∈ l → P1 x ↔ P2 x) → filter P1 l = filter P2 l.
Proof.
  induction l as [|x l IH]; intros Hext; [done|].
  rewrite !filter_cons. rewrite IH by (intros y Hy; apply Hext; by right).
  destruct (decide (P1 x)) as [H1|H1], (decide (P2 x)) as [H2|H2]; try done.
  - destruct H2. apply Hext; [by left|done].
  - destruct H1. apply Hext; [by left|done].
Qed.

Lemma zero_degrees_lookup : ∀ (nodes : list string) (m : gmap string nat) k,
  foldl (λ m node, <[node := 0]> m) m nodes !! k
  = if decide (k ∈ nodes) then Some 0 else m !! k.
Proof.
  induction nodes as [|node nodes IH]; intros m k; simpl; [done|].
  rewrite IH. destruct (decide (k ∈ nodes)) as [Hin|Hin].
  - rewrite decide_True; [done|by right].
  - destruct (decide (node = k)) as [->|Hne].
    + rewrite lookup_insert_eq. rewrite decide_True; [done|by left].
    + rewrite lookup_insert_ne by done. rewrite decide_False; [done|].
      intros [->|?]%elem_of_cons; done.
Qed.

Lemma bump_degrees_lookup {E} (f : E → string) : ∀ (edges : list E) (m : gmap string nat) k,
  is_Some (m !! k) →
  foldl (λ m e, bump m (f e)) m edges !! k
  = Some (default 0 (m !! k) + length (filter (λ e, f e = k) edges)).
Proof.
  induction edges as [|e edges IH]; intros m k [c Hc]; simpl.
  - rewrite Hc. simpl. f_equal. lia.
  - rewrite IH.
    + unfold bump. rewrite filter_cons. destruct (decide (f e = k)) as [->|Hne].
      * rewrite lookup_insert_eq. simpl. f_equal. lia.
      * by rewrite lookup_insert_ne.
    + unfold bump. destruct (decide (f e = k)) as [->|Hne].
      * rewrite lookup_insert_eq. eauto.
      * rewrite lookup_insert_ne by done. eauto.
Qed.

Lemma degree_zero {E} (f : E → string) (nodes : list string) (edges : list E) k :
  k ∈ nodes →
  foldl (λ m e, bump m (f e)) (foldl (λ m node, <[node := 0]> m) ∅ nodes) edges !! k = Some 0
  ↔ ∀ e, e ∈ edges → f e ≠ k.
Proof.
  intros Hk. rewrite bump_degrees_lookup.
  2:{ rewrite zero_degrees_lookup, decide_True by done. eauto. }
  rewrite zero_degrees_lookup, decide_True by done. simpl. split.
  - intros [= Hlen] e He Hfe. apply length_zero_iff_nil in Hlen.
    assert (e ∈ filter (λ e, f e = k) edges) as Hin by by apply list_elem_of_filter.
    rewrite Hlen in Hin. by apply elem_of_nil in Hin.
  - intros Hno. f_equal. apply length_zero_iff_nil, elem_of_nil_inv.
    intros e [Hfe He]%list_elem_of_filter. by eapply Hno.
Qed.

(** X16.  On a graph whose [getAllEdges] lists the edges [getNeighbors]
    shows, [analyzeWFG] counts the nodes, reports as [freeNodes] exactly the
    nodes without a successor and as [independentNodes] exactly the nodes
    that are no one's successor, both in the order of [getNodes]. *)
Theorem analyzeWFG_free_and_independent {G : Type} `{WFG G} (g : G) :
  (∀ a b, (a, b) ∈ getAllEdges g ↔ b ∈ getNeighbors g a) →
  let r := analyzeWFG g in
  totalNodes r = length (getNodes g)
  ∧ freeNodes r = filter (λ node, getNeighbors g node = []) (getNodes g)
  ∧ independentNodes r `sublist_of` getNodes g
  ∧ ∀ node, node ∈ independentNodes r
            ↔ node ∈ getNodes g ∧ ∀ u, node ∉ getNeighbors g u.
Proof.
  intros Hedges r. split; [done|]. split; [|split].
  - unfold r, analyzeWFG. simpl. apply filter_ext_elem.
    intros node Hnode.
    rewrite (degree_zero fst) by done. split.
    + intros Hno. apply elem_of_nil_inv. intros v Hv%Hedges. by eapply Hno.
    + intros Hnil [a b] Hab%Hedges Ha. simpl in Ha. subst a.
      rewrite Hnil in Hab. by apply elem_of_nil in Hab.
  - apply sublist_filter.
  - intros node. unfold r, analyzeWFG. simpl. rewrite list_elem_of_filter.
    split.
    + intros [Hdeg Hnode]. split; [done|].
      rewrite (degree_zero snd) in Hdeg by done.
      intros u Hu%Hedges. by eapply Hdeg.
    + intros [Hnode Hno]. split; [|done]. rewrite (degree_zero snd) by done.
      intros [a b] Hab%Hedges Hb. simpl in Hb. subst b. by eapply Hno.
Qed.

Lemma analyzeWFG_free_and_independent_witness :
  let g := graph_of [("T1", "T2"); ("T3", "T2")] in
  freeNodes (analyzeWFG g) = filter (λ node, getNeighbors g node = []) (getNodes g).
Proof.
  intros g.
  apply (@analyzeWFG_free_and_independent _ AdjacencyList_WFG g
           (RepresentationFacts.list_getAllEdges g)).
Defined.


(* ===================================================================== *)
(** * Further properties: what [detectDeadlock] reports *)
(* ===================================================================== *)


Section DetectMore.
Context {G : Type} `{WFG G} (g : G).

Let univ : gset string := list_to_set (getNodes g).

(** *** Which nodes a search marks *)

Lemma skeleton_neighbors_bounds rec node :
  (∀ nb V R b V' R', nb ∈ univ → V ⊆ univ →
     rec nb V R = Some (b, V', R') → {[nb]} ∪ V ⊆ V' ∧ V' ⊆ univ) →
  ∀ nbrs V R b V' R',
    (∀ nb, nb ∈ nbrs → nb ∈ univ) → V ⊆ univ →
    skeleton_neighbors rec node nbrs V R = Some (b, V', R') →
    V ⊆ V' ∧ V' ⊆ univ.
Proof.
  intros Hrec. induction nbrs as [|nb rest IH]; intros V R b V' R' Hn HV; simpl.
  - by intros [= <- <- <-].
  - destruct (decide (nb ∉ V)).
    + destruct (rec nb V R) as [[[[] V1] R1]|] eqn:Hr; [| |done].
      * intros [= <- <- <-]. apply Hrec in Hr; [|apply Hn; by left|done].
        split; [set_solver|apply Hr].
      * apply Hrec in Hr as [Hr1 Hr2]; [|apply Hn; by left|done].
        intros Hrest. apply IH in Hrest as [? ?]; [|intros ??; apply Hn; by right|done].
        split; [set_solver|done].
    + destruct (decide (nb ∈ R)).
      * by intros [= <- <- <-].
      * apply IH; [|done]. intros ??. apply Hn. by right.
Qed.

Lemma skeleton_bounds fuel : ∀ node V R b V' R',
  closed g → node ∈ univ → V ⊆ univ →
  skeleton g fuel node V R = Some (b, V', R') →
  {[node]} ∪ V ⊆ V' ∧ V' ⊆ univ.
Proof.
  induction fuel as [|fuel IH]; intros node V R b V' R' Hcl Hnode HV; [done|].
  simpl. intros Hs.
  apply (skeleton_neighbors_bounds (skeleton g fuel) node) in Hs; [done| | |].
  - intros nb V1 R1 b1 V1' R1' ? ? Hr. by eapply IH.
  - intros nb Hnb. apply elem_of_list_to_set. by eapply Hcl.
  - apply union_least; [|done]. by apply singleton_subseteq_l.
Qed.

Lemma detect_roots_visits fuel : ∀ nodes st st',
  closed g → (∀ n, n ∈ nodes → n ∈ univ) → visited st ⊆ univ →
  detect_roots g fuel nodes st = Some st' →
  visited st ⊆ visited st' ∧ (∀ n, n ∈ nodes → n ∈ visited st') ∧ visited st' ⊆ univ.
Proof.
  induction nodes as [|node rest IH]; intros st st' Hcl Hn HV; simpl.
  - intros [= <-]. split; [done|]. split; [|done]. by intros n ?%elem_of_nil.
  - destruct (decide (node ∉ visited st)) as [Hv|Hv].
    + pose proof (dfs_skeleton g fuel node [] st) as Hd. unfold follows_skeleton in Hd.
      destruct (dfs g fuel node [] st) as [[b st1]|]; [|done].
      destruct Hd as [Hs _].
      apply skeleton_bounds in Hs as [Hs1 Hs2]; [|done|apply Hn; by left|done].
      intros Hrun. apply IH in Hrun as (H1 & H2 & H3); [|done| |done].
      2:{ intros ??. apply Hn. by right. }
      split; [set_solver|]. split; [|done].
      intros n [->|Hin]%elem_of_cons; [set_solver|by apply H2].
    + apply dec_stable in Hv. intros Hrun.
      apply IH in Hrun as (H1 & H2 & H3); [|done| |done].
      2:{ intros ??. apply Hn. by right. }
      split; [done|]. split; [|done].
      intros n [->|Hin]%elem_of_cons; [set_solver|by apply H2].
Qed.

(** *** The first reported cycle *)

(** A walk along the edges. *)
Definition walk (p : list string) : Prop :=
  ∀ i x y, p !! i = Some x → p !! S i = Some y → edge g x y.

(** A sequence that starts and ends at the same node and follows edges. *)
Definition closed_walk (c : list string) : Prop :=
  2 ≤ length c ∧ head c = last c ∧ walk c.

Lemma walk_drop i p : walk p → walk (drop i p).
Proof.
  intros Hw j x y. rewrite !lookup_drop. replace (i + S j) with (S (i + j)) by lia.
  apply Hw.
Qed.

Lemma walk_snoc p x y :
  walk p → last p = Some x → edge g x y → walk (p ++ [y]).
Proof.
  intros Hw Hlast Hxy i a b Ha Hb.
  destruct (decide (S i < length p)) as [Hlt|Hge].
  - rewrite lookup_app_l in Ha by lia. rewrite lookup_app_l in Hb by lia. by eapply Hw.
  - assert (S i = length p) as Hi.
    { apply lookup_lt_Some in Hb. rewrite length_app in Hb. simpl in Hb. lia. }
    rewrite lookup_app_l in Ha by lia.
    rewrite lookup_app_r in Hb by lia. rewrite Hi, Nat.sub_diag in Hb.
    injection Hb as <-.
    rewrite last_lookup in Hlast. rewrite <- Hi in Hlast. simpl in Hlast.
    by simplify_eq.
Qed.

Lemma walk_singleton_snoc x : walk ([] ++ [x]).
Proof. intros [|i] a b Ha Hb; done. Qed.

Lemma indexOf_Some x l : x ∈ l → ∃ i, indexOf x l = Some i ∧ l !! i = Some x.
Proof.
  intros Hx. unfold indexOf.
  destruct (list_find_elem_of (λ y, y = x) l x Hx eq_refl) as [[i y] Hf].
  rewrite Hf. simpl. exists i. split; [done|].
  apply list_find_Some in Hf as (Hi & -> & _). done.
Qed.

Lemma back_edge_cycle path node nb :
  walk path → last path = Some node → edge g node nb → nb ∈ path →
  closed_walk (slice_from (indexOf nb path) path ++ [nb]).
Proof.
  intros Hw Hlast Hedge Hin.
  destruct (indexOf_Some nb path Hin) as (i & -> & Hi). simpl.
  pose proof (lookup_lt_Some _ _ _ Hi) as Hlt.
  assert (drop i path = nb :: drop (S i) path) as Hd by by apply drop_S.
  split; [|split].
  - rewrite length_app, length_drop. simpl. lia.
  - rewrite last_snoc. by rewrite Hd.
  - apply (walk_snoc _ node); [by apply walk_drop| |done].
    rewrite Hd. rewrite <- Hlast. rewrite <- Hd.
    rewrite !last_lookup. rewrite lookup_drop, length_drop. f_equal. lia.
Qed.

(** The state of a search that has not met a back edge yet: no cycle is
    recorded and the recursion stack is the current path. *)
Definition on_path (path : list string) (st : DetectState) : Prop :=
  cycles st = [] ∧ recStack st = list_to_set path ∧ recStack st ⊆ visited st.

Definition first_cycle_post (path : list string) (st : DetectState)
    (r : bool * DetectState) : Prop :=
  let '(b, st') := r in
  if b then ∃ c, cycles st' = [c] ∧ closed_walk c
  else on_path path st' ∧ visited st ⊆ visited st'.

Lemma dfs_neighbors_first_cycle rec node path :
  last path = Some node → walk path →
  (∀ nb st r, on_path path st → nb ∉ visited st → edge g node nb →
     rec nb path st = Some r → first_cycle_post path st r) →
  ∀ nbrs st r,
    (∀ nb, nb ∈ nbrs → edge g node nb) →
    on_path path st → node ∈ visited st →
    dfs_neighbors rec node path nbrs st = Some r →
    let '(b, st') := r in
    if b then ∃ c, cycles st' = [c] ∧ closed_walk c
    else cycles st' = [] ∧ recStack st' = recStack st ∖ {[node]}
         ∧ visited st ⊆ visited st'.
Proof.
  intros Hlast Hw Hrec. induction nbrs as [|nb rest IH]; intros st r Hn Hst Hnode; simpl.
  - intros [= <-]. simpl. split; [apply Hst|]. done.
  - destruct (decide (nb ∉ visited st)) as [Hv|Hv].
    + destruct (rec nb path st) as [[[] st1]|] eqn:Hr; [| |done].
      * intros [= <-]. apply Hrec in Hr; [done|done|done|]. apply Hn. by left.
      * apply Hrec in Hr as [Hst1 HV1]; [|done|done|apply Hn; by left].
        intros Hrest. apply IH in Hrest; [| |done|set_solver].
        2:{ intros ??. apply Hn. by right. }
        destruct r as [[] st']; [done|].
        destruct Hrest as (Hc & HR & HV). split; [done|]. split; [|set_solver].
        rewrite HR. destruct Hst as (_ & -> & _). destruct Hst1 as (_ & -> & _). done.
    + destruct (decide (nb ∈ recStack st)) as [Hin|Hin].
      * intros [= <-]. destruct Hst as (Hc & HR & _). rewrite Hc. simpl.
        eexists. split; [done|].
        apply (back_edge_cycle path node nb); [done|done|apply Hn; by left|].
        rewrite HR in Hin. by apply elem_of_list_to_set in Hin.
      * apply IH; [|done|done]. intros ??. apply Hn. by right.
Qed.

Lemma dfs_first_cycle fuel : ∀ node path st r,
  walk (path ++ [node]) → on_path path st → node ∉ visited st →
  dfs g fuel node path st = Some r → first_cycle_post path st r.
Proof.
  induction fuel as [|fuel IH]; intros node path st r Hw Hst Hnode; [done|].
  simpl. intros Hrun.
  destruct Hst as (Hc & HR & Hsub).
  apply (dfs_neighbors_first_cycle (dfs g fuel) node (path ++ [node])) in Hrun.
  - destruct r as [[] st']; [done|]. simpl in *.
    destruct Hrun as (Hc' & HR' & HV'). split; [|set_solver].
    split; [done|]. split; [|].
    + rewrite HR'. rewrite HR in *. set_solver.
    + rewrite HR'. set_solver.
  - by rewrite last_snoc.
  - done.
  - intros nb st1 r1 Hst1 Hnb Hedge Hr1. eapply IH; [|done|done|done].
    apply (walk_snoc _ node); [done|by rewrite last_snoc|done].
  - done.
  - split; [done|]. simpl. split; [|set_solver].
    rewrite HR, list_to_set_app_L. simpl. set_solver.
  - simpl. set_solver.
Qed.

(** Every recorded sequence follows edges, whatever the state of the
    recursion stack. *)
Definition follows_edges (c : list string) : Prop := 2 ≤ length c ∧ walk c.

Lemma last_drop_lt i (p : list string) : i < length p → last (drop i p) = last p.
Proof.
  intros Hi. rewrite !last_lookup, lookup_drop, length_drop. f_equal. lia.
Qed.

Lemma recorded_follows_edges path node nb :
  walk path → last path = Some node → edge g node nb →
  follows_edges (slice_from (indexOf nb path) path ++ [nb]).
Proof.
  intros Hw Hlast Hedge.
  assert (0 < length path) as Hpos.
  { destruct path; [done|simpl; lia]. }
  assert (∃ i, slice_from (indexOf nb path) path = drop i path ∧ i < length path)
    as (i & -> & Hi).
  { unfold indexOf. destruct (list_find _ path) as [[i y]|] eqn:Hf; simpl.
    - exists i. split; [done|]. apply list_find_Some in Hf as (Hl & _).
      by eapply lookup_lt_Some.
    - exists (length path - 1). split; [done|lia]. }
  split.
  - rewrite length_app, length_drop. simpl. lia.
  - apply (walk_snoc _ node); [by apply walk_drop| |done].
    by rewrite last_drop_lt.
Qed.

Lemma dfs_neighbors_follow_edges rec node path :
  last path = Some node → walk path →
  (∀ nb st r, Forall follows_edges (cycles st) → edge g node nb →
     rec nb path st = Some r → Forall follows_edges (cycles r.2)) →
  ∀ nbrs st r,
    (∀ nb, nb ∈ nbrs → edge g node nb) →
    Forall follows_edges (cycles st) →
    dfs_neighbors rec node path nbrs st = Some r →
    Forall follows_edges (cycles r.2).
Proof.
  intros Hlast Hw Hrec. induction nbrs as [|nb rest IH]; intros st r Hn Hst; simpl.
  - by intros [= <-].
  - destruct (decide (nb ∉ visited st)) as [Hv|Hv].
    + destruct (rec nb path st) as [[[] st1]|] eqn:Hr; [| |done].
      * intros [= <-]. apply Hrec in Hr; [done|done|]. apply Hn. by left.
      * apply Hrec in Hr; [|done|apply Hn; by left].
        apply IH; [|done]. intros ??. apply Hn. by right.
    + destruct (decide (nb ∈ recStack st)) as [Hin|Hin].
      * intros [= <-]. simpl. destruct (isCycleDuplicate _ _); [done|]. simpl.
        apply Forall_app. split; [done|]. apply Forall_singleton.
        apply (recorded_follows_edges path node nb); [done|done|]. apply Hn. by left.
      * apply IH; [|done]. intros ??. apply Hn. by right.
Qed.

Lemma dfs_follows_edges fuel : ∀ node path st r,
  walk (path ++ [node]) → Forall follows_edges (cycles st) →
  dfs g fuel node path st = Some r → Forall follows_edges (cycles r.2).
Proof.
  induction fuel as [|fuel IH]; intros node path st r Hw Hst; [done|].
  simpl. intros Hrun.
  apply (dfs_neighbors_follow_edges (dfs g fuel) node (path ++ [node])) in Hrun; try done.
  - by rewrite last_snoc.
  - intros nb st1 r1 Hst1 Hedge Hr1. eapply IH; [|done|done].
    apply (walk_snoc _ node); [done|by rewrite last_snoc|done].
Qed.

Lemma detect_roots_follow_edges fuel : ∀ nodes st st',
  Forall follows_edges (cycles st) →
  detect_roots g fuel nodes st = Some st' → Forall follows_edges (cycles st').
Proof.
  induction nodes as [|node nodes IH]; intros st st' Hst; simpl.
  - by intros [= <-].
  - destruct (decide (node ∉ visited st)) as [Hv|Hv]; [|by apply IH].
    destruct (dfs g fuel node [] st) as [[b st1]|] eqn:Hd; [|done].
    apply dfs_follows_edges in Hd; [|apply walk_singleton_snoc|done].
    by apply IH.
Qed.

Lemma detect_roots_keeps_first fuel : ∀ nodes st st' c rest,
  cycles st = c :: rest →
  detect_roots g fuel nodes st = Some st' →
  ∃ rest', cycles st' = c :: rest'.
Proof.
  induction nodes as [|node nodes IH]; intros st st' c rest Hc; simpl.
  - intros [= <-]. eauto.
  - destruct (decide (node ∉ visited st)); [|by eapply IH].
    pose proof (dfs_skeleton g fuel node [] st) as Hd. unfold follows_skeleton in Hd.
    destruct (dfs g fuel node [] st) as [[b st1]|]; [|done].
    destruct Hd as [_ Hstep]. unfold cycles_step in Hstep.
    assert (∃ l, cycles st1 = cycles st ++ l) as [l Hl].
    { destruct b; [apply Hstep|]. exists []. by rewrite app_nil_r. }
    rewrite Hc in Hl. simpl in Hl. by eapply IH.
Qed.

Lemma detect_roots_first_cycle fuel : ∀ nodes st st',
  on_path [] st →
  detect_roots g fuel nodes st = Some st' →
  match cycles st' with
  | [] => True
  | c :: _ => closed_walk c
  end.
Proof.
  induction nodes as [|node nodes IH]; intros st st' Hst; simpl.
  - intros [= <-]. destruct Hst as (-> & _). done.
  - destruct (decide (node ∉ visited st)) as [Hv|Hv]; [|by apply IH].
    destruct (dfs g fuel node [] st) as [[b st1]|] eqn:Hd; [|done].
    apply dfs_first_cycle in Hd; [|apply walk_singleton_snoc|done|done].
    simpl in Hd. destruct b.
    + destruct Hd as (c & Hc & Hcw). intros Hrun.
      destruct (detect_roots_keeps_first _ _ _ _ _ _ Hc Hrun) as [rest' ->]. done.
    + destruct Hd as [Hst1 _]. by apply IH.
Qed.

End DetectMore.

(** X17.  On a graph with distinct nodes whose successors are nodes,
    [detectDeadlock] returns and [visitedNodes] is the number of nodes: the
    search goes on from the remaining roots after a cycle was found. *)
Theorem detectDeadlock_visits_every_node {G : Type} `{WFG G} (g : G) :
  closed g → NoDup (getNodes g) →
  ∃ r, detectDeadlock g = Some r ∧ visitedNodes r = length (getNodes g).
Proof.
  intros Hcl Hnd.
  destruct (detectDeadlock_correct g Hcl) as (r & Hr & _). exists r. split; [done|].
  unfold detectDeadlock in Hr.
  destruct (detect_roots g _ _ _) as [st'|] eqn:Hrun; [|done].
  simpl in Hr. injection Hr as <-. simpl.
  apply detect_roots_visits in Hrun as (_ & Hall & Hsub); [|done| |done].
  2:{ intros n Hn. by apply elem_of_list_to_set. }
  assert (visited st' = list_to_set (getNodes g)) as ->.
  { apply set_eq. intros x. split; [apply Hsub|].
    intros Hx%elem_of_list_to_set. by apply Hall. }
  by apply size_list_to_set.
Qed.

Lemma detectDeadlock_visits_every_node_witness :
  let g := graph_of [("T1", "T2"); ("T2", "T1"); ("T3", "T1")] in
  ∃ r, detectDeadlock g = Some r ∧ visitedNodes r = length (getNodes g).
Proof.
  intros g. apply detectDeadlock_visits_every_node.
  - apply closed_graph_of.
  - by vm_compute; repeat constructor; set_solver.
Defined.

(** X18.  On a graph whose successors are nodes, [detectDeadlock] returns;
    every sequence in [cycles] has at least two entries and follows edges of
    the graph, and the first one is closed: it starts and ends at the same
    node.  [hasCycle] is [true] exactly when [cycles] is not empty. *)
Theorem detectDeadlock_first_cycle_is_real {G : Type} `{WFG G} (g : G) :
  closed g →
  ∃ r, detectDeadlock g = Some r
    ∧ Forall (follows_edges g) (result_cycles r)
    ∧ match result_cycles r with
      | [] => hasCycle r = false
      | c :: _ => hasCycle r = true ∧ closed_walk g c
      end.
Proof.
  intros Hcl.
  destruct (detectDeadlock_correct g Hcl) as (r & Hr & _). exists r. split; [done|].
  unfold detectDeadlock in Hr.
  destruct (detect_roots g _ _ _) as [st'|] eqn:Hrun; [|done].
  simpl in Hr. injection Hr as <-. simpl. split.
  - by apply detect_roots_follow_edges in Hrun.
  - apply detect_roots_first_cycle in Hrun; [|by split].
    destruct (cycles st'); [done|]. split; [|done].
    apply bool_decide_eq_true. simpl. lia.
Qed.

Lemma detectDeadlock_first_cycle_is_real_witness :
  let g := graph_of [("T1", "T2"); ("T2", "T1"); ("T4", "T1")] in
  ∃ r, detectDeadlock g = Some r
    ∧ Forall (follows_edges g) (result_cycles r)
    ∧ match result_cycles r with
      | [] => hasCycle r = false
      | c :: _ => hasCycle r = true ∧ closed_walk g c
      end.
Proof.
  intros g. apply detectDeadlock_first_cycle_is_real. apply closed_graph_of.
Defined.

(** Only the first cycle is closed for sure.  A search that meets a back
    edge returns without clearing its recursion stack; a later root with an
    edge to one of the nodes left there is reported with that node as a
    cycle, although no edge leads back to it. *)
Lemma detectDeadlock_later_cycle_not_closed :
  let g := graph_of [("T1", "T2"); ("T2", "T1"); ("T4", "T1")] in
  result_cycles <$> detectDeadlock g = Some [["T1"; "T2"; "T1"]; ["T4"; "T1"]]
  ∧ getNeighbors g "T1" = ["T2"].
Proof. by vm_compute. Qed.


(* ===================================================================== *)
(** * Further properties: the lock table of the transaction manager *)
(* ===================================================================== *)


(** ** Looking up and updating transactions and resources *)

Lemma find_tx_cons t txs id :
  find_tx (t :: txs) id = if decide (tx_id t = id) then Some t else find_tx txs id.
Proof.
  unfold find_tx. simpl. destruct (decide (tx_id t = id)); [done|].
  by destruct (list_find _ txs) as [[i x]|].
Qed.

Lemma find_res_cons r rs id :
  find_res (r :: rs) id = if decide (res_id r = id) then Some r else find_res rs id.
Proof.
  unfold find_res. simpl. destruct (decide (res_id r = id)); [done|].
  by destruct (list_find _ rs) as [[i x]|].
Qed.

Lemma find_tx_id txs id t : find_tx txs id = Some t → tx_id t = id.
Proof.
  induction txs as [|t0 txs IH]; [done|]. rewrite find_tx_cons.
  destruct (decide (tx_id t0 = id)); [by intros [= <-]|done].
Qed.

Lemma find_res_id rs id r : find_res rs id = Some r → res_id r = id.
Proof.
  induction rs as [|r0 rs IH]; [done|]. rewrite find_res_cons.
  destruct (decide (res_id r0 = id)); [by intros [= <-]|done].
Qed.

Lemma find_tx_elem txs id t : find_tx txs id = Some t → t ∈ txs.
Proof.
  induction txs as [|t0 txs IH]; [done|]. rewrite find_tx_cons.
  destruct (decide (tx_id t0 = id)); [intros [= <-]; by left|]. intros ?. right. auto.
Qed.

Lemma find_res_elem rs id r : find_res rs id = Some r → r ∈ rs.
Proof.
  induction rs as [|r0 rs IH]; [done|]. rewrite find_res_cons.
  destruct (decide (res_id r0 = id)); [intros [= <-]; by left|]. intros ?. right. auto.
Qed.

Lemma find_tx_update id f txs id' :
  (∀ t, tx_id (f t) = tx_id t) →
  find_tx (update_tx id f txs) id'
  = if decide (id = id') then f <$> find_tx txs id else find_tx txs id'.
Proof.
  intros Hf. induction txs as [|t txs IH]; simpl.
  - unfold find_tx. simpl. by destruct (decide (id = id')).
  - destruct (decide (tx_id t = id)) as [Ht|Ht].
    + rewrite !find_tx_cons, Hf. rewrite (decide_True _ _ Ht).
      destruct (decide (id = id')) as [<-|Hne].
      * by rewrite decide_True.
      * rewrite !decide_False by congruence. done.
    + rewrite !find_tx_cons, IH.
      destruct (decide (id = id')) as [<-|Hne].
      * by rewrite !decide_False.
      * done.
Qed.

Lemma find_res_update id f rs id' :
  (∀ r, res_id (f r) = res_id r) →
  find_res (update_res id f rs) id'
  = if decide (id = id') then f <$> find_res rs id else find_res rs id'.
Proof.
  intros Hf. induction rs as [|r rs IH]; simpl.
  - unfold find_res. simpl. by destruct (decide (id = id')).
  - destruct (decide (res_id r = id)) as [Ht|Ht].
    + rewrite !find_res_cons, Hf. rewrite (decide_True _ _ Ht).
      destruct (decide (id = id')) as [<-|Hne].
      * by rewrite decide_True.
      * rewrite !decide_False by congruence. done.
    + rewrite !find_res_cons, IH.
      destruct (decide (id = id')) as [<-|Hne].
      * by rewrite !decide_False.
      * done.
Qed.

Lemma find_res_fmap f rs id :
  (∀ r, res_id (f r) = res_id r) →
  find_res (f <$> rs) id = f <$> find_res rs id.
Proof.
  intros Hf. induction rs as [|r rs IH]; [done|]. csimpl.
  rewrite !find_res_cons, Hf, IH. by destruct (decide (res_id r = id)).
Qed.

Lemma find_tx_fmap f txs id :
  (∀ t, tx_id (f t) = tx_id t) →
  find_tx (f <$> txs) id = f <$> find_tx txs id.
Proof.
  intros Hf. induction txs as [|t txs IH]; [done|]. csimpl.
  rewrite !find_tx_cons, Hf, IH. by destruct (decide (tx_id t = id)).
Qed.

Lemma update_tx_ids id f txs :
  (∀ t, tx_id (f t) = tx_id t) → tx_id <$> update_tx id f txs = tx_id <$> txs.
Proof.
  intros Hf. induction txs as [|t txs IH]; [done|]. simpl.
  destruct (decide (tx_id t = id)); csimpl; [by rewrite Hf|by rewrite IH].
Qed.

Lemma update_res_ids id f rs :
  (∀ r, res_id (f r) = res_id r) → res_id <$> update_res id f rs = res_id <$> rs.
Proof.
  intros Hf. induction rs as [|r rs IH]; [done|]. simpl.
  destruct (decide (res_id r = id)); csimpl; [by rewrite Hf|by rewrite IH].
Qed.

(** ** The lock table *)

Section LockTable.
Context {G : Type} `{WFG G}.
Implicit Types m : TransactionManager G.

(** What the tables say about a transaction or a resource, by id. *)
Definition held m (txId : string) : list string :=
  from_option heldLocks [] (find_tx (transactions m) txId).
Definition status_of m (txId : string) : option TxStatus :=
  status <$> find_tx (transactions m) txId.
Definition holder m (resId : string) : option string :=
  find_res (resources m) resId ≫= lockedBy.
Definition queue m (resId : string) : list string :=
  from_option waitQueue [] (find_res (resources m) resId).

(** The lock table is consistent: a transaction lists a resource among its
    held locks exactly when the resource names it as its holder; nothing is
    listed twice; a holder does not queue for its own resource. *)
Definition lock_table_ok m : Prop :=
  (∀ txId resId, resId ∈ held m txId ↔ holder m resId = Some txId)
  ∧ (∀ txId, NoDup (held m txId))
  ∧ (∀ resId, NoDup (queue m resId))
  ∧ (∀ resId txId, holder m resId = Some txId → txId ∉ queue m resId)
  ∧ (∀ resId txId, txId ∈ queue m resId → is_Some (find_tx (transactions m) txId))
  ∧ (∀ resId, holder m resId = None → queue m resId = []).

Lemma known_status m id :
  is_Some (find_tx (transactions m) id) ↔ is_Some (status_of m id).
Proof. unfold status_of. by rewrite fmap_is_Some. Qed.

(** The step an operation makes on the views. *)
Definition views_step m m'
    (fh : string → list string) (fs : string → option TxStatus)
    (fl : string → option string) (fq : string → list string) : Prop :=
  (∀ id, held m' id = fh id) ∧ (∀ id, status_of m' id = fs id)
  ∧ (∀ R, holder m' R = fl R) ∧ (∀ R, queue m' R = fq R).

Lemma acquireLock_views m txId resId :
  let m' := (acquireLock m txId resId).1 in
  (transactions m' = transactions m ∧ resources m' = resources m ∧ wfg m' = wfg m)
  ∨ (is_Some (find_tx (transactions m) txId)
     ∧ (status_of m txId = Some active ∨ status_of m txId = Some waiting)
     ∧ (resId ∉ held m txId)
     ∧ is_Some (find_res (resources m) resId)
     ∧ match holder m resId with
       | None =>
           views_step m m'
             (λ id, if decide (id = txId) then held m txId ++ [resId] else held m id)
             (λ id, if decide (id = txId) then Some active else status_of m id)
             (λ R, if decide (R = resId) then Some txId else holder m R)
             (queue m)
           ∧ wfg m' = removeWaitEdges txId (wfg m)
       | Some h =>
           views_step m m'
             (held m)
             (λ id, if decide (id = txId) then Some waiting else status_of m id)
             (holder m)
             (λ R, if decide (R = resId) then set_add txId (queue m resId) else queue m R)
           ∧ wfg m' = addEdge txId h (wfg m)
       end).
Proof.
  intros m'. unfold m', acquireLock.
  destruct (find_tx (transactions m) txId) as [tx|] eqn:Htx; [|by left].
  destruct (find_res (resources m) resId) as [res|] eqn:Hres; [|by left].
  case_bool_decide as Hst; [by left|].
  case_bool_decide as Hheld; [by left|].
  right. split; [eauto|]. split.
  { unfold status_of. rewrite Htx. simpl.
    destruct (status tx); naive_solver. }
  split; [unfold held; by rewrite Htx|]. split; [eauto|].
  unfold holder at 1. rewrite Hres. simpl.
  destruct (lockedBy res) as [h|] eqn:Hl; simpl.
  - split; [|done]. unfold views_step, held, status_of, holder, queue. simpl.
    split; [|split; [|split]].
    + intros id. rewrite find_tx_update by done.
      destruct (decide (txId = id)) as [<-|]; [by rewrite Htx|done].
    + intros id. rewrite find_tx_update by done.
      destruct (decide (txId = id)) as [<-|].
      * rewrite Htx. simpl. by rewrite decide_True.
      * by rewrite decide_False.
    + intros R. rewrite find_res_update.
      2:{ intros r. by destruct (decide _). }
      destruct (decide (resId = R)) as [<-|]; [|done].
      rewrite Hres. simpl. by destruct (decide _).
    + intros R. rewrite find_res_update.
      2:{ intros r. by destruct (decide _). }
      destruct (decide (resId = R)) as [<-|].
      * rewrite Hres. simpl. rewrite (decide_True (P := resId = resId)) by done.
        unfold set_add. by destruct (decide _).
      * by rewrite decide_False.
  - split; [|done]. unfold views_step, held, status_of, holder, queue. simpl.
    split; [|split; [|split]].
    + intros id. rewrite find_tx_update by done.
      destruct (decide (txId = id)) as [<-|].
      * rewrite Htx. simpl. by rewrite decide_True.
      * by rewrite decide_False.
    + intros id. rewrite find_tx_update by done.
      destruct (decide (txId = id)) as [<-|].
      * rewrite Htx. simpl. by rewrite decide_True.
      * by rewrite decide_False.
    + intros R. rewrite find_res_update by done.
      destruct (decide (resId = R)) as [<-|].
      * rewrite Hres. simpl. by rewrite decide_True.
      * by rewrite decide_False.
    + intros R. rewrite find_res_update by done.
      destruct (decide (resId = R)) as [<-|]; [by rewrite Hres|done].
Qed.

Definition released m (txId resId id : string) : list string :=
  if decide (id = txId) then filter (λ R, R ≠ resId) (held m txId) else held m id.

Lemma releaseLock_views m txId resId :
  let m' := (releaseLock m txId resId).1 in
  (m' = m ∧ success (releaseLock m txId resId).2 = false
   ∧ (holder m resId ≠ Some txId ∨ find_tx (transactions m) txId = None))
  ∨ (holder m resId = Some txId
     ∧ is_Some (find_tx (transactions m) txId)
     ∧ success (releaseLock m txId resId).2 = true
     ∧ match queue m resId with
       | [] =>
           views_step m m' (released m txId resId) (status_of m)
             (λ R, if decide (R = resId) then None else holder m R) (queue m)
           ∧ wfg m' = wfg m
       | next :: rest =>
           if decide (is_Some (find_tx (transactions m) next)) then
             views_step m m'
               (λ id, if decide (id = next) then released m txId resId id ++ [resId]
                      else released m txId resId id)
               (λ id, if decide (id = next) then Some active else status_of m id)
               (λ R, if decide (R = resId) then Some next else holder m R)
               (λ R, if decide (R = resId) then rest else queue m R)
             ∧ wfg m' = foldl (λ g waiterId, addEdge waiterId next g)
                              (removeWaitEdges next (wfg m)) rest
           else
             views_step m m' (released m txId resId) (status_of m)
               (λ R, if decide (R = resId) then None else holder m R)
               (λ R, if decide (R = resId) then rest else queue m R)
             ∧ wfg m' = wfg m
       end).
Proof.
  intros m'. unfold m', releaseLock.
  destruct (find_tx (transactions m) txId) as [tx|] eqn:Htx; [|left; by auto].
  destruct (find_res (resources m) resId) as [res|] eqn:Hres.
  2:{ left. split; [done|]. split; [done|]. left. unfold holder. by rewrite Hres. }
  case_bool_decide as Hl.
  { left. split; [done|]. split; [done|]. left. unfold holder. by rewrite Hres. }
  right. split; [unfold holder; by rewrite Hres|]. split; [eauto|]. split; [done|].
  unfold queue at 1. rewrite Hres. simpl.
  assert (∀ id, from_option heldLocks []
            (find_tx (update_tx txId (λ t, set_heldLocks
               (filter (λ id0, id0 ≠ resId) (heldLocks t)) t) (transactions m)) id)
          = released m txId resId id) as Hheld.
  { intros id. rewrite find_tx_update by done. unfold released, held.
    destruct (decide (txId = id)) as [<-|].
    - rewrite Htx. simpl. by rewrite decide_True.
    - by rewrite decide_False. }
  assert (∀ id, status <$>
            find_tx (update_tx txId (λ t, set_heldLocks
               (filter (λ id0, id0 ≠ resId) (heldLocks t)) t) (transactions m)) id
          = status_of m id) as Hstat.
  { intros id. rewrite find_tx_update by done. unfold status_of.
    destruct (decide (txId = id)) as [<-|]; [by rewrite Htx|done]. }
  destruct (waitQueue res) as [|next rest] eqn:Hq.
  - split; [|done]. unfold views_step, held, status_of, holder, queue. simpl.
    split; [done|]. split; [done|]. split.
    + intros R. rewrite find_res_update by done.
      destruct (decide (resId = R)) as [<-|].
      * rewrite Hres. simpl. by rewrite decide_True.
      * by rewrite decide_False.
    + intros R. rewrite find_res_update by done.
      destruct (decide (resId = R)) as [<-|]; [by rewrite Hres|done].
  - unfold promote. simpl.
    assert (is_Some (find_tx (update_tx txId (λ t, set_heldLocks
               (filter (λ id0, id0 ≠ resId) (heldLocks t)) t) (transactions m)) next)
            ↔ is_Some (find_tx (transactions m) next)) as Hknown.
    { rewrite find_tx_update by done. destruct (decide (txId = next)) as [<-|]; [|done].
      rewrite Htx. simpl. split; eauto. }
    destruct (decide (is_Some (find_tx (transactions m) next))) as [Hn|Hn].
    + apply Hknown in Hn as [nt Hnt]. rewrite Hnt. simpl. split; [|done].
      unfold views_step, held, status_of, holder, queue. simpl.
      split; [|split; [|split]].
      * intros id. rewrite find_tx_update by done.
        destruct (decide (next = id)) as [<-|].
        -- rewrite decide_True by done. rewrite Hnt. simpl.
           specialize (Hheld next). rewrite Hnt in Hheld. simpl in Hheld.
           by rewrite Hheld.
        -- rewrite decide_False by done. apply Hheld.
      * intros id. rewrite find_tx_update by done.
        destruct (decide (next = id)) as [<-|].
        -- rewrite decide_True by done. by rewrite Hnt.
        -- rewrite decide_False by done. apply Hstat.
      * intros R. destruct (decide (resId = R)) as [<-|].
        -- rewrite !find_res_update by done. rewrite !decide_True by done.
           by rewrite Hres.
        -- rewrite !find_res_update by done. by rewrite !decide_False by done.
      * intros R. destruct (decide (resId = R)) as [<-|].
        -- rewrite !find_res_update by done. rewrite !decide_True by done.
           by rewrite Hres.
        -- rewrite !find_res_update by done. by rewrite !decide_False by done.
    + destruct (find_tx (update_tx _ _ _) next) as [nt|] eqn:Hnt.
      { destruct Hn. apply Hknown. eauto. }
      simpl. split; [|done].
      unfold views_step, held, status_of, holder, queue. simpl.
      split; [done|]. split; [done|]. split.
      * intros R. destruct (decide (resId = R)) as [<-|].
        -- rewrite !find_res_update by done. rewrite !decide_True by done.
           by rewrite Hres.
        -- rewrite !find_res_update by done. by rewrite !decide_False by done.
      * intros R. destruct (decide (resId = R)) as [<-|].
        -- rewrite !find_res_update by done. rewrite !decide_True by done.
           by rewrite Hres.
        -- rewrite !find_res_update by done. by rewrite !decide_False by done.
Qed.

Lemma acquireLock_table_ok m txId resId :
  lock_table_ok m → lock_table_ok (acquireLock m txId resId).1.
Proof.
  intros (Hagree & Hheld & Hqueue & Hnq & Hqk & Hfree).
  destruct (acquireLock_views m txId resId) as [(Ht & Hr & _)|(Hk & Hst & Hnot & Hkr & Hv)].
  { unfold lock_table_ok, held, holder, queue in *. rewrite Ht, Hr. done. }
  assert (∀ id, is_Some (find_tx (transactions (acquireLock m txId resId).1) id)
                ↔ is_Some (find_tx (transactions m) id)) as Hknown.
  { intros id. rewrite !known_status. apply known_status in Hk.
    destruct (holder m resId); destruct Hv as [(_ & Hs' & _) _];
      rewrite Hs'; destruct (decide (id = txId)) as [->|]; try done;
      split; eauto. }
  destruct (holder m resId) as [h|] eqn:Hh.
  - destruct Hv as [(Hh' & _ & Hl' & Hq') _].
    split; [|split; [|split; [|split; [|split]]]].
    + intros id R. rewrite Hh', Hl'. apply Hagree.
    + intros id. rewrite Hh'. apply Hheld.
    + intros R. rewrite Hq'. destruct (decide (R = resId)); [|done].
      by apply set_add_NoDup.
    + intros R id. rewrite Hl', Hq'. intros Hid.
      destruct (decide (R = resId)) as [->|]; [|by apply Hnq].
      rewrite elem_of_set_add. intros [->|Hin]; [|by eapply Hnq].
      apply Hnot. apply Hagree. done.
    + intros R id. rewrite Hq', Hknown.
      destruct (decide (R = resId)) as [->|]; [|by apply Hqk].
      rewrite elem_of_set_add. intros [->|Hin]; [done|by eapply Hqk].
    + intros R. rewrite Hl', Hq'. destruct (decide (R = resId)) as [->|]; [|by apply Hfree].
      congruence.
  - destruct Hv as [(Hh' & _ & Hl' & Hq') _].
    split; [|split; [|split; [|split; [|split]]]].
    + intros id R. rewrite Hh', Hl'.
      destruct (decide (id = txId)) as [->|Hid], (decide (R = resId)) as [->|HR].
      * split; [done|]. intros _. apply elem_of_app. right. by left.
      * rewrite elem_of_app, list_elem_of_singleton. rewrite <- Hagree. naive_solver.
      * rewrite Hagree, Hh. naive_solver.
      * apply Hagree.
    + intros id. rewrite Hh'. destruct (decide (id = txId)); [|done].
      apply NoDup_app. split; [done|]. split; [|apply NoDup_singleton].
      intros x Hx ->%list_elem_of_singleton. done.
    + intros R. rewrite Hq'. done.
    + intros R id. rewrite Hl', Hq'.
      destruct (decide (R = resId)) as [->|]; [|by apply Hnq].
      intros _. rewrite (Hfree resId Hh). apply not_elem_of_nil.
    + intros R id. rewrite Hq', Hknown. apply Hqk.
    + intros R. rewrite Hl', Hq'. destruct (decide (R = resId)) as [->|]; [done|].
      apply Hfree.
Qed.

Lemma elem_of_released m txId resId id R :
  R ∈ released m txId resId id ↔ R ∈ held m id ∧ ¬ (id = txId ∧ R = resId).
Proof.
  unfold released. destruct (decide (id = txId)) as [->|].
  - rewrite list_elem_of_filter. naive_solver.
  - naive_solver.
Qed.

Lemma releaseLock_table_ok m txId resId :
  lock_table_ok m → lock_table_ok (releaseLock m txId resId).1.
Proof.
  intros (Hagree & Hheld & Hqueue & Hnq & Hqk & Hfree).
  destruct (releaseLock_views m txId resId) as [(-> & _)|(Hh & Hk & _ & Hv)]; [done|].
  assert (∀ id, NoDup (released m txId resId id)) as Hrel.
  { intros id. unfold released. destruct (decide _); [by apply NoDup_filter|done]. }
  destruct (queue m resId) as [|next rest] eqn:Hq.
  - destruct Hv as [(Hh' & Hs' & Hl' & Hq') _].
    split; [|split; [|split; [|split; [|split]]]].
    + intros id R. rewrite Hh', Hl', elem_of_released, Hagree.
      destruct (decide (R = resId)) as [->|]; [|naive_solver].
      rewrite Hh. naive_solver.
    + intros id. by rewrite Hh'.
    + intros R. by rewrite Hq'.
    + intros R id. rewrite Hl', Hq'. destruct (decide (R = resId)); [done|]. apply Hnq.
    + intros R id. rewrite Hq', !known_status, Hs', <- known_status. apply Hqk.
    + intros R. rewrite Hl', Hq'. destruct (decide (R = resId)) as [->|]; [done|].
      apply Hfree.
  - assert (next ∈ queue m resId) as Hnext by (rewrite Hq; by left).
    assert (next ≠ txId) as Hne.
    { intros ->. by eapply Hnq. }
    assert (next ∉ rest) as Hnr.
    { specialize (Hqueue resId). rewrite Hq in Hqueue. by apply NoDup_cons in Hqueue as [? _]. }
    assert (NoDup rest) as Hrest.
    { specialize (Hqueue resId). rewrite Hq in Hqueue. by apply NoDup_cons in Hqueue as [_ ?]. }
    rewrite decide_True in Hv by by eapply Hqk.
    destruct Hv as [(Hh' & Hs' & Hl' & Hq') _].
    split; [|split; [|split; [|split; [|split]]]].
    + intros id R. rewrite Hh', Hl'.
      assert (R ∈ (if decide (id = next) then released m txId resId id ++ [resId]
                   else released m txId resId id)
              ↔ R ∈ released m txId resId id ∨ (id = next ∧ R = resId)) as ->.
      { destruct (decide (id = next)); [|naive_solver].
        rewrite elem_of_app, list_elem_of_singleton. naive_solver. }
      rewrite elem_of_released, Hagree.
      destruct (decide (R = resId)) as [->|]; [|naive_solver].
      rewrite Hh. naive_solver.
    + intros id. rewrite Hh'. destruct (decide (id = next)) as [->|]; [|done].
      apply NoDup_app. split; [done|]. split; [|apply NoDup_singleton].
      intros x [Hx _]%elem_of_released ->%list_elem_of_singleton.
      apply Hagree in Hx. congruence.
    + intros R. rewrite Hq'. destruct (decide (R = resId)); [done|]. apply Hqueue.
    + intros R id. rewrite Hl', Hq'. destruct (decide (R = resId)); [|apply Hnq].
      by intros [= <-].
    + intros R id. rewrite Hq', !known_status, Hs'.
      intros Hin. destruct (decide (id = next)); [done|].
      rewrite <- known_status. destruct (decide (R = resId)) as [->|]; [|by eapply Hqk].
      apply (Hqk resId). rewrite Hq. by right.
    + intros R. rewrite Hl', Hq'. destruct (decide (R = resId)) as [->|]; [done|].
      apply Hfree.
Qed.

(** The three stages of [abortTransaction]. *)
Definition abort_mark (txId : string) m : TransactionManager G :=
  with_txs (update_tx txId (set_status aborted)) m.

Definition abort_release (txId : string) (l : list string) m : TransactionManager G :=
  foldl (λ m resId, (releaseLock m txId resId).1) m l.

Definition abort_finish (txId : string) m : TransactionManager G :=
  let m := with_txs (update_tx txId (set_heldLocks [])) m in
  let m := with_ress (fmap (λ r,
             set_waitQueue (filter (λ id, id ≠ txId) (waitQueue r)) r)) m in
  let m := with_txs (update_tx txId (set_waitingFor None)) m in
  let m := with_wfg (λ g, foldl (λ g node, removeEdge node txId g) g (getNodes g)) m in
  with_wfg (removeWaitEdges txId) m.

Lemma abortTransaction_stages m txId :
  match find_tx (transactions m) txId with
  | None => (abortTransaction m txId).1 = m ∧ success (abortTransaction m txId).2 = false
  | Some tx =>
      (abortTransaction m txId).1
      = abort_finish txId (abort_release txId (heldLocks tx) (abort_mark txId m))
      ∧ success (abortTransaction m txId).2 = true
  end.
Proof. unfold abortTransaction. by destruct (find_tx _ _). Qed.

Lemma abort_mark_views m txId :
  views_step m (abort_mark txId m) (held m)
    (λ id, if decide (id = txId) then (λ _, aborted) <$> status_of m txId else status_of m id)
    (holder m) (queue m).
Proof.
  unfold views_step, held, status_of, holder, queue, abort_mark. simpl.
  split; [|split; [|done]].
  - intros id. rewrite find_tx_update by done.
    destruct (decide (txId = id)) as [<-|]; [|done]. by destruct (find_tx _ _).
  - intros id. rewrite find_tx_update by done.
    destruct (decide (txId = id)) as [<-|].
    + rewrite decide_True by done. by destruct (find_tx _ _).
    + by rewrite decide_False.
Qed.

Lemma abort_mark_table_ok m txId : lock_table_ok m → lock_table_ok (abort_mark txId m).
Proof.
  intros (Hagree & Hheld & Hqueue & Hnq & Hqk & Hfree).
  destruct (abort_mark_views m txId) as (Hh' & Hs' & Hl' & Hq').
  split; [|split; [|split; [|split; [|split]]]].
  - intros id R. rewrite Hh', Hl'. apply Hagree.
  - intros id. rewrite Hh'. apply Hheld.
  - intros R. rewrite Hq'. apply Hqueue.
  - intros R id. rewrite Hl', Hq'. apply Hnq.
  - intros R id. rewrite Hq', !known_status, Hs'. intros Hin%Hqk%known_status.
    destruct (decide (id = txId)) as [->|]; [|done].
    destruct Hin as [x ->]. simpl. eauto.
  - intros R. rewrite Hl', Hq'. apply Hfree.
Qed.

Lemma held_known m id R : R ∈ held m id → is_Some (find_tx (transactions m) id).
Proof.
  unfold held. destruct (find_tx _ _); [eauto|]. simpl. by intros ?%elem_of_nil.
Qed.

Lemma abort_release_spec txId : ∀ l m,
  lock_table_ok m →
  lock_table_ok (abort_release txId l m)
  ∧ ∀ R, R ∈ held (abort_release txId l m) txId → R ∈ held m txId ∧ R ∉ l.
Proof.
  induction l as [|resId l IH]; intros m Hok; simpl.
  - split; [done|]. intros R HR. split; [done|]. apply not_elem_of_nil.
  - destruct (IH (releaseLock m txId resId).1) as [Hok' Hsub];
      [by apply releaseLock_table_ok|].
    split; [done|]. intros R HR. apply Hsub in HR as [HR Hl].
    destruct Hok as (Hagree & Hheld & Hqueue & Hnq & Hqk & Hfree).
    assert (R ∈ held m txId ∧ R ≠ resId) as [? ?]; [|split; [done|set_solver]].
    destruct (releaseLock_views m txId resId) as [(Heq & _ & Hfail)|(Hh & Hk & _ & Hv)].
    + rewrite Heq in HR. split; [done|]. intros ->.
      destruct Hfail as [Hfail|Hfail].
      * apply Hfail. by apply Hagree.
      * apply held_known in HR. rewrite Hfail in HR. by destruct HR.
    + destruct (queue m resId) as [|next rest] eqn:Hq.
      * destruct Hv as [(Hh' & _) _]. rewrite Hh' in HR.
        apply elem_of_released in HR. naive_solver.
      * assert (next ∈ queue m resId) as Hnext by (rewrite Hq; by left).
        rewrite decide_True in Hv by by eapply Hqk.
        destruct Hv as [(Hh' & _) _]. rewrite Hh' in HR.
        rewrite decide_False in HR.
        2:{ intros ->. by eapply Hnq. }
        apply elem_of_released in HR. naive_solver.
Qed.

Lemma abort_finish_views m txId :
  views_step m (abort_finish txId m)
    (λ id, if decide (id = txId) then [] else held m id)
    (status_of m) (holder m)
    (λ R, filter (λ id, id ≠ txId) (queue m R)).
Proof.
  unfold views_step, held, status_of, holder, queue, abort_finish. simpl.
  split; [|split; [|split]].
  - intros id. rewrite !find_tx_update by done.
    destruct (decide (txId = id)) as [<-|].
    + destruct (find_tx _ _); simpl; by destruct (decide (txId = txId)).
    + by rewrite !decide_False.
  - intros id. rewrite !find_tx_update by done.
    destruct (decide (txId = id)) as [<-|]; [|done].
    destruct (find_tx _ _); simpl; by destruct (decide (txId = txId)).
  - intros R. rewrite find_res_fmap by done. by destruct (find_res _ _).
  - intros R. rewrite find_res_fmap by done. by destruct (find_res _ _).
Qed.

Lemma abortTransaction_table_ok m txId :
  lock_table_ok m → lock_table_ok (abortTransaction m txId).1.
Proof.
  intros Hok. pose proof (abortTransaction_stages m txId) as Hst.
  destruct (find_tx (transactions m) txId) as [tx|] eqn:Htx; [|by destruct Hst as [-> _]].
  destruct Hst as [-> _].
  destruct (abort_release_spec txId (heldLocks tx) (abort_mark txId m))
    as [Hok1 Hsub]; [by apply abort_mark_table_ok|].
  set (m1 := abort_release txId (heldLocks tx) (abort_mark txId m)) in *.
  assert (held m1 txId = []) as Hnone.
  { apply elem_of_nil_inv. intros R [HR Hl]%Hsub.
    destruct (abort_mark_views m txId) as (Hh' & _). rewrite Hh' in HR.
    unfold held in HR. rewrite Htx in HR. done. }
  destruct Hok1 as (Hagree & Hheld & Hqueue & Hnq & Hqk & Hfree).
  destruct (abort_finish_views m1 txId) as (Hh' & Hs' & Hl' & Hq').
  split; [|split; [|split; [|split; [|split]]]].
  - intros id R. rewrite Hh', Hl'. destruct (decide (id = txId)) as [->|]; [|apply Hagree].
    rewrite <- Hagree, Hnone. done.
  - intros id. rewrite Hh'. destruct (decide _); [constructor|apply Hheld].
  - intros R. rewrite Hq'. apply NoDup_filter, Hqueue.
  - intros R id. rewrite Hl', Hq'. intros Hid [_ Hin]%list_elem_of_filter. by eapply Hnq.
  - intros R id. rewrite Hq', !known_status, Hs', <- known_status.
    intros [_ Hin]%list_elem_of_filter. by eapply Hqk.
  - intros R. rewrite Hl', Hq'. intros ->%Hfree. done.
Qed.

Lemma perform_table_ok m c : lock_table_ok m → lock_table_ok (perform m c).1.
Proof.
  destruct c; simpl.
  - apply acquireLock_table_ok.
  - apply releaseLock_table_ok.
  - apply abortTransaction_table_ok.
Qed.

Lemma run_calls_table_ok cs : ∀ m, lock_table_ok m → lock_table_ok (run_calls m cs).
Proof.
  induction cs as [|c cs IH]; intros m Hok; [done|].
  apply (IH (perform m c).1). by apply perform_table_ok.
Qed.

Lemma find_tx_Forall (P : Transaction → Prop) txs id t :
  Forall P txs → find_tx txs id = Some t → P t.
Proof. rewrite Forall_forall. intros HP Hf. by apply HP, (find_tx_elem _ id). Qed.

Lemma find_res_Forall (P : Resource → Prop) rs id r :
  Forall P rs → find_res rs id = Some r → P r.
Proof. rewrite Forall_forall. intros HP Hf. by apply HP, (find_res_elem _ id). Qed.

(** A manager built from transactions that hold nothing and from free
    resources with empty queues. *)
Lemma newManager_table_ok txs ress :
  Forall (λ t, heldLocks t = []) txs →
  Forall (λ r, lockedBy r = None ∧ waitQueue r = []) ress →
  lock_table_ok (newManager txs ress).
Proof.
  intros Htx Hres.
  assert (∀ id, held (newManager txs ress) id = []) as Hh.
  { intros id. unfold held. simpl. rewrite find_tx_fmap by done.
    destruct (find_tx txs id) as [t|] eqn:Ht; [|done].
    simpl. by eapply (find_tx_Forall _ _ _ _ Htx). }
  assert (∀ R, holder (newManager txs ress) R = None) as Hl.
  { intros R. unfold holder. simpl. rewrite find_res_fmap by done.
    destruct (find_res ress R) as [r|] eqn:Hr; [|done].
    simpl. by rewrite (proj1 (find_res_Forall _ _ _ _ Hres Hr)). }
  assert (∀ R, queue (newManager txs ress) R = []) as Hq.
  { intros R. unfold queue. simpl. rewrite find_res_fmap by done.
    destruct (find_res ress R) as [r|] eqn:Hr; [|done].
    simpl. by eapply (find_res_Forall _ _ _ _ Hres). }
  split; [|split; [|split; [|split; [|split]]]].
  - intros id R. rewrite Hh, Hl. split; [by intros ?%elem_of_nil|done].
  - intros id. rewrite Hh. constructor.
  - intros R. rewrite Hq. constructor.
  - intros R id. by rewrite Hl.
  - intros R id. rewrite Hq. by intros ?%elem_of_nil.
  - done.
Qed.

End LockTable.

(** X19.  The lock table stays consistent through every sequence of
    [acquireLock], [releaseLock] and [abortTransaction] calls: a transaction
    lists a resource in [heldLocks] exactly when the resource's [lockedBy]
    names it, so no resource is held by two transactions; no lock and no
    waiter is listed twice; the holder of a resource is not in its wait
    queue; every waiter is a known transaction; and a free resource has an
    empty wait queue. *)
Theorem lock_table_stays_consistent {G : Type} `{WFG G}
    (m : TransactionManager G) (cs : list Call) :
  lock_table_ok m →
  lock_table_ok (run_calls m cs)
  ∧ ∀ resId txId1 txId2,
      resId ∈ held (run_calls m cs) txId1 → resId ∈ held (run_calls m cs) txId2 →
      txId1 = txId2.
Proof.
  intros Hok. apply (run_calls_table_ok cs) in Hok. split; [done|].
  destruct Hok as (Hagree & _). intros R t1 t2 H1%Hagree H2%Hagree. congruence.
Qed.

Lemma lock_table_stays_consistent_witness :
  let m := run_calls (contention (G := AdjacencyListWFG.t))
             (contention_calls ++ [Abort "T2"; Acquire "T1" "R1"]) in
  lock_table_ok m
  ∧ ∀ resId txId1 txId2,
      resId ∈ held m txId1 → resId ∈ held m txId2 → txId1 = txId2.
Proof.
  apply lock_table_stays_consistent. apply newManager_table_ok.
  - repeat constructor.
  - repeat constructor.
Defined.


Section Inert.
Context {G : Type} `{WFGLaws G}.
Implicit Types m : TransactionManager G.
Implicit Types g : G.

Lemma add_in_edges_spec tx : ∀ l g,
  wfg_ok g →
  ∀ u v, v ∈ getNeighbors (foldl (λ g waiterId, addEdge waiterId tx g) g l) u
         ↔ v ∈ getNeighbors g u ∨ (v = tx ∧ u ∈ l).
Proof.
  induction l as [|w l IH]; intros g Hok u v; simpl.
  - split; [by left|]. intros [?|[_ ?%elem_of_nil]]; done.
  - rewrite IH by by apply wfg_ok_addEdge.
    rewrite wfg_edge_addEdge by done. rewrite elem_of_cons. naive_solver.
Qed.

(** A transaction that takes no part any more: aborted, holding nothing,
    in no wait queue and with no edge of the WFG at it. *)
Definition inert m (txId : string) : Prop :=
  status_of m txId = Some aborted
  ∧ held m txId = []
  ∧ (∀ resId, txId ∉ queue m resId)
  ∧ (∀ u v, v ∈ getNeighbors (wfg m) u → u ≠ txId ∧ v ≠ txId).

Lemma inert_not_holder m txId resId :
  lock_table_ok m → inert m txId → holder m resId ≠ Some txId.
Proof.
  intros (Hagree & _) (_ & Hheld & _) Hh. apply Hagree in Hh. rewrite Hheld in Hh.
  by apply elem_of_nil in Hh.
Qed.

Lemma acquireLock_inert m txId resId id :
  lock_table_ok m → wfg_ok (wfg m) → inert m id → inert (acquireLock m txId resId).1 id.
Proof.
  intros Hok Hwfg Hin. pose proof Hin as (Hst & Hheld & Hq & He).
  destruct (acquireLock_views m txId resId) as [(Ht & Hr & Hg)|(Hk & Hact & Hnot & Hkr & Hv)].
  { unfold inert, status_of, held, queue in *. rewrite Ht, Hr, Hg. done. }
  assert (id ≠ txId) as Hne.
  { intros ->. rewrite Hst in Hact. by destruct Hact. }
  destruct (holder m resId) as [h|] eqn:Hh.
  - destruct Hv as [(Hh' & Hs' & Hl' & Hq') Hg].
    split; [|split; [|split]].
    + rewrite Hs'. by rewrite decide_False.
    + by rewrite Hh'.
    + intros R. rewrite Hq'. destruct (decide (R = resId)) as [->|]; [|apply Hq].
      rewrite elem_of_set_add. intros [?|?]; [done|by eapply Hq].
    + intros u v. rewrite Hg, wfg_edge_addEdge by done.
      intros [Huv|[-> ->]]; [by apply He|]. split; [done|].
      intros ->. by eapply inert_not_holder.
  - destruct Hv as [(Hh' & Hs' & Hl' & Hq') Hg].
    split; [|split; [|split]].
    + rewrite Hs'. by rewrite decide_False.
    + rewrite Hh'. by rewrite decide_False.
    + intros R. rewrite Hq'. apply Hq.
    + intros u v. rewrite Hg. intros Huv.
      apply removeWaitEdges_spec in Huv as [Huv _]; [|done]. by apply He.
Qed.

Lemma releaseLock_inert m txId resId id :
  lock_table_ok m → wfg_ok (wfg m) → inert m id → inert (releaseLock m txId resId).1 id.
Proof.
  intros Hok Hwfg Hin. pose proof Hin as (Hst & Hheld & Hq & He).
  destruct (releaseLock_views m txId resId) as [(-> & _)|(Hh & Hk & _ & Hv)]; [done|].
  assert (released m txId resId id = []) as Hrel.
  { apply elem_of_nil_inv. intros R [HR _]%elem_of_released. rewrite Hheld in HR.
    by apply elem_of_nil in HR. }
  destruct (queue m resId) as [|next rest] eqn:Hqueue.
  - destruct Hv as [(Hh' & Hs' & Hl' & Hq') Hg].
    split; [|split; [|split]].
    + by rewrite Hs'.
    + by rewrite Hh'.
    + intros R. rewrite Hq'. apply Hq.
    + rewrite Hg. apply He.
  - assert (next ∈ queue m resId) as Hnext by (rewrite Hqueue; by left).
    assert (id ≠ next) as Hne.
    { intros ->. by eapply Hq. }
    destruct Hok as (Hagree & _ & _ & _ & Hqk & _).
    rewrite decide_True in Hv by by eapply Hqk.
    destruct Hv as [(Hh' & Hs' & Hl' & Hq') Hg].
    split; [|split; [|split]].
    + rewrite Hs'. by rewrite decide_False.
    + rewrite Hh'. by rewrite decide_False.
    + intros R. rewrite Hq'. destruct (decide (R = resId)) as [->|]; [|apply Hq].
      intros Hin'. apply (Hq resId). rewrite Hqueue. by right.
    + intros u v. rewrite Hg.
      rewrite add_in_edges_spec by by apply removeWaitEdges_spec.
      intros [Huv|[-> Hu]].
      * apply removeWaitEdges_spec in Huv as [Huv _]; [|done]. by apply He.
      * split; [|done]. intros ->. apply (Hq resId). rewrite Hqueue. by right.
Qed.

Lemma abort_release_inert txId id : ∀ l m,
  lock_table_ok m → wfg_ok (wfg m) → inert m id →
  wfg_ok (wfg (abort_release txId l m)) ∧ inert (abort_release txId l m) id.
Proof.
  induction l as [|resId l IH]; intros m Hok Hwfg Hin; [done|]. simpl.
  apply IH.
  - by apply releaseLock_table_ok.
  - by apply releaseLock_ok.
  - by apply releaseLock_inert.
Qed.

Lemma abort_release_ok txId : ∀ l m,
  wfg_ok (wfg m) → wfg_ok (wfg (abort_release txId l m)).
Proof.
  induction l as [|resId l IH]; intros m Hwfg; [done|]. simpl.
  apply IH. by apply releaseLock_ok.
Qed.

Lemma abort_finish_edges m txId u v :
  wfg_ok (wfg m) →
  v ∈ getNeighbors (wfg (abort_finish txId m)) u →
  v ∈ getNeighbors (wfg m) u ∧ u ≠ txId ∧ v ≠ txId.
Proof.
  intros Hwfg. unfold abort_finish. simpl.
  destruct (remove_in_edges txId (getNodes (wfg m)) (wfg m) Hwfg) as [Hok1 He1].
  intros Huv. apply removeWaitEdges_spec in Huv as [Huv Hu]; [|done].
  apply He1 in Huv as [Huv Hnot]. split; [done|]. split; [done|].
  intros ->. apply Hnot. split; [done|]. by eapply wfg_sources.
Qed.

Lemma abortTransaction_inert m txId id :
  lock_table_ok m → wfg_ok (wfg m) → inert m id → inert (abortTransaction m txId).1 id.
Proof.
  intros Hok Hwfg Hin. pose proof (abortTransaction_stages m txId) as Hstages.
  destruct (find_tx (transactions m) txId) as [tx|] eqn:Htx; [|by destruct Hstages as [-> _]].
  destruct Hstages as [-> _].
  assert (inert (abort_mark txId m) id) as Hin0.
  { destruct Hin as (Hst & Hheld & Hq & He).
    destruct (abort_mark_views m txId) as (Hh' & Hs' & Hl' & Hq').
    split; [|split; [|split]].
    - rewrite Hs'. destruct (decide (id = txId)) as [->|]; [|done]. by rewrite Hst.
    - by rewrite Hh'.
    - intros R. rewrite Hq'. apply Hq.
    - apply He. }
  destruct (abort_release_inert txId id (heldLocks tx) (abort_mark txId m))
    as [Hwfg1 (Hst & Hheld & Hq & He)]; [by apply abort_mark_table_ok|done|done|].
  set (m1 := abort_release txId (heldLocks tx) (abort_mark txId m)) in *.
  destruct (abort_finish_views m1 txId) as (Hh' & Hs' & Hl' & Hq').
  split; [|split; [|split]].
  - by rewrite Hs'.
  - rewrite Hh'. by destruct (decide _).
  - intros R. rewrite Hq'. intros [_ ?]%list_elem_of_filter. by eapply Hq.
  - intros u v Huv. apply abort_finish_edges in Huv as [Huv _]; [|done]. by apply He.
Qed.

Lemma abort_release_status txId : ∀ l m,
  lock_table_ok m →
  status_of (abort_release txId l m) txId = status_of m txId.
Proof.
  induction l as [|resId l IH]; intros m Hok; [done|]. simpl.
  rewrite IH by by apply releaseLock_table_ok.
  destruct Hok as (_ & _ & _ & Hnq & Hqk & _).
  destruct (releaseLock_views m txId resId) as [(-> & _)|(Hh & Hk & _ & Hv)]; [done|].
  destruct (queue m resId) as [|next rest] eqn:Hq.
  - destruct Hv as [(_ & Hs' & _) _]. by rewrite Hs'.
  - assert (next ∈ queue m resId) as Hnext by (rewrite Hq; by left).
    rewrite decide_True in Hv by by eapply Hqk.
    destruct Hv as [(_ & Hs' & _) _]. rewrite Hs'. rewrite decide_False; [done|].
    intros <-. by eapply Hnq.
Qed.

Lemma abortTransaction_makes_inert m txId :
  lock_table_ok m → wfg_ok (wfg m) →
  success (abortTransaction m txId).2 = true →
  inert (abortTransaction m txId).1 txId.
Proof.
  intros Hok Hwfg Hsucc. pose proof (abortTransaction_stages m txId) as Hstages.
  destruct (find_tx (transactions m) txId) as [tx|] eqn:Htx.
  2:{ destruct Hstages as [_ Hf]. congruence. }
  destruct Hstages as [-> _].
  destruct (abort_release_spec txId (heldLocks tx) (abort_mark txId m))
    as [Hok1 Hsub]; [by apply abort_mark_table_ok|].
  pose proof (abort_release_ok txId (heldLocks tx) (abort_mark txId m) Hwfg) as Hwfg1.
  set (m1 := abort_release txId (heldLocks tx) (abort_mark txId m)) in *.
  destruct (abort_finish_views m1 txId) as (Hh' & Hs' & Hl' & Hq').
  split; [|split; [|split]].
  - rewrite Hs'. unfold m1. rewrite abort_release_status by by apply abort_mark_table_ok.
    destruct (abort_mark_views m txId) as (_ & Hs0 & _). rewrite Hs0.
    rewrite decide_True by done. unfold status_of. by rewrite Htx.
  - rewrite Hh'. by rewrite decide_True.
  - intros R. rewrite Hq'. intros [? _]%list_elem_of_filter. done.
  - intros u v Huv. by apply abort_finish_edges in Huv as (_ & ? & ?).
Qed.

Lemma perform_inert m c id :
  lock_table_ok m → wfg_ok (wfg m) → inert m id → inert (perform m c).1 id.
Proof.
  destruct c; simpl.
  - apply acquireLock_inert.
  - apply releaseLock_inert.
  - apply abortTransaction_inert.
Qed.

Lemma perform_wfg_ok m c : wfg_ok (wfg m) → wfg_ok (wfg (perform m c).1).
Proof.
  destruct c; simpl.
  - apply acquireLock_ok.
  - apply releaseLock_ok.
  - apply abortTransaction_ok.
Qed.

Lemma run_calls_inert cs id : ∀ m,
  lock_table_ok m → wfg_ok (wfg m) → inert m id → inert (run_calls m cs) id.
Proof.
  induction cs as [|c cs IH]; intros m Hok Hwfg Hin; [done|].
  apply (IH (perform m c).1).
  - by apply perform_table_ok.
  - by apply perform_wfg_ok.
  - by apply perform_inert.
Qed.

End Inert.

(** X20.  An abort is final.  Once [abortTransaction] has succeeded on a
    consistent manager, whatever calls follow, the transaction keeps the
    status [aborted], holds no lock, is the holder of no resource, is in no
    wait queue, and no edge of the WFG starts or ends at it. *)
Theorem aborted_transaction_stays_out {G : Type} `{WFGLaws G}
    (m : TransactionManager G) (txId : string) (cs : list Call) :
  lock_table_ok m → wfg_ok (wfg m) →
  success (abortTransaction m txId).2 = true →
  let m' := run_calls (abortTransaction m txId).1 cs in
  status_of m' txId = Some aborted
  ∧ held m' txId = []
  ∧ (∀ resId, holder m' resId ≠ Some txId ∧ txId ∉ queue m' resId)
  ∧ (∀ u v, v ∈ getNeighbors (wfg m') u → u ≠ txId ∧ v ≠ txId).
Proof.
  intros Hok Hwfg Hsucc m'.
  assert (lock_table_ok m') as Hok'.
  { apply run_calls_table_ok. by apply abortTransaction_table_ok. }
  assert (inert m' txId) as Hin.
  { apply run_calls_inert.
    - by apply abortTransaction_table_ok.
    - by apply abortTransaction_ok.
    - by apply abortTransaction_makes_inert. }
  pose proof Hin as (Hst & Hheld & Hq & He).
  split; [done|]. split; [done|]. split; [|done].
  intros R. split; [by apply inert_not_holder|apply Hq].
Qed.

Lemma aborted_transaction_stays_out_witness :
  let m := run_calls (contention (G := AdjacencyMatrixWFG.t))
             [Acquire "T1" "R1"; Acquire "T2" "R1"; Acquire "T3" "R1"] in
  let m' := run_calls (abortTransaction m "T2").1
              [Release "T1" "R1"; Acquire "T2" "R1"; Acquire "T1" "R1"] in
  status_of m' "T2" = Some aborted
  ∧ held m' "T2" = []
  ∧ (∀ resId, holder m' resId ≠ Some "T2" ∧ "T2" ∉ queue m' resId)
  ∧ (∀ u v, v ∈ getNeighbors (wfg m') u → u ≠ "T2" ∧ v ≠ "T2").
Proof.
  intros m. apply aborted_transaction_stays_out.
  - apply run_calls_table_ok, newManager_table_ok; repeat constructor.
  - apply run_calls_ok. apply (wfg_ok_create (G := AdjacencyMatrixWFG.t)).
    by vm_compute; repeat constructor; set_solver.
  - done.
Defined.


(** X21.  Releasing a lock hands it to the first waiter.  When the holder
    releases a resource with waiters, the head of the queue becomes the
    holder and [active], the rest of the queue keeps its order and every
    other queue is untouched; the new holder loses all its outgoing edges
    (also when it is still in another queue), and every remaining waiter
    gets an edge to the new holder and keeps the edges it had, the one to
    the releasing transaction included. *)
Theorem releaseLock_promotes_first_waiter {G : Type} `{WFGLaws G}
    (m : TransactionManager G) (txId resId next : string) (rest : list string) :
  lock_table_ok m → wfg_ok (wfg m) →
  holder m resId = Some txId → queue m resId = next :: rest →
  let m' := (releaseLock m txId resId).1 in
  success (releaseLock m txId resId).2 = true
  ∧ holder m' resId = Some next
  ∧ queue m' resId = rest
  ∧ (∀ R, R ≠ resId → holder m' R = holder m R ∧ queue m' R = queue m R)
  ∧ status_of m' next = Some active
  ∧ resId ∈ held m' next
  ∧ (resId ∉ held m' txId)
  ∧ getNeighbors (wfg m') next = []
  ∧ (∀ w, w ∈ rest →
       next ∈ getNeighbors (wfg m') w
       ∧ ∀ v, v ∈ getNeighbors (wfg m) w → v ∈ getNeighbors (wfg m') w).
Proof.
  intros Hok Hwfg Hh Hq m'.
  pose proof Hok as (Hagree & Hheld & Hqueue & Hnq & Hqk & Hfree).
  assert (resId ∈ held m txId) as Hr by by apply Hagree.
  pose proof (held_known _ _ _ Hr) as Hknown.
  destruct (releaseLock_views m txId resId) as [(_ & _ & [Hf|Hf])|(_ & _ & Hsucc & Hv)].
  { done. }
  { rewrite Hf in Hknown. by destruct Hknown. }
  rewrite Hq in Hv.
  assert (next ∈ queue m resId) as Hnext by (rewrite Hq; by left).
  assert (next ≠ txId) as Hne.
  { intros ->. by eapply Hnq. }
  assert (next ∉ rest) as Hnr.
  { specialize (Hqueue resId). rewrite Hq in Hqueue. by apply NoDup_cons in Hqueue as [? _]. }
  rewrite decide_True in Hv by by eapply Hqk.
  destruct Hv as [(Hh' & Hs' & Hl' & Hq') Hg]. fold m' in Hh', Hs', Hl', Hq', Hg.
  split; [done|]. split; [by rewrite Hl', decide_True|].
  split; [by rewrite Hq', decide_True|]. split.
  { intros R HR. by rewrite Hl', Hq', !decide_False. }
  split; [by rewrite Hs', decide_True|]. split.
  { rewrite Hh', decide_True by done. apply elem_of_app. right. by left. }
  split.
  { rewrite Hh', decide_False by done. intros [_ Hno]%elem_of_released. by apply Hno. }
  destruct (removeWaitEdges_spec next (wfg m) Hwfg) as [Hok1 He1].
  split.
  - apply elem_of_nil_inv. intros v. rewrite Hg. rewrite add_in_edges_spec by done.
    intros [Hv|[_ ?]]; [|done]. apply He1 in Hv as [_ ?]. done.
  - intros w Hw. rewrite Hg. split.
    + apply add_in_edges_spec; [done|]. by right.
    + intros v Hv. apply add_in_edges_spec; [done|]. left. apply He1. split; [done|].
      intros ->. done.
Qed.

Lemma releaseLock_promotes_first_waiter_witness :
  let m := run_calls (contention (G := HashMapSetsWFG.t))
             [Acquire "T1" "R1"; Acquire "T2" "R1"; Acquire "T3" "R1"] in
  let m' := (releaseLock m "T1" "R1").1 in
  holder m' "R1" = Some "T2" ∧ queue m' "R1" = ["T3"]
  ∧ getNeighbors (wfg m') "T2" = []
  ∧ "T2" ∈ getNeighbors (wfg m') "T3" ∧ "T1" ∈ getNeighbors (wfg m') "T3".
Proof.
  intros m m'.
  assert (lock_table_ok m) as Hok.
  { apply run_calls_table_ok, newManager_table_ok; repeat constructor. }
  assert (wfg_ok (wfg m)) as Hwfg.
  { apply run_calls_ok. exact (wfg_ok_create (G := HashMapSetsWFG.t) _ NoDup_nil_2). }
  destruct (releaseLock_promotes_first_waiter m "T1" "R1" "T2" ["T3"] Hok Hwfg)
    as (_ & Hl & Hq & _ & _ & _ & _ & Hn & Hw); [done|done|].
  split; [done|]. split; [done|]. split; [done|].
  destruct (Hw "T3") as [H1 H2]; [set_solver|]. split; [done|].
  apply H2. vm_compute. set_solver.
Defined.

(** A transaction promoted on one resource while it still queues for
    another is shown as waiting for no one. *)
Lemma promoted_waiter_still_queued :
  let m := run_calls
             (newManager (G := AdjacencyListWFG.t)
                [fresh_tx "T1"; fresh_tx "T2"; fresh_tx "T3"] [free_res "R1"; free_res "R2"])
             [Acquire "T1" "R1"; Acquire "T2" "R2"; Acquire "T3" "R1"; Acquire "T3" "R2";
              Release "T1" "R1"] in
  queue m "R2" = ["T3"] ∧ holder m "R2" = Some "T2"
  ∧ status_of m "T3" = Some active ∧ getNeighbors (wfg m) "T3" = [].
Proof. by vm_compute. Qed.

(** ** [reset] *)

Section ResetFacts.
Context {G : Type} `{WFG G}.
Implicit Types m : TransactionManager G.

Lemma acquireLock_ids m txId resId :
  tx_id <$> transactions (acquireLock m txId resId).1 = tx_id <$> transactions m
  ∧ res_id <$> resources (acquireLock m txId resId).1 = res_id <$> resources m.
Proof.
  unfold acquireLock.
  destruct (find_tx _ _); [|done]. destruct (find_res _ _) as [res|]; [|done].
  case_bool_decide; [done|]. case_bool_decide; [done|].
  destruct (lockedBy res); simpl.
  - rewrite update_tx_ids by done. rewrite update_res_ids; [done|].
    intros r. by destruct (decide _).
  - rewrite update_tx_ids by done. by rewrite update_res_ids.
Qed.

Lemma releaseLock_ids m txId resId :
  tx_id <$> transactions (releaseLock m txId resId).1 = tx_id <$> transactions m
  ∧ res_id <$> resources (releaseLock m txId resId).1 = res_id <$> resources m.
Proof.
  unfold releaseLock.
  destruct (find_tx _ _); [|done]. destruct (find_res _ _) as [res|]; [|done].
  case_bool_decide; [done|].
  destruct (waitQueue res) as [|next rest]; simpl.
  - rewrite update_tx_ids by done. by rewrite update_res_ids.
  - unfold promote. simpl. destruct (find_tx _ next); simpl.
    + rewrite !update_tx_ids by done. by rewrite !update_res_ids.
    + rewrite !update_tx_ids by done. by rewrite !update_res_ids.
Qed.

Lemma abort_release_ids txId : ∀ l m,
  tx_id <$> transactions (abort_release txId l m) = tx_id <$> transactions m
  ∧ res_id <$> resources (abort_release txId l m) = res_id <$> resources m.
Proof.
  induction l as [|resId l IH]; intros m; [done|]. simpl.
  destruct (IH (releaseLock m txId resId).1) as [-> ->]. apply releaseLock_ids.
Qed.

Lemma abortTransaction_ids m txId :
  tx_id <$> transactions (abortTransaction m txId).1 = tx_id <$> transactions m
  ∧ res_id <$> resources (abortTransaction m txId).1 = res_id <$> resources m.
Proof.
  pose proof (abortTransaction_stages m txId) as Hst.
  destruct (find_tx (transactions m) txId) as [tx|]; [|by destruct Hst as [-> _]].
  destruct Hst as [-> _]. unfold abort_finish. simpl.
  rewrite !update_tx_ids by done.
  destruct (abort_release_ids txId (heldLocks tx) (abort_mark txId m)) as [Ht Hr].
  split.
  - rewrite Ht. unfold abort_mark. simpl. by rewrite update_tx_ids.
  - rewrite <- list_fmap_compose. etrans; [|exact Hr]. by apply list_fmap_ext.
Qed.

Lemma run_calls_ids cs : ∀ m,
  tx_id <$> transactions (run_calls m cs) = tx_id <$> transactions m
  ∧ res_id <$> resources (run_calls m cs) = res_id <$> resources m.
Proof.
  induction cs as [|c cs IH]; intros m; [done|].
  destruct (IH (perform m c).1) as [Ht Hr].
  change (run_calls m (c :: cs)) with (run_calls (perform m c).1 cs).
  rewrite Ht, Hr. destruct c; simpl.
  - apply acquireLock_ids.
  - apply releaseLock_ids.
  - apply abortTransaction_ids.
Qed.

Lemma reset_tables m :
  transactions (reset m) = (λ id, mkTransaction id active [] None) <$> (tx_id <$> transactions m)
  ∧ resources (reset m) = (λ id, mkResource id None []) <$> (res_id <$> resources m).
Proof. unfold reset. simpl. by rewrite <- !list_fmap_compose. Qed.

End ResetFacts.

(** On fresh transactions and free resources the constructor has nothing to
    replace. *)
Lemma newManager_fresh {G : Type} `{WFG G} (txs : list Transaction) (ress : list Resource) :
  Forall (λ t, t = fresh_tx (tx_id t)) txs →
  Forall (λ r, r = free_res (res_id r)) ress →
  newManager (G := G) txs ress
  = mkManager txs ress (createWFG (tx_id <$> txs)) (mkMetrics 0 0 0).
Proof.
  intros Htx Hres. unfold newManager.
  assert ((λ tx, mkTransaction (tx_id tx) (status tx) (heldLocks tx)
                   (or_null (waitingFor tx))) <$> txs = txs) as ->.
  { rewrite <- (list_fmap_id txs) at 2. apply Forall_fmap_ext_1.
    eapply Forall_impl; [exact Htx|]. by intros t ->. }
  assert ((λ res, mkResource (res_id res) (or_null (lockedBy res)) (waitQueue res))
            <$> ress = ress) as ->.
  { rewrite <- (list_fmap_id ress) at 2. apply Forall_fmap_ext_1.
    eapply Forall_impl; [exact Hres|]. by intros r ->. }
  done.
Qed.

(** X22.  [reset] undoes every run.  After any sequence of calls on a
    manager built from fresh transactions and free resources, [reset] gives
    back those transactions and resources in their order, counters at zero
    and a cleared WFG; with the adjacency list or the hash map of sets the
    manager is exactly the one the constructor built. *)
Theorem reset_restores_fresh_manager (txs : list Transaction) (ress : list Resource)
    (cs : list Call) :
  Forall (λ t, t = fresh_tx (tx_id t)) txs →
  Forall (λ r, r = free_res (res_id r)) ress →
  (∀ {G : Type} `{WFG G},
     let m : TransactionManager G := reset (run_calls (newManager txs ress) cs) in
     transactions m = txs ∧ resources m = ress ∧ metrics m = mkMetrics 0 0 0
     ∧ wfg m = clear (wfg (run_calls (newManager txs ress) cs)))
  ∧ reset (run_calls (newManager (G := AdjacencyListWFG.t) txs ress) cs)
    = newManager txs ress
  ∧ reset (run_calls (newManager (G := HashMapSetsWFG.t) txs ress) cs)
    = newManager txs ress.
Proof.
  intros Htx Hres.
  assert (∀ {G : Type} `{WFG G},
     newManager (G := G) txs ress
     = mkManager txs ress (createWFG (tx_id <$> txs)) (mkMetrics 0 0 0)) as Hnm.
  { intros G HG. by apply newManager_fresh. }
  assert (∀ {G : Type} `{WFG G},
     let m : TransactionManager G := reset (run_calls (newManager txs ress) cs) in
     transactions m = txs ∧ resources m = ress ∧ metrics m = mkMetrics 0 0 0
     ∧ wfg m = clear (wfg (run_calls (newManager txs ress) cs))) as Hgen.
  { intros G HG. rewrite (Hnm G HG). intros m.
    destruct (reset_tables (run_calls
                (mkManager txs ress (createWFG (tx_id <$> txs)) (mkMetrics 0 0 0)) cs))
      as [Ht Hr].
    destruct (run_calls_ids cs
                (mkManager (G := G) txs ress (createWFG (tx_id <$> txs)) (mkMetrics 0 0 0)))
      as [Hti Hri].
    simpl in Hti, Hri. rewrite Hti in Ht. rewrite Hri in Hr. fold m in Ht, Hr.
    split; [|split; [|done]].
    - rewrite Ht, <- list_fmap_compose. rewrite <- (list_fmap_id txs) at 2.
      apply Forall_fmap_ext_1. eapply Forall_impl; [exact Htx|]. by intros t ->.
    - rewrite Hr, <- list_fmap_compose. rewrite <- (list_fmap_id ress) at 2.
      apply Forall_fmap_ext_1. eapply Forall_impl; [exact Hres|]. by intros r ->. }
  split; [exact Hgen|]. split.
  - destruct (Hgen AdjacencyListWFG.t _) as (Ht & Hr & Hm & Hw).
    rewrite Hnm in *.
    destruct (reset _) as [t r g c]. simpl in *. by subst.
  - destruct (Hgen HashMapSetsWFG.t _) as (Ht & Hr & Hm & Hw).
    rewrite Hnm in *.
    destruct (reset _) as [t r g c]. simpl in *. by subst.
Qed.

Lemma reset_restores_fresh_manager_witness :
  reset (run_calls (contention (G := AdjacencyListWFG.t)) contention_calls) = contention.
Proof.
  apply (reset_restores_fresh_manager
           [fresh_tx "T1"; fresh_tx "T2"; fresh_tx "T3"] [free_res "R1"] contention_calls).
  - by repeat constructor.
  - by repeat constructor.
Defined.


(* ===================================================================== *)
(** * Further properties: the analyzer's victim selection *)
(* ===================================================================== *)


Section VictimOrder.
Context {G : Type} `{WFG G} (g : G).

Lemma degree_score2_nonneg node : (0 ≤ degree_score2 g node)%Z.
Proof. unfold degree_score2. lia. Qed.

Lemma selectVictimFromCycle_fold_first : ∀ rest pre v post,
  Forall (λ u, (degree_score2 g u < degree_score2 g v)%Z) pre →
  Forall (λ u, (degree_score2 g u ≤ degree_score2 g v)%Z) post →
  let r := (foldl (λ '(victim, bestScore) node,
               let score := degree_score2 g node in
               if decide (bestScore < score)%Z then (node, score)
               else (victim, bestScore))
             (v, degree_score2 g v) rest).1 in
  ∃ pre' post', pre ++ v :: post ++ rest = pre' ++ r :: post'
    ∧ Forall (λ u, (degree_score2 g u < degree_score2 g r)%Z) pre'
    ∧ Forall (λ u, (degree_score2 g u ≤ degree_score2 g r)%Z) post'.
Proof.
  induction rest as [|cur rest IH]; intros pre v post Hpre Hpost; simpl.
  - exists pre, post. by rewrite app_nil_r.
  - destruct (decide (degree_score2 g v < degree_score2 g cur)%Z) as [Hlt|Hge].
    + destruct (IH (pre ++ v :: post) cur []) as (pre' & post' & Heq & H1 & H2).
      * rewrite Forall_app, Forall_cons. split; [|split; [done|]].
        -- eapply Forall_impl; [exact Hpre|]. simpl. lia.
        -- eapply Forall_impl; [exact Hpost|]. simpl. lia.
      * done.
      * exists pre', post'. split; [|done]. etrans; [|exact Heq]. simpl.
        by rewrite <- !app_assoc.
    + destruct (IH pre v (post ++ [cur])) as (pre' & post' & Heq & H1 & H2).
      * done.
      * rewrite Forall_app, Forall_singleton. split; [done|lia].
      * exists pre', post'. split; [|done]. etrans; [|exact Heq].
        by rewrite <- !app_assoc.
Qed.

Lemma bfs_best_first : ∀ rest pre v s post,
  closed g → bfsSum g v = Some s →
  Forall (λ u, ∃ s', bfsSum g u = Some s' ∧ s' < s) pre →
  Forall (λ u, ∃ s', bfsSum g u = Some s' ∧ s' ≤ s) post →
  ∃ r sr pre' post',
    bfs_best g rest (Some v) (Some s) = Some (Some r)
    ∧ bfsSum g r = Some sr
    ∧ pre ++ v :: post ++ rest = pre' ++ r :: post'
    ∧ Forall (λ u, ∃ s', bfsSum g u = Some s' ∧ s' < sr) pre'
    ∧ Forall (λ u, ∃ s', bfsSum g u = Some s' ∧ s' ≤ sr) post'.
Proof.
  induction rest as [|cur rest IH]; intros pre v s post Hcl Hs Hpre Hpost; simpl.
  - exists v, s, pre, post. by rewrite app_nil_r.
  - destruct (bfsSum_total g cur Hcl) as [sc Hsc]. rewrite Hsc. simpl.
    case_bool_decide as Hlt.
    + destruct (IH (pre ++ v :: post) cur sc []) as (r & sr & pre' & post' & Hb & Hr & Heq & H1 & H2).
      * done.
      * done.
      * rewrite Forall_app, Forall_cons. split; [|split].
        -- eapply Forall_impl; [exact Hpre|]. intros u (s' & ? & ?). exists s'. split; [done|lia].
        -- exists s. split; [done|lia].
        -- eapply Forall_impl; [exact Hpost|]. intros u (s' & ? & ?). exists s'. split; [done|lia].
      * done.
      * exists r, sr, pre', post'. split; [done|]. split; [done|]. split; [|done].
        rewrite <- Heq. simpl. by rewrite <- !app_assoc.
    + destruct (IH pre v s (post ++ [cur])) as (r & sr & pre' & post' & Hb & Hr & Heq & H1 & H2).
      * done.
      * done.
      * done.
      * rewrite Forall_app, Forall_singleton. split; [done|]. exists sc. split; [done|lia].
      * exists r, sr, pre', post'. split; [done|]. split; [done|]. split; [|done].
        rewrite <- Heq. by rewrite <- !app_assoc.
Qed.

End VictimOrder.

(** X23.  [selectVictimFromCycle] returns [null] for a missing or empty
    cycle; otherwise it returns the first node of the cycle whose score
    [outDeg + 0.5 * inDeg] is the largest: every node listed before it has a
    strictly smaller score and none after it has a larger one. *)
Theorem selectVictimFromCycle_first_of_highest_score {G : Type} `{WFG G} (g : G)
    (cycle : option (list string)) :
  match cycle with
  | None | Some [] => selectVictimFromCycle g cycle = None
  | Some c =>
      ∃ v pre post,
        selectVictimFromCycle g cycle = Some v
        ∧ c = pre ++ v :: post
        ∧ Forall (λ u, (degree_score2 g u < degree_score2 g v)%Z) pre
        ∧ Forall (λ u, (degree_score2 g u ≤ degree_score2 g v)%Z) post
  end.
Proof.
  destruct cycle as [[|first rest]|]; [done| |done].
  unfold selectVictimFromCycle. cbn [foldl].
  rewrite decide_True by (pose proof (degree_score2_nonneg g first); lia).
  destruct (selectVictimFromCycle_fold_first g rest [] first [])
    as (pre & post & Heq & H1 & H2); [done|done|].
  eexists _, pre, post. split; [done|]. done.
Qed.

(** X24.  On a graph whose successors are nodes [bfsVictimSelection]
    returns.  Without a cycle it names no victim; with the cycle that
    [dfsDetectCycle] found, it names the first node of the cycle with the
    largest sum of breadth-first distances, unless that node's id is the
    empty string. *)
Theorem bfsVictimSelection_first_of_largest_sum {G : Type} `{WFG G} (g : G) :
  closed g →
  ∃ cr r,
    dfsDetectCycle g = Some cr ∧ bfsVictimSelection g = Some r ∧
    match cycle cr with
    | None | Some [] => victim r = None ∧ victim_cycle r = None
    | Some c =>
        victim_cycle r = Some c
        ∧ ∃ v s pre post,
            c = pre ++ v :: post
            ∧ bfsSum g v = Some s
            ∧ Forall (λ u, ∃ s', bfsSum g u = Some s' ∧ s' < s) pre
            ∧ Forall (λ u, ∃ s', bfsSum g u = Some s' ∧ s' ≤ s) post
            ∧ (v ≠ EmptyString → victim r = Some v)
    end.
Proof.
  intros Hcl.
  destruct (dfsDetectCycle_correct g Hcl) as (cr & Hcr & _ & _).
  exists cr. unfold bfsVictimSelection. rewrite Hcr.
  cbn -[selectVictimFromCycle bfs_best].
  destruct (cycle cr) as [[|x c]|] eqn:Hc; [by eauto|..|by eauto].
  cbn [bfs_best]. destruct (bfsSum_total g x Hcl) as [s Hs]. rewrite Hs.
  cbn -[selectVictimFromCycle bfs_best].
  destruct (bfs_best_first g c [] x s [] Hcl Hs) as
    (v & sv & pre & post & Hb & Hv & Heq & H1 & H2); [done|done|].
  rewrite Hb. cbn -[selectVictimFromCycle].
  eexists. split; [done|]. split; [done|]. cbn -[selectVictimFromCycle].
  split; [done|]. exists v, sv, pre, post. split; [done|]. split; [done|].
  split; [done|]. split; [done|]. intros Hne. by rewrite decide_False.
Qed.

Lemma bfsVictimSelection_first_of_largest_sum_witness :
  let g := graph_of [("T1", "T2"); ("T2", "T3"); ("T3", "T1"); ("T3", "T4")] in
  ∃ cr r,
    dfsDetectCycle g = Some cr ∧ bfsVictimSelection g = Some r ∧
    match cycle cr with
    | None | Some [] => victim r = None ∧ victim_cycle r = None
    | Some c =>
        victim_cycle r = Some c
        ∧ ∃ v s pre post,
            c = pre ++ v :: post
            ∧ bfsSum g v = Some s
            ∧ Forall (λ u, ∃ s', bfsSum g u = Some s' ∧ s' < s) pre
            ∧ Forall (λ u, ∃ s', bfsSum g u = Some s' ∧ s' ≤ s) post
            ∧ (v ≠ EmptyString → victim r = Some v)
    end.
Proof.
  intros g. apply bfsVictimSelection_first_of_largest_sum. apply closed_graph_of.
Defined.


(* ===================================================================== *)
(** * Further properties: the conflict graph and its colouring *)
(* ===================================================================== *)


Section ReachSound.
Context {G : Type} `{WFG G} (g : G).

(** What the breadth-first search only ever records: nodes other than the
    start that the start reaches. *)
Definition reach_sound (n : string) (st : ReachState) : Prop :=
  n ∈ reach_seen st
  ∧ (n ∉ reach_set st)
  ∧ reach_set st ⊆ reach_seen st
  ∧ (∀ v, v ∈ reach_seen st → reachable g n v)
  ∧ (∀ x, x ∈ reach_q st → x ∈ reach_seen st).

Lemma reach_visit_sound n cur st nb :
  reachable g n cur → edge g cur nb → reach_sound n st →
  reach_sound n (reach_visit st nb).
Proof.
  intros Hcur Hedge (Hn & Hnr & Hsub & Hreach & Hq). unfold reach_visit.
  destruct (decide (nb ∉ reach_seen st)) as [Hnb|Hnb]; [|done]. simpl.
  split; [set_solver|]. split; [set_solver|]. split; [set_solver|]. split.
  - intros v [Hv|Hv]%elem_of_union; [|by apply Hreach].
    apply elem_of_singleton in Hv as ->. eapply rtc_r; [exact Hcur|done].
  - intros x [Hx|Hx]%elem_of_app.
    + apply elem_of_union_r. by apply Hq.
    + apply list_elem_of_singleton in Hx as ->. set_solver.
Qed.

Lemma reach_fold_sound n cur : ∀ nbrs st,
  reachable g n cur → (∀ nb, nb ∈ nbrs → edge g cur nb) → reach_sound n st →
  reach_sound n (foldl reach_visit st nbrs).
Proof.
  induction nbrs as [|nb nbrs IH]; intros st Hcur Hn Hst; [done|]. simpl.
  apply IH; [done| |].
  - intros ??. apply Hn. by right.
  - eapply reach_visit_sound; [done| |done]. apply Hn. by left.
Qed.

Lemma reach_loop_sound n : ∀ fuel st st',
  reach_sound n st → reach_loop g fuel st = Some st' → reach_sound n st'.
Proof.
  induction fuel as [|fuel IH]; intros st st' Hst; simpl.
  - destruct (reach_q st); [by intros [= <-]|done].
  - destruct (reach_q st) as [|cur q'] eqn:Hq; [by intros [= <-]|].
    apply IH. pose proof Hst as (Hn & Hnr & Hsub & Hreach & Hqs).
    apply (reach_fold_sound n cur).
    + apply Hreach, Hqs. rewrite Hq. by left.
    + done.
    + split; [done|]. split; [done|]. split; [done|]. split; [done|].
      simpl. intros x Hx. apply Hqs. rewrite Hq. by right.
Qed.

Lemma reach_from_sound n R :
  reach_from g n = Some R → ∀ v, v ∈ R → reachable g n v ∧ v ≠ n.
Proof.
  unfold reach_from.
  destruct (reach_loop g _ _) as [st'|] eqn:Hloop; [|done]. simpl. intros [= <-].
  apply reach_loop_sound with (n := n) in Hloop.
  - destruct Hloop as (Hn & Hnr & Hsub & Hreach & _). intros v Hv.
    split; [apply Hreach; set_solver|]. intros ->. done.
  - split; [set_solver|]. split; [set_solver|]. split; [set_solver|]. simpl. split.
    + intros v Hv. apply elem_of_singleton in Hv as ->. apply rtc_refl.
    + intros x Hx. apply list_elem_of_singleton in Hx as ->. set_solver.
Qed.

End ReachSound.

Section ConflictExact.
Context {G : Type} `{WFG G} (g : G).
Implicit Types adj reach : gmap string (gset string).

Lemma add_conflict_inv adj a b x y :
  has_conflict (add_conflict a b adj) x y → has_conflict adj x y ∨ (x = a ∧ y = b).
Proof.
  unfold has_conflict, add_conflict. rewrite lookup_alter.
  case_decide as Hx; [|by left]. subst. destruct (adj !! x); simpl; set_solver.
Qed.

(** Every recorded conflict has a reason in the reachability table. *)
Definition conflicts_justified (nodes : list string) reach adj : Prop :=
  ∀ x y, has_conflict adj x y →
    x ≠ y ∧ x ∈ nodes ∧ y ∈ nodes ∧ reaches reach x y || reaches reach y x = true.

Lemma conflict_step_justified nodes reach a adj b :
  a ∈ nodes → b ∈ nodes →
  conflicts_justified nodes reach adj →
  conflicts_justified nodes reach (conflict_step reach a adj b).
Proof.
  intros Ha Hb Hj. unfold conflict_step. destruct (decide (a = b)) as [|Hne]; [done|].
  destruct (reaches reach a b || reaches reach b a) eqn:Hr; [|done].
  intros x y [[Hxy|[-> ->]]%add_conflict_inv|[-> ->]]%add_conflict_inv.
  - by apply Hj.
  - done.
  - split; [done|]. split; [done|]. split; [done|]. by rewrite orb_comm.
Qed.

Lemma conflict_inner_justified nodes reach a : ∀ bs adj,
  a ∈ nodes → (∀ b, b ∈ bs → b ∈ nodes) →
  conflicts_justified nodes reach adj →
  conflicts_justified nodes reach (foldl (conflict_step reach a) adj bs).
Proof.
  induction bs as [|b bs IH]; intros adj Ha Hbs Hj; [done|]. simpl.
  apply IH; [done| |].
  - intros ??. apply Hbs. by right.
  - apply conflict_step_justified; [done| |done]. apply Hbs. by left.
Qed.

Lemma conflict_outer_justified nodes reach : ∀ as_ adj,
  (∀ a, a ∈ as_ → a ∈ nodes) →
  conflicts_justified nodes reach adj →
  conflicts_justified nodes reach
    (foldl (λ adj a, foldl (conflict_step reach a) adj nodes) adj as_).
Proof.
  induction as_ as [|a as_ IH]; intros adj Has Hj; [done|]. simpl.
  apply IH.
  - intros ??. apply Has. by right.
  - apply conflict_inner_justified; [|done|done]. apply Has. by left.
Qed.

Lemma initial_adj_empty : ∀ nodes adj x y,
  (∀ x y, ¬ has_conflict adj x y) →
  ¬ has_conflict (foldl (λ adj a, <[a := ∅]> adj) adj nodes) x y.
Proof.
  induction nodes as [|a nodes IH]; intros adj x y Hno; simpl; [apply Hno|].
  apply IH. intros x' y'. unfold has_conflict.
  destruct (decide (a = x')) as [->|Hne].
  - rewrite lookup_insert_eq. simpl. set_solver.
  - rewrite lookup_insert_ne by done. apply Hno.
Qed.

Lemma compute_conflictAdj_justified nodes reach :
  conflicts_justified nodes reach (compute_conflictAdj nodes reach).
Proof.
  unfold compute_conflictAdj. apply conflict_outer_justified; [done|].
  intros x y Hxy. exfalso. revert Hxy. apply initial_adj_empty.
  intros x' y'. unfold has_conflict. rewrite lookup_empty. simpl. set_solver.
Qed.

End ConflictExact.

(** X25.  On a graph with distinct nodes whose successors are nodes,
    [computeConflictColorsByReachability] returns, and its [conflictAdj]
    relates exactly the pairs of distinct nodes one of which reaches the
    other along edges of the graph. *)
Theorem conflictAdj_is_mutual_reachability {G : Type} `{WFG G} (g : G) :
  closed g → NoDup (getNodes g) →
  ∃ r, computeConflictColorsByReachability g = Some r
    ∧ ∀ a b, b ∈ default ∅ (conflictAdj r !! a)
             ↔ a ∈ getNodes g ∧ b ∈ getNodes g ∧ a ≠ b
               ∧ (reachable g a b ∨ reachable g b a).
Proof.
  intros Hcl Hnd. unfold computeConflictColorsByReachability.
  destruct (compute_reach_spec g (getNodes g) ∅ Hcl) as (reach & Hreach & Hall).
  unfold compute_reach. rewrite Hreach. simpl.
  destruct (greedy_colors_spec (compute_conflictAdj (getNodes g) reach) (getNodes g) Hnd)
    as (colors & -> & _ & _).
  simpl. eexists. split; [done|]. simpl.
  assert (∀ x y, x ∈ getNodes g → x ≠ y →
          (reaches reach x y = true ↔ reachable g x y)) as Hexact.
  { intros x y Hx Hxy. destruct (Hall x Hx) as (R & HR & Hfrom).
    unfold reaches. rewrite HR. simpl. rewrite bool_decide_eq_true. split.
    - intros Hy. by apply (reach_from_sound g x R Hfrom).
    - intros Hr. destruct (reach_from_complete g x Hcl) as (R' & Hfrom' & Hc).
      rewrite Hfrom in Hfrom'. injection Hfrom' as <-. apply Hc; [done|].
      by intros ->. }
  intros a b. split.
  - intros Hab. apply compute_conflictAdj_justified in Hab as (Hne & Ha & Hb & Hr).
    split; [done|]. split; [done|]. split; [done|].
    apply orb_true_iff in Hr as [Hr|Hr]; [left|right]; by apply Hexact.
  - intros (Ha & Hb & Hne & Hr).
    apply (compute_conflictAdj_spec (getNodes g) reach a b); [done|done|done|].
    apply orb_true_iff. destruct Hr as [Hr|Hr]; [left|right]; by apply Hexact.
Qed.

Lemma conflictAdj_is_mutual_reachability_witness :
  let g := graph_of [("T1", "T2"); ("T2", "T3"); ("T4", "T3")] in
  ∃ r, computeConflictColorsByReachability g = Some r
    ∧ ∀ a b, b ∈ default ∅ (conflictAdj r !! a)
             ↔ a ∈ getNodes g ∧ b ∈ getNodes g ∧ a ≠ b
               ∧ (reachable g a b ∨ reachable g b a).
Proof.
  intros g. apply conflictAdj_is_mutual_reachability.
  - apply closed_graph_of.
  - by vm_compute; repeat constructor; set_solver.
Defined.


(** ** The colours the greedy loop hands out *)

Lemma next_color_least used : ∀ fuel c c',
  next_color fuel c used = Some c' →
  c ≤ c' ∧ (c' ∉ used) ∧ ∀ i, c ≤ i → i < c' → i ∈ used.
Proof.
  induction fuel as [|fuel IH]; intros c c'; simpl.
  - destruct (decide (c ∈ used)) as [Hc|Hc]; [done|]. intros [= <-].
    split; [done|]. split; [done|]. intros i ??. lia.
  - destruct (decide (c ∈ used)) as [Hc|Hc].
    + intros (Hle & Hfresh & Hbelow)%IH. split; [lia|]. split; [done|].
      intros i Hi Hlt. destruct (decide (i = c)) as [->|]; [done|]. apply Hbelow; lia.
    + intros [= <-]. split; [done|]. split; [done|]. intros i ??. lia.
Qed.

Lemma downward_closed_initial (U : gset nat) :
  (∀ c c', c ∈ U → c' < c → c' ∈ U) → ∀ c, c ∈ U ↔ c < size U.
Proof.
  intros Hdown c. split.
  - intros Hc.
    assert (set_seq 0 (S c) ⊆ U) as Hsub.
    { intros i Hi. apply elem_of_set_seq in Hi as [_ Hi].
      destruct (decide (i = c)) as [->|]; [done|]. apply (Hdown c); [done|lia]. }
    apply subseteq_size in Hsub. rewrite size_set_seq in Hsub. lia.
  - intros Hlt. destruct (decide (c ∈ U)) as [|Hc]; [done|]. exfalso.
    assert (U ⊆ set_seq 0 c) as Hsub.
    { intros i Hi. apply elem_of_set_seq. split; [lia|]. simpl.
      destruct (decide (i < c)) as [|Hge]; [done|]. destruct Hc.
      destruct (decide (i = c)) as [<-|]; [done|]. apply (Hdown i); [done|lia]. }
    apply subseteq_size in Hsub. rewrite size_set_seq in Hsub. lia.
Qed.

Section Tight.
Context {G : Type} `{WFG G} (g : G).
Implicit Types adj : gmap string (gset string).

(** Every colour below a node's colour is taken by one of its conflict
    neighbours. *)
Definition tight adj (colors : JSObject nat) : Prop :=
  ∀ node c, obj_get colors node = Some c →
    ∀ c', c' < c → ∃ nb, has_conflict adj node nb ∧ obj_get colors nb = Some c'.

Lemma greedy_colors_tight adj : ∀ nodes colors,
  NoDup nodes → greedy_colors nodes adj = Some colors →
  colors.*1 = nodes ∧ tight adj colors.
Proof.
  unfold greedy_colors.
  induction nodes as [|z nodes IH] using rev_ind; intros colors Hnd.
  - intros [= <-]. split; [done|]. by intros node c [=].
  - apply NoDup_app in Hnd as (Hnd & Hz & _).
    rewrite foldl_app. simpl.
    match goal with
    | |- context [foldl ?f (Some []) nodes] =>
        destruct (foldl f (Some []) nodes) as [colors0|] eqn:Hrun; [|done]
    end. simpl.
    destruct (IH colors0 Hnd eq_refl) as [Hkeys Htight].
    destruct (next_color _ 0 _) as [c|] eqn:Hc; [|done]. simpl. intros [= <-].
    apply next_color_least in Hc as (_ & Hfresh & Hbelow).
    assert (z ∉ colors0.*1) as Hznew.
    { rewrite Hkeys. intros Hin. apply (Hz z Hin). set_solver. }
    split; [by rewrite obj_set_keys, decide_False, Hkeys|].
    intros node c0. rewrite obj_get_set.
    destruct (decide (z = node)) as [<-|Hne].
    + intros [= <-] c' Hlt.
      destruct (proj1 (elem_of_used_colors adj colors0 z c')) as (nb & Hnb & Hcol).
      { apply Hbelow; lia. }
      exists nb. split; [done|]. rewrite obj_get_set_ne; [done|].
      intros <-. apply Hznew. by eapply obj_get_Some_key.
    + intros Hnode c' Hlt. destruct (Htight node c0 Hnode c' Hlt) as (nb & Hnb & Hcol).
      exists nb. split; [done|]. rewrite obj_get_set_ne; [done|].
      intros <-. apply Hznew. by eapply obj_get_Some_key.
Qed.

(** [Object.entries] lists each key with its value. *)
Lemma elem_of_Object_entries {V} (o : JSObject V) k v :
  (k, v) ∈ Object_entries o ↔ obj_get o k = Some v.
Proof.
  unfold Object_entries. rewrite list_elem_of_omap. split.
  - intros (k' & Hk' & Hv). destruct (obj_get o k') as [v'|] eqn:Hg; [|done].
    simpl in Hv. by simplify_eq.
  - intros Hg. exists k. split.
    + apply elem_of_Object_keys. by eapply obj_get_Some_key.
    + by rewrite Hg.
Qed.

Lemma color_groups_fold : ∀ (entries : list (string * nat)) (groups0 : gmap nat (list string)),
  let groups' := foldl (λ groups e, <[e.2 := default [] (groups !! e.2) ++ [e.1]]> groups)
                       groups0 entries in
  (∀ c node, node ∈ default [] (groups' !! c)
             ↔ node ∈ default [] (groups0 !! c) ∨ (node, c) ∈ entries)
  ∧ (∀ c, is_Some (groups' !! c)
          ↔ is_Some (groups0 !! c) ∨ ∃ node, (node, c) ∈ entries).
Proof.
  induction entries as [|[n k] entries IH]; intros groups0; simpl.
  - split.
    + intros c node. split; [by left|]. intros [?|?%elem_of_nil]; done.
    + intros c. split; [by left|]. intros [?|[? ?%elem_of_nil]]; done.
  - destruct (IH (<[k := default [] (groups0 !! k) ++ [n]]> groups0)) as [Hm Hk].
    split.
    + intros c node. rewrite Hm, elem_of_cons.
      destruct (decide (k = c)) as [->|Hne].
      * rewrite lookup_insert_eq. simpl. rewrite elem_of_app, list_elem_of_singleton.
        naive_solver.
      * rewrite lookup_insert_ne by done. naive_solver.
    + intros c. rewrite Hk.
      destruct (decide (k = c)) as [->|Hne].
      * rewrite lookup_insert_eq. split; [|by eauto].
        intros _. right. exists n. by left.
      * rewrite lookup_insert_ne by done. split.
        -- intros [?|[node ?]]; [by left|]. right. exists node. by right.
        -- intros [?|[node [[= _ ?]|?]%elem_of_cons]]; [by left|done|].
           right. by exists node.
Qed.

Lemma color_groups_spec (colors : JSObject nat) :
  (∀ c node, node ∈ default [] (color_groups colors !! c) ↔ obj_get colors node = Some c)
  ∧ (∀ c, c ∈ dom (color_groups colors) ↔ ∃ node, obj_get colors node = Some c).
Proof.
  destruct (color_groups_fold (Object_entries colors) ∅) as [Hm Hk].
  fold (color_groups colors) in Hm, Hk. split.
  - intros c node. rewrite Hm, lookup_empty, elem_of_Object_entries. simpl.
    split; [intros [?%elem_of_nil|?]; done|by right].
  - intros c. rewrite elem_of_dom, Hk, lookup_empty. split.
    + intros [[? [=]]|[node Hn]]. exists node. by apply elem_of_Object_entries.
    + intros [node Hn]. right. exists node. by apply elem_of_Object_entries.
Qed.

End Tight.

(** X26.  On a graph with distinct nodes whose successors are nodes the
    colouring returns, and its colours are as small as the greedy rule
    allows: for every colour below a node's own, one of the node's conflict
    neighbours has it.  [groups] lists under each colour exactly the nodes of
    that colour, and the colours in use are [0 .. chromaticNumber - 1]. *)
Theorem coloring_uses_least_colors {G : Type} `{WFG G} (g : G) :
  closed g → NoDup (getNodes g) →
  ∃ r, computeConflictColorsByReachability g = Some r
    ∧ (∀ node c, obj_get (colors r) node = Some c →
         ∀ c', c' < c →
           ∃ nb, nb ∈ default ∅ (conflictAdj r !! node)
                 ∧ obj_get (colors r) nb = Some c')
    ∧ (∀ c node, node ∈ default [] (groups r !! c) ↔ obj_get (colors r) node = Some c)
    ∧ (∀ c, c < chromaticNumber r ↔ ∃ node, obj_get (colors r) node = Some c).
Proof.
  intros Hcl Hnd.
  destruct (coloring_safe g Hcl Hnd) as (r & Hr & _). exists r. split; [done|].
  unfold computeConflictColorsByReachability in Hr.
  destruct (compute_reach g (getNodes g)) as [reach|]; [|done]. simpl in Hr.
  destruct (greedy_colors _ _) as [cols|] eqn:Hcols; [|done]. simpl in Hr.
  injection Hr as <-. simpl.
  apply greedy_colors_tight in Hcols as [_ Htight]; [|done].
  destruct (color_groups_spec cols) as [Hgroups Hdom].
  split; [exact Htight|]. split; [exact Hgroups|].
  intros c. unfold chromaticNumber. simpl. rewrite <- Hdom, <- size_dom.
  symmetry. apply downward_closed_initial.
  intros c1 c2 [node Hnode]%Hdom Hlt. apply Hdom.
  destruct (Htight node c1 Hnode c2 Hlt) as (nb & _ & Hnb). by exists nb.
Qed.

Lemma coloring_uses_least_colors_witness :
  let g := graph_of [("T1", "T2"); ("T2", "T3"); ("T4", "T3")] in
  ∃ r, computeConflictColorsByReachability g = Some r
    ∧ (∀ node c, obj_get (colors r) node = Some c →
         ∀ c', c' < c →
           ∃ nb, nb ∈ default ∅ (conflictAdj r !! node)
                 ∧ obj_get (colors r) nb = Some c')
    ∧ (∀ c node, node ∈ default [] (groups r !! c) ↔ obj_get (colors r) node = Some c)
    ∧ (∀ c, c < chromaticNumber r ↔ ∃ node, obj_get (colors r) node = Some c).
Proof.
  intros g. apply coloring_uses_least_colors.
  - apply closed_graph_of.
  - by vm_compute; repeat constructor; set_solver.
Defined.


(* ===================================================================== *)
(** * Further properties: the cycle [dfsDetectCycle] reports *)
(* ===================================================================== *)


(** ** The parents recorded in the trace *)

Lemma path_recorded_inj tr path i k x :
  path_recorded tr path → path !! i = Some x → path !! k = Some x → i = k.
Proof.
  intros Hrec Hi Hk. pose proof (Hrec i x Hi) as H1. rewrite (Hrec k x Hk) in H1.
  apply (f_equal length) in H1. rewrite !length_take in H1.
  apply lookup_lt_Some in Hi, Hk. lia.
Qed.

Lemma before_last_take_S path j x y :
  path !! S j = Some x → path !! j = Some y → y ≠ EmptyString →
  before_last (take (S (S j)) path) = Some y.
Proof.
  intros Hk Hj Hy. unfold before_last.
  assert (length (take (S (S j)) path) = S (S j)) as Hlen.
  { apply lookup_lt_Some in Hk. rewrite length_take. lia. }
  rewrite Hlen. rewrite decide_True by lia.
  replace (S (S j) - 2) with j by lia.
  rewrite lookup_take_lt by lia. rewrite Hj. by rewrite decide_False.
Qed.

(** The walk up the parents from the [k]-th node of the path to the [i]-th
    collects the nodes in between, last first. *)
Lemma walk_parents_exact tr path neighbor i :
  path_recorded tr path → (∀ x, x ∈ path → x ≠ EmptyString) →
  path !! i = Some neighbor →
  ∀ fuel k c acc,
    i ≤ k → path !! k = Some c → k - i < fuel →
    walk_parents fuel tr neighbor (Some c) acc
    = Some (acc ++ reverse (take (k - i) (drop (S i) path))).
Proof.
  intros Hrec Hne Hi. induction fuel as [|fuel IH]; intros k c acc Hik Hk Hlt; [lia|].
  simpl. destruct (decide (c = neighbor)) as [->|Hc].
  - assert (i = k) as -> by by eapply path_recorded_inj.
    rewrite Nat.sub_diag. simpl. by rewrite app_nil_r.
  - destruct k as [|j].
    { assert (i = 0) as -> by lia. congruence. }
    assert (i ≤ j) as Hij.
    { destruct (decide (i = S j)) as [->|]; [congruence|lia]. }
    rewrite (Hrec (S j) c Hk).
    destruct (path !! j) as [y|] eqn:Hj.
    2:{ apply lookup_ge_None in Hj. apply lookup_lt_Some in Hk. lia. }
    rewrite (before_last_take_S path j c y Hk Hj).
    2:{ apply Hne. by eapply list_elem_of_lookup_2. }
    rewrite (IH j y (acc ++ [c])) by (done || lia).
    f_equal. rewrite <- app_assoc. f_equal.
    replace (S j - i) with (S (j - i)) by lia.
    rewrite (take_S_r _ _ c).
    2:{ rewrite lookup_drop. rewrite <- Hk. f_equal. lia. }
    by rewrite reverse_app.
Qed.

Section RealCycle.
Context {G : Type} `{WFG G} (g : G).

Lemma drop_cycle path node nb i :
  walk g path → last path = Some node → edge g node nb → path !! i = Some nb →
  closed_walk g (drop i path ++ [nb]).
Proof.
  intros Hw Hlast Hedge Hi.
  pose proof (lookup_lt_Some _ _ _ Hi) as Hlt.
  assert (drop i path = nb :: drop (S i) path) as Hd by by apply drop_S.
  split; [|split].
  - rewrite length_app, length_drop. simpl. lia.
  - rewrite last_snoc. by rewrite Hd.
  - apply (walk_snoc g _ node); [by apply walk_drop| |done].
    by rewrite last_drop_lt.
Qed.

(** What [dfsDetectCycle] reports: a sequence along edges that returns to
    its first node, or a path that ends in a self-loop. *)
Definition reported (c : list string) : Prop :=
  follows_edges g c ∧ (head c = last c ∨ ∃ p a, c = p ++ [a; a]).

(** The state of a search that has not met a back edge yet. *)
Definition searching (path : list string) (st : CycleState) : Prop :=
  cycleFound st = None
  ∧ cs_recStack st = list_to_set path
  ∧ cs_recStack st ⊆ cs_visited st
  ∧ visits_recorded st
  ∧ path_recorded (trace st) path
  ∧ length path ≤ length (trace st).

Definition reported_post (path : list string) (st : CycleState)
    (r : option (list string) * CycleState) : Prop :=
  match r.1 with
  | Some c => cycleFound r.2 = Some c ∧ reported c
  | None => searching path r.2 ∧ cs_visited st ⊆ cs_visited r.2
  end.

Lemma searching_event path st e :
  (∀ n p, e ≠ EvVisit n p) → searching path st →
  searching path (mkCycleState (cs_visited st) (cs_recStack st) (trace st ++ [e])
                    (cycleFound st)).
Proof.
  intros He (Hc & HR & Hsub & Hv & Hp & Hl).
  split; [done|]. split; [done|]. split; [done|]. split; [|split].
  - intros n p [Hin|Hin]%elem_of_app; [by eapply Hv|].
    apply list_elem_of_singleton in Hin. by destruct (He n p).
  - by apply path_recorded_app.
  - simpl. rewrite length_app. simpl. lia.
Qed.

Lemma dfsVisit_neighbors_reported rec node path :
  walk g (path ++ [node]) →
  (∀ x, x ∈ path ++ [node] → x ≠ EmptyString) →
  (∀ nb st r, searching (path ++ [node]) st → nb ∉ cs_visited st → edge g node nb →
     rec nb (path ++ [node]) st = Some r → reported_post (path ++ [node]) st r) →
  ∀ nbrs st r,
    (∀ nb, nb ∈ nbrs → edge g node nb) →
    searching (path ++ [node]) st →
    dfsVisit_neighbors rec node path nbrs st = Some r →
    match r.1 with
    | Some c => cycleFound r.2 = Some c ∧ reported c
    | None =>
        cycleFound r.2 = None
        ∧ cs_recStack r.2 = cs_recStack st ∖ {[node]}
        ∧ visits_recorded r.2
        ∧ path_recorded (trace r.2) (path ++ [node])
        ∧ length (path ++ [node]) ≤ length (trace r.2)
        ∧ cs_visited st ⊆ cs_visited r.2
    end.
Proof.
  intros Hw Hne Hrec. induction nbrs as [|nb rest IH]; intros st r Hn Hst; simpl.
  - intros [= <-]. simpl. destruct Hst as (Hc & HR & Hsub & Hv & Hp & Hl).
    split; [done|]. split; [done|]. split; [|split; [|split]].
    + intros n p [Hin|Hin]%elem_of_app; [by eapply Hv|].
      by apply list_elem_of_singleton in Hin.
    + by apply path_recorded_app.
    + rewrite !length_app in *. simpl in *. lia.
    + done.
  - set (st1 := mkCycleState (cs_visited st) (cs_recStack st)
                  (trace st ++ [EvEdge node nb]) (cycleFound st)).
    assert (searching (path ++ [node]) st1) as Hst1 by by apply searching_event.
    assert (edge g node nb) as Hedge by (apply Hn; by left).
    change (trace st ++ [EvEdge node nb]) with (trace st1).
    change (cs_visited st) with (cs_visited st1).
    change (cs_recStack st) with (cs_recStack st1).
    destruct (decide (nb ∉ cs_visited st1)) as [Hv|Hv].
    + destruct (rec nb (path ++ [node]) st1) as [[[c|] st2]|] eqn:Hr; [| |done].
      * intros [= <-]. apply Hrec in Hr; done.
      * apply Hrec in Hr as [Hst2 HV2]; [|done|done|done].
        intros Hrest. apply IH in Hrest; [| |done].
        2:{ intros ??. apply Hn. by right. }
        destruct r as [[c|] st']; [done|]. simpl in *.
        destruct Hrest as (Hc & HR & Hrest). split; [done|]. split.
        { rewrite HR. destruct Hst2 as (_ & -> & _). destruct Hst as (_ & -> & _). done. }
        destruct Hrest as (? & ? & ? & ?). split; [done|]. split; [done|].
        split; [done|]. set_solver.
    + destruct (decide (nb ∈ cs_recStack st1)) as [Hin|Hin].
      * destruct Hst1 as (Hc & HR & Hsub & Hvis & Hp & Hl).
        assert (nb ∈ path ++ [node]) as Hnb.
        { rewrite HR in Hin. by apply elem_of_list_to_set in Hin. }
        apply list_elem_of_lookup in Hnb as [i Hi].
        assert ((path ++ [node]) !! length path = Some node) as Hk.
        { rewrite lookup_app_r, Nat.sub_diag by lia. done. }
        assert (i ≤ length path) as Hik.
        { apply lookup_lt_Some in Hi. rewrite length_app in Hi. simpl in Hi. lia. }
        rewrite (walk_parents_exact (trace st1) (path ++ [node]) nb i Hp Hne Hi
                   (length (trace st1)) (length path) node [nb] Hik Hk).
        2:{ pose proof (length_app path [node]) as Hlen. cbn [length] in Hlen. lia. }
        assert (last (path ++ [node]) = Some node) as Hlast by by rewrite last_snoc.
        destruct (decide (length ([nb] ++ reverse
                    (take (length path - i) (drop (S i) (path ++ [node])))) < 2)) as [Hshort|Hlong].
        -- intros [= <-]. simpl. split; [done|].
           assert (i = length path) as ->.
           { rewrite length_app, length_reverse, length_take, length_drop, length_app in Hshort.
             simpl in Hshort. lia. }
           assert (nb = node) as -> by congruence.
           split.
           ++ split.
              ** rewrite length_app. simpl. lia.
              ** replace (path ++ [node; node]) with ((path ++ [node]) ++ [node])
                   by by rewrite <- app_assoc.
                 by apply (walk_snoc g _ node).
           ++ right. by exists path, node.
        -- intros [= <-]. cbn [fst snd cycleFound]. split; [done|].
           assert (reverse (nb :: reverse
                     (take (length path - i) (drop (S i) (path ++ [node]))) ++ [nb])
                   = drop i (path ++ [node]) ++ [nb]) as ->.
           { rewrite reverse_cons, reverse_app, reverse_involutive. simpl.
             rewrite take_ge.
             2:{ rewrite length_drop, length_app. simpl. lia. }
             rewrite (drop_S _ nb i) by done. done. }
           destruct (drop_cycle (path ++ [node]) node nb i) as (Hlen & Hhead & Hwalk);
             try done.
           split; [by split|by left].
      * apply IH; [|done]. intros ??. apply Hn. by right.
Qed.

Lemma dfsVisit_reported fuel : ∀ node path st r,
  closed g → EmptyString ∉ getNodes g →
  walk g (path ++ [node]) →
  (∀ x, x ∈ path ++ [node] → x ∈ getNodes g) →
  searching path st → node ∉ cs_visited st →
  dfsVisit g fuel node path st = Some r → reported_post path st r.
Proof.
  induction fuel as [|fuel IH]; intros node path st r Hcl Hempty Hw Hnodes Hst Hnode;
    [done|].
  simpl. intros Hrun.
  destruct Hst as (Hc & HR & Hsub & Hv & Hp & Hl).
  apply (dfsVisit_neighbors_reported (dfsVisit g fuel) node path) in Hrun.
  - unfold reported_post. destruct r as [[c|] st']; [done|]. simpl in *.
    destruct Hrun as (Hc' & HR' & Hv' & Hp' & Hl' & HV').
    split; [|set_solver].
    split; [done|]. split; [rewrite HR', HR; set_solver|].
    split; [rewrite HR'; set_solver|]. split; [done|]. split.
    + intros k x Hk. rewrite (Hp' k x).
      * apply lookup_lt_Some in Hk. by rewrite take_app_le by lia.
      * by apply lookup_app_l_Some.
    + rewrite length_app in Hl'. simpl in Hl'. lia.
  - done.
  - intros x Hx ->. apply Hempty. by apply Hnodes.
  - intros nb st1 r1 Hst1 Hnb Hedge Hr1. eapply IH; try done.
    + apply (walk_snoc g _ node); [done|by rewrite last_snoc|done].
    + intros x [Hx|Hx]%elem_of_app; [by apply Hnodes|].
      apply list_elem_of_singleton in Hx as ->. by eapply Hcl.
  - done.
  - split; [done|]. simpl. split; [|split; [|split; [|split]]].
    + rewrite HR, list_to_set_app_L. simpl. set_solver.
    + set_solver.
    + intros n p [Hin|Hin]%elem_of_app.
      * apply elem_of_union_r. by eapply Hv.
      * apply list_elem_of_singleton in Hin. injection Hin as -> _. set_solver.
    + apply path_recorded_snoc; [done|]. intros p' Hp'. apply Hnode. by eapply Hv.
    + rewrite !length_app. simpl. lia.
Qed.

Lemma cycle_roots_reported fuel : ∀ nodes st st',
  closed g → EmptyString ∉ getNodes g →
  (∀ n, n ∈ nodes → n ∈ getNodes g) →
  searching [] st →
  cycle_roots g fuel nodes st = Some st' →
  ∀ c, cycleFound st' = Some c → reported c.
Proof.
  induction nodes as [|node nodes IH]; intros st st' Hcl Hempty Hn Hst; simpl.
  - intros [= <-] c Hc. destruct Hst as (Hnone & _). congruence.
  - destruct (decide (node ∉ cs_visited st)) as [Hv|Hv].
    + assert (∀ x, x ∈ [] ++ [node] → x ∈ getNodes g) as Hroot.
      { intros x Hx. apply list_elem_of_singleton in Hx as ->. apply Hn. by left. }
      destruct (dfsVisit g fuel node [] st) as [[[c|] st1]|] eqn:Hd; [| |done].
      * intros [= <-] c' Hc'.
        apply (dfsVisit_reported fuel node [] st _ Hcl Hempty
                 (walk_singleton_snoc g node) Hroot Hst Hv) in Hd.
        destruct Hd as [Hfound Hrep]. simpl in *. congruence.
      * apply (dfsVisit_reported fuel node [] st _ Hcl Hempty
                 (walk_singleton_snoc g node) Hroot Hst Hv) in Hd.
        destruct Hd as [Hst1 _]. apply IH; try done. intros ??. apply Hn. by right.
    + apply IH; try done. intros ??. apply Hn. by right.
Qed.

End RealCycle.

(** X27.  On a graph whose successors are nodes and that has no node with
    the empty id, the cycle [dfsDetectCycle] reports is real: it has at
    least two entries, each next one a successor of the one before, and it
    ends at the node it starts from; only when the search ran into a
    self-loop is the report the path from the root of the search followed by
    the looping node twice. *)
Theorem dfsDetectCycle_reports_real_cycle {G : Type} `{WFG G} (g : G) :
  closed g → EmptyString ∉ getNodes g →
  ∃ r, dfsDetectCycle g = Some r
    ∧ ∀ c, cycle r = Some c →
        follows_edges g c ∧ (head c = last c ∨ ∃ p a, c = p ++ [a; a]).
Proof.
  intros Hcl Hempty.
  destruct (dfsDetectCycle_correct g Hcl) as (r & Hr & _). exists r. split; [done|].
  unfold dfsDetectCycle in Hr.
  destruct (cycle_roots g _ _ _) as [st'|] eqn:Hrun; [|done].
  simpl in Hr. injection Hr as <-. simpl.
  intros c Hc.
  assert (searching [] (mkCycleState ∅ ∅ [] None)) as Hsearch.
  { split; [done|]. split; [done|]. split; [done|]. split; [|split; [|done]].
    - by intros n p ?%elem_of_nil.
    - by intros k x. }
  by apply (cycle_roots_reported g _ _ _ _ Hcl Hempty (λ n Hn, Hn) Hsearch Hrun c).
Qed.

Lemma dfsDetectCycle_reports_real_cycle_witness :
  let g := graph_of [("T1", "T2"); ("T2", "T3"); ("T3", "T2"); ("T3", "T4")] in
  ∃ r, dfsDetectCycle g = Some r
    ∧ ∀ c, cycle r = Some c →
        follows_edges g c ∧ (head c = last c ∨ ∃ p a, c = p ++ [a; a]).
Proof.
  intros g. apply dfsDetectCycle_reports_real_cycle.
  - apply closed_graph_of.
  - vm_compute. set_solver.
Defined.


(* ===================================================================== *)
(** * Further properties: the components [detectDeadlockTarjan] reports *)
(* ===================================================================== *)


(** The loop of [pop_scc] stops at the first occurrence of [node]. *)
Lemma pop_scc_split node : ∀ stk (on : gset string) acc,
  node ∈ stk →
  ∃ pre post,
    stk = pre ++ node :: post ∧ (node ∉ pre)
    ∧ pop_scc node stk on acc
      = Some (post, on ∖ list_to_set (pre ++ [node]), acc ++ pre ++ [node]).
Proof.
  induction stk as [|w stk IH]; intros on acc Hin; [by apply elem_of_nil in Hin|].
  simpl. destruct (decide (w = node)) as [->|Hne].
  - exists [], stk. split; [done|]. split; [apply not_elem_of_nil|].
    simpl. do 3 f_equal. set_solver.
  - apply elem_of_cons in Hin as [->|Hin]; [done|].
    destruct (IH (on ∖ {[w]}) (acc ++ [w]) Hin) as (pre & post & -> & Hpre & ->).
    exists (w :: pre), post. split; [done|]. split; [set_solver|].
    rewrite <- !app_assoc. simpl. do 3 f_equal. set_solver.
Qed.

Lemma StronglySorted_ext {A} (R R' : A → A → Prop) (l : list A) :
  (∀ x y, x ∈ l → y ∈ l → R x y → R' x y) →
  StronglySorted R l → StronglySorted R' l.
Proof.
  induction l as [|a l IH]; intros Hext Hs; [constructor|].
  apply StronglySorted_inv in Hs as [Hs Ha]. constructor.
  - apply IH; [|done]. intros x y Hx Hy. apply Hext; by right.
  - rewrite Forall_forall in *. intros y Hy. apply Hext; [by left|by right|by apply Ha].
Qed.

Lemma StronglySorted_app_r {A} (R : A → A → Prop) (l1 l2 : list A) :
  StronglySorted R (l1 ++ l2) → StronglySorted R l2.
Proof.
  induction l1 as [|a l1 IH]; [done|]. simpl.
  intros [Hs _]%StronglySorted_inv. by apply IH.
Qed.

Lemma StronglySorted_app_cross {A} (R : A → A → Prop) (l1 l2 : list A) x y :
  StronglySorted R (l1 ++ l2) → x ∈ l1 → y ∈ l2 → R x y.
Proof.
  induction l1 as [|a l1 IH]; [by intros _ ?%elem_of_nil|]. simpl.
  intros [Hs Ha]%StronglySorted_inv [->|Hx]%elem_of_cons Hy.
  - rewrite Forall_forall in Ha. apply Ha. apply elem_of_app. by right.
  - by apply IH.
Qed.

Lemma NoDup_split_unique {A} (x : A) (l1 l2 k1 k2 : list A) :
  NoDup (l1 ++ x :: l2) → l1 ++ x :: l2 = k1 ++ x :: k2 → l1 = k1 ∧ l2 = k2.
Proof.
  revert k1. induction l1 as [|a l1 IH]; intros k1 Hnd Heq; simpl in *.
  - destruct k1 as [|b k1]; simpl in *.
    + by injection Heq as ->.
    + injection Heq as <- ->. apply NoDup_cons in Hnd as [Hx _].
      destruct Hx. apply elem_of_app. right. by left.
  - destruct k1 as [|b k1]; simpl in *.
    + injection Heq as -> <-. apply NoDup_cons in Hnd as [Hx _].
      destruct Hx. apply elem_of_app. right. by left.
    + injection Heq as <- Heq. apply NoDup_cons in Hnd as [_ Hnd].
      destruct (IH k1 Hnd Heq) as [-> ->]. done.
Qed.

Section TarjanFacts.
Context {G : Type} `{WFG G} (g : G).

Let univ : gset string := list_to_set (getNodes g).

(** The successors of the components listed in [cs] up to any point lie in
    those components. *)
Definition successors_listed_before (cs : list (list string)) : Prop :=
  ∀ pre post, cs = pre ++ post →
    ∀ x y, x ∈ concat pre → edge g x y → y ∈ concat pre.

(** What the search keeps true of its state between two steps. *)
Definition tarjan_inv (st : TarjanState) : Prop :=
  NoDup (stack st ++ concat (sccs st))
  ∧ onStack st = list_to_set (stack st)
  ∧ (∀ v, is_Some (indices st !! v) ↔ v ∈ stack st ++ concat (sccs st))
  ∧ (∀ v, is_Some (indices st !! v) → v ∈ univ ∧ idx st v < index st)
  ∧ StronglySorted (λ v w, idx st w < idx st v) (stack st)
  ∧ (∀ v, v ∈ stack st →
       low st v ≤ idx st v
       ∧ ∃ w, w ∈ stack st ∧ idx st w = low st v ∧ reachable g v w)
  ∧ Forall (λ scc, scc ≠ []) (sccs st)
  ∧ Forall (λ scc, ∀ x y, x ∈ scc → y ∈ scc → reachable g x y) (sccs st)
  ∧ successors_listed_before (sccs st).

(** What a run of the loop over the successors of [node] leaves alone. *)
Definition tarjan_frame (node : option string) (st0 st : TarjanState) : Prop :=
  (∀ v, is_Some (indices st0 !! v) →
     indices st !! v = indices st0 !! v
     ∧ (Some v ≠ node → lowLinks st !! v = lowLinks st0 !! v))
  ∧ index st0 ≤ index st
  ∧ (∀ v, indices st0 !! v = None → is_Some (indices st !! v) → index st0 ≤ idx st v)
  ∧ (∃ new, sccs st = sccs st0 ++ new)
  ∧ (∀ v, v ∈ stack st0 → v ∈ stack st)
  ∧ (∀ v, is_Some (indices st0 !! v) → low st v ≤ low st0 v).

(** The edge from [x] to [y] has been accounted for: [y] is in a finished
    component, or on the stack and not older than the low link of [x]. *)
Definition edge_seen (st : TarjanState) (x y : string) : Prop :=
  y ∈ concat (sccs st) ∨ (y ∈ stack st ∧ low st x ≤ idx st y).

Lemma reachable_trans x y z : reachable g x y → reachable g y z → reachable g x z.
Proof. unfold reachable. intros ? ?. by etrans. Qed.

Lemma reachable_edge x y : edge g x y → reachable g x y.
Proof. apply rtc_once. Qed.

Lemma tarjan_frame_refl node st : tarjan_frame node st st.
Proof.
  split; [done|]. split; [done|]. split; [|split; [|done]].
  - intros v Hn [x Hx]. congruence.
  - exists []. by rewrite app_nil_r.
Qed.

Lemma tarjan_frame_trans node st0 st1 st2 :
  tarjan_frame node st0 st1 → tarjan_frame node st1 st2 → tarjan_frame node st0 st2.
Proof.
  intros (F1 & F2 & F3 & (new1 & F4) & F5 & F6) (F1' & F2' & F3' & (new2 & F4') & F5' & F6').
  assert (∀ v, is_Some (indices st0 !! v) → is_Some (indices st1 !! v)) as Hmono.
  { intros v Hv. destruct (F1 v Hv) as [-> _]. done. }
  split; [|split; [lia|split; [|split; [|split]]]].
  - intros v Hv. destruct (F1 v Hv) as [Hi Hl]. destruct (F1' v (Hmono v Hv)) as [Hi' Hl'].
    split; [congruence|]. intros Hne. rewrite Hl' by done. by apply Hl.
  - intros v Hn Hs. destruct (indices st1 !! v) as [i|] eqn:Hv1.
    + destruct (F1' v) as [Hi' _]; [by rewrite Hv1|].
      assert (idx st2 v = idx st1 v) as -> by (unfold idx; by rewrite Hi').
      apply F3; [done|]. by rewrite Hv1.
    + specialize (F3' v Hv1 Hs). lia.
  - exists (new1 ++ new2). by rewrite F4', F4, app_assoc.
  - auto.
  - intros v Hv. specialize (F6 v Hv). specialize (F6' v (Hmono v Hv)). lia.
Qed.

Lemma tarjan_frame_weaken node st0 st : tarjan_frame None st0 st → tarjan_frame node st0 st.
Proof.
  intros (F1 & F2 & F3 & F4 & F5 & F6). split; [|done].
  intros v Hv. destruct (F1 v Hv) as [? Hl]. split; [done|]. intros _. by apply Hl.
Qed.

Lemma tarjan_frame_size node st st' :
  tarjan_frame node st st' →
  size (univ ∖ dom (indices st')) ≤ size (univ ∖ dom (indices st)).
Proof.
  intros (F1 & _). apply subseteq_size. intros v [Hv Hn]%elem_of_difference.
  apply elem_of_difference. split; [done|]. intros Hd. apply Hn.
  apply elem_of_dom in Hd. apply elem_of_dom. destruct (F1 v Hd) as [-> _]. done.
Qed.

Lemma tarjan_frame_idx node st st' v :
  tarjan_frame node st st' → is_Some (indices st !! v) →
  idx st' v = idx st v ∧ is_Some (indices st' !! v).
Proof.
  intros (F1 & _) Hv. destruct (F1 v Hv) as [Hi _]. unfold idx. rewrite Hi. done.
Qed.

Lemma tarjan_frame_low st st' v :
  tarjan_frame None st st' → is_Some (indices st !! v) → low st' v = low st v.
Proof.
  intros (F1 & _) Hv. destruct (F1 v Hv) as [_ Hl]. unfold low. by rewrite Hl.
Qed.

Lemma tarjan_frame_low_other node st st' v :
  tarjan_frame (Some node) st st' → is_Some (indices st !! v) → v ≠ node →
  low st' v = low st v.
Proof.
  intros (F1 & _) Hv Hne. destruct (F1 v Hv) as [_ Hl]. unfold low.
  rewrite Hl; [done|]. congruence.
Qed.

Lemma tarjan_inv_on_stack st v :
  tarjan_inv st → v ∈ stack st → is_Some (indices st !! v).
Proof.
  intros (_ & _ & I3 & _) Hv. apply I3, elem_of_app. by left.
Qed.

Lemma tarjan_inv_in_sccs st v :
  tarjan_inv st → v ∈ concat (sccs st) → is_Some (indices st !! v).
Proof.
  intros (_ & _ & I3 & _) Hv. apply I3, elem_of_app. by right.
Qed.

Lemma tarjan_inv_low st v :
  tarjan_inv st → v ∈ stack st →
  low st v ≤ idx st v ∧ ∃ w, w ∈ stack st ∧ idx st w = low st v ∧ reachable g v w.
Proof. intros (_ & _ & _ & _ & _ & I6 & _). apply I6. Qed.

(** An accounted edge stays accounted while the search goes on. *)
Lemma edge_seen_frame node st st' x y :
  tarjan_inv st → tarjan_frame node st st' → is_Some (indices st !! x) →
  edge_seen st x y → edge_seen st' x y.
Proof.
  intros Hinv Hfr Hx [Hy|[Hy Hle]].
  - left. destruct Hfr as (_ & _ & _ & (new & ->) & _). rewrite concat_app.
    apply elem_of_app. by left.
  - right. destruct (tarjan_frame_idx _ _ _ y Hfr (tarjan_inv_on_stack _ _ Hinv Hy)) as [-> _].
    destruct Hfr as (_ & _ & _ & _ & F5 & F6). split; [by apply F5|].
    specialize (F6 x Hx). lia.
Qed.

Lemma low_set_lowLink node x st v :
  low (set_lowLink node x st) v = if decide (v = node) then x else low st v.
Proof.
  unfold low, set_lowLink. simpl. destruct (decide (v = node)) as [->|].
  - by rewrite lookup_insert_eq.
  - by rewrite lookup_insert_ne.
Qed.

Lemma set_lowLink_inv node x st :
  tarjan_inv st → node ∈ stack st → x ≤ idx st node →
  (∃ w, w ∈ stack st ∧ idx st w = x ∧ reachable g node w) →
  tarjan_inv (set_lowLink node x st).
Proof.
  intros (I1 & I2 & I3 & I4 & I5 & I6 & I7) Hnode Hx Hw.
  split; [done|]. split; [done|]. split; [done|]. split; [done|]. split; [done|].
  split; [|done]. intros v Hv. rewrite low_set_lowLink.
  destruct (decide (v = node)) as [->|]; [done|]. by apply I6.
Qed.

Lemma set_lowLink_frame node x st :
  x ≤ low st node → tarjan_frame (Some node) st (set_lowLink node x st).
Proof.
  intros Hx. split; [|split; [done|split; [|split; [|split]]]].
  - intros v Hv. split; [done|]. intros Hne. simpl. rewrite lookup_insert_ne; [done|].
    congruence.
  - intros v Hn [i Hi]. simpl in Hi. congruence.
  - exists []. by rewrite app_nil_r.
  - done.
  - intros v _. rewrite low_set_lowLink. case_decide; [by subst|done].
Qed.

(** The nodes of [l] were searched below [node] and are still on the stack. *)
Definition segment_ok (st : TarjanState) (node : string) (l : list string) : Prop :=
  ∀ x, x ∈ l →
    low st x < idx st x ∧ reachable g node x ∧ low st node ≤ low st x
    ∧ ∀ y, edge g x y → edge_seen st x y.

Lemma segment_ok_frame node st st' l :
  tarjan_inv st → tarjan_frame (Some node) st st' →
  (∀ x, x ∈ l → x ∈ stack st) → node ∈ stack st → node ∉ l →
  segment_ok st node l → segment_ok st' node l.
Proof.
  intros Hinv Hfr Hl Hnode Hnl Hseg x Hx.
  destruct (Hseg x Hx) as (S1 & S2 & S3 & S4).
  pose proof (tarjan_inv_on_stack _ _ Hinv (Hl x Hx)) as Hxv.
  pose proof (tarjan_inv_on_stack _ _ Hinv Hnode) as Hnv.
  assert (x ≠ node) as Hne by (by intros ->).
  rewrite (tarjan_frame_low_other _ _ _ _ Hfr Hxv Hne).
  destruct (tarjan_frame_idx _ _ _ x Hfr Hxv) as [-> _].
  split; [done|]. split; [done|]. split.
  - destruct Hfr as (_ & _ & _ & _ & _ & F6). specialize (F6 node Hnv). lia.
  - intros y Hy. eapply edge_seen_frame; [done|done|done|]. by apply S4.
Qed.

(** From a node that is not the root of its component one gets down the
    stack: below the segment [seg], every node reaches [t] once the rest
    does. *)
Lemma stack_reaches st seg rest t :
  tarjan_inv st → stack st = seg ++ rest →
  (∀ x, x ∈ seg → low st x < idx st x) →
  (∀ x, x ∈ rest → reachable g x t) →
  ∀ x, x ∈ stack st → reachable g x t.
Proof.
  intros Hinv Hst Hseg Hrest.
  assert (∀ n x, idx st x < n → x ∈ stack st → reachable g x t) as Hind.
  { induction n as [|n IH]; intros x Hlt Hx; [lia|].
    pose proof Hx as Hx'. rewrite Hst in Hx'.
    apply elem_of_app in Hx' as [Hx'|Hx']; [|by apply Hrest].
    destruct (tarjan_inv_low _ _ Hinv Hx) as [_ (w & Hw & Hwi & Hxw)].
    specialize (Hseg x Hx'). apply (reachable_trans _ w); [exact Hxw|].
    apply IH; [lia|done]. }
  intros x Hx. by apply (Hind (S (idx st x))); [lia|].
Qed.

(** What one call of [strongConnect] on an unvisited [node] achieves. *)
Definition strongConnect_post (node : string) (st st' : TarjanState) : Prop :=
  tarjan_inv st' ∧ tarjan_frame None st st' ∧ is_Some (indices st' !! node)
  ∧ ((stack st' = stack st ∧ low st' node = idx st' node ∧ node ∈ concat (sccs st'))
     ∨ (∃ l, stack st' = l ++ node :: stack st ∧ stack st ≠ []
             ∧ segment_ok st' node (l ++ [node]))).

Lemma stack_segment_fresh st l node base :
  tarjan_inv st → stack st = l ++ node :: base → node ∈ stack st ∧ node ∉ l.
Proof.
  intros (I1 & _) Hl. split.
  - rewrite Hl. apply elem_of_app. right. by left.
  - apply NoDup_app in I1 as (I1 & _).
    rewrite Hl in I1. apply NoDup_app in I1 as (_ & Hd & _).
    intros Hin. apply (Hd node Hin). by left.
Qed.

(** Lowering the low link of a node on the stack to the index of a stack
    node it reaches. *)
Lemma set_lowLink_step node m st l :
  tarjan_inv st → node ∈ stack st → (∀ x, x ∈ l → x ∈ stack st) → node ∉ l →
  m ≤ low st node →
  (∃ w, w ∈ stack st ∧ idx st w = m ∧ reachable g node w) →
  segment_ok st node l →
  let st' := set_lowLink node m st in
  tarjan_inv st' ∧ tarjan_frame (Some node) st st' ∧ segment_ok st' node l.
Proof.
  intros Hinv Hnode Hl Hnl Hm Hw Hseg st'.
  destruct (tarjan_inv_low _ _ Hinv Hnode) as [Hle _].
  pose proof (set_lowLink_frame node m st Hm) as Hfr.
  split; [apply set_lowLink_inv; [done|done|lia|done]|]. split; [done|].
  by eapply segment_ok_frame.
Qed.

(** The loop over the successors of [node]: it returns, keeps the state
    well formed and accounts for every successor. *)
Lemma tarjan_neighbors_spec fuel rec node base :
  (∀ nb st, tarjan_inv st → indices st !! nb = None → nb ∈ univ →
     size (univ ∖ dom (indices st)) ≤ fuel →
     (∀ x, x ∈ stack st → reachable g x nb) →
     ∃ st', rec nb st = Some st' ∧ strongConnect_post nb st st') →
  ∀ nbrs st l (P : string → Prop),
    tarjan_inv st → stack st = l ++ node :: base →
    (∀ nb, nb ∈ nbrs → nb ∈ univ ∧ edge g node nb) →
    size (univ ∖ dom (indices st)) ≤ fuel →
    segment_ok st node l →
    (∀ x, x ∈ stack st → reachable g x node) →
    (∀ y, P y → edge_seen st node y) →
    ∃ st' l', tarjan_neighbors rec node nbrs st = Some st'
      ∧ tarjan_inv st' ∧ tarjan_frame (Some node) st st'
      ∧ stack st' = l' ++ node :: base
      ∧ segment_ok st' node l'
      ∧ (∀ x, x ∈ stack st' → reachable g x node)
      ∧ (∀ y, P y ∨ y ∈ nbrs → edge_seen st' node y).
Proof.
  intros Hrec nbrs.
  induction nbrs as [|nb rest IH]; intros st l P Hinv Hl Hnb Hsz Hseg Hreach Hseen; simpl.
  { exists st, l. split; [done|]. split; [done|]. split; [apply tarjan_frame_refl|].
    split; [done|]. split; [done|]. split; [done|].
    intros y [Hy|Hy]; [by apply Hseen|by apply elem_of_nil in Hy]. }
  destruct (stack_segment_fresh _ _ _ _ Hinv Hl) as [Hnode Hnl].
  pose proof (tarjan_inv_on_stack _ _ Hinv Hnode) as Hnv.
  assert (∀ nb, nb ∈ rest → nb ∈ univ ∧ edge g node nb) as Hrest.
  { intros x Hx. apply Hnb. by right. }
  destruct (Hnb nb) as [Hnbu Hedge]; [by left|].
  (* what remains to do once the state [st2] after this successor is known *)
  assert (∀ st2 l2,
            tarjan_inv st2 → tarjan_frame (Some node) st st2 →
            stack st2 = l2 ++ node :: base → segment_ok st2 node l2 →
            (∀ x, x ∈ stack st2 → reachable g x node) →
            edge_seen st2 node nb →
            ∃ st' l', tarjan_neighbors rec node rest st2 = Some st'
              ∧ tarjan_inv st' ∧ tarjan_frame (Some node) st st'
              ∧ stack st' = l' ++ node :: base
              ∧ segment_ok st' node l'
              ∧ (∀ x, x ∈ stack st' → reachable g x node)
              ∧ (∀ y, P y ∨ y ∈ nb :: rest → edge_seen st' node y)) as Hcont.
  { intros st2 l2 Hinv2 Hfr2 Hl2 Hseg2 Hreach2 Hnbseen.
    destruct (IH st2 l2 (λ y, P y ∨ y = nb) Hinv2 Hl2 Hrest) as
      (st3 & l3 & -> & Hinv3 & Hfr3 & Hl3 & Hseg3 & Hreach3 & Hseen3); [|done|done|..].
    - etrans; [|exact Hsz]. by apply (tarjan_frame_size (Some node)).
    - intros y [Hy| ->]; [|done]. eapply edge_seen_frame; [exact Hinv|exact Hfr2|done|].
      by apply Hseen.
    - exists st3, l3. split; [done|]. split; [done|].
      split; [by eapply tarjan_frame_trans|]. split; [done|]. split; [done|].
      split; [done|]. intros y [Hy|Hy]; apply Hseen3; [by left; left|].
      apply elem_of_cons in Hy as [->|Hy]; [left; by right|by right]. }
  destruct (decide (indices st !! nb = None)) as [Hnew|Hold].
  - destruct (Hrec nb st Hinv Hnew Hnbu Hsz) as (st' & -> & Hinv' & Hfr & Hvis & Hst).
    { intros x Hx. apply (reachable_trans _ node); [by apply Hreach|by apply reachable_edge]. }
    simpl.
    pose proof (tarjan_frame_low _ _ node Hfr Hnv) as Hlow'.
    destruct (tarjan_frame_idx _ _ _ node Hfr Hnv) as [Hidx' _].
    assert (node ∈ stack st') as Hnode'.
    { destruct Hfr as (_ & _ & _ & _ & F5 & _). by apply F5. }
    destruct (tarjan_inv_low _ _ Hinv' Hnode') as [Hle (w & Hw & Hwi & Hww)].
    assert (segment_ok st' node l) as Hseg'.
    { eapply segment_ok_frame; [exact Hinv|apply tarjan_frame_weaken, Hfr| |done|done|done].
      intros x Hx. rewrite Hl. apply elem_of_app. by left. }
    assert (∀ x, x ∈ l → x ∈ stack st') as Hlin.
    { intros x Hx. destruct Hfr as (_ & _ & _ & _ & F5 & _). apply F5.
      rewrite Hl. apply elem_of_app. by left. }
    destruct Hst as [(Hsame & Hroot & Hin)|(l2 & Hl2 & _ & Hseg2)].
    + (* the callee closed its component *)
      assert (low st' node `min` low st' nb = low st' node) as ->.
      { destruct Hfr as (_ & _ & F3 & _). specialize (F3 nb Hnew Hvis).
        destruct (proj1 (proj2 (proj2 (proj2 Hinv))) node Hnv) as [_ Hlt]. lia. }
      destruct (set_lowLink_step node (low st' node) st' l) as (Hinv2 & Hfr2 & Hseg2);
        [done|done|done|done|done|by exists w|done|].
      apply (Hcont _ l); [done| |by rewrite <- Hl, <- Hsame|done| |].
      * eapply tarjan_frame_trans; [apply tarjan_frame_weaken, Hfr|exact Hfr2].
      * simpl. rewrite Hsame. exact Hreach.
      * left. exact Hin.
    + (* its component is still open *)
      assert (stack st' = (l2 ++ [nb]) ++ stack st) as Hl2'.
      { rewrite Hl2. by rewrite <- app_assoc. }
      assert (stack st' = (l2 ++ nb :: l) ++ node :: base) as Hl'.
      { rewrite Hl2, Hl. by rewrite <- app_assoc. }
      assert (nb ∈ stack st') as Hnbs.
      { rewrite Hl2. apply elem_of_app. right. by left. }
      destruct (tarjan_inv_low _ _ Hinv' Hnbs) as [Hle' (w' & Hw' & Hwi' & Hww')].
      set (m := low st' node `min` low st' nb).
      assert (∀ x, x ∈ l2 ++ [nb] → x ≠ node ∧ x ∈ stack st') as Hfresh.
      { intros x Hx. split.
        - intros ->. destruct Hinv' as (I1 & _). apply NoDup_app in I1 as (I1 & _).
          rewrite Hl2' in I1. apply NoDup_app in I1 as (_ & Hd & _). by apply (Hd node).
        - rewrite Hl2'. apply elem_of_app. by left. }
      assert (∃ w, w ∈ stack st' ∧ idx st' w = m ∧ reachable g node w) as Hwit.
      { unfold m. destruct (Nat.min_spec (low st' node) (low st' nb)) as [[_ ->]|[_ ->]].
        - by exists w.
        - exists w'. split; [done|]. split; [done|].
          apply (reachable_trans _ nb); [by apply reachable_edge|done]. }
      destruct (set_lowLink_step node m st' l) as (Hinv2 & Hfr2 & Hsegl);
        [done|done|done|done|unfold m; lia|done|done|].
      set (st2 := set_lowLink node m st') in *.
      assert (∀ x, x ∈ l2 ++ [nb] →
                low st2 x = low st' x ∧ idx st2 x = idx st' x) as Hsame.
      { intros x Hx. destruct (Hfresh x Hx) as [Hne Hxs]. split; [|done].
        unfold st2. rewrite low_set_lowLink. by rewrite decide_False. }
      assert (low st2 node = m) as Hlown.
      { unfold st2. rewrite low_set_lowLink. by rewrite decide_True. }
      apply (Hcont st2 (l2 ++ nb :: l)); [done| |done| | |].
      * eapply tarjan_frame_trans; [apply tarjan_frame_weaken, Hfr|exact Hfr2].
      * intros x Hx.
        replace (l2 ++ nb :: l) with ((l2 ++ [nb]) ++ l) in Hx by (by rewrite <- app_assoc).
        apply elem_of_app in Hx as [Hx|Hx]; [|by apply Hsegl].
        destruct (Hseg2 x Hx) as (S1 & S2 & S3 & S4).
        destruct (Hsame x Hx) as [-> ->]. destruct (Hfresh x Hx) as [Hne Hxs].
        split; [done|]. split.
        { apply (reachable_trans _ nb); [by apply reachable_edge|done]. }
        split; [rewrite Hlown; unfold m; lia|].
        intros y Hy. eapply edge_seen_frame; [exact Hinv'|exact Hfr2| |by apply S4].
        by apply (tarjan_inv_on_stack st').
      * apply (stack_reaches st2 (l2 ++ [nb]) (stack st)); [done|done| |done].
        intros x Hx. destruct (Hsame x Hx) as [-> ->]. by apply Hseg2.
      * right. split; [done|]. rewrite Hlown. unfold m.
        change (idx st2 nb) with (idx st' nb). lia.
  - destruct (decide (nb ∈ onStack st)) as [Hon|Hoff].
    + assert (nb ∈ stack st) as Hnbs.
      { destruct Hinv as (_ & I2 & _). rewrite I2 in Hon. set_solver. }
      destruct (tarjan_inv_low _ _ Hinv Hnode) as [Hle (w & Hw & Hwi & Hww)].
      set (m := low st node `min` idx st nb).
      destruct (set_lowLink_step node m st l) as (Hinv2 & Hfr2 & Hsegl);
        [done|done| |done|unfold m; lia| |done|].
      { intros x Hx. rewrite Hl. apply elem_of_app. by left. }
      { unfold m. destruct (Nat.min_spec (low st node) (idx st nb)) as [[_ ->]|[_ ->]].
        - by exists w.
        - exists nb. split; [done|]. split; [done|]. by apply reachable_edge. }
      apply (Hcont _ l); [done|done|done|done|done|].
      right. split; [done|]. rewrite low_set_lowLink, decide_True by done.
      change (idx (set_lowLink node m st) nb) with (idx st nb). unfold m. lia.
    + apply (Hcont st l); [done|apply tarjan_frame_refl|done|done|done|].
      left. destruct Hinv as (_ & I2 & I3 & _).
      assert (is_Some (indices st !! nb)) as Hv.
      { destruct (indices st !! nb); [by eexists|done]. }
      apply I3, elem_of_app in Hv as [Hv|Hv]; [|done].
      destruct Hoff. rewrite I2. set_solver.
Qed.

(** The state on entry of [strongConnect]: [node] numbered and pushed. *)
Definition tarjan_push (node : string) (st : TarjanState) : TarjanState :=
  mkTarjan (<[node := index st]> (indices st)) (<[node := index st]> (lowLinks st))
           ({[node]} ∪ onStack st) (node :: stack st) (sccs st) (S (index st)).

Lemma idx_tarjan_push node st v :
  idx (tarjan_push node st) v = if decide (v = node) then index st else idx st v.
Proof.
  unfold idx. simpl. destruct (decide (v = node)) as [->|].
  - by rewrite lookup_insert_eq.
  - by rewrite lookup_insert_ne.
Qed.

Lemma low_tarjan_push node st v :
  low (tarjan_push node st) v = if decide (v = node) then index st else low st v.
Proof.
  unfold low. simpl. destruct (decide (v = node)) as [->|].
  - by rewrite lookup_insert_eq.
  - by rewrite lookup_insert_ne.
Qed.

Lemma tarjan_push_inv node st :
  tarjan_inv st → indices st !! node = None → node ∈ univ →
  tarjan_inv (tarjan_push node st).
Proof.
  intros (I1 & I2 & I3 & I4 & I5 & I6 & I7 & I8 & I9) Hnew Hu.
  assert (node ∉ stack st ++ concat (sccs st)) as Hfresh.
  { intros Hin. apply I3 in Hin. rewrite Hnew in Hin. by destruct Hin. }
  assert (∀ v, v ∈ stack st → v ≠ node) as Hne.
  { intros v Hv ->. apply Hfresh, elem_of_app. by left. }
  split; [|split; [|split; [|split; [|split; [|split; [|done]]]]]]; simpl.
  - by apply NoDup_cons.
  - rewrite I2. done.
  - intros v. destruct (decide (v = node)) as [->|Hv].
    + rewrite lookup_insert_eq. split; [left|by eexists].
    + rewrite lookup_insert_ne by done. rewrite I3. split; [by right|].
      by intros [->|?]%elem_of_cons.
  - intros v. rewrite idx_tarjan_push. destruct (decide (v = node)) as [->|Hv].
    + intros _. split; [done|lia].
    + rewrite lookup_insert_ne by done. intros Hs. destruct (I4 v Hs). split; [done|lia].
  - constructor.
    + eapply StronglySorted_ext; [|exact I5]. intros x y Hx Hy Hlt.
      rewrite !idx_tarjan_push, !decide_False by auto. done.
    + apply Forall_forall. intros w Hw. rewrite !idx_tarjan_push.
      rewrite decide_False by auto. rewrite decide_True by done.
      apply I4, I3, elem_of_app. by left.
  - intros v Hv. rewrite low_tarjan_push, idx_tarjan_push.
    destruct (decide (v = node)) as [->|Hvn].
    + split; [done|]. exists node. split; [left|].
      rewrite idx_tarjan_push. rewrite decide_True by done. split; [done|apply rtc_refl].
    + apply elem_of_cons in Hv as [?|Hv]; [done|].
      destruct (I6 v Hv) as [Hle (w & Hw & Hwi & Hww)]. split; [done|].
      exists w. split; [by right|]. rewrite idx_tarjan_push, decide_False by auto. done.
Qed.

Lemma tarjan_push_size node st :
  indices st !! node = None → node ∈ univ →
  size (univ ∖ dom (indices (tarjan_push node st))) < size (univ ∖ dom (indices st)).
Proof.
  intros Hnew Hu. apply subset_size. simpl. rewrite dom_insert_L.
  apply not_elem_of_dom in Hnew. set_solver.
Qed.

Lemma tarjan_push_frame node st :
  indices st !! node = None → tarjan_frame None st (tarjan_push node st).
Proof.
  intros Hnew. split; [|split; [simpl; lia|split; [|split; [|split]]]].
  - intros v [i Hv]. assert (v ≠ node) by congruence. simpl.
    rewrite !lookup_insert_ne by done. done.
  - intros v Hn Hs. rewrite idx_tarjan_push. case_decide; [done|].
    simpl in Hs. rewrite lookup_insert_ne in Hs by done. rewrite Hn in Hs. by destruct Hs.
  - exists []. by rewrite app_nil_r.
  - intros v Hv. by right.
  - intros v [i Hv]. rewrite low_tarjan_push. rewrite decide_False; [done|]. congruence.
Qed.

(** The state after the component of [node] has been popped. *)
Definition tarjan_pop (scc base : list string) (st : TarjanState) : TarjanState :=
  mkTarjan (indices st) (lowLinks st) (onStack st ∖ list_to_set scc) base
           (sccs st ++ [scc]) (index st).

Lemma successors_listed_before_snoc cs c :
  successors_listed_before cs →
  (∀ x y, x ∈ c → edge g x y → y ∈ concat cs ∨ y ∈ c) →
  successors_listed_before (cs ++ [c]).
Proof.
  intros Hcs Hc pre post Heq x y Hx Hxy.
  destruct post as [|p post _] using rev_ind.
  - rewrite app_nil_r in Heq. subst pre. rewrite concat_app in *. simpl in *.
    rewrite app_nil_r in *. apply elem_of_app in Hx as [Hx|Hx].
    + apply elem_of_app. left. by apply (Hcs cs [] (eq_sym (app_nil_r cs)) x y).
    + apply elem_of_app. by apply (Hc x y).
  - rewrite app_assoc in Heq. apply app_inj_tail in Heq as [Heq _].
    by apply (Hcs pre post Heq x y).
Qed.

Lemma tarjan_pop_inv node l base st :
  tarjan_inv st → stack st = l ++ node :: base →
  (∀ x y, x ∈ l ++ [node] → y ∈ l ++ [node] → reachable g x y) →
  (∀ x y, x ∈ l ++ [node] → edge g x y → y ∈ concat (sccs st) ∨ y ∈ l ++ [node]) →
  pop_scc node (stack st) (onStack st) []
    = Some (base, onStack st ∖ list_to_set (l ++ [node]), l ++ [node])
  ∧ tarjan_inv (tarjan_pop (l ++ [node]) base st).
Proof.
  intros (I1 & I2 & I3 & I4 & I5 & I6 & I7 & I8 & I9) Hl Hconn Hsucc.
  assert (NoDup (stack st)) as Hnd by (by apply NoDup_app in I1 as [? _]).
  split.
  - destruct (pop_scc_split node (stack st) (onStack st) []) as (pre & post & Hs & _ & ->).
    { rewrite Hl. apply elem_of_app. right. by left. }
    rewrite Hs in Hl, Hnd. apply NoDup_split_unique in Hl as [-> ->]; done.
  - assert (stack st ++ concat (sccs st)
            ≡ₚ base ++ concat (sccs st ++ [l ++ [node]])) as Hperm.
    { rewrite Hl, concat_app. simpl. rewrite app_nil_r. solve_Permutation. }
    split; [|split; [|split; [|split; [|split; [|split; [|split; [|split]]]]]]]; simpl.
    + by rewrite <- Hperm.
    + rewrite I2, Hl. rewrite Hl in Hnd.
      replace (l ++ node :: base) with ((l ++ [node]) ++ base) in *
        by (by rewrite <- app_assoc).
      apply NoDup_app in Hnd as (_ & Hdis & _).
      rewrite list_to_set_app_L. set_solver.
    + intros v. rewrite I3. by rewrite Hperm.
    + done.
    + rewrite Hl in I5.
      replace (l ++ node :: base) with ((l ++ [node]) ++ base) in I5
        by (by rewrite <- app_assoc).
      by apply StronglySorted_app_r in I5.
    + intros v Hv.
      assert (v ∈ stack st) as Hvs.
      { rewrite Hl. apply elem_of_app. right. by right. }
      destruct (I6 v Hvs) as [Hle (w & Hw & Hwi & Hww)]. split; [done|].
      exists w. split; [|done].
      rewrite Hl in Hw, I5.
      replace (l ++ node :: base) with ((l ++ [node]) ++ base) in Hw, I5
        by (by rewrite <- app_assoc).
      apply elem_of_app in Hw as [Hw|Hw]; [|done].
      pose proof (StronglySorted_app_cross _ _ _ _ _ I5 Hw Hv) as Hlt.
      change (idx st v < idx st w) in Hlt. lia.
    + apply Forall_app. split; [done|]. constructor; [|done]. by destruct l.
    + apply Forall_app. split; [done|]. constructor; [|done]. done.
    + by apply successors_listed_before_snoc.
Qed.

(** [strongConnect] returns on every unvisited node, given fuel for the nodes
    still unnumbered, and keeps the state well formed. *)
Lemma strongConnect_spec :
  closed g →
  ∀ fuel node st,
    tarjan_inv st → indices st !! node = None → node ∈ univ →
    size (univ ∖ dom (indices st)) ≤ fuel →
    (∀ x, x ∈ stack st → reachable g x node) →
    ∃ st', strongConnect g fuel node st = Some st' ∧ strongConnect_post node st st'.
Proof.
  intros Hclosed fuel.
  induction fuel as [|fuel IH]; intros node st Hinv Hnew Hu Hsz Hreach.
  { pose proof (tarjan_push_size node st Hnew Hu). lia. }
  simpl. change (mkTarjan (<[node := index st]> (indices st)) _ _ _ _ _)
    with (tarjan_push node st).
  pose proof (tarjan_push_inv node st Hinv Hnew Hu) as Hinv1.
  pose proof (tarjan_push_size node st Hnew Hu) as Hsz1.
  pose proof (tarjan_push_frame node st Hnew) as Hfr1.
  destruct (tarjan_neighbors_spec fuel (strongConnect g fuel) node (stack st) IH
              (getNeighbors g node) (tarjan_push node st) [] (λ _, False) Hinv1)
    as (st2 & l & -> & Hinv2 & Hfr2 & Hl & Hseg & Hreach2 & Hseen).
  { done. }
  { intros nb Hnb. split; [|done]. apply elem_of_list_to_set. by apply (Hclosed node). }
  { lia. }
  { by intros x ?%elem_of_nil. }
  { intros x [->|Hx]%elem_of_cons; [apply rtc_refl|by apply Hreach]. }
  { done. }
  simpl.
  assert (is_Some (indices (tarjan_push node st) !! node)) as Hv1.
  { simpl. rewrite lookup_insert_eq. by eexists. }
  destruct (tarjan_frame_idx _ _ _ node Hfr2 Hv1) as [Hidx2 Hv2].
  rewrite idx_tarjan_push, decide_True in Hidx2 by done.
  destruct (stack_segment_fresh _ _ _ _ Hinv2 Hl) as [Hnode2 Hnl].
  assert (tarjan_frame None st st2) as Hfr.
  { destruct Hfr1 as (A1 & A2 & A3 & A4 & A5 & A6).
    destruct Hfr2 as (B1 & B2 & B3 & (new & B4) & B5 & B6).
    assert (∀ v, is_Some (indices st !! v) → v ≠ node) as Hvn.
    { intros v Hv ->. rewrite Hnew in Hv. by destruct Hv. }
    assert (∀ v, is_Some (indices st !! v) →
              indices st2 !! v = indices st !! v ∧ lowLinks st2 !! v = lowLinks st !! v) as Hold.
    { intros v Hv. destruct (A1 v Hv) as [Ai Al].
      destruct (B1 v) as [Bi Bl]; [by rewrite Ai|].
      split; [congruence|]. rewrite Bl; [by apply Al|].
      intros [= ->]. by apply (Hvn node). }
    split; [|split; [simpl in *; lia|split; [|split; [|split]]]].
    - intros v Hv. destruct (Hold v Hv). done.
    - intros v Hn Hs. destruct (decide (v = node)) as [->|Hne]; [lia|].
      assert (indices (tarjan_push node st) !! v = None) as Hn1.
      { simpl. by rewrite lookup_insert_ne. }
      specialize (B3 v Hn1 Hs). simpl in B3. lia.
    - exists new. exact B4.
    - intros v Hv. apply B5. by right.
    - intros v Hv. destruct (Hold v Hv) as [_ Hlo]. unfold low. by rewrite Hlo. }
  assert (∀ x y, x ∈ l ++ [node] → edge g x y → edge_seen st2 x y) as Hedges.
  { intros x y [Hx| ->%list_elem_of_singleton]%elem_of_app Hxy.
    - by apply (Hseg x Hx).
    - apply Hseen. by right. }
  destruct (decide (low st2 node = idx st2 node)) as [Hroot|Hnot].
  - destruct (tarjan_pop_inv node l (stack st) st2 Hinv2 Hl) as [-> Hinv3].
    { intros x y Hx Hy. apply (reachable_trans _ node).
      - apply Hreach2. rewrite Hl.
        replace (l ++ node :: stack st) with ((l ++ [node]) ++ stack st)
          by (by rewrite <- app_assoc).
        apply elem_of_app. by left.
      - apply elem_of_app in Hy as [Hy| ->%list_elem_of_singleton]; [|apply rtc_refl].
        by apply (Hseg y Hy). }
    { intros x y Hx Hxy. destruct (Hedges x y Hx Hxy) as [Hy|[Hy Hle]]; [by left|right].
      rewrite Hl in Hy.
      replace (l ++ node :: stack st) with ((l ++ [node]) ++ stack st) in Hy
        by (by rewrite <- app_assoc).
      apply elem_of_app in Hy as [Hy|Hy]; [done|]. exfalso.
      assert (idx st2 y < idx st2 node) as Hlt.
      { destruct Hinv2 as (_ & _ & _ & _ & I5 & _). rewrite Hl in I5.
        apply StronglySorted_app_r, StronglySorted_inv in I5 as [_ I5].
        rewrite Forall_forall in I5. by apply I5. }
      assert (low st2 node ≤ low st2 x) as Hmono.
      { apply elem_of_app in Hx as [Hx| ->%list_elem_of_singleton]; [|done].
        by apply (Hseg x Hx). }
      lia. }
    simpl. eexists. split; [done|].
    split; [exact Hinv3|]. split; [|split; [exact Hv2|left]].
    + destruct Hfr as (A1 & A2 & A3 & (new & A4) & A5 & A6).
      split; [exact A1|]. split; [exact A2|]. split; [exact A3|].
      split; [|split; [|exact A6]].
      * exists (new ++ [l ++ [node]]). simpl. by rewrite A4, app_assoc.
      * intros v Hv. simpl. done.
    + split; [done|]. split; [done|]. simpl. rewrite concat_app. simpl.
      apply elem_of_app. right. rewrite app_nil_r. apply elem_of_app. right. by left.
  - exists st2. split; [done|]. split; [done|]. split; [done|]. split; [done|].
    right. exists l. split; [done|].
    destruct (tarjan_inv_low _ _ Hinv2 Hnode2) as [Hle (w & Hw & Hwi & _)].
    split.
    + rewrite Hl in Hw.
      destruct Hinv2 as (_ & _ & _ & _ & I5 & _). rewrite Hl in I5.
      apply elem_of_app in Hw as [Hw|Hw].
      * assert (node ∈ node :: stack st) as Hn by left.
        pose proof (StronglySorted_app_cross _ _ _ _ _ I5 Hw Hn) as Hlt.
        change (idx st2 node < idx st2 w) in Hlt. lia.
      * apply elem_of_cons in Hw as [->|Hw]; [lia|].
        intros Hempty. rewrite Hempty in Hw. by apply elem_of_nil in Hw.
    + intros x Hx. pose proof Hx as Hx'.
      apply elem_of_app in Hx as [Hx| ->%list_elem_of_singleton].
      * destruct (Hseg x Hx) as (S1 & S2 & S3 & S4). done.
      * split; [lia|]. split; [apply rtc_refl|]. split; [done|].
        intros y Hy. by apply Hedges.
Qed.

(** The loop over the roots. *)
Lemma tarjan_roots_spec :
  closed g →
  ∀ fuel nodes st,
    tarjan_inv st → stack st = [] → (∀ n, n ∈ nodes → n ∈ univ) → size univ ≤ fuel →
    ∃ st', tarjan_roots g fuel nodes st = Some st' ∧ tarjan_inv st' ∧ stack st' = []
      ∧ ∀ v, is_Some (indices st !! v) ∨ v ∈ nodes → is_Some (indices st' !! v).
Proof.
  intros Hclosed fuel nodes.
  induction nodes as [|node rest IH]; intros st Hinv Hst Hu Hsz; simpl.
  { exists st. split; [done|]. split; [done|]. split; [done|].
    intros v [Hv|Hv]; [done|by apply elem_of_nil in Hv]. }
  assert (∀ n, n ∈ rest → n ∈ univ) as Hrest by (intros n Hn; apply Hu; by right).
  destruct (decide (indices st !! node = None)) as [Hnew|Hold].
  - destruct (strongConnect_spec Hclosed fuel node st Hinv Hnew) as
      (st' & -> & Hinv' & Hfr & Hvis & Hcase).
    { apply Hu. by left. }
    { etrans; [|exact Hsz]. apply subseteq_size. set_solver. }
    { rewrite Hst. by intros x ?%elem_of_nil. }
    simpl.
    assert (stack st' = []) as Hst'.
    { destruct Hcase as [(-> & _)|(l & _ & Hne & _)]; done. }
    destruct (IH st' Hinv' Hst' Hrest Hsz) as (st2 & -> & Hinv2 & Hst2 & Hcov).
    exists st2. split; [done|]. split; [done|]. split; [done|].
    intros v [Hv|[->|Hv]%elem_of_cons]; apply Hcov; [left|by left|by right].
    by destruct (tarjan_frame_idx _ _ _ v Hfr Hv).
  - destruct (IH st Hinv Hst Hrest Hsz) as (st2 & -> & Hinv2 & Hst2 & Hcov).
    exists st2. split; [done|]. split; [done|]. split; [done|].
    intros v [Hv|[->|Hv]%elem_of_cons]; apply Hcov; [by left| |by right].
    left. destruct (indices st !! node); [by eexists|done].
Qed.

Lemma tarjan_initial_inv : tarjan_inv (mkTarjan ∅ ∅ ∅ [] [] 0).
Proof.
  split; [constructor|]. split; [done|]. split.
  { intros v. simpl. rewrite lookup_empty. split; [by intros []|by intros ?%elem_of_nil]. }
  split. { intros v. simpl. rewrite lookup_empty. by intros []. }
  split; [constructor|]. split; [by intros v ?%elem_of_nil|].
  split; [constructor|]. split; [constructor|].
  intros pre post Heq x y Hx. symmetry in Heq. apply app_eq_nil in Heq as [-> _].
  by apply elem_of_nil in Hx.
Qed.

(** The whole run: it returns with every node numbered, an empty stack and a
    well-formed state. *)
Lemma tarjan_run :
  closed g →
  ∃ st, tarjan_roots g (length (getNodes g)) (getNodes g) (mkTarjan ∅ ∅ ∅ [] [] 0) = Some st
    ∧ NoDup (concat (sccs st))
    ∧ (∀ v, v ∈ concat (sccs st) ↔ v ∈ getNodes g)
    ∧ Forall (λ scc, scc ≠ []) (sccs st)
    ∧ Forall (λ scc, ∀ x y, x ∈ scc → y ∈ scc → reachable g x y) (sccs st)
    ∧ successors_listed_before (sccs st).
Proof.
  intros Hclosed.
  destruct (tarjan_roots_spec Hclosed (length (getNodes g)) (getNodes g)
              (mkTarjan ∅ ∅ ∅ [] [] 0) tarjan_initial_inv) as (st & Hrun & Hinv & Hst & Hcov).
  { done. }
  { intros n Hn. by apply elem_of_list_to_set. }
  { apply size_list_to_set_le. }
  exists st. split; [done|].
  destruct Hinv as (I1 & I2 & I3 & I4 & I5 & I6 & I7 & I8 & I9).
  rewrite Hst in I1, I3. simpl in I1, I3.
  split; [done|]. split; [|done].
  intros v. rewrite <- I3. split.
  - intros Hv. destruct (I4 v Hv) as [Hu _]. by apply elem_of_list_to_set in Hu.
  - intros Hv. apply Hcov. by right.
Qed.

End TarjanFacts.

Lemma elem_of_concat {A} (x : A) (ls : list (list A)) :
  x ∈ concat ls ↔ ∃ l, l ∈ ls ∧ x ∈ l.
Proof.
  induction ls as [|l ls IH]; simpl.
  - split; [by intros ?%elem_of_nil|by intros (l & ?%elem_of_nil & _)].
  - rewrite elem_of_app, IH. split.
    + intros [Hx|(l' & Hl' & Hx)]; [exists l; split; [left|done]|exists l'; split; [by right|done]].
    + intros (l' & [->|Hl']%elem_of_cons & Hx); [by left|right; by exists l'].
Qed.

Lemma successors_closed_reachable {G : Type} `{WFG G} (g : G) (B : list string) x y :
  (∀ u v, u ∈ B → edge g u v → v ∈ B) → x ∈ B → reachable g x y → y ∈ B.
Proof.
  intros Hcl Hx Hxy. induction Hxy as [x|x z y Hxz _ IH]; [done|].
  apply IH. by apply (Hcl x).
Qed.

(** X28.  On a graph whose successors are nodes and whose node list has no
    repetition, [detectDeadlockTarjan] returns (the recursion of
    [strongConnect] never needs more depth than there are nodes), and its
    [sccs] split the nodes: listed one after the other they are a
    rearrangement of [getNodes], so every node is in exactly one component,
    and no component is empty. *)
Theorem detectDeadlockTarjan_partitions_nodes {G : Type} `{WFG G} (g : G) :
  closed g → NoDup (getNodes g) →
  ∃ r, detectDeadlockTarjan g = Some r
    ∧ concat (result_sccs r) ≡ₚ getNodes g
    ∧ Forall (λ scc, scc ≠ []) (result_sccs r).
Proof.
  intros Hclosed Hnd.
  destruct (tarjan_run g Hclosed) as (st & Hrun & Hnd' & Hmem & Hne & _).
  unfold detectDeadlockTarjan. rewrite Hrun. simpl. eexists. split; [done|]. simpl.
  split; [|done]. by apply NoDup_Permutation.
Qed.

Lemma detectDeadlockTarjan_partitions_nodes_witness :
  let g := graph_of [("T1", "T2"); ("T2", "T1"); ("T3", "T1")] in
  ∃ r, detectDeadlockTarjan g = Some r
    ∧ concat (result_sccs r) ≡ₚ getNodes g
    ∧ Forall (λ scc, scc ≠ []) (result_sccs r).
Proof.
  intros g. apply detectDeadlockTarjan_partitions_nodes.
  - apply closed_graph_of.
  - by vm_compute; repeat constructor; set_solver.
Defined.

(** X29.  On a graph whose successors are nodes, the components in [sccs]
    are exactly the strongly connected components: for a member [x] of a
    component, [y] is in the same component exactly when [x] reaches [y]
    and [y] reaches [x].  [deadlocks] holds exactly the components with
    more than one node, and [hasDeadlock] tells whether there is one. *)
Theorem detectDeadlockTarjan_components_exact {G : Type} `{WFG G} (g : G) :
  closed g →
  ∃ r, detectDeadlockTarjan g = Some r
    ∧ (∀ scc x y, scc ∈ result_sccs r → x ∈ scc →
         (y ∈ scc ↔ reachable g x y ∧ reachable g y x))
    ∧ (∀ scc, scc ∈ deadlocks r ↔ scc ∈ result_sccs r ∧ 1 < length scc)
    ∧ (hasDeadlock r = true ↔ ∃ scc, scc ∈ result_sccs r ∧ 1 < length scc).
Proof.
  intros Hclosed.
  destruct (tarjan_run g Hclosed) as (st & Hrun & Hnd & Hmem & Hne & Hconn & Hsucc).
  unfold detectDeadlockTarjan. rewrite Hrun. simpl. eexists. split; [done|]. simpl.
  split; [|split].
  - intros scc x y Hscc Hx. split.
    + intros Hy. rewrite Forall_forall in Hconn. split; by apply (Hconn scc).
    + intros [Hxy Hyx].
      apply list_elem_of_split in Hscc as (pre & post & Heq).
      assert (y ∈ concat (pre ++ [scc])) as Hy.
      { apply (successors_closed_reachable g _ x); [|..|done].
        - apply (Hsucc (pre ++ [scc]) post). by rewrite <- app_assoc.
        - rewrite concat_app. apply elem_of_app. right. simpl. by rewrite app_nil_r. }
      rewrite concat_app in Hy. simpl in Hy. rewrite app_nil_r in Hy.
      apply elem_of_app in Hy as [Hy|Hy]; [|done]. exfalso.
      assert (x ∈ concat pre) as Hx'.
      { apply (successors_closed_reachable g _ y); [|done|done].
        by apply (Hsucc pre (scc :: post)). }
      rewrite Heq in Hnd. rewrite concat_app in Hnd. simpl in Hnd.
      apply NoDup_app in Hnd as (_ & Hd & _). apply (Hd x Hx').
      apply elem_of_app. by left.
  - intros scc. rewrite list_elem_of_filter. tauto.
  - rewrite bool_decide_eq_true. split.
    + intros Hlen. destruct (filter _ (sccs st)) as [|c cs] eqn:Hf; [simpl in Hlen; lia|].
      assert (c ∈ filter (λ scc, 1 < length scc) (sccs st)) as Hc by (rewrite Hf; left).
      apply list_elem_of_filter in Hc as [? ?]. by exists c.
    + intros (c & Hc & Hlen).
      assert (c ∈ filter (λ scc, 1 < length scc) (sccs st)) as Hin
        by (by apply list_elem_of_filter).
      destruct (filter _ (sccs st)); [by apply elem_of_nil in Hin|simpl; lia].
Qed.

Lemma detectDeadlockTarjan_components_exact_witness :
  let g := graph_of [("T1", "T2"); ("T2", "T1"); ("T3", "T1")] in
  ∃ r, detectDeadlockTarjan g = Some r
    ∧ (∀ scc x y, scc ∈ result_sccs r → x ∈ scc →
         (y ∈ scc ↔ reachable g x y ∧ reachable g y x))
    ∧ (∀ scc, scc ∈ deadlocks r ↔ scc ∈ result_sccs r ∧ 1 < length scc)
    ∧ (hasDeadlock r = true ↔ ∃ scc, scc ∈ result_sccs r ∧ 1 < length scc).
Proof.
  intros g. apply detectDeadlockTarjan_components_exact. apply closed_graph_of.
Defined.

(** X30.  [sccs] is in reverse topological order: every successor of a
    member of a component lies in that component or in one listed before
    it. *)
Theorem detectDeadlockTarjan_successors_listed_before {G : Type} `{WFG G} (g : G) :
  closed g →
  ∃ r, detectDeadlockTarjan g = Some r
    ∧ ∀ pre scc post x y,
        result_sccs r = pre ++ scc :: post → x ∈ scc → edge g x y →
        y ∈ scc ∨ ∃ scc', scc' ∈ pre ∧ y ∈ scc'.
Proof.
  intros Hclosed.
  destruct (tarjan_run g Hclosed) as (st & Hrun & _ & _ & _ & _ & Hsucc).
  unfold detectDeadlockTarjan. rewrite Hrun. simpl. eexists. split; [done|]. simpl.
  intros pre scc post x y Heq Hx Hxy.
  assert (y ∈ concat (pre ++ [scc])) as Hy.
  { apply (Hsucc (pre ++ [scc]) post) with x; [by rewrite <- app_assoc| |done].
    rewrite concat_app. apply elem_of_app. right. simpl. by rewrite app_nil_r. }
  rewrite concat_app in Hy. simpl in Hy. rewrite app_nil_r in Hy.
  apply elem_of_app in Hy as [Hy|Hy]; [right|by left].
  apply elem_of_concat in Hy as (c & Hc & Hy). by exists c.
Qed.

Lemma detectDeadlockTarjan_successors_listed_before_witness :
  let g := graph_of [("T1", "T2"); ("T2", "T1"); ("T3", "T1")] in
  ∃ r, detectDeadlockTarjan g = Some r
    ∧ ∀ pre scc post x y,
        result_sccs r = pre ++ scc :: post → x ∈ scc → edge g x y →
        y ∈ scc ∨ ∃ scc', scc' ∈ pre ∧ y ∈ scc'.
Proof.
  intros g. apply detectDeadlockTarjan_successors_listed_before. apply closed_graph_of.
Defined.


(* ===================================================================== *)
(** * Victim selection: membership and the fallback *)
(* ===================================================================== *)

(** [selectVictim] on a sequence of one entry: [slice(0, -1)] leaves nothing
    to choose from and the result is [undefined]; on a longer one the result
    is the record of one of its ids.  Of the sort, only that it rearranges
    its input is used. *)
Lemma selectVictim_result (cycle : option (list string)) (txs : list Transaction) :
  match cycle with
  | None | Some [] => selectVictim cycle txs = VictimNull
  | Some [_] => selectVictim cycle txs = VictimUndefined
  | Some c =>
      ∃ id, selectVictim cycle txs = VictimRecord id (find_tx txs id) ∧ id ∈ c
  end.
Proof.
  destruct cycle as [[|x [|y c]]|]; [done|done| |done].
  unfold selectVictim.
  set (victims := (λ nodeId, (nodeId, find_tx txs nodeId)) <$> drop_last (x :: y :: c)).
  destruct (last (sort_victims victims)) as [v|] eqn:Hlast.
  - apply last_Some_elem_of in Hlast. rewrite sort_victims_perm in Hlast.
    apply list_elem_of_fmap in Hlast as (id & -> & Hid). simpl.
    exists id. split; [done|].
    unfold drop_last in Hid. apply elem_of_take in Hid as (i & Hi & _).
    by eapply list_elem_of_lookup_2.
  - exfalso. apply last_None in Hlast.
    assert (length (sort_victims victims) = length victims) as Hl
      by by rewrite sort_victims_perm.
    rewrite Hlast in Hl. unfold victims, drop_last in Hl.
    rewrite length_fmap, length_take in Hl. simpl in *. lia.
Qed.

(** C7, as stated, fails for [selectVictim]: on the one-entry cycle [T1] it
    returns [undefined], which is neither a node of the cycle nor [null]. *)
Lemma C7_selectVictim_single_entry :
  let c := ["T1"] in
  let txs := [mkTransaction "T1" active [] None] in
  c ≠ []
  ∧ selectVictim (Some c) txs = VictimUndefined
  ∧ selectVictim (Some c) txs ≠ VictimNull
  ∧ ¬ ∃ id tx, selectVictim (Some c) txs = VictimRecord id tx ∧ id ∈ c.
Proof.
  split; [done|]. split; [reflexivity|]. split; [done|].
  by intros (id & tx & Heq & _).
Qed.

(** C7, amended: victim selection returns a node of the cycle.  The degree
    heuristic [selectVictimFromCycle] returns a member of every non-empty
    cycle it is given; the distance-sum heuristic [bfsVictimSelection]
    returns a member of the cycle that [dfsDetectCycle] found;
    [selectVictim] returns the record of an id of the cycle whenever the
    cycle has at least two entries, which is the closed form with the first
    node repeated at the end that it expects.  Each returns [null] only for
    an empty or absent cycle; on a one-entry sequence [selectVictim] returns
    [undefined]. *)
Theorem C7_victim_is_cycle_member :
  ∀ {G : Type} `{WFG G} (g : G),
    closed g →
    (∀ cycle : option (list string),
       match cycle with
       | None | Some [] => selectVictimFromCycle g cycle = None
       | Some c => ∃ v, selectVictimFromCycle g cycle = Some v ∧ v ∈ c
       end)
    ∧ (∃ cr r, dfsDetectCycle g = Some cr ∧ bfsVictimSelection g = Some r ∧
         match cycle cr with
         | None | Some [] => victim r = None
         | Some c => ∃ v, victim r = Some v ∧ v ∈ c
         end)
    ∧ (∀ (cycle : option (list string)) (txs : list Transaction),
         match cycle with
         | None | Some [] => selectVictim cycle txs = VictimNull
         | Some [_] => selectVictim cycle txs = VictimUndefined
         | Some c =>
             ∃ id, selectVictim cycle txs = VictimRecord id (find_tx txs id) ∧ id ∈ c
         end).
Proof.
  intros G HG g Hcl. split; [|split].
  - intros [[|x c]|]; [done| |done]. by apply selectVictimFromCycle_member.
  - destruct (dfsDetectCycle_correct g Hcl) as (cr & Hcr & _ & _).
    exists cr. unfold bfsVictimSelection. rewrite Hcr.
    cbn -[selectVictimFromCycle bfs_best].
    destruct (cycle cr) as [[|x c]|] eqn:Hc; [by eauto|..|by eauto].
    destruct (bfs_best_spec g (x :: c) None None Hcl) as (b & -> & _ & Hb).
    destruct Hb as (v & -> & Hv); [done|done|].
    cbn -[selectVictimFromCycle]. eexists. split; [done|]. split; [done|].
    cbn -[selectVictimFromCycle].
    destruct (decide (v = EmptyString)); [|by eauto].
    by apply selectVictimFromCycle_member.
  - apply selectVictim_result.
Qed.

Lemma C7_victim_witness :
  let g := graph_of [("T1", "T2"); ("T2", "T3"); ("T3", "T1"); ("T4", "T1")] in
  (∀ cycle : option (list string),
     match cycle with
     | None | Some [] => selectVictimFromCycle g cycle = None
     | Some c => ∃ v, selectVictimFromCycle g cycle = Some v ∧ v ∈ c
     end)
  ∧ (∃ cr r, dfsDetectCycle g = Some cr ∧ bfsVictimSelection g = Some r ∧
       match cycle cr with
       | None | Some [] => victim r = None
       | Some c => ∃ v, victim r = Some v ∧ v ∈ c
       end)
  ∧ (∀ (cycle : option (list string)) (txs : list Transaction),
       match cycle with
       | None | Some [] => selectVictim cycle txs = VictimNull
       | Some [_] => selectVictim cycle txs = VictimUndefined
       | Some c =>
           ∃ id, selectVictim cycle txs = VictimRecord id (find_tx txs id) ∧ id ∈ c
       end).
Proof.
  intros g. apply (C7_victim_is_cycle_member g). apply closed_graph_of.
Defined.




